(** * Municipal-Compliance: the zoning-document pipeline and its retrieval scorer

    A shallow embedding of the Supabase edge functions of the repository
    (reducto-parse, voyage-embed, mongo-upsert, orchestrate and the shared
    utilities), followed by the properties proved about them.

    Conventions of the embedding:
    - a JavaScript [number] is an IEEE-754 binary64 value, here Rocq's
      primitive [float] with the same operations ([+], [-], [*], [/], [sqrt],
      comparisons); integers that only count or index (chunk indices, page
      numbers, limits, HTTP status codes) are [Z] or [nat];
    - a JavaScript string is the [string] of its UTF-16 code units, each
      below U+0100; [\s], [\d], [\w], [trim] and case folding are those of
      JavaScript on these characters;
    - [undefined] / [null] / an absent JSON field is [None];
    - time ([Date.now()], [new Date().toISOString()]) is read from a clock,
      the n-th reading being [clock n] in epoch milliseconds;
    - an external service reached through [fetch] is a transition on an
      abstract world state. *)

From Stdlib Require Import Floats ZArith List String Ascii Bool Lia.
From Stdlib Require Import DecimalString Permutation Sorted.
Import ListNotations.

Set Warnings "-inexact-float".

(* ================================================================== *)
(** * Part I: the model *)
(* ================================================================== *)

(** ** JavaScript values and built-ins used by the functions *)
Module JS.

Definition number := float.

(** [ToBoolean] on a number: [0], [-0] and [NaN] are falsy. *)
Definition truthy (x : number) : bool := negb (is_zero x || is_nan x).

(** [x || d] on numbers. *)
Definition or_else (x d : number) : number := if truthy x then x else d.

(** [o || d] where [o] may be [undefined]. *)
Definition or_default (o : option number) (d : number) : number :=
match o with
| Some x => or_else x d
| None => d
end.

(** [a >= b] and [a < b]. *)
Definition ge (a b : number) : bool := (b <=? a)%float.
Definition lt (a b : number) : bool := (a <? b)%float.

(** [Math.round] on the exact value of a binary64 number: the integer
    nearest to [x], ties towards +infinity; integral values, infinities,
    zeros and NaN are returned unchanged, and a result of zero keeps the
    sign of [x]. *)
Definition SF_round (x : spec_float) : spec_float :=
match x with
| S754_finite s m e =>
    if (0 <=? e)%Z then x
    else
      let d := (2 ^ (- e))%Z in
      let v := cond_Zopp s (Zpos m) in
      match ((2 * v + d) / (2 * d))%Z with
      | Z0 => S754_zero s
      | n => binary_normalize prec emax n 0 false
      end
| _ => x
end.

Definition Math_round (x : number) : number := SF2Prim (SF_round (Prim2SF x)).

(** *** Characters and strings

    A string is the sequence of its UTF-16 code units, and a character
    of this development is a code unit below U+0100: [code c] is its
    number, so that the character of code 160 is U+00A0.  Text with a
    code unit from U+0100 on has no counterpart here. *)

Definition chars := list ascii.

Definition code (c : ascii) : nat := nat_of_ascii c.

(** [\s], which is also the white space that [trim] removes: of the
    characters below U+0100 these are TAB, LF, VT, FF, CR, SPACE and the
    no-break space U+00A0.  (The others, U+1680, U+2000 to U+200A,
    U+2028, U+2029, U+202F, U+205F, U+3000 and U+FEFF, lie above.) *)
Definition is_space (c : ascii) : bool :=
((9 <=? code c) && (code c <=? 13) || (code c =? 32) || (code c =? 160))%nat.

(** [\d]. *)
Definition is_digit (c : ascii) : bool := ((48 <=? code c) && (code c <=? 57))%nat.

Definition is_upper (c : ascii) : bool := ((65 <=? code c) && (code c <=? 90))%nat.
Definition is_lower (c : ascii) : bool := ((97 <=? code c) && (code c <=? 122))%nat.

(** [\w]. *)
Definition is_word (c : ascii) : bool :=
is_upper c || is_lower c || is_digit c || (code c =? 95)%nat.

Definition is_newline (c : ascii) : bool := (code c =? 10)%nat.

(** The capital letters below U+0100: A to Z, and U+00C0 to U+00DE
    without the multiplication sign U+00D7.  Each has its small letter
    32 places further. *)
Definition is_capital (c : ascii) : bool :=
(is_upper c || (192 <=? code c) && (code c <=? 222) && negb (code c =? 215))%nat.

Definition lower (c : ascii) : ascii :=
if is_capital c then ascii_of_nat (code c + 32) else c.

(** [String.prototype.toLowerCase]. *)
Definition toLowerCase (s : string) : string :=
string_of_list_ascii (map lower (list_ascii_of_string s)).

Fixpoint starts_with (p s : chars) : bool :=
match p, s with
| [], _ => true
| a :: p', b :: s' => Ascii.eqb a b && starts_with p' s'
| _ :: _, [] => false
end.

Fixpoint includes_chars (s sub : chars) : bool :=
starts_with sub s ||
match s with
| [] => false
| _ :: s' => includes_chars s' sub
end.

(** [String.prototype.includes]. *)
Definition includes (s sub : string) : bool :=
includes_chars (list_ascii_of_string s) (list_ascii_of_string sub).

Fixpoint drop_space (s : chars) : chars :=
match s with
| c :: s' => if is_space c then drop_space s' else s
| [] => []
end.

(** [String.prototype.trim]. *)
Definition trim_chars (s : chars) : chars := rev (drop_space (rev (drop_space s))).
Definition trim (s : string) : string :=
string_of_list_ascii (trim_chars (list_ascii_of_string s)).

(** A non-empty string is truthy. *)
Definition truthy_str (s : string) : bool :=
match s with
| EmptyString => false
| _ => true
end.

(** [a || b] on strings that may be [undefined]. *)
Definition or_str (a : option string) (b : option string) : option string :=
match a with
| Some s => if truthy_str s then a else b
| None => b
end.

(** Decimal rendering of an integer, as template literals render one. *)
Definition show_Z (z : Z) : string := NilZero.string_of_int (Z.to_int z).

(** *** Regular expressions

    The patterns of the source are sequences of atoms; none has a group
    or an alternation.  Quantifiers are greedy and give back characters
    on failure, as in JavaScript. *)
Inductive atom : Type :=
| Chr (c : ascii)                     (* a literal character *)
| Cls (p : ascii -> bool)             (* a character class *)
| Many (min : nat) (p : ascii -> bool) (* class{min,}: [+] is [Many 1] *)
| WordB.                              (* \b *)

Definition regex := list atom.

Definition chr_eq (icase : bool) (c x : ascii) : bool :=
if icase then Ascii.eqb (lower c) (lower x) else Ascii.eqb c x.

Definition is_word_opt (o : option ascii) : bool :=
match o with
| Some c => is_word c
| None => false
end.

(** [match_here icase r prev s]: the match of [r] at the head of [s]
    ([prev] is the character before it); the result is the last
    character consumed and the rest of the input. *)
Fixpoint match_here (icase : bool) (r : regex) (prev : option ascii) (s : chars)
  {struct r} : option (option ascii * chars) :=
match r with
| [] => Some (prev, s)
| Chr c :: r' =>
    match s with
    | x :: s' => if chr_eq icase c x then match_here icase r' (Some x) s' else None
    | [] => None
    end
| Cls p :: r' =>
    match s with
    | x :: s' => if p x then match_here icase r' (Some x) s' else None
    | [] => None
    end
| Many min p :: r' =>
    (fix many (n : nat) (prev : option ascii) (s : chars) {struct s} :=
       let stop := if (min <=? n)%nat then match_here icase r' prev s else None in
       match s with
       | x :: s' =>
           if p x then
             match many (S n) (Some x) s' with
             | Some res => Some res
             | None => stop
             end
           else stop
       | [] => stop
       end) 0%nat prev s
| WordB :: r' =>
    if xorb (is_word_opt prev) (is_word_opt (hd_error s))
    then match_here icase r' prev s else None
end.

(** [String.prototype.replace] with a global pattern and a replacement
    text without [$]: scan left to right, replace each match, resume
    after it. *)
Fixpoint replace_from (fuel : nat) (icase : bool) (r : regex) (by_ : chars)
  (prev : option ascii) (s : chars) : chars :=
match fuel with
| O => s
| S fuel' =>
    match match_here icase r prev s with
    | Some (prev', rest) =>
        if (List.length rest <? List.length s)%nat
        then by_ ++ replace_from fuel' icase r by_ prev' rest
        else (* an empty match: replace, then step over one character *)
          match s with
          | x :: s' => by_ ++ x :: replace_from fuel' icase r by_ (Some x) s'
          | [] => by_
          end
    | None =>
        match s with
        | x :: s' => x :: replace_from fuel' icase r by_ (Some x) s'
        | [] => []
        end
    end
end.

Definition replace_all (icase : bool) (r : regex) (by_ : string) (s : string) : string :=
let cs := list_ascii_of_string s in
string_of_list_ascii
  (replace_from (S (List.length cs)) icase r (list_ascii_of_string by_) None cs).

(** [String.prototype.split] with a pattern that matches no empty
    string: the pieces between successive matches, empty ones kept. *)
Fixpoint split_from (fuel : nat) (r : regex) (prev : option ascii) (piece : chars)
  (s : chars) : list chars :=
match fuel with
| O => [rev piece ++ s]
| S fuel' =>
    match s with
    | [] => [rev piece]
    | x :: s' =>
        match match_here false r prev s with
        | Some (prev', rest) =>
            if (List.length rest <? List.length s)%nat
            then rev piece :: split_from fuel' r prev' [] rest
            else split_from fuel' r (Some x) (x :: piece) s'
        | None => split_from fuel' r (Some x) (x :: piece) s'
        end
    end
end.

Definition split_re (r : regex) (s : string) : list string :=
let cs := list_ascii_of_string s in
map string_of_list_ascii (split_from (S (List.length cs)) r None [] cs).

(** [String.prototype.split] on one separator character, and [join]. *)
Fixpoint split_chr (sep : ascii) (piece : chars) (s : chars) : list chars :=
match s with
| [] => [rev piece]
| x :: s' =>
    if Ascii.eqb x sep then rev piece :: split_chr sep [] s'
    else split_chr sep (x :: piece) s'
end.

Definition split_on (sep : ascii) (s : string) : list string :=
map string_of_list_ascii (split_chr sep [] (list_ascii_of_string s)).

Fixpoint join (sep : string) (l : list string) : string :=
match l with
| [] => EmptyString
| [x] => x
| x :: l' => (x ++ sep ++ join sep l')%string
end.

(** [Array.prototype.slice(0, end)] on an integer [end]: a negative
    [end] counts from the end of the array. *)
Definition slice0 {A} (l : list A) (end_ : Z) : list A :=
if (end_ <? 0)%Z then firstn (Z.to_nat (Z.max (Z.of_nat (List.length l) + end_) 0)) l
else firstn (Z.to_nat end_) l.

(** [Array.prototype.sort(comparefn)].  The specification leaves the
    algorithm open but requires it to be stable and, for a consistent
    comparator, to return the sorted order; all such sorts agree then.
    The model is the stable insertion sort.  [comparefn x y] is a number;
    NaN counts as [+0]: [x] goes after [y] only when it is positive. *)
Section Sort.
Context {A : Type}.
Variable comparefn : A -> A -> number.

Fixpoint insert (x : A) (l : list A) : list A :=
match l with
| [] => [x]
| y :: l' => if (0 <? comparefn x y)%float then y :: insert x l' else x :: l
end.

Definition sort (l : list A) : list A := fold_right insert [] l.
End Sort.

End JS.

(** ** Effects: exceptions over a mutable state *)
Module Eff.

(** What [throw] carried: an [Error] with its message, or [null]. *)
Definition thrown := option string.

Inductive outcome (A : Type) : Type :=
| Ret (a : A)
| Throw (e : thrown).
Arguments Ret {A} a.
Arguments Throw {A} e.

(** A computation over the state [S].  The state reached is returned in
    both cases: an exception undoes no assignment. *)
Definition M (S A : Type) : Type := S -> outcome A * S.

Definition ret {S A} (a : A) : M S A := fun s => (Ret a, s).

Definition bind {S A B} (c : M S A) (k : A -> M S B) : M S B :=
fun s =>
  match c s with
  | (Ret a, s') => k a s'
  | (Throw e, s') => (Throw e, s')
  end.

(** [throw new Error(msg)]. *)
Definition throw {S A} (msg : string) : M S A := fun s => (Throw (Some msg), s).

(** [throw v] for a value that may be [null]. *)
Definition throw_value {S A} (e : thrown) : M S A := fun s => (Throw e, s).

(** [try { c } catch (error) { h error }]. *)
Definition try_catch {S A} (c : M S A) (h : thrown -> M S A) : M S A :=
fun s =>
  match c s with
  | (Ret a, s') => (Ret a, s')
  | (Throw e, s') => h e s'
  end.

Definition get {S} : M S S := fun s => (Ret s, s).
Definition modify {S} (f : S -> S) : M S unit := fun s => (Ret tt, f s).

(** Run a transition of the state that yields a value. *)
Definition lift {S A} (f : S -> A * S) : M S A :=
fun s => let (a, s') := f s in (Ret a, s').

(** [(error as Error).message]: reading it off [null] is a [TypeError]. *)
Definition message {S} (e : thrown) : M S string :=
match e with
| Some msg => ret msg
| None => throw "Cannot read properties of null (reading 'message')"
end.

(** [for (const x of l) { body x }]. *)
Fixpoint for_each {S A} (l : list A) (body : A -> M S unit) : M S unit :=
match l with
| [] => ret tt
| x :: l' => bind (body x) (fun _ => for_each l' body)
end.

End Eff.

Declare Scope eff_scope.
Delimit Scope eff_scope with eff.
Notation "x <- c ;; k" := (Eff.bind c (fun x => k))
  (at level 61, c at next level, right associativity) : eff_scope.
Notation "c ;;; k" := (Eff.bind c (fun _ => k))
  (at level 61, right associativity) : eff_scope.

(** ** Shared types ([_shared/types.ts]) *)
Module Types.
Import JS.

(** A JSON value held in a [metadata] record.  A timestamp produced by
    [new Date().toISOString()] is kept as its epoch milliseconds. *)
Inductive jsval : Type :=
| VStr (s : string)
| VBool (b : bool)
| VNum (x : number)
| VTime (ms : Z).

(** A [Record<string, unknown>]: the fields in insertion order. *)
Definition obj := list (string * jsval).

Fixpoint obj_get (o : obj) (k : string) : option jsval :=
match o with
| [] => None
| (k', v) :: o' => if String.eqb k k' then Some v else obj_get o' k
end.

(** Assignment of a field: an existing key keeps its place. *)
Fixpoint obj_set (o : obj) (k : string) (v : jsval) : obj :=
match o with
| [] => [(k, v)]
| (k', v') :: o' => if String.eqb k k' then (k, v) :: o' else (k', v') :: obj_set o' k v
end.

(** [{...a, ...b}]. *)
Definition obj_spread (a b : obj) : obj :=
fold_left (fun o kv => obj_set o (fst kv) (snd kv)) b a.

(** The field as an optional one: [undefined] sets nothing that a JSON
    reader would see. *)
Definition obj_set_opt (o : obj) (k : string) (v : option jsval) : obj :=
match v with
| Some x => obj_set o k x
| None => o
end.

(** [{...o, k: v}] where [v] may be [undefined]: the field is assigned
    either way, and a field that is [undefined] is no field once the
    object is written as JSON. *)
Definition obj_remove (o : obj) (k : string) : obj :=
filter (fun kv => negb (String.eqb k (fst kv))) o.

Definition obj_assign (o : obj) (k : string) (v : option jsval) : obj :=
match v with
| Some x => obj_set o k x
| None => obj_remove o k
end.

Definition truthy_val (v : option jsval) : bool :=
match v with
| Some (VStr s) => truthy_str s
| Some (VBool b) => b
| Some (VNum x) => truthy x
| Some (VTime _) => true
| None => false
end.

Record BoundingBox : Type := {
  left : number;
  top : number;
  width : number;
  height : number
}.

Record ReductoChunk : Type := {
  text : string;
  page_number : Z;
  bbox : BoundingBox;
  chunk_index : Z;
  metadata : obj   (* section?, table_detected?, confidence?, ... *)
}.

Record FirecrawlDiscoveryResult : Type := {
  url : string;
  title : string;
  file_number : string;
  attachment_type : string;
  discovered_at : string;
  pdf_metadata : obj
}.

Record VoyageEmbeddingItem : Type := {
  embedding : list number;
  index : nat
}.

Record VoyageEmbeddingResponse : Type := {
  data : list VoyageEmbeddingItem;
  model : string;
  total_tokens : Z      (* usage.total_tokens *)
}.

Inductive JobStatus : Type :=
| pending | discovering | parsing | embedding_ | upserting | completed | failed.

Record PipelineJob : Type := {
  job_id : string;
  status : JobStatus;
  file_numbers : list string;
  discovered_pdfs : list FirecrawlDiscoveryResult;
  parsed_chunks : Z;
  embedded_chunks : Z;
  upserted_chunks : Z;
  started_at : Z;
  completed_at : option Z;
  error : option string
}.

(** [APIResponse<T>] with the HTTP status it is sent under. *)
Record APIResponse (T : Type) : Type := {
  success : bool;
  api_data : option T;
  api_error : option string;
  processing_time_ms : Z;
  timestamp : Z
}.
Arguments success {T} _.
Arguments api_data {T} _.
Arguments api_error {T} _.
Arguments processing_time_ms {T} _.
Arguments timestamp {T} _.

Record Response (T : Type) : Type := {
  http_status : Z;
  body : APIResponse T
}.
Arguments http_status {T} _.
Arguments body {T} _.

(** What [await fetch(...)] gives: a rejection, or a response whose body
    is read with [text()] or parsed with [json()]. *)
Inductive Fetched (B : Type) : Type :=
| Rejected (message : string)
| Http (ok : bool) (status : Z) (text_body : string) (json_body : string + B).
Arguments Rejected {B} message.
Arguments Http {B} ok status text_body json_body.

End Types.

(** ** Shared utilities ([_shared/utils.ts]) *)
Module Utils.
Import JS Eff Types.
Local Open Scope eff_scope.

(** [createResponse(data, error, startTime)]; [now1] and [now2] are the
    two clock readings it takes. *)
Definition createResponse {T} (data : option T) (error : option string)
  (startTime now1 now2 : Z) : Response T :=
let err := match error with
           | Some e => truthy_str e
           | None => false
           end in
{| http_status := if err then 500 else 200;
   body := {| success := negb err;
              api_data := data;
              api_error := if err then error else None;
              processing_time_ms := now1 - startTime;
              timestamp := now2 |} |}.

(** [chunkArray(array, size)].  The loop [for (i = 0; i < length; i +=
    size)] takes [length] steps at most when [size] is positive, which
    is the fuel; with [size = 0] the source does not terminate. *)
Fixpoint chunk_from {T} (fuel : nat) (array : list T) (size : nat) : list (list T) :=
match fuel with
| O => []
| S fuel' =>
    match array with
    | [] => []
    | _ => firstn size array :: chunk_from fuel' (skipn size array) size
    end
end.

Definition chunkArray {T} (array : list T) (size : nat) : list (list T) :=
chunk_from (List.length array) array size.

(** [retryWithBackoff(operation, maxRetries)]: the delays between the
    attempts only let time pass and are left out. *)
Fixpoint retry_loop {S T} (operation : M S T) (attempts : nat) (lastError : thrown)
  : M S T :=
match attempts with
| O => throw_value lastError
| S n => try_catch operation (fun e => retry_loop operation n e)
end.

Definition retryWithBackoff {S T} (operation : M S T) (maxRetries : nat) : M S T :=
retry_loop operation maxRetries None.

Definition default_maxRetries : nat := 3.

End Utils.

(** ** reducto-parse: the chunk normalizer *)
Module ReductoParse.
Import JS Types.
Local Open Scope string_scope.

(** The raw shapes of the extraction service's response. *)
Record RawBBox : Type := {
  bb_left : option number;
  bb_top : option number;
  bb_width : option number;
  bb_height : option number;
  bb_page : option Z
}.

Record Block : Type := {
  block_type : option string;
  block_content : option string;
  block_text : option string;
  block_bbox : option RawBBox
}.

Record ResultChunk : Type := {
  rc_content : option string;
  rc_blocks : option (list Block)
}.

(** A top-level chunk is a [Record<string, unknown>]: its [content] and
    [text] fields when they are strings, and its [JSON.stringify] text. *)
Record TopChunk : Type := {
  tc_content : option string;
  tc_text : option string;
  tc_json : string
}.

Record Result : Type := {
  r_chunks : option (list ResultChunk);
  r_blocks : option (list Block);
  r_markdown : option string;
  r_text : option string
}.

Record ReductoPipelineResponse : Type := {
  result : option Result;
  chunks : option (list TopChunk);
  markdown : option string;
  text_ : option string
}.

(** [/\s+/g], [/Page\s+\d+\s+of\s+\d+/gi], [/\n{3,}/g] and [/\n\n+/]. *)
Definition re_spaces : regex := [Many 1 is_space].
Definition re_page_footer : regex :=
[Chr "P"; Chr "a"; Chr "g"; Chr "e"; Many 1 is_space; Many 1 is_digit;
 Many 1 is_space; Chr "o"; Chr "f"; Many 1 is_space; Many 1 is_digit]%char.
Definition re_newlines3 : regex := [Many 3 is_newline].
Definition re_blank_line : regex := [Cls is_newline; Many 1 is_newline].

Definition newline : string := String (ascii_of_nat 10) EmptyString.

(** [cleanText(content)]. *)
Definition cleanText (content : string) : string :=
trim
  (replace_all false re_newlines3 (newline ++ newline)
     (replace_all true re_page_footer EmptyString
        (replace_all false re_spaces " " content))).

Section Normalizer.
(** The two heuristics that fill [metadata] are pattern tests on the raw
    text; the normalizer is modelled for any such pair of functions. *)
Variable detectSection : string -> option string.
Variable detectTableContent : string -> bool.

Definition chunk_metadata (section : option string) (table_detected : bool) : obj :=
(obj_set_opt [] "section" (option_map VStr section) ++ [("table_detected", VBool table_detected)])%list.

Definition full_page : BoundingBox :=
{| left := 0%float; top := 0%float; width := 612%float; height := 792%float |}.

Definition page_or_1 (p : option Z) : Z :=
match p with
| Some n => if (n =? 0)%Z then 1%Z else n
| None => 1%Z
end.

(** [createChunkFromBlock(block, index)]. *)
Definition createChunkFromBlock (block : Block) (index : nat) : ReductoChunk :=
let bboxData := block_bbox block in
let bbox :=
  match bboxData with
  | Some b => {| left := or_default (bb_left b) 0%float;
                 top := or_default (bb_top b) 0%float;
                 width := or_default (bb_width b) 612%float;
                 height := or_default (bb_height b) 792%float |}
  | None => full_page
  end in
let content :=
  match or_str (block_content block) (or_str (block_text block) (Some EmptyString)) with
  | Some s => s
  | None => EmptyString
  end in
let pageNumber := page_or_1 (match bboxData with Some b => bb_page b | None => None end) in
{| text := cleanText content;
   page_number := pageNumber;
   bbox := bbox;
   chunk_index := Z.of_nat index;
   metadata :=
     chunk_metadata (detectSection content)
       (match block_type block with
        | Some t => String.eqb t "table"
        | None => false
        end || detectTableContent content) |}.

(** [createChunkFromText(text, index)]. *)
Definition createChunkFromText (text : string) (index : nat) : ReductoChunk :=
{| Types.text := cleanText text;
   page_number := 1;
   bbox := full_page;
   chunk_index := Z.of_nat index;
   metadata := chunk_metadata (detectSection text) (detectTableContent text) |}.

(** The local variables [chunks] and [chunkIndex]. *)
Definition acc : Type := list ReductoChunk * nat.

Definition push_block (a : acc) (block : Block) : acc :=
((fst a ++ [createChunkFromBlock block (snd a)])%list, S (snd a)).

Definition push_text (a : acc) (text : string) : acc :=
((fst a ++ [createChunkFromText text (snd a)])%list, S (snd a)).

Definition nonempty {A} (o : option (list A)) : bool :=
match o with
| Some (_ :: _) => true
| _ => false
end.

Definition blocks_or_nil (o : option (list Block)) : list Block :=
match o with
| Some l => l
| None => []
end.

(** Format 1: [result.chunks[].blocks[]]. *)
Definition format1 (cs : list ResultChunk) : acc :=
fold_left
  (fun a chunk =>
     let a' := fold_left push_block (blocks_or_nil (rc_blocks chunk)) a in
     match rc_content chunk with
     | Some c => if truthy_str c && negb (nonempty (rc_blocks chunk)) then push_text a' c else a'
     | None => a'
     end)
  cs ([], O).

(** Format 2: [result.blocks[]]. *)
Definition format2 (bs : list Block) : acc := fold_left push_block bs ([], O).

(** Format 3: top-level [chunks]. *)
Definition format3 (cs : list TopChunk) : acc :=
fold_left
  (fun a chunk =>
     let text :=
       match or_str (tc_content chunk) (or_str (tc_text chunk) (Some (tc_json chunk))) with
       | Some s => s
       | None => EmptyString
       end in
     push_text a text)
  cs ([], O).

(** Format 4: markdown or text, one chunk per paragraph. *)
Definition format4 (text : string) : acc :=
fold_left
  (fun a para => if (10 <? String.length (trim para))%nat then push_text a (trim para) else a)
  (split_re re_blank_line text) ([], O).

(** [result?.markdown || result?.text || markdown || text]. *)
Definition markdown_or_text (response : ReductoPipelineResponse) : option string :=
let r_md := match result response with Some r => r_markdown r | None => None end in
let r_tx := match result response with Some r => r_text r | None => None end in
or_str r_md (or_str r_tx (or_str (markdown response) (text_ response))).

Definition truthy_opt (o : option string) : bool :=
match o with
| Some s => truthy_str s
| None => false
end.

(** Which branch of the [if ... else if] chain runs. *)
Inductive Format : Type := F1 | F2 | F3 | F4 | Unrecognized.

Definition selected (response : ReductoPipelineResponse) : Format :=
let r_ch := match result response with Some r => r_chunks r | None => None end in
let r_bl := match result response with Some r => r_blocks r | None => None end in
if nonempty r_ch then F1
else if nonempty r_bl then F2
else
  match chunks response with
  | Some _ => F3
  | None => if truthy_opt (markdown_or_text response) then F4 else Unrecognized
  end.

(** [transformPipelineResponse(response, sourceUrl, fileNumber)]; the
    last two arguments are not used by the source. *)
Definition transformPipelineResponse (response : ReductoPipelineResponse)
  : list ReductoChunk :=
let r_ch := match result response with Some r => r_chunks r | None => None end in
let r_bl := match result response with Some r => r_blocks r | None => None end in
if nonempty r_ch then fst (format1 (match r_ch with Some l => l | None => [] end))
else if nonempty r_bl then fst (format2 (blocks_or_nil r_bl))
else
  match chunks response with
  | Some cs => fst (format3 cs)
  | None =>
      if truthy_opt (markdown_or_text response)
      then fst (format4 (match markdown_or_text response with
                         | Some s => s
                         | None => EmptyString
                         end))
      else []
  end.

End Normalizer.
End ReductoParse.

(** ** voyage-embed: the embedding batcher *)
Module VoyageEmbed.
Import JS Eff Types Utils.
Local Open Scope string_scope.
Local Open Scope eff_scope.

Record EmbedRequest : Type := {
  req_chunks : option (list ReductoChunk);
  req_file_number : string;
  req_source_url : string;
  req_input_type : option string
}.

(** [{...originalChunk, embedding, file_number, source_url}]; the
    original chunk is [undefined] when the service's index is outside
    the batch. *)
Record EmbeddedChunk : Type := {
  original : option ReductoChunk;
  ec_embedding : list number;
  ec_file_number : string;
  ec_source_url : string
}.

Record EmbedResponse : Type := {
  chunks : list EmbeddedChunk;
  resp_total_tokens : Z;
  resp_model : string
}.

(** A request: a POST with its JSON body, or one of another method;
    an OPTIONS request is answered by [handleCors] before. *)
Inductive Request : Type :=
| NotPost
| Post (json : string + EmbedRequest).

Definition VOYAGE_BATCH_SIZE : nat := 128.
Definition VOYAGE_MODEL : string := "voyage-law-2".

(** [chunk.metadata.section] when it is truthy; the field is a string
    by its type, and a value of another kind is read as absent. *)
Definition section_of (m : obj) : option string :=
match obj_get m "section" with
| Some (VStr s) => if truthy_str s then Some s else None
| _ => None
end.

(** [prepareTextForEmbedding(chunk)]. *)
Definition prepareTextForEmbedding (chunk : ReductoChunk) : string :=
let parts1 :=
  match section_of (metadata chunk) with
  | Some s => ["[Section: " ++ s ++ "]"]
  | None => []
  end in
let page := "[Page " ++ show_Z (page_number chunk) ++ "]" in
let parts2 := (parts1 ++ [page])%list in
let parts3 :=
  if truthy_val (obj_get (metadata chunk) "table_detected")
  then (parts2 ++ ["[Contains tabular data]"])%list else parts2 in
join " " (parts3 ++ [text chunk])%list.

(** [getRequiredEnv(key)]. *)
Definition getRequiredEnv {S} (key : string) (value : option string) : M S string :=
match value with
| Some v => if truthy_str v then ret v
            else throw ("Missing required environment variable: " ++ key)
| None => throw ("Missing required environment variable: " ++ key)
end.

(** The table [zoningTerms]; [Object.entries] lists it in this order. *)
Definition zoningTerms : list (string * string) :=
[("rto", "RTO Residential Transit Oriented");
 ("rto-c", "RTO-C Residential Transit Oriented Commercial");
 ("rto-m", "RTO-M Residential Transit Oriented Mixed");
 ("nc", "NC Neighborhood Commercial");
 ("rm", "RM Residential Mixed");
 ("rh", "RH Residential House");
 ("c-3", "C-3 Downtown Commercial");
 ("soma", "South of Market SOMA");
 ("builder's remedy", "Builder's Remedy Housing Accountability Act HAA");
 ("housing element", "Housing Element General Plan");
 ("ceqa", "California Environmental Quality Act CEQA");
 ("eir", "Environmental Impact Report EIR")].

(** [new RegExp(`\\b${term}\\b`, "gi")]: no term of the table holds a
    character that is special in a pattern, so each stands for itself. *)
Definition term_regex (term : string) : regex :=
([WordB] ++ map Chr (list_ascii_of_string term) ++ [WordB])%list.

(** [enhanceQuery(query)]. *)
Definition enhanceQuery (query : string) : string :=
fold_left
  (fun enhancedQuery entry =>
     if includes enhancedQuery (fst entry)
     then replace_all true (term_regex (fst entry)) (snd entry) enhancedQuery
     else enhancedQuery)
  zoningTerms (toLowerCase query).

Section Serve.
(** The world outside the function: the clock and the embedding API
    ([voyage_api input model input_type] is one POST to it). *)
Variable W : Type.
Variable now : W -> Z * W.
Variable voyage_api :
  list string -> string -> string -> W -> Fetched VoyageEmbeddingResponse * W.
Variable VOYAGE_API_KEY : option string.

(** The handler's state: the world and the local variables
    [embeddedChunks] and [totalTokens]. *)
Record state : Type := {
  world : W;
  embeddedChunks : list EmbeddedChunk;
  totalTokens : Z
}.

Definition on_world {A} (f : W -> A * W) : M state A :=
lift (fun st =>
        let (a, w) := f (world st) in
        (a, {| world := w;
               embeddedChunks := embeddedChunks st;
               totalTokens := totalTokens st |})).

Definition respond {T} (data : option T) (error : option string) (startTime : Z)
  : M state (Response T) :=
n1 <- on_world now ;;
n2 <- on_world now ;;
ret (createResponse data error startTime n1 n2).

(** The operation passed to [retryWithBackoff]: one call of the API. *)
Definition embed_call (texts : list string) (input_type : string)
  : M state VoyageEmbeddingResponse :=
r <- on_world (voyage_api texts VOYAGE_MODEL input_type) ;;
match r with
| Rejected msg => throw msg
| Http ok status errorText json =>
    if negb ok
    then throw ("Voyage API error: " ++ show_Z status ++ " - " ++ errorText)
    else match json with
         | inr v => ret v
         | inl syntax_error => throw syntax_error
         end
end.

Definition push_embedded (batch : list ReductoChunk) (file_number source_url : string)
  (item : VoyageEmbeddingItem) : M state unit :=
modify (fun st =>
          {| world := world st;
             embeddedChunks :=
               (embeddedChunks st ++
                [{| original := nth_error batch (index item);
                    ec_embedding := embedding item;
                    ec_file_number := file_number;
                    ec_source_url := source_url |}])%list;
             totalTokens := totalTokens st |}).

Definition add_tokens (n : Z) : M state unit :=
modify (fun st =>
          {| world := world st;
             embeddedChunks := embeddedChunks st;
             totalTokens := (totalTokens st + n)%Z |}).

(** One turn of the batch loop. *)
Definition process_batch (file_number source_url input_type : string)
  (batch : list ReductoChunk) : M state unit :=
let texts := map prepareTextForEmbedding batch in
voyageResponse <- retryWithBackoff (embed_call texts input_type) default_maxRetries ;;
for_each (data voyageResponse) (push_embedded batch file_number source_url) ;;;
add_tokens (total_tokens voyageResponse).

(** The [try] block from the test of [body.chunks] on. *)
Definition serve_chunks (req : EmbedRequest) (startTime : Z)
  : M state (Response EmbedResponse) :=
match req_chunks req with
| None | Some [] => respond None (Some "Missing or empty chunks array") startTime
| Some chunks =>
    let input_type := match req_input_type req with
                      | Some t => t
                      | None => "document"
                      end in
    let batches := chunkArray chunks VOYAGE_BATCH_SIZE in
    for_each batches
      (process_batch (req_file_number req) (req_source_url req) input_type) ;;;
    st <- get ;;
    respond (Some {| chunks := embeddedChunks st;
                     resp_total_tokens := totalTokens st;
                     resp_model := VOYAGE_MODEL |}) None startTime
end.

(** The [try] block on a POST whose body parsed as [req]. *)
Definition serve_body (req : EmbedRequest) (startTime : Z)
  : M state (Response EmbedResponse) :=
_ <- getRequiredEnv "VOYAGE_API_KEY" VOYAGE_API_KEY ;;
serve_chunks req startTime.

(** The request handler, on a POST whose body parsed as [req]. *)
Definition serve (req : EmbedRequest) : M state (Response EmbedResponse) :=
startTime <- on_world now ;;
try_catch (serve_body req startTime)
  (fun e => msg <- message e ;; respond None (Some msg) startTime).

(** The [try] block on any request: the test of the method and
    [await req.json()] come between the key and the chunks. *)
Definition handle_body (req : Request) (startTime : Z)
  : M state (Response EmbedResponse) :=
_ <- getRequiredEnv "VOYAGE_API_KEY" VOYAGE_API_KEY ;;
match req with
| NotPost => respond None (Some "Method not allowed. Use POST.") startTime
| Post json =>
    body <- match json with
            | inr v => ret v
            | inl syntax_error => throw syntax_error
            end ;;
    serve_chunks body startTime
end.

(** The request handler. *)
Definition serve_request (req : Request) : M state (Response EmbedResponse) :=
startTime <- on_world now ;;
try_catch (handle_body req startTime)
  (fun e => msg <- message e ;; respond None (Some msg) startTime).

Definition initial (w : W) : state :=
{| world := w; embeddedChunks := []; totalTokens := 0 |}.

End Serve.
End VoyageEmbed.

(** ** mongo-upsert: quantizer, chunk store and retrieval scorer *)
Module MongoUpsert.
Import JS Eff Types Utils.
Local Open Scope string_scope.

Definition BATCH_SIZE : nat := 100.

(** *** The quantizer *)

(** The loop that finds [min] and [max], from [Infinity] and
    [-Infinity]. *)
Definition min_max (embedding : list number) : number * number :=
fold_left
  (fun mm value =>
     (if (value <? fst mm)%float then value else fst mm,
      if (snd mm <? value)%float then value else snd mm))
  embedding (infinity, neg_infinity).

(** [quantizeEmbedding(embedding)]. *)
Definition quantizeEmbedding (embedding : list number) : list number :=
let min := fst (min_max embedding) in
let max := snd (min_max embedding) in
let range := or_else (max - min)%float 1%float in
map (fun value =>
       let normalized := ((value - min) / range)%float in
       Math_round (normalized * 255 - 128)%float)
    embedding.

(** *** The documents of the collection *)

Record StoredDoc : Type := {
  _id : nat;
  text : string;
  embedding : option (list number);
  embedding_dimensions : option nat;
  file_number : string;
  source_url : string;
  page_number : Z;
  bbox : BoundingBox;
  chunk_index : Z;
  metadata : obj
}.

(** One element of [UpsertRequest.documents]. *)
Record UpsertDoc : Type := {
  u_text : string;
  u_embedding : list number;
  u_file_number : string;
  u_source_url : string;
  u_page_number : Z;
  u_bbox : BoundingBox;
  u_chunk_index : Z;
  u_metadata : option obj
}.

(** Equality of stored values, field by field (numbers bit for bit). *)
Definition number_eqb (x y : number) : bool := PrimFloat.Leibniz.eqb x y.

Fixpoint list_eqb {A} (eqb : A -> A -> bool) (l1 l2 : list A) : bool :=
match l1, l2 with
| [], [] => true
| x :: l1', y :: l2' => eqb x y && list_eqb eqb l1' l2'
| _, _ => false
end.

Definition option_eqb {A} (eqb : A -> A -> bool) (o1 o2 : option A) : bool :=
match o1, o2 with
| Some x, Some y => eqb x y
| None, None => true
| _, _ => false
end.

Definition jsval_eqb (v1 v2 : jsval) : bool :=
match v1, v2 with
| VStr a, VStr b => String.eqb a b
| VBool a, VBool b => Bool.eqb a b
| VNum a, VNum b => number_eqb a b
| VTime a, VTime b => (a =? b)%Z
| _, _ => false
end.

Definition obj_eqb (o1 o2 : obj) : bool :=
list_eqb (fun a b => String.eqb (fst a) (fst b) && jsval_eqb (snd a) (snd b)) o1 o2.

Definition bbox_eqb (a b : BoundingBox) : bool :=
number_eqb (left a) (left b) && number_eqb (top a) (top b) &&
number_eqb (width a) (width b) && number_eqb (height a) (height b).

Definition doc_eqb (a b : StoredDoc) : bool :=
(_id a =? _id b)%nat && String.eqb (text a) (text b) &&
option_eqb (list_eqb number_eqb) (embedding a) (embedding b) &&
option_eqb Nat.eqb (embedding_dimensions a) (embedding_dimensions b) &&
String.eqb (file_number a) (file_number b) &&
String.eqb (source_url a) (source_url b) &&
(page_number a =? page_number b)%Z && bbox_eqb (bbox a) (bbox b) &&
(chunk_index a =? chunk_index b)%Z && obj_eqb (metadata a) (metadata b).

(** *** The driver's operations, as MongoDB documents them

    A collection holds its documents in insertion order.  [updateOne]
    with [upsert: true] updates the first document that matches the
    filter and inserts one when none does; [bulkWrite] runs its
    operations in order and counts the insertions ([upsertedCount]) and
    the matched documents that the update changed ([modifiedCount]). *)
Record Collection : Type := {
  docs : list StoredDoc;
  next_id : nat
}.

(** The operation built for one document: the filter is its [source_url]
    and [chunk_index], the [$set] gives every other field. *)
Record UpdateOne : Type := {
  filter_source_url : string;
  filter_chunk_index : Z;
  set_fields : nat -> StoredDoc     (* the document with these fields, given its [_id] *)
}.

Definition matches (op : UpdateOne) (d : StoredDoc) : bool :=
String.eqb (source_url d) (filter_source_url op) &&
(chunk_index d =? filter_chunk_index op)%Z.

Record BulkWriteResult : Type := {
  upsertedCount : Z;
  modifiedCount : Z
}.

(** Update the first match in [l]; [None] when nothing matches. *)
Fixpoint update_first (op : UpdateOne) (l : list StoredDoc)
  : option (list StoredDoc * bool) :=
match l with
| [] => None
| d :: l' =>
    if matches op d
    then let d' := set_fields op (_id d) in
         Some (d' :: l', negb (doc_eqb d d'))
    else match update_first op l' with
         | Some (l'', changed) => Some (d :: l'', changed)
         | None => None
         end
end.

Definition updateOne (c : Collection) (op : UpdateOne) : Collection * BulkWriteResult :=
match update_first op (docs c) with
| Some (l, changed) =>
    ({| docs := l; next_id := next_id c |},
     {| upsertedCount := 0; modifiedCount := if changed then 1 else 0 |})
| None =>
    ({| docs := (docs c ++ [set_fields op (next_id c)])%list; next_id := S (next_id c) |},
     {| upsertedCount := 1; modifiedCount := 0 |})
end.

Definition bulkWrite (c : Collection) (ops : list UpdateOne) : Collection * BulkWriteResult :=
fold_left
  (fun cr op =>
     let (c', r) := updateOne (fst cr) op in
     (c', {| upsertedCount := (upsertedCount (snd cr) + upsertedCount r)%Z;
             modifiedCount := (modifiedCount (snd cr) + modifiedCount r)%Z |}))
  ops (c, {| upsertedCount := 0; modifiedCount := 0 |}).

(** *** [handleUpsert] *)

Record UpsertResponse : Type := {
  upserted_count : Z;
  modified_count : Z
}.

(** The [updateOne] operation prepared for [doc]; [embedded_at] is the
    clock reading taken while it is built. *)
Definition upsert_op (embedded_at : Z) (doc : UpsertDoc) : UpdateOne :=
{| filter_source_url := u_source_url doc;
   filter_chunk_index := u_chunk_index doc;
   set_fields := fun id =>
     {| _id := id;
        text := u_text doc;
        embedding := Some (quantizeEmbedding (u_embedding doc));
        embedding_dimensions := Some (List.length (u_embedding doc));
        file_number := u_file_number doc;
        source_url := u_source_url doc;
        page_number := u_page_number doc;
        bbox := u_bbox doc;
        chunk_index := u_chunk_index doc;
        metadata :=
          obj_set (match u_metadata doc with Some m => m | None => [] end)
                  "embedded_at" (VTime embedded_at) |} |}.

(** The state [handleUpsert] runs on: the collection and the number of
    clock readings taken so far. *)
Record Store : Type := {
  collection : Collection;
  ticks : nat
}.

Section Upsert.
(** [clock n] is the n-th reading of [new Date()]. *)
Variable clock : nat -> Z.

(** [batch.map(doc => ...)]: one clock reading per document. *)
Fixpoint bulk_ops (t : nat) (batch : list UpsertDoc) : list UpdateOne :=
match batch with
| [] => []
| doc :: batch' => upsert_op (clock t) doc :: bulk_ops (S t) batch'
end.

(** One turn of the batch loop. *)
Definition upsert_batch (sr : Store * UpsertResponse) (batch : list UpsertDoc)
  : Store * UpsertResponse :=
let bulkOps := bulk_ops (ticks (fst sr)) batch in
let (c, result) := bulkWrite (collection (fst sr)) bulkOps in
({| collection := c; ticks := ticks (fst sr) + List.length batch |},
 {| upserted_count := (upserted_count (snd sr) + upsertedCount result)%Z;
    modified_count := (modified_count (snd sr) + modifiedCount result)%Z |}).

(** [handleUpsert(request)]. *)
Definition handleUpsert (documents : list UpsertDoc) (s : Store) : Store * UpsertResponse :=
fold_left upsert_batch (chunkArray documents BATCH_SIZE)
  (s, {| upserted_count := 0; modified_count := 0 |}).

End Upsert.

(** *** [handleSearch] *)

(** A request as its TypeScript type has it: a field is a value of its
    type or is absent ([None]).  A field that is [null] in the JSON
    body is outside that type and has no counterpart here. *)
Record SearchRequest : Type := {
  query_embedding : option (list number);
  query_text : option string;
  file_numbers : option (list string);
  limit : option Z;
  min_score : option number
}.

Record VectorSearchResult : Type := {
  document : StoredDoc;
  score : number
}.

Record SearchResponse : Type := {
  results : list VectorSearchResult;
  total_found : nat
}.

(** The local function [cosineSim]; [!a] holds of [undefined] and
    [null] only, an empty array is truthy. *)
Definition cosineSim (a b : option (list number)) : number :=
match a, b with
| Some a, Some b =>
    if negb (List.length a =? List.length b)%nat then 0%float
    else
      let sums :=
        fold_left
          (fun acc xy =>
             let '(dot, magA, magB) := acc in
             (dot + fst xy * snd xy, magA + fst xy * fst xy, magB + snd xy * snd xy)%float)
          (combine a b) (0, 0, 0)%float in
      let '(dot, magA, magB) := sums in
      (dot / (sqrt magA * sqrt magB))%float
| _, _ => 0%float
end.

(** [collection.find(filter).limit(500).toArray()]. *)
Definition find_candidates (file_numbers : option (list string)) (c : Collection)
  : list StoredDoc :=
let in_files d :=
  match file_numbers with
  | Some (f :: fs) => existsb (String.eqb (file_number d)) (f :: fs)
  | _ => true
  end in
firstn 500
  (filter (fun d => in_files d && match embedding d with Some _ => true | None => false end)
     (docs c)).

(** [allDocs.map(score).filter(>= min_score).sort(desc).slice(0, limit)]. *)
Definition scored (query_embedding : list number) (allDocs : list StoredDoc)
  : list (StoredDoc * number) :=
map (fun doc => (doc, cosineSim (Some query_embedding) (embedding doc))) allDocs.

Definition by_score_desc (a b : StoredDoc * number) : number := (snd b - snd a)%float.

Definition rank (query_embedding : list number) (min_score : number) (limit : Z)
  (allDocs : list StoredDoc) : list (StoredDoc * number) :=
slice0
  (JS.sort by_score_desc
     (filter (fun doc => ge (snd doc) min_score) (scored query_embedding allDocs)))
  limit.

Definition to_result (doc : StoredDoc * number) : VectorSearchResult :=
{| document :=
     {| _id := _id (fst doc);
        text := text (fst doc);
        embedding := Some [];
        embedding_dimensions := None;
        file_number := file_number (fst doc);
        source_url := source_url (fst doc);
        page_number := page_number (fst doc);
        bbox := bbox (fst doc);
        chunk_index := chunk_index (fst doc);
        metadata := metadata (fst doc) |};
   score := snd doc |}.

Section Search.
(** [generateQueryEmbedding(text)]: the call to the embedding service
    for a text query, which returns a vector or throws. *)
Variable generateQueryEmbedding : string -> outcome (list number).

(** [handleSearch(request)] on the collection [c]: what the function
    computes once [getMongoClient] has connected and [find] has
    answered with the records of [c].  A failure of the connection or
    of the query, which the source lets through to the handler, is not
    part of this function; the statements about it are about the
    searches that return. *)
Definition handleSearch (request : SearchRequest) (c : Collection)
  : outcome SearchResponse :=
let limit := match limit request with Some n => n | None => 10%Z end in
let min_score := match min_score request with Some x => x | None => 0.7%float end in
let generated :=
  match query_embedding request, query_text request with
  | None, Some t =>
      if truthy_str t
      then match generateQueryEmbedding t with
           | Ret v => Ret (Some v)
           | Throw e => Throw e
           end
      else Ret None
  | q, _ => Ret q
  end in
match generated with
| Throw e => Throw e
| Ret None => Throw (Some "Either query_embedding or query_text must be provided")
| Ret (Some q) =>
    let allDocs := find_candidates (file_numbers request) c in
    let documents := rank q min_score limit allDocs in
    let results := map to_result documents in
    Ret {| results := results; total_found := List.length results |}
end.

End Search.
End MongoUpsert.

(** ** orchestrate: the pipeline orchestrator *)
Module Orchestrate.
Import JS Eff Types Utils.
Local Open Scope string_scope.
Local Open Scope eff_scope.

Record PipelineRequest : Type := {
  req_file_numbers : option (list string);
  req_search_terms : option (list string);
  req_max_credits : option Z;
  req_pdf_limit : option Z
}.

Record PipelineResponse : Type := {
  resp_job : option PipelineJob;
  resp_message : option string
}.

(** The bodies the four stage functions answer with (the [data] of
    their [APIResponse]); a field the orchestrator guards with [||] is
    optional. *)
Record DiscoverData : Type := { d_discovered_pdfs : option (list FirecrawlDiscoveryResult) }.
Record ParseData : Type := {
  p_chunks : option (list ReductoChunk);
  p_parsed_at : option string
}.
Record EmbedData : Type := { e_chunks : option (list VoyageEmbed.EmbeddedChunk) }.
Record UpsertData : Type := { u_upserted_count : option Z }.

Record DiscoverBody : Type := {
  db_file_numbers : option (list string);
  db_search_terms : list string;
  db_limit : Z
}.

(** An element of [allChunks]. *)
Record PipelineChunk : Type := {
  pc_text : string;
  pc_file_number : string;
  pc_source_url : string;
  pc_page_number : Z;
  pc_bbox : BoundingBox;
  pc_chunk_index : Z;
  pc_metadata : obj
}.

(** What a run did, in order: the assignments to [job.status] and the
    requests sent to the stage functions.  The log is not part of the
    source; it makes the order of the run observable. *)
Inductive Event : Type :=
| SetStatus (s : JobStatus)
| CallDiscover (b : DiscoverBody)
| CallParse (pdf_url file_number : string)
| CallEmbed (r : VoyageEmbed.EmbedRequest)
| CallUpsert (documents : list VoyageEmbed.EmbeddedChunk).

Definition default_search_terms : list string :=
["housing development"; "zoning amendment"; "environmental impact report"; "EIR";
 "residential project"].

(** [chunksBySource]: a [Map] iterates in insertion order. *)
Definition groups := list (string * list PipelineChunk).

Fixpoint group_add (m : groups) (key : string) (chunk : PipelineChunk) : groups :=
match m with
| [] => [(key, [chunk])]
| (k, cs) :: m' =>
    if String.eqb k key then (k, (cs ++ [chunk])%list) :: m'
    else (k, cs) :: group_add m' key chunk
end.

Definition group_key (chunk : PipelineChunk) : string :=
pc_file_number chunk ++ ":" ++ pc_source_url chunk.

Definition chunksBySource (allChunks : list PipelineChunk) : groups :=
fold_left (fun m chunk => group_add m (group_key chunk) chunk) allChunks [].

(** [const [fileNumber, ...sourceUrlParts] = key.split(":")] and
    [sourceUrlParts.join(":")]. *)
Definition split_key (key : string) : string * string :=
match split_on ":" key with
| fileNumber :: sourceUrlParts => (fileNumber, join ":" sourceUrlParts)
| [] => (EmptyString, EmptyString)
end.

Definition to_reducto (c : PipelineChunk) : ReductoChunk :=
{| text := pc_text c;
   page_number := pc_page_number c;
   bbox := pc_bbox c;
   chunk_index := pc_chunk_index c;
   metadata := pc_metadata c |}.

Section Pipeline.
(** The world outside the orchestrator: the clock, the job-id generator
    and the four stage functions it reaches with [fetch]. *)
Variable W : Type.
Variable now : W -> Z * W.
Variable generateJobId : W -> string * W.
Variable discover : DiscoverBody -> W -> Fetched (APIResponse DiscoverData) * W.
Variable parse : string -> string -> W -> Fetched (APIResponse ParseData) * W.
Variable embed : VoyageEmbed.EmbedRequest -> W -> Fetched (APIResponse EmbedData) * W.
Variable upsert :
  list VoyageEmbed.EmbeddedChunk -> W -> Fetched (APIResponse UpsertData) * W.

(** The state of a run: the world, the [job] object, the local arrays
    and the log. *)
Record state : Type := {
  world : W;
  job : PipelineJob;
  allChunks : list PipelineChunk;
  embeddedChunks : list VoyageEmbed.EmbeddedChunk;
  log : list Event
}.

Definition on_world {A} (f : W -> A * W) : M state A :=
lift (fun st =>
        let (a, w) := f (world st) in
        (a, {| world := w; job := job st; allChunks := allChunks st;
               embeddedChunks := embeddedChunks st; log := log st |})).

Definition emit (e : Event) : M state unit :=
modify (fun st =>
          {| world := world st; job := job st; allChunks := allChunks st;
             embeddedChunks := embeddedChunks st; log := (log st ++ [e])%list |}).

Definition update_job (f : PipelineJob -> PipelineJob) : M state unit :=
modify (fun st =>
          {| world := world st; job := f (job st); allChunks := allChunks st;
             embeddedChunks := embeddedChunks st; log := log st |}).

Definition with_status (s : JobStatus) (j : PipelineJob) : PipelineJob :=
{| job_id := job_id j; status := s; file_numbers := file_numbers j;
   discovered_pdfs := discovered_pdfs j; parsed_chunks := parsed_chunks j;
   embedded_chunks := embedded_chunks j; upserted_chunks := upserted_chunks j;
   started_at := started_at j; completed_at := completed_at j; error := error j |}.

Definition with_discovered (l : list FirecrawlDiscoveryResult) (j : PipelineJob)
  : PipelineJob :=
{| job_id := job_id j; status := status j; file_numbers := file_numbers j;
   discovered_pdfs := l; parsed_chunks := parsed_chunks j;
   embedded_chunks := embedded_chunks j; upserted_chunks := upserted_chunks j;
   started_at := started_at j; completed_at := completed_at j; error := error j |}.

Definition with_parsed (n : Z) (j : PipelineJob) : PipelineJob :=
{| job_id := job_id j; status := status j; file_numbers := file_numbers j;
   discovered_pdfs := discovered_pdfs j; parsed_chunks := n;
   embedded_chunks := embedded_chunks j; upserted_chunks := upserted_chunks j;
   started_at := started_at j; completed_at := completed_at j; error := error j |}.

Definition with_embedded (n : Z) (j : PipelineJob) : PipelineJob :=
{| job_id := job_id j; status := status j; file_numbers := file_numbers j;
   discovered_pdfs := discovered_pdfs j; parsed_chunks := parsed_chunks j;
   embedded_chunks := n; upserted_chunks := upserted_chunks j;
   started_at := started_at j; completed_at := completed_at j; error := error j |}.

Definition with_upserted (n : Z) (j : PipelineJob) : PipelineJob :=
{| job_id := job_id j; status := status j; file_numbers := file_numbers j;
   discovered_pdfs := discovered_pdfs j; parsed_chunks := parsed_chunks j;
   embedded_chunks := embedded_chunks j; upserted_chunks := n;
   started_at := started_at j; completed_at := completed_at j; error := error j |}.

Definition with_completed_at (t : Z) (j : PipelineJob) : PipelineJob :=
{| job_id := job_id j; status := status j; file_numbers := file_numbers j;
   discovered_pdfs := discovered_pdfs j; parsed_chunks := parsed_chunks j;
   embedded_chunks := embedded_chunks j; upserted_chunks := upserted_chunks j;
   started_at := started_at j; completed_at := Some t; error := error j |}.

Definition with_error (msg : string) (j : PipelineJob) : PipelineJob :=
{| job_id := job_id j; status := status j; file_numbers := file_numbers j;
   discovered_pdfs := discovered_pdfs j; parsed_chunks := parsed_chunks j;
   embedded_chunks := embedded_chunks j; upserted_chunks := upserted_chunks j;
   started_at := started_at j; completed_at := completed_at j; error := Some msg |}.

(** [job.status = s]. *)
Definition set_status (s : JobStatus) : M state unit :=
update_job (with_status s) ;;; emit (SetStatus s).

(** [job.completed_at = new Date().toISOString()]. *)
Definition stamp_completed : M state unit :=
t <- on_world now ;; update_job (with_completed_at t).

(** [createResponse({ job, message }, error, startTime)]: the response
    holds the [job] object as it is when the handler returns. *)
Definition respond (message : option string) (error : option string) (startTime : Z)
  : M state (Response PipelineResponse) :=
n1 <- on_world now ;;
n2 <- on_world now ;;
st <- get ;;
ret (createResponse (Some {| resp_job := Some (job st); resp_message := message |})
       error startTime n1 n2).

(** [await response.json()]. *)
Definition read_json {B} (json : string + B) : M state B :=
match json with
| inr v => ret v
| inl syntax_error => throw syntax_error
end.

(** Step 2, one PDF. *)
Definition parse_pdf (pdf : FirecrawlDiscoveryResult) : M state unit :=
emit (CallParse (url pdf) (file_number pdf)) ;;;
r <- on_world (parse (url pdf) (file_number pdf)) ;;
match r with
| Rejected msg => throw msg
| Http ok _ _ json =>
    if negb ok then ret tt      (* logged; [continue] *)
    else
      parseResult <- read_json json ;;
      let chunks :=
        match api_data parseResult with
        | Some d => match p_chunks d with Some l => l | None => [] end
        | None => []
        end in
      let parsed_at :=
        match api_data parseResult with
        | Some d => p_parsed_at d
        | None => None
        end in
      let pushed :=
        map (fun chunk =>
               {| pc_text := text chunk;
                  pc_file_number := file_number pdf;
                  pc_source_url := url pdf;
                  pc_page_number := page_number chunk;
                  pc_bbox := bbox chunk;
                  pc_chunk_index := chunk_index chunk;
                  pc_metadata :=
                    obj_assign
                      (obj_set (metadata chunk) "discovered_at" (VStr (discovered_at pdf)))
                      "parsed_at" (option_map VStr parsed_at) |})
            chunks in
      modify (fun st =>
                {| world := world st; job := job st;
                   allChunks := (allChunks st ++ pushed)%list;
                   embeddedChunks := embeddedChunks st; log := log st |}) ;;;
      st <- get ;;
      update_job (with_parsed (Z.of_nat (List.length (allChunks st))))
end.

(** Step 3, one source group. *)
Definition embed_group (group : string * list PipelineChunk) : M state unit :=
let (fileNumber, sourceUrl) := split_key (fst group) in
let request :=
  {| VoyageEmbed.req_chunks := Some (map to_reducto (snd group));
     VoyageEmbed.req_file_number := fileNumber;
     VoyageEmbed.req_source_url := sourceUrl;
     VoyageEmbed.req_input_type := None |} in
emit (CallEmbed request) ;;;
r <- on_world (embed request) ;;
match r with
| Rejected msg => throw msg
| Http ok _ _ json =>
    if negb ok then ret tt      (* logged; [continue] *)
    else
      embedResult <- read_json json ;;
      let embedded :=
        match api_data embedResult with
        | Some d => match e_chunks d with Some l => l | None => [] end
        | None => []
        end in
      modify (fun st =>
                {| world := world st; job := job st; allChunks := allChunks st;
                   embeddedChunks := (embeddedChunks st ++ embedded)%list;
                   log := log st |}) ;;;
      st <- get ;;
      update_job (with_embedded (Z.of_nat (List.length (embeddedChunks st))))
end.

(** The [try] block of [runPipelineSync]. *)
Definition pipeline_body (request : PipelineRequest) (startTime : Z)
  : M state (Response PipelineResponse) :=
let searchTerms := match req_search_terms request with
                   | Some l => l
                   | None => default_search_terms
                   end in
let pdfLimit := match req_pdf_limit request with
                | Some n => if (n =? 0)%Z then 3%Z else n
                | None => 3%Z
                end in
(* Step 1: discovery *)
set_status discovering ;;;
let body := {| db_file_numbers := req_file_numbers request;
               db_search_terms := searchTerms;
               db_limit := pdfLimit |} in
emit (CallDiscover body) ;;;
r <- on_world (discover body) ;;
discoverResult <-
  match r with
  | Rejected msg => throw msg
  | Http ok _ errorText json =>
      if negb ok then throw ("Discovery failed: " ++ errorText) else read_json json
  end ;;
update_job
  (with_discovered
     match api_data discoverResult with
     | Some d => match d_discovered_pdfs d with Some l => l | None => [] end
     | None => []
     end) ;;;
st <- get ;;
match discovered_pdfs (job st) with
| [] =>
    set_status completed ;;;
    stamp_completed ;;;
    respond (Some "Pipeline complete. No PDFs found to process.") None startTime
| pdfs =>
    (* Step 2: parsing *)
    set_status parsing ;;;
    for_each pdfs parse_pdf ;;;
    st <- get ;;
    match allChunks st with
    | [] =>
        set_status completed ;;;
        stamp_completed ;;;
        respond (Some "Pipeline complete. No chunks extracted from PDFs.") None startTime
    | chunks =>
        (* Step 3: embedding *)
        set_status embedding_ ;;;
        for_each (chunksBySource chunks) embed_group ;;;
        (* Step 4: upsert *)
        set_status upserting ;;;
        st <- get ;;
        emit (CallUpsert (embeddedChunks st)) ;;;
        r <- on_world (upsert (embeddedChunks st)) ;;
        upsertResult <-
          match r with
          | Rejected msg => throw msg
          | Http ok _ errorText json =>
              if negb ok then throw ("Upsert failed: " ++ errorText) else read_json json
          end ;;
        update_job
          (with_upserted
             match api_data upsertResult with
             | Some d => match u_upserted_count d with
                         | Some n => n
                         | None => 0%Z
                         end
             | None => 0%Z
             end) ;;;
        set_status completed ;;;
        stamp_completed ;;;
        st <- get ;;
        respond
          (Some ("Pipeline complete! Processed "
                 ++ show_Z (Z.of_nat (List.length (discovered_pdfs (job st))))
                 ++ " PDFs, " ++ show_Z (upserted_chunks (job st)) ++ " chunks stored."))
          None startTime
    end
end.

(** The [catch] block. *)
Definition pipeline_catch (startTime : Z) (e : thrown)
  : M state (Response PipelineResponse) :=
set_status failed ;;;
msg <- message e ;;
update_job (with_error msg) ;;;
stamp_completed ;;;
respond None (Some msg) startTime.

(** The state in which the [try] block is entered: [job] as it is
    created, with a fresh id and the start time. *)
Definition initial (request : PipelineRequest) (w : W) : state :=
let (id, w1) := generateJobId w in
let (t, w2) := now w1 in
{| world := w2;
   job := {| job_id := id;
             status := discovering;
             file_numbers := match req_file_numbers request with
                             | Some l => l
                             | None => []
                             end;
             discovered_pdfs := [];
             parsed_chunks := 0;
             embedded_chunks := 0;
             upserted_chunks := 0;
             started_at := t;
             completed_at := None;
             error := None |};
   allChunks := [];
   embeddedChunks := [];
   log := [] |}.

(** [runPipelineSync(request, supabaseUrl, startTime)] in the world [w]. *)
Definition runPipelineSync (request : PipelineRequest) (startTime : Z) (w : W)
  : outcome (Response PipelineResponse) * state :=
try_catch (pipeline_body request startTime) (pipeline_catch startTime)
  (initial request w).

End Pipeline.

(** The embed requests and the upsert requests of a log, in order. *)
Definition embed_requests (l : list Event) : list VoyageEmbed.EmbedRequest :=
  flat_map (fun e => match e with CallEmbed r => [r] | _ => [] end) l.

Definition upserted_documents (l : list Event) : list (list VoyageEmbed.EmbeddedChunk) :=
  flat_map (fun e => match e with CallUpsert d => [d] | _ => [] end) l.

End Orchestrate.

(** ** The embed function as deployed

    The orchestrator reaches [voyage-embed] with
    [fetch(`${supabaseUrl}/functions/v1/voyage-embed`, { method: "POST",
    body: JSON.stringify({ chunks, file_number, source_url }) })]: the
    embed function of a run is the handler of [voyage-embed], run on
    the world of the orchestrator, and its answer is the handler's
    response, read back from its JSON. *)
Module Deployment.
Import JS Eff Types Utils Orchestrate.
Local Open Scope string_scope.

(** The JSON of an [EmbedResponse] as the orchestrator reads it. *)
Definition wire (r : APIResponse VoyageEmbed.EmbedResponse) : APIResponse EmbedData :=
  {| success := success r;
     api_data := option_map (fun d => {| e_chunks := Some (VoyageEmbed.chunks d) |}) (api_data r);
     api_error := api_error r;
     processing_time_ms := processing_time_ms r;
     timestamp := timestamp r |}.

(** [response.ok]. *)
Definition ok_status (code : Z) : bool := ((200 <=? code) && (code <=? 299))%Z.

Section Embed.
Variable W : Type.
Variable now : W -> Z * W.
Variable voyage_api :
  list string -> string -> string -> W -> Fetched VoyageEmbeddingResponse * W.
Variable VOYAGE_API_KEY : option string.

Definition embed_function (req : VoyageEmbed.EmbedRequest) (w : W)
  : Fetched (APIResponse EmbedData) * W :=
  let (out, st) :=
    VoyageEmbed.serve_request W now voyage_api VOYAGE_API_KEY (VoyageEmbed.Post (inr req))
      (VoyageEmbed.initial W w) in
  (match out with
   | Ret resp =>
       Http (ok_status (http_status resp)) (http_status resp) EmptyString
         (inr (wire (body resp)))
   | Throw _ => Http false 500 "Internal Server Error" (inl "Unexpected token")
   end,
   VoyageEmbed.world W st).

End Embed.
End Deployment.

(** ** A concrete world

    Scripted stage functions for the runs the statements of Part II
    are applied to.  The embed function is the handler of [voyage-embed]
    itself, seen through [fetch], over an embedding API that answers its
    first [good] calls and refuses every later one. *)
Module Example.
Import JS Eff Types Utils Orchestrate.
Local Open Scope string_scope.

Record World : Type := {
  time : Z;
  api_calls : nat      (* calls of the embedding API so far *)
}.

Definition now (w : World) : Z * World :=
  (time w, {| time := time w + 1; api_calls := api_calls w |}).

Definition generateJobId (w : World) : string * World := ("job_0_k3x9q2a", w).

Definition voyage_api (good : nat) (texts : list string) (model input_type : string)
  (w : World) : Fetched VoyageEmbeddingResponse * World :=
  (if (api_calls w <? good)%nat
   then Http true 200 EmptyString
          (inr {| data := map (fun i => {| embedding := [1%float]; index := i |})
                            (seq 0 (List.length texts));
                  model := model;
                  total_tokens := Z.of_nat (List.length texts) |})
   else Http false 429 "rate limited" (inl "Unexpected token"),
   {| time := time w; api_calls := S (api_calls w) |}).

Definition embed_function (good : nat)
  : VoyageEmbed.EmbedRequest -> World -> Fetched (APIResponse EmbedData) * World :=
  Deployment.embed_function World now (voyage_api good) (Some "secret").

Definition ok_response {T} (d : T) : APIResponse T :=
  {| success := true; api_data := Some d; api_error := None;
     processing_time_ms := 1; timestamp := 0 |}.

Definition discover (pdfs : list FirecrawlDiscoveryResult) (b : DiscoverBody) (w : World)
  : Fetched (APIResponse DiscoverData) * World :=
  (Http true 200 EmptyString (inr (ok_response {| d_discovered_pdfs := Some pdfs |})), w).

Definition a_chunk (i : nat) : ReductoChunk :=
  {| text := "Height limit 40 feet"; page_number := 1; bbox := ReductoParse.full_page;
     chunk_index := Z.of_nat i; metadata := [("table_detected", VBool false)] |}.

Definition parse (n : nat) (pdf_url file_number : string) (w : World)
  : Fetched (APIResponse ParseData) * World :=
  (Http true 200 EmptyString
     (inr (ok_response {| p_chunks := Some (map a_chunk (seq 0 n));
                          p_parsed_at := Some "2025-01-01T00:00:00.000Z" |})), w).

Definition upsert_ok (documents : list VoyageEmbed.EmbeddedChunk) (w : World)
  : Fetched (APIResponse UpsertData) * World :=
  (Http true 200 EmptyString
     (inr (ok_response {| u_upserted_count := Some (Z.of_nat (List.length documents)) |})), w).


Definition a_pdf : FirecrawlDiscoveryResult :=
  {| url := "https://sfgov.legistar.com/a.pdf"; title := "Staff Report";
     file_number := "250700"; attachment_type := "Staff Report";
     discovered_at := "2025-01-01T00:00:00.000Z"; pdf_metadata := [] |}.

Definition a_request : PipelineRequest :=
  {| req_file_numbers := None; req_search_terms := None; req_max_credits := None;
     req_pdf_limit := None |}.

Definition w0 : World := {| time := 1000; api_calls := 0 |}.




(** One PDF of 129 chunks, that is two batches; the API answers the
    first call and no other. *)
Definition run_second_batch_fails :=
  runPipelineSync World now generateJobId (discover [a_pdf]) (parse 129) (embed_function 1)
    upsert_ok a_request 1000 w0.

(** A second PDF, for runs with two source groups. *)
Definition b_pdf : FirecrawlDiscoveryResult :=
  {| url := "https://sfgov.legistar.com/b.pdf"; title := "Environmental Impact Report";
     file_number := "250701"; attachment_type := "EIR";
     discovered_at := "2025-01-01T00:00:00.000Z"; pdf_metadata := [] |}.

(** The chunks of that PDF as the orchestrator sends them to the embed
    function, the request that carries them, and the handler's run on
    it. *)
Definition sent_chunk (i : nat) : ReductoChunk :=
  {| text := "Height limit 40 feet"; page_number := 1; bbox := ReductoParse.full_page;
     chunk_index := Z.of_nat i;
     metadata := [("table_detected", VBool false);
                  ("discovered_at", VStr "2025-01-01T00:00:00.000Z");
                  ("parsed_at", VStr "2025-01-01T00:00:00.000Z")] |}.

Definition request_129 : VoyageEmbed.EmbedRequest :=
  {| VoyageEmbed.req_chunks := Some (map sent_chunk (seq 0 129));
     VoyageEmbed.req_file_number := "250700";
     VoyageEmbed.req_source_url := "https://sfgov.legistar.com/a.pdf";
     VoyageEmbed.req_input_type := None |}.

Definition handler_129 :=
  VoyageEmbed.serve World now (voyage_api 1) (Some "secret") request_129
    (VoyageEmbed.initial World {| time := 1001; api_calls := 0 |}).

(** The same chunks as a source group of the orchestrator, and a state
    in which the embedding stage may start. *)
Definition queued_chunk (i : nat) : PipelineChunk :=
  {| pc_text := "Height limit 40 feet"; pc_file_number := "250700";
     pc_source_url := "https://sfgov.legistar.com/a.pdf"; pc_page_number := 1;
     pc_bbox := ReductoParse.full_page; pc_chunk_index := Z.of_nat i;
     pc_metadata := [("table_detected", VBool false);
                     ("discovered_at", VStr "2025-01-01T00:00:00.000Z");
                     ("parsed_at", VStr "2025-01-01T00:00:00.000Z")] |}.

Definition group_129 : string * list PipelineChunk :=
  ("250700:https://sfgov.legistar.com/a.pdf", map queued_chunk (seq 0 129)).

Definition st_start : Orchestrate.state World :=
  Orchestrate.initial World now generateJobId a_request w0.

End Example.


(** ** The shell of a request handler

    The handlers of [firecrawl-discover], [reducto-parse],
    [mongo-upsert] and [orchestrate] have one shape:
    [serve(async (req) => { const startTime = Date.now(); try { ... }
    catch (error) { return createResponse(null, error.message,
    startTime); } })]. *)
Module Handler.
Import JS Eff Types Utils.
Local Open Scope eff_scope.

Section Shell.
(** The world outside the function and the handler's local variables. *)
Variables W L : Type.
Variable now : W -> Z * W.

Record state : Type := {
  world : W;
  vars : L
}.

Definition on_world {A} (f : W -> A * W) : M state A :=
lift (fun st => let (a, w) := f (world st) in (a, {| world := w; vars := vars st |})).

Definition set_vars (f : L -> L) : M state unit :=
modify (fun st => {| world := world st; vars := f (vars st) |}).

(** [createResponse(data, error, startTime)], which reads the clock for
    [processing_time_ms] and for [timestamp]. *)
Definition respond {T} (data : option T) (error : option string) (startTime : Z)
  : M state (Response T) :=
n1 <- on_world now ;;
n2 <- on_world now ;;
ret (createResponse data error startTime n1 n2).

(** [await response.json()]. *)
Definition read_json {B} (json : string + B) : M state B :=
match json with
| inr v => ret v
| inl syntax_error => throw syntax_error
end.

(** [for (const x of l) { ... }] with a body that may [break]: the body
    answers [false] when it breaks. *)
Fixpoint for_break {A} (l : list A) (body : A -> M state bool) : M state unit :=
match l with
| [] => ret tt
| x :: l' => continue <- body x ;; if continue then for_break l' body else ret tt
end.

Definition handle {T} (try_block : Z -> M state (Response T)) : M state (Response T) :=
startTime <- on_world now ;;
try_catch (try_block startTime)
  (fun e => msg <- message e ;; respond None (Some msg) startTime).

End Shell.

Arguments world {W L} _.
Arguments vars {W L} _.
Arguments on_world {W L A} _.
Arguments set_vars {W L} _.
Arguments respond {W L} now {T} _ _ _.
Arguments read_json {W L B} _.
Arguments for_break {W L A} _ _.
Arguments handle {W L} now {T} _.

End Handler.

(** ** Discovery ([firecrawl-discover/index.ts]) *)
Module FirecrawlDiscover.
Import JS Eff Types Utils Handler.
Local Open Scope string_scope.
Local Open Scope eff_scope.

(** The fields of the request that the handler reads. *)
Record DiscoverRequest : Type := {
  dq_search_terms : option (list string);
  dq_limit : option Z
}.

(** [{}], the body of a request that is not a POST. *)
Definition no_body : DiscoverRequest := {| dq_search_terms := None; dq_limit := None |}.

Record LegistarMatter : Type := {
  MatterId : number;
  MatterFile : string;
  MatterName : option string;
  MatterTitle : option string;
  MatterTypeName : option string;
  MatterStatusName : option string;
  MatterIntroDate : option string;
  MatterBodyName : option string
}.

Record LegistarAttachment : Type := {
  MatterAttachmentName : option string;
  MatterAttachmentHyperlink : option string;
  MatterAttachmentFileName : option string
}.

(** The JSON a listing request is answered with: an array, an object
    with its [value] field when it has one, or [null]. *)
Inductive Listing (A : Type) : Type :=
| Direct (items : list A)
| Wrapped (value : option (list A))
| Null.
Arguments Direct {A} items.
Arguments Wrapped {A} value.
Arguments Null {A}.

Record DiscoverResponse : Type := {
  discovered_pdfs : list FirecrawlDiscoveryResult;
  matters_searched : nat;
  total_matters_fetched : nat;
  search_terms : list string
}.

Definition default_search_terms : list string :=
["housing"; "zoning"; "development"; "residential"; "EIR"; "CEQA"; "planning"].

(** [x || ""]. *)
Definition or_empty (o : option string) : string :=
match o with
| Some s => s
| None => ""
end.

(** The filter of the matters: some search term occurs in the title,
    the name or the type name, all in lower case. *)
Definition matter_matches (searchTermsLower : list string) (matter : LegistarMatter) : bool :=
let title := toLowerCase (or_empty (MatterTitle matter)) in
let name := toLowerCase (or_empty (MatterName matter)) in
let typeName := toLowerCase (or_empty (MatterTypeName matter)) in
existsb (fun term => includes title term || includes name term || includes typeName term)
  searchTermsLower.

Definition classifyAttachment (nameOrUrl : string) : string :=
let lower := toLowerCase nameOrUrl in
if includes lower "eir" || includes lower "environmental impact" then "EIR"
else if includes lower "staff report" || includes lower "staff_report" then "Staff Report"
else if includes lower "ordinance" then "Ordinance"
else if includes lower "resolution" then "Resolution"
else if includes lower "planning" || includes lower "commission" then "Planning Commission"
else if includes lower "noise" then "Noise Study"
else if includes lower "traffic" || includes lower "transportation" then "Traffic Study"
else if includes lower "shadow" then "Shadow Analysis"
else if includes lower "geotech" then "Geotechnical Report"
else if includes lower "ceqa" then "CEQA Document"
else if includes lower "hearing" || includes lower "notice" then "Public Notice"
else if includes lower "executive summary" then "Executive Summary"
else if includes lower "motion" then "Motion"
else if includes lower "amendment" then "Amendment"
else "Attachment".

(** [attachment.MatterAttachmentFileName || attachment.MatterAttachmentName || ""]
    and [attachment.MatterAttachmentName || fileName]. *)
Definition fileName_of (attachment : LegistarAttachment) : string :=
or_empty (or_str (MatterAttachmentFileName attachment) (MatterAttachmentName attachment)).

Definition title_of (attachment : LegistarAttachment) : string :=
or_empty (or_str (MatterAttachmentName attachment) (Some (fileName_of attachment))).

Definition field (key : string) (value : option string) : obj :=
match value with
| Some s => [(key, VStr s)]
| None => []
end.

Definition matter_metadata (matter : LegistarMatter) : obj :=
([("matter_id", VNum (MatterId matter))]
 ++ field "matter_title" (MatterTitle matter)
 ++ field "matter_type" (MatterTypeName matter)
 ++ field "matter_status" (MatterStatusName matter)
 ++ field "intro_date" (MatterIntroDate matter)
 ++ field "body_name" (MatterBodyName matter))%list.

Section Serve.
(** The world outside the function: the clock and the two listings of
    the legislation API; [toISOString] renders a clock reading. *)
Variable W : Type.
Variable now : W -> Z * W.
Variable fetch_matters : W -> Fetched (Listing LegistarMatter) * W.
Variable fetch_attachments : number -> W -> Fetched (Listing LegistarAttachment) * W.
Variable toISOString : Z -> string.

(** The handler's local variable [discoveredPdfs]. *)
Definition state : Type := Handler.state W (list FirecrawlDiscoveryResult).

(** [Array.isArray(d) ? d : (d.value || [])]. *)
Definition items_of {A} (d : Listing A) : M state (list A) :=
match d with
| Direct l => ret l
| Wrapped (Some l) => ret l
| Wrapped None => ret []
| Null => throw "Cannot read properties of null (reading 'value')"
end.

(** [discoveredPdfs.length >= limit]. *)
Definition full (limit : Z) (st : state) : bool :=
(limit <=? Z.of_nat (List.length (vars st)))%Z.

Definition discovered (matter : LegistarMatter) (attachment : LegistarAttachment)
  (url : string) (t : Z) : FirecrawlDiscoveryResult :=
{| url := url;
   title := title_of attachment;
   file_number := MatterFile matter;
   attachment_type := classifyAttachment (title_of attachment);
   discovered_at := toISOString t;
   pdf_metadata := matter_metadata matter |}.

(** One turn of the loop over the attachments of a matter. *)
Definition attachment_step (limit : Z) (matter : LegistarMatter)
  (attachment : LegistarAttachment) : M state bool :=
st <- get ;;
if full limit st then ret false
else
  let fileName := fileName_of attachment in
  match MatterAttachmentHyperlink attachment with
  | Some url =>
      if truthy_str url &&
         (includes (toLowerCase url) ".pdf" || includes (toLowerCase fileName) ".pdf")
      then
        t <- on_world now ;;
        set_vars (fun discoveredPdfs =>
                    (discoveredPdfs ++ [discovered matter attachment url t])%list) ;;;
        ret true
      else ret true
  | None => ret true
  end.

(** One turn of the loop over the matters; an error in the [try] block
    is logged and the loop goes on. *)
Definition matter_step (limit : Z) (matter : LegistarMatter) : M state bool :=
st <- get ;;
if full limit st then ret false
else
  try_catch
    (r <- on_world (fetch_attachments (MatterId matter)) ;;
     match r with
     | Rejected msg => throw msg
     | Http ok _ _ json =>
         if ok
         then
           attachData <- read_json json ;;
           attachments <- items_of attachData ;;
           for_break attachments (attachment_step limit matter)
         else ret tt
     end)
    (fun _ => ret tt) ;;;
  ret true.

(** [body.limit || 20]. *)
Definition limit_of (body : DiscoverRequest) : Z :=
match dq_limit body with
| Some n => if (n =? 0)%Z then 20%Z else n
| None => 20%Z
end.

(** [body.search_terms || [...]]: an array is truthy, an empty one too. *)
Definition terms_of (body : DiscoverRequest) : list string :=
match dq_search_terms body with
| Some l => l
| None => default_search_terms
end.

(** The [try] block.  [req] is the JSON body of a POST, and [None] for
    another method; an OPTIONS request is answered by [handleCors]
    before. *)
Definition serve_body (req : option (string + DiscoverRequest)) (startTime : Z)
  : M state (Response DiscoverResponse) :=
body <- match req with
        | Some json => read_json json
        | None => ret no_body
        end ;;
let limit := limit_of body in
let searchTerms := terms_of body in
r <- on_world fetch_matters ;;
mattersData <-
  match r with
  | Rejected msg => throw msg
  | Http ok status errorText json =>
      if negb ok
      then throw ("OData API error: " ++ show_Z status ++ " - " ++ errorText)
      else read_json json
  end ;;
allMatters <- items_of mattersData ;;
let searchTermsLower := map toLowerCase searchTerms in
let matters := filter (matter_matches searchTermsLower) allMatters in
for_break matters (matter_step limit) ;;;
st <- get ;;
respond now
  (Some {| discovered_pdfs := vars st;
           matters_searched := List.length matters;
           total_matters_fetched := List.length allMatters;
           search_terms := searchTerms |})
  None startTime.

Definition serve (req : option (string + DiscoverRequest))
  : M state (Response DiscoverResponse) :=
handle now (serve_body req).

Definition initial (w : W) : state := {| world := w; vars := [] |}.

End Serve.
End FirecrawlDiscover.

(** ** The orchestrator's handler and its search ([orchestrate/index.ts]) *)
Module OrchestrateServe.
Import JS Eff Types Utils Handler.
Local Open Scope string_scope.
Local Open Scope eff_scope.

(** The body of a request: [action] and the fields of
    [PipelineRequest] for a run and for a search. *)
Record Body : Type := {
  action : option string;
  run_fields : Orchestrate.PipelineRequest;
  query : option string;
  limit : option Z;
  min_score : option number
}.

(** A request: a POST with its JSON body, or one of another method;
    an OPTIONS request is answered by [handleCors] before. *)
Inductive Request : Type :=
| NotPost
| Post (json : string + Body).

(** [PipelineResponse] with its [search_results]. *)
Record Answer : Type := {
  a_job : option PipelineJob;
  a_search_results : option (list MongoUpsert.VectorSearchResult);
  a_message : option string
}.

(** The [data] of the answer of [mongo-upsert] to a search. *)
Record SearchData : Type := {
  sd_results : option (list MongoUpsert.VectorSearchResult);
  sd_total_found : option Z
}.

(** The response of [runPipelineSync] as a response of the handler. *)
Definition of_run (r : Response Orchestrate.PipelineResponse) : Response Answer :=
{| http_status := http_status r;
   body := {| success := success (body r);
              api_data := option_map
                            (fun d => {| a_job := Orchestrate.resp_job d;
                                         a_search_results := None;
                                         a_message := Orchestrate.resp_message d |})
                            (api_data (body r));
              api_error := api_error (body r);
              processing_time_ms := processing_time_ms (body r);
              timestamp := timestamp (body r) |} |}.

(** The body [runSearch] posts to [mongo-upsert]: [limit: request.limit
    || 10] and [min_score: request.min_score || 0.7]. *)
Definition search_body (request : Body) (queryEmbedding : list number)
  : MongoUpsert.SearchRequest :=
{| MongoUpsert.query_embedding := Some queryEmbedding;
   MongoUpsert.query_text := None;
   MongoUpsert.file_numbers := Orchestrate.req_file_numbers (run_fields request);
   MongoUpsert.limit := Some match limit request with
                             | Some n => if (n =? 0)%Z then 10%Z else n
                             | None => 10%Z
                             end;
   MongoUpsert.min_score := Some (or_default (min_score request) 0.7%float) |}.

Section Serve.
(** The world outside the function: the clock, the job ids, the four
    stage functions, the embedding API and the search of
    [mongo-upsert]; and the two environment variables. *)
Variable W : Type.
Variable now : W -> Z * W.
Variable generateJobId : W -> string * W.
Variable discover :
  Orchestrate.DiscoverBody -> W -> Fetched (APIResponse Orchestrate.DiscoverData) * W.
Variable parse : string -> string -> W -> Fetched (APIResponse Orchestrate.ParseData) * W.
Variable embed :
  VoyageEmbed.EmbedRequest -> W -> Fetched (APIResponse Orchestrate.EmbedData) * W.
Variable upsert :
  list VoyageEmbed.EmbeddedChunk -> W -> Fetched (APIResponse Orchestrate.UpsertData) * W.
Variable voyage_api :
  list string -> string -> string -> W -> Fetched VoyageEmbeddingResponse * W.
Variable mongo_search : MongoUpsert.SearchRequest -> W -> Fetched (APIResponse SearchData) * W.
Variable SUPABASE_URL : option string.
Variable VOYAGE_API_KEY : option string.

Definition state : Type := Handler.state W unit.

(** [await runPipelineSync(body, SUPABASE_URL, startTime)]. *)
Definition run_pipeline (request : Orchestrate.PipelineRequest) (startTime : Z)
  : M state (Response Answer) :=
fun st =>
  let (o, st') :=
    Orchestrate.runPipelineSync W now generateJobId discover parse embed upsert request
      startTime
      (world st) in
  (match o with
   | Ret r => Ret (of_run r)
   | Throw e => Throw e
   end,
   {| world := Orchestrate.world W st'; vars := vars st |}).

(** [runSearch(request, supabaseUrl, startTime)]. *)
Definition runSearch (request : Body) (startTime : Z) : M state (Response Answer) :=
match query request with
| None => respond now None (Some "Missing query") startTime
| Some q =>
    if negb (truthy_str q) then respond now None (Some "Missing query") startTime
    else
      _ <- VoyageEmbed.getRequiredEnv "VOYAGE_API_KEY" VOYAGE_API_KEY ;;
      r <- on_world (voyage_api [q] "voyage-law-2" "query") ;;
      embedResult <-
        match r with
        | Rejected msg => throw msg
        | Http ok _ errorText json =>
            if negb ok then throw ("Query embedding failed: " ++ errorText)
            else read_json json
        end ;;
      queryEmbedding <-
        match data embedResult with
        | item :: _ => ret (embedding item)
        | [] => throw "Cannot read properties of undefined (reading 'embedding')"
        end ;;
      r <- on_world (mongo_search (search_body request queryEmbedding)) ;;
      searchResult <-
        match r with
        | Rejected msg => throw msg
        | Http ok _ errorText json =>
            if negb ok then throw ("Search failed: " ++ errorText) else read_json json
        end ;;
      let results :=
        match api_data searchResult with
        | Some d => match sd_results d with Some l => l | None => [] end
        | None => []
        end in
      let total_found :=
        match api_data searchResult with
        | Some d => match sd_total_found d with Some n => n | None => 0%Z end
        | None => 0%Z
        end in
      respond now
        (Some {| a_job := None; a_search_results := Some results;
                 a_message := Some ("Found " ++ show_Z total_found ++ " results") |})
        None startTime
end.

(** The [try] block of the handler. *)
Definition serve_body (req : Request) (startTime : Z) : M state (Response Answer) :=
_ <- VoyageEmbed.getRequiredEnv "SUPABASE_URL" SUPABASE_URL ;;
match req with
| NotPost => respond now None (Some "Method not allowed. Use POST.") startTime
| Post json =>
    body <- read_json json ;;
    match action body with
    | Some a =>
        if String.eqb a "run_pipeline" then run_pipeline (run_fields body) startTime
        else if String.eqb a "search" then runSearch body startTime
        else respond now None (Some "Invalid action. Use 'run_pipeline' or 'search'.")
               startTime
    | None =>
        respond now None (Some "Invalid action. Use 'run_pipeline' or 'search'.") startTime
    end
end.

Definition serve (req : Request) : M state (Response Answer) :=
handle now (serve_body req).

Definition fresh (w : W) : state := {| world := w; vars := tt |}.

End Serve.
End OrchestrateServe.

(** ** The parsing handler ([reducto-parse/index.ts]) *)
Module ReductoServe.
Import JS Eff Types Utils Handler ReductoParse.
Local Open Scope string_scope.
Local Open Scope eff_scope.

Record ParseRequest : Type := {
  pdf_url : option string;
  req_file_number : option string
}.

(** A request: a POST with its JSON body, or one of another method;
    an OPTIONS request is answered by [handleCors] before. *)
Inductive Request : Type :=
| NotPost
| Post (json : string + ParseRequest).

(** What the extraction service answers: the response that
    [transformPipelineResponse] reads, [usage?.pages_processed] and
    [error]. *)
Record PipelineAnswer : Type := {
  response : ReductoPipelineResponse;
  pages_processed : option Z;
  pipeline_error : option string
}.

Record ReductoParseResult : Type := {
  source_url : string;
  file_number : option string;
  total_pages : Z;
  parsed_chunks : list ReductoChunk;
  parsed_at : Z
}.

(** [Math.max(...chunks.map(c => c.page_number), 1)]. *)
Definition max_page (chunks : list ReductoChunk) : Z :=
fold_left Z.max (map page_number chunks) 1%Z.

(** [pipelineResponse.usage?.pages_processed || Math.max(...)]. *)
Definition totalPages (pages_processed : option Z) (chunks : list ReductoChunk) : Z :=
match pages_processed with
| Some n => if (n =? 0)%Z then max_page chunks else n
| None => max_page chunks
end.

Section Serve.
(** The world outside the function: the clock and the extraction
    service ([reducto_api document_url] is one POST to it); the
    environment variable; and the two detectors of the normalizer. *)
Variable W : Type.
Variable now : W -> Z * W.
Variable reducto_api : string -> W -> Fetched PipelineAnswer * W.
Variable REDUCTO_API_KEY : option string.
Variable detectSection : string -> option string.
Variable detectTableContent : string -> bool.

Definition state : Type := Handler.state W unit.

(** The operation passed to [retryWithBackoff]. *)
Definition parse_call (pdf_url : string) : M state PipelineAnswer :=
r <- on_world (reducto_api pdf_url) ;;
match r with
| Rejected msg => throw msg
| Http ok status errorText json =>
    if negb ok
    then throw ("Reducto API error: " ++ show_Z status ++ " - " ++ errorText)
    else read_json json
end.

(** The [try] block of the handler. *)
Definition serve_body (req : Request) (startTime : Z)
  : M state (Response ReductoParseResult) :=
_ <- VoyageEmbed.getRequiredEnv "REDUCTO_API_KEY" REDUCTO_API_KEY ;;
match req with
| NotPost => respond now None (Some "Method not allowed. Use POST.") startTime
| Post json =>
    body <- read_json json ;;
    match pdf_url body with
    | None => respond now None (Some "Missing required field: pdf_url") startTime
    | Some url =>
        if negb (truthy_str url)
        then respond now None (Some "Missing required field: pdf_url") startTime
        else
          pipelineResponse <- retryWithBackoff (parse_call url) default_maxRetries ;;
          match pipeline_error pipelineResponse with
          | Some e => if truthy_str e then throw ("Reducto pipeline failed: " ++ e)
                      else ret tt
          | None => ret tt
          end ;;;
          let chunks :=
            transformPipelineResponse detectSection detectTableContent
              (response pipelineResponse) in
          let totalPages := totalPages (pages_processed pipelineResponse) chunks in
          t <- on_world now ;;
          respond now
            (Some {| source_url := url;
                     file_number := req_file_number body;
                     total_pages := totalPages;
                     parsed_chunks := chunks;
                     parsed_at := t |})
            None startTime
    end
end.

Definition serve (req : Request) : M state (Response ReductoParseResult) :=
handle now (serve_body req).

Definition fresh (w : W) : state := {| world := w; vars := tt |}.

End Serve.
End ReductoServe.
(* ================================================================== *)
(** * Part II: the properties *)
(* ================================================================== *)

(** ** Facts on binary64 arithmetic

    The operations of [float] are specified by the functions of
    [SpecFloat] on [spec_float], the sign-mantissa-exponent reading of a
    number.  The facts below are proved there and then carried to
    [float]. *)
Module SF64.
Local Open Scope Z_scope.

Definition is_pos_result (s : bool) (r : spec_float) : Prop :=
  match r with
  | S754_finite s' _ _ => s' = s
  | S754_infinity s' => s' = s
  | _ => False
  end.

Lemma digits2_pos_bounds (m : positive) :
  2 ^ (Zpos (digits2_pos m) - 1) <= Zpos m < 2 ^ Zpos (digits2_pos m).
Proof.
  induction m as [m IH|m IH|]; cbn [digits2_pos].
  - rewrite Pos2Z.inj_succ. replace (Z.succ (Zpos (digits2_pos m)) - 1) with (Zpos (digits2_pos m)) by lia.
    rewrite Z.pow_succ_r by lia.
    replace (Zpos (digits2_pos m)) with (Z.succ (Zpos (digits2_pos m) - 1)) at 1 by lia.
    rewrite Z.pow_succ_r by lia. lia.
  - rewrite Pos2Z.inj_succ. replace (Z.succ (Zpos (digits2_pos m)) - 1) with (Zpos (digits2_pos m)) by lia.
    rewrite Z.pow_succ_r by lia.
    replace (Zpos (digits2_pos m)) with (Z.succ (Zpos (digits2_pos m) - 1)) at 1 by lia.
    rewrite Z.pow_succ_r by lia. lia.
  - cbn. lia.
Qed.

Lemma iter_xO_value (d m : positive) : Zpos (Pos.iter xO m d) = Zpos m * 2 ^ Zpos d.
Proof.
  revert m. induction d using Pos.peano_ind; intros m.
  - cbn. lia.
  - rewrite Pos.iter_succ. rewrite Pos2Z.inj_xO, IHd, Pos2Z.inj_succ, Z.pow_succ_r by lia. lia.
Qed.

Lemma iter_pos_nat {A} (f : A -> A) (p : positive) (x : A) :
  @SpecFloat.iter_pos A f p x = Nat.iter (Pos.to_nat p) f x.
Proof.
  revert x. induction p as [p IH|p IH|]; intros x; cbn [SpecFloat.iter_pos].
  - rewrite !IH. rewrite Pos2Nat.inj_xI.
    replace (S (2 * Pos.to_nat p)) with (Pos.to_nat p + (Pos.to_nat p + 1))%nat by lia.
    rewrite !Nat.iter_add. reflexivity.
  - rewrite !IH. rewrite Pos2Nat.inj_xO.
    replace (2 * Pos.to_nat p)%nat with (Pos.to_nat p + Pos.to_nat p)%nat by lia.
    rewrite Nat.iter_add. reflexivity.
  - reflexivity.
Qed.

Lemma shr_1_m (x : shr_record) : 0 <= shr_m x -> shr_m (shr_1 x) = shr_m x / 2.
Proof.
  destruct x as [m r s]. cbn [shr_m]. intros H.
  destruct m as [|[p|p|]|p]; cbn; try lia.
  - apply Z.div_unique with 1; lia.
  - apply Z.div_unique with 0; lia.
Qed.

Lemma iter_shr_1_m (n : nat) (x : shr_record) :
  0 <= shr_m x -> shr_m (Nat.iter n shr_1 x) = shr_m x / 2 ^ Z.of_nat n.
Proof.
  intros H. induction n as [|n IH].
  - cbn. now rewrite Z.div_1_r.
  - change (Nat.iter (S n) shr_1 x) with (shr_1 (Nat.iter n shr_1 x)). rewrite shr_1_m.
    + rewrite IH, Nat2Z.inj_succ, Z.pow_succ_r by lia.
      rewrite Z.div_div by lia. f_equal. lia.
    + rewrite IH. apply Z.div_pos; lia.
Qed.

Lemma shr_record_of_loc_m m l : shr_m (shr_record_of_loc m l) = m.
Proof. destruct l as [|[]]; reflexivity. Qed.

Local Abbreviation fexp := (SpecFloat.fexp prec emax).

Lemma shr_fexp_pos (M : positive) (E : Z) (l : location) :
  emin <= E ->
  0 < shr_m (fst (shr_fexp prec emax (Zpos M) E l)) /\ emin <= snd (shr_fexp prec emax (Zpos M) E l).
Proof.
  intros HE. unfold shr_fexp, shr. cbn [Zdigits2].
  destruct (fexp (Zpos (digits2_pos M) + E) - E) as [|p|p] eqn:Hn; cbn [fst snd];
    rewrite ?shr_record_of_loc_m; try lia.
  pose proof (digits2_pos_bounds M) as [Hlo _].
  unfold SpecFloat.fexp in Hn.
  assert (Hp : Zpos p = Zpos (digits2_pos M) - prec).
  { unfold SpecFloat.emin, emax, prec in *. lia. }
  split; [|lia].
  rewrite iter_pos_nat, iter_shr_1_m by (rewrite shr_record_of_loc_m; lia).
  rewrite shr_record_of_loc_m, positive_nat_Z.
  apply Z.div_str_pos. split; [lia|].
  eapply Z.le_trans; [|exact Hlo].
  apply Z.pow_le_mono_r; unfold prec in *; lia.
Qed.

Lemma round_nearest_even_pos m l : 0 < m -> 0 < round_nearest_even m l.
Proof.
  intros H. destruct l as [|[]]; cbn; try lia. destruct (Z.even m); lia.
Qed.

Lemma binary_round_aux_sign (s : bool) (M : positive) (E : Z) (l : location) :
  emin <= E -> is_pos_result s (binary_round_aux prec emax s (Zpos M) E l).
Proof.
  intros HE. unfold binary_round_aux.
  pose proof (shr_fexp_pos M E l HE) as [H1 H2].
  destruct (shr_fexp prec emax (Zpos M) E l) as [mrs' e'] eqn:E1. cbn [fst snd] in *.
  pose proof (round_nearest_even_pos (shr_m mrs') (loc_of_shr_record mrs') H1) as H3.
  destruct (round_nearest_even (shr_m mrs') (loc_of_shr_record mrs')) as [|M'|M'] eqn:E2; try lia.
  pose proof (shr_fexp_pos M' e' loc_Exact H2) as [H4 H5].
  destruct (shr_fexp prec emax (Zpos M') e' loc_Exact) as [mrs'' e''] eqn:E3. cbn [fst snd] in *.
  destruct (shr_m mrs'') as [|m|m]; try lia.
  destruct (e'' <=? emax - prec); reflexivity.
Qed.

Lemma binary_round_sign (s : bool) (m : positive) (e : Z) :
  emin <= e -> is_pos_result s (binary_round prec emax s m e).
Proof.
  intros He. unfold binary_round, shl_align.
  destruct (fexp (Zpos (digits2_pos m) + e) - e) as [|d|d] eqn:Hd;
    try (apply binary_round_aux_sign; assumption).
  apply binary_round_aux_sign. unfold SpecFloat.fexp. lia.
Qed.


Lemma shl_align_value (m : positive) (e ez : Z) :
  ez <= e -> Zpos (fst (shl_align m e ez)) = Zpos m * 2 ^ (e - ez).
Proof.
  intros H. unfold shl_align.
  destruct (ez - e) as [|d|d] eqn:Hd; cbn [fst]; try lia.
  - replace (e - ez) with 0 by lia. cbn. lia.
  - rewrite iter_xO_value. f_equal. f_equal. lia.
Qed.

Lemma bounded_emin m e : bounded prec emax m e = true -> emin <= e.
Proof.
  unfold bounded, canonical_mantissa, SpecFloat.fexp. intros H.
  apply andb_true_iff in H as [H _]. apply Z.eqb_eq in H. unfold prec, emax, SpecFloat.emin in *; lia.
Qed.

Lemma bounded_digits m e : bounded prec emax m e = true -> Zpos m < 2 ^ prec.
Proof.
  unfold bounded, canonical_mantissa, SpecFloat.fexp. intros H.
  apply andb_true_iff in H as [H _]. apply Z.eqb_eq in H.
  pose proof (digits2_pos_bounds m) as [_ Hhi].
  eapply Z.lt_le_trans; [exact Hhi|]. apply Z.pow_le_mono_r; unfold prec, emax, SpecFloat.emin in *; lia.
Qed.

Lemma bounded_normal m e : bounded prec emax m e = true -> emin < e -> 2 ^ (prec - 1) <= Zpos m.
Proof.
  unfold bounded, canonical_mantissa, SpecFloat.fexp. intros H He.
  apply andb_true_iff in H as [H _]. apply Z.eqb_eq in H.
  pose proof (digits2_pos_bounds m) as [Hlo _].
  eapply Z.le_trans; [|exact Hlo]. apply Z.pow_le_mono_r; unfold prec, emax, SpecFloat.emin in *; lia.
Qed.

(** Mantissas of canonical numbers compare like the numbers once aligned. *)
Lemma aligned_lt m1 e1 m2 e2 :
  bounded prec emax m1 e1 = true -> bounded prec emax m2 e2 = true ->
  e1 < e2 -> Zpos m1 < Zpos m2 * 2 ^ (e2 - e1).
Proof.
  intros B1 B2 He.
  pose proof (bounded_digits _ _ B1) as H1.
  pose proof (bounded_emin _ _ B1) as H0.
  pose proof (bounded_normal _ _ B2 ltac:(lia)) as H2.
  assert (H3 : 2 ^ 1 <= 2 ^ (e2 - e1)) by (apply Z.pow_le_mono_r; lia).
  change (2 ^ 1) with 2 in H3.
  change (2 ^ prec) with (2 ^ (prec - 1) * 2) in H1.
  assert (0 < 2 ^ (prec - 1)) by (apply Z.pow_pos_nonneg; unfold prec; lia).
  nia.
Qed.

Definition aligned (s : bool) (m : positive) (e ez : Z) : Z :=
  cond_Zopp s (Zpos (fst (shl_align m e ez))).

Lemma SFcompare_aligned sx mx ex sy my ey :
  bounded prec emax mx ex = true -> bounded prec emax my ey = true ->
  SFcompare (S754_finite sx mx ex) (S754_finite sy my ey) =
  Some (aligned sx mx ex (Z.min ex ey) ?= aligned sy my ey (Z.min ex ey)).
Proof.
  intros Bx By. unfold aligned.
  rewrite !shl_align_value by lia.
  cbn [SFcompare]. f_equal.
  change (Pos.compare_cont Eq mx my) with (Pos.compare mx my).
  rewrite Pos2Z.inj_compare.
  set (X := Z.pos mx * 2 ^ (ex - Z.min ex ey)).
  set (Y := Z.pos my * 2 ^ (ey - Z.min ex ey)).
  assert (HXY : (ex ?= ey) = Eq /\ X = Z.pos mx /\ Y = Z.pos my \/
                (ex ?= ey) = Lt /\ X < Y \/ (ex ?= ey) = Gt /\ Y < X).
  { subst X Y. destruct (Z.compare_spec ex ey) as [He|He|He].
    - left. subst. rewrite Z.min_id, Z.sub_diag, Z.pow_0_r. repeat split; lia.
    - right; left. split; [reflexivity|].
      pose proof (aligned_lt _ _ _ _ Bx By He).
      rewrite Z.min_l by lia. rewrite Z.sub_diag, Z.pow_0_r. lia.
    - right; right. split; [reflexivity|].
      pose proof (aligned_lt _ _ _ _ By Bx He).
      rewrite Z.min_r by lia. rewrite Z.sub_diag, Z.pow_0_r. lia. }
  assert (PX : 0 < X) by (subst X; apply Z.mul_pos_pos; [lia|apply Z.pow_pos_nonneg; lia]).
  assert (PY : 0 < Y) by (subst Y; apply Z.mul_pos_pos; [lia|apply Z.pow_pos_nonneg; lia]).
  clearbody X Y.
  destruct sx, sy; cbn [cond_Zopp];
    destruct HXY as [(Hc & -> & ->)|[(Hc & H)|(Hc & H)]]; rewrite ?Hc;
    try (rewrite <- Z.compare_opp; reflexivity);
    try reflexivity;
    symmetry; first [apply Z.compare_lt_iff; lia | apply Z.compare_gt_iff; lia].
Qed.

Definition sign_of (r : spec_float) : comparison :=
  match SFcompare r (S754_zero false) with
  | Some c => c
  | None => Eq
  end.

Lemma is_pos_result_sign s r : is_pos_result s r -> sign_of r = if s then Lt else Gt.
Proof. destruct r as [| |  |s' m e]; cbn; try tauto; intros ->; reflexivity. Qed.

Lemma binary_normalize_sign (D ez : Z) :
  emin <= ez -> sign_of (binary_normalize prec emax D ez false) = (D ?= 0).
Proof.
  intros H. destruct D as [|p|p]; cbn [binary_normalize].
  - reflexivity.
  - rewrite (is_pos_result_sign false) by (apply binary_round_sign; exact H). reflexivity.
  - rewrite (is_pos_result_sign true) by (apply binary_round_sign; exact H). reflexivity.
Qed.

(** The sign of an IEEE difference is the comparison of its operands. *)
Lemma SF64sub_sign (x y : spec_float) :
  valid_binary x = true -> valid_binary y = true ->
  sign_of (SF64sub x y) = match SFcompare x y with Some c => c | None => Eq end.
Proof.
  intros Vx Vy.
  destruct x as [sx|sx| |sx mx ex], y as [sy|sy| |sy my ey];
    try (destruct sx; reflexivity); try (destruct sy; reflexivity);
    try (destruct sx, sy; reflexivity); try reflexivity.
  cbn [valid_binary] in Vx, Vy.
  rewrite (SFcompare_aligned _ _ _ _ _ _ Vx Vy).
  unfold SF64sub, SFsub. cbv zeta.
  rewrite binary_normalize_sign.
  - unfold aligned. symmetry. apply Z.compare_sub.
  - pose proof (bounded_emin _ _ Vx). pose proof (bounded_emin _ _ Vy). lia.
Qed.


Ltac cmp_cases :=
  repeat match goal with
  | H : context [Pos.compare_cont Eq ?a ?b] |- _ =>
      change (Pos.compare_cont Eq a b) with (Pos.compare a b) in H
  | |- context [Pos.compare_cont Eq ?a ?b] =>
      change (Pos.compare_cont Eq a b) with (Pos.compare a b)
  end;
  repeat match goal with
  | H : context [Z.compare ?a ?b] |- _ => destruct (Z.compare_spec a b)
  | |- context [Z.compare ?a ?b] => destruct (Z.compare_spec a b)
  | H : context [Pos.compare ?a ?b] |- _ => destruct (Pos.compare_spec a b)
  | |- context [Pos.compare ?a ?b] => destruct (Pos.compare_spec a b)
  end.

Lemma SFcompare_antisym x y :
  SFcompare y x = option_map CompOpp (SFcompare x y).
Proof.
  destruct x as [sx|sx| |sx mx ex], y as [sy|sy| |sy my ey]; cbn;
    try reflexivity; try (destruct sx; reflexivity); try (destruct sy; reflexivity);
    try (destruct sx, sy; reflexivity).
  destruct sx, sy; try reflexivity; f_equal; cmp_cases; subst; cbn; try reflexivity; try lia.
Qed.

Lemma SFleb_trans x y z :
  SFleb x y = true -> SFleb y z = true -> SFleb x z = true.
Proof.
  unfold SFleb.
  destruct x as [sx|sx| |sx mx ex], y as [sy|sy| |sy my ey], z as [sz|sz| |sz mz ez]; cbn;
    try discriminate; try reflexivity;
    try (destruct sx; (reflexivity || discriminate));
    try (destruct sy; (reflexivity || discriminate));
    try (destruct sz; (reflexivity || discriminate));
    try (destruct sx, sy; (reflexivity || discriminate));
    try (destruct sx, sz; (reflexivity || discriminate));
    try (destruct sy, sz; (reflexivity || discriminate)).
  all: destruct sx, sy, sz; try discriminate; try reflexivity; cmp_cases; subst;
    try discriminate; try reflexivity; try lia.
Qed.

Lemma SFcompare_refl x : x <> S754_nan -> SFcompare x x = Some Eq.
Proof.
  destruct x as [s|s| |s m e]; cbn; try congruence.
  - destruct s; reflexivity.
  - intros _. rewrite Z.compare_refl.
    change (Pos.compare_cont Eq m m) with (Pos.compare m m).
    rewrite Pos.compare_refl. destruct s; reflexivity.
Qed.

Lemma SFcompare_some x y :
  x <> S754_nan -> y <> S754_nan -> exists c, SFcompare x y = Some c.
Proof.
  destruct x as [sx|sx| |sx mx ex], y as [sy|sy| |sy my ey]; cbn; try congruence; eauto.
Qed.

Lemma SFcompare_nonnan x y c : SFcompare x y = Some c -> x <> S754_nan /\ y <> S754_nan.
Proof.
  destruct x as [sx|sx| |sx mx ex], y as [sy|sy| |sy my ey]; cbn; split; congruence.
Qed.

Lemma SFltb_zero_sign r :
  SFltb (S754_zero false) r = match sign_of r with Gt => true | _ => false end.
Proof. destruct r as [s|s| |s m e]; try destruct s; reflexivity. Qed.

Lemma SFltb_sign_zero r :
  SFltb r (S754_zero false) = match sign_of r with Lt => true | _ => false end.
Proof. destruct r as [s|s| |s m e]; try destruct s; reflexivity. Qed.

Lemma SFltb_flip x y :
  SFltb x y = match SFcompare y x with Some Gt => true | _ => false end.
Proof.
  unfold SFltb. rewrite (SFcompare_antisym y x).
  destruct (SFcompare y x) as [[]|]; reflexivity.
Qed.

Lemma SFeqb_leb x y : SFeqb x y = SFleb x y && SFleb y x.
Proof.
  unfold SFeqb, SFleb. rewrite (SFcompare_antisym x y).
  destruct (SFcompare x y) as [[]|]; reflexivity.
Qed.

Lemma SFltb_leb x y : SFltb x y = true -> SFleb x y = true.
Proof. unfold SFltb, SFleb. destruct (SFcompare x y) as [[]|]; congruence. Qed.

Lemma SFltb_false_leb x y :
  x <> S754_nan -> y <> S754_nan -> SFltb x y = false -> SFleb y x = true.
Proof.
  intros Hx Hy. unfold SFltb, SFleb. rewrite (SFcompare_antisym x y).
  destruct (SFcompare_some x y Hx Hy) as [c ->]. destruct c; cbn; congruence.
Qed.

Lemma SFleb_ltb_false x y : SFleb x y = true -> SFltb y x = false.
Proof.
  unfold SFltb, SFleb. rewrite (SFcompare_antisym x y).
  destruct (SFcompare x y) as [[]|]; cbn; congruence.
Qed.

End SF64.

(** The same facts on [float]. *)
Module FloatFacts.
Import JS.
Local Open Scope float_scope.

Lemma Prim2SF_zero : Prim2SF 0 = S754_zero false.
Proof. reflexivity. Qed.

Lemma is_nan_spec x : is_nan x = false <-> Prim2SF x <> S754_nan.
Proof.
  unfold is_nan. rewrite FloatAxioms.eqb_spec, SF64.SFeqb_leb, andb_diag.
  unfold SFleb. split.
  - intros H E. rewrite E in H. discriminate.
  - intros H. rewrite (SF64.SFcompare_refl _ H). reflexivity.
Qed.

(** [0 < y - x] exactly when [x < y], and [y - x < 0] exactly when
    [y < x]. *)
Lemma sub_pos_ltb x y : (0 <? y - x) = (x <? y).
Proof.
  rewrite !FloatAxioms.ltb_spec, FloatAxioms.sub_spec, Prim2SF_zero, SF64.SFltb_zero_sign.
  rewrite (SF64.SF64sub_sign _ _ (Prim2SF_valid y) (Prim2SF_valid x)).
  rewrite SF64.SFltb_flip. destruct (SFcompare (Prim2SF y) (Prim2SF x)) as [[]|]; reflexivity.
Qed.

Lemma sub_neg_ltb x y : (y - x <? 0) = (y <? x).
Proof.
  rewrite !FloatAxioms.ltb_spec, FloatAxioms.sub_spec, Prim2SF_zero, SF64.SFltb_sign_zero.
  rewrite (SF64.SF64sub_sign _ _ (Prim2SF_valid y) (Prim2SF_valid x)).
  unfold SFltb. destruct (SFcompare (Prim2SF y) (Prim2SF x)) as [[]|]; reflexivity.
Qed.

Lemma leb_trans x y z : (x <=? y) = true -> (y <=? z) = true -> (x <=? z) = true.
Proof. rewrite !FloatAxioms.leb_spec. apply SF64.SFleb_trans. Qed.

Lemma ltb_leb x y : (x <? y) = true -> (x <=? y) = true.
Proof. rewrite FloatAxioms.ltb_spec, FloatAxioms.leb_spec. apply SF64.SFltb_leb. Qed.

Lemma ltb_false_leb x y :
  is_nan x = false -> is_nan y = false -> (x <? y) = false -> (y <=? x) = true.
Proof.
  intros Hx Hy. apply is_nan_spec in Hx, Hy. rewrite FloatAxioms.ltb_spec, FloatAxioms.leb_spec.
  now apply SF64.SFltb_false_leb.
Qed.

Lemma leb_ltb_false x y : (x <=? y) = true -> (y <? x) = false.
Proof. rewrite FloatAxioms.ltb_spec, FloatAxioms.leb_spec. apply SF64.SFleb_ltb_false. Qed.

Lemma leb_nonnan x y : (x <=? y) = true -> is_nan x = false /\ is_nan y = false.
Proof.
  rewrite FloatAxioms.leb_spec. unfold SFleb.
  destruct (SFcompare (Prim2SF x) (Prim2SF y)) as [c|] eqn:E; [|discriminate].
  intros _. destruct (SF64.SFcompare_nonnan _ _ _ E) as [Hx Hy].
  split; apply is_nan_spec; assumption.
Qed.

Lemma ltb_nonnan x y : (x <? y) = true -> is_nan x = false /\ is_nan y = false.
Proof. intros H. apply leb_nonnan, ltb_leb, H. Qed.

Lemma eqb_leb x y : (x =? y) = (x <=? y) && (y <=? x).
Proof. rewrite FloatAxioms.eqb_spec, !FloatAxioms.leb_spec. apply SF64.SFeqb_leb. Qed.

Lemma leb_refl x : is_nan x = false -> (x <=? x) = true.
Proof.
  intros H. apply is_nan_spec in H. rewrite FloatAxioms.leb_spec. unfold SFleb.
  rewrite (SF64.SFcompare_refl _ H). reflexivity.
Qed.

(** Two numbers equal to a third are not strictly ordered. *)
Lemma eqb_eqb_ltb x y s : (x =? s) = true -> (y =? s) = true -> (x <? y) = false.
Proof.
  rewrite !eqb_leb, !andb_true_iff. intros [_ Hsx] [Hys _].
  apply leb_ltb_false. eapply leb_trans; eassumption.
Qed.

Lemma Prim2SF_infinity : Prim2SF infinity = S754_infinity false.
Proof. reflexivity. Qed.

Lemma Prim2SF_neg_infinity : Prim2SF neg_infinity = S754_infinity true.
Proof. reflexivity. Qed.

(** A finite number is a zero or has a mantissa and an exponent. *)
Definition SF_finite (x : spec_float) : Prop :=
  match x with
  | S754_zero _ | S754_finite _ _ _ => True
  | _ => False
  end.

Lemma is_finite_spec x : is_finite x = true -> SF_finite (Prim2SF x).
Proof.
  unfold is_finite, is_nan, is_infinity.
  rewrite !FloatAxioms.eqb_spec, abs_spec, Prim2SF_infinity.
  destruct (Prim2SF x) as [s|s| |s m e]; cbn; try exact (fun _ => I);
    try destruct s; cbn; discriminate.
Qed.

Lemma SF64sub_self x : SF_finite x -> SF64sub x x = S754_zero false.
Proof.
  destruct x as [s|s| |s m e]; cbn; try contradiction; intros _.
  - destruct s; reflexivity.
  - rewrite Z.sub_diag. reflexivity.
Qed.

Lemma sub_self x : is_finite x = true -> x - x = 0.
Proof.
  intros H. apply Prim2SF_inj. rewrite FloatAxioms.sub_spec, Prim2SF_zero.
  apply SF64sub_self, is_finite_spec, H.
Qed.

Lemma finite_lt_infinity x : is_finite x = true -> (x <? infinity) = true.
Proof.
  intros H. apply is_finite_spec in H. rewrite FloatAxioms.ltb_spec, Prim2SF_infinity.
  destruct (Prim2SF x) as [s|s| |s m e]; cbn in *; try contradiction; reflexivity.
Qed.

Lemma neg_infinity_lt_finite x : is_finite x = true -> (neg_infinity <? x) = true.
Proof.
  intros H. apply is_finite_spec in H. rewrite FloatAxioms.ltb_spec, Prim2SF_neg_infinity.
  destruct (Prim2SF x) as [s|s| |s m e]; cbn in *; try contradiction; reflexivity.
Qed.

Lemma is_finite_nonnan x : is_finite x = true -> is_nan x = false.
Proof.
  unfold is_finite. destruct (is_nan x); [discriminate|reflexivity].
Qed.

Lemma ltb_irrefl x : (x <? x) = false.
Proof.
  rewrite FloatAxioms.ltb_spec. unfold SFltb.
  destruct (Prim2SF x) as [s|s| |s m e] eqn:E; try reflexivity.
  - destruct s; reflexivity.
  - rewrite SF64.SFcompare_refl by discriminate. reflexivity.
Qed.

Lemma leb_infinity x : is_nan x = false -> (x <=? infinity) = true.
Proof.
  intros H. apply is_nan_spec in H. rewrite FloatAxioms.leb_spec, Prim2SF_infinity.
  destruct (Prim2SF x) as [s|s| |s m e]; try destruct s; try reflexivity; congruence.
Qed.

Lemma neg_infinity_leb x : is_nan x = false -> (neg_infinity <=? x) = true.
Proof.
  intros H. apply is_nan_spec in H. rewrite FloatAxioms.leb_spec, Prim2SF_neg_infinity.
  destruct (Prim2SF x) as [s|s| |s m e]; try destruct s; try reflexivity; congruence.
Qed.

Lemma SF_truthy_sign r :
  negb (SFeqb r (S754_zero false) || negb (SFeqb r r)) =
  match SF64.sign_of r with Eq => false | _ => true end.
Proof.
  destruct r as [s|s| |s m e]; try (destruct s; reflexivity); try reflexivity.
  unfold SFeqb at 2. rewrite SF64.SFcompare_refl by discriminate.
  destruct s; reflexivity.
Qed.

(** A difference of two numbers is falsy exactly when they are equal. *)
Lemma truthy_sub x y :
  is_nan x = false -> is_nan y = false -> truthy (x - y) = negb (x =? y).
Proof.
  intros Hx Hy. apply is_nan_spec in Hx, Hy.
  unfold truthy, is_zero, is_nan. rewrite !FloatAxioms.eqb_spec, FloatAxioms.sub_spec.
  change (Prim2SF PrimFloat.zero) with (S754_zero false).
  pose proof (SF64.SF64sub_sign _ _ (Prim2SF_valid x) (Prim2SF_valid y)) as Hs.
  destruct (SF64.SFcompare_some _ _ Hx Hy) as [c Hc]. rewrite Hc in Hs.
  rewrite SF_truthy_sign, Hs. unfold SFeqb. rewrite Hc. destruct c; reflexivity.
Qed.

End FloatFacts.

(** ** The retrieval scorer ([handleSearch]) *)
Module SearchFacts.
Import JS Eff Types MongoUpsert FloatFacts.
Local Open Scope float_scope.

(** A candidate with its similarity. *)
Definition entry : Type := StoredDoc * number.

(** [a] may stand before [b] in a descending order. *)
Definition desc (a b : entry) : Prop := (snd b <=? snd a) = true.

(** The entries whose similarity equals [s]. *)
Definition tied (s : number) (d : entry) : bool := (snd d =? s).

Definition comparable (d : entry) : Prop := is_nan (snd d) = false.

Lemma moves_right x y : (0 <? by_score_desc x y) = (snd x <? snd y).
Proof. apply sub_pos_ltb. Qed.

Lemma insert_perm (x : entry) l : Permutation (insert by_score_desc x l) (x :: l).
Proof.
  induction l as [|y l IH]; cbn [insert].
  - apply Permutation_refl.
  - destruct (0 <? by_score_desc x y).
    + eapply perm_trans; [apply perm_skip, IH|apply perm_swap].
    + apply Permutation_refl.
Qed.

Lemma sort_perm (l : list entry) : Permutation (sort by_score_desc l) l.
Proof.
  induction l as [|x l IH]; cbn [sort fold_right].
  - apply perm_nil.
  - eapply perm_trans; [apply insert_perm|apply perm_skip, IH].
Qed.

Lemma insert_sorted (x : entry) l :
  comparable x -> Forall comparable l ->
  StronglySorted desc l -> StronglySorted desc (insert by_score_desc x l).
Proof.
  intros Hx Hl Hs. induction Hs as [|y l Hs IH Hy]; cbn [insert].
  - constructor; constructor.
  - inversion Hl as [|? ? Cy Cl]; subst.
    rewrite moves_right. destruct (snd x <? snd y) eqn:E.
    + constructor; [apply IH, Cl|].
      eapply Permutation_Forall; [apply Permutation_sym, insert_perm|].
      constructor; [apply ltb_leb, E|exact Hy].
    + assert (Hyx : desc x y) by (apply ltb_false_leb; assumption).
      constructor; [constructor; assumption|].
      constructor; [exact Hyx|].
      eapply Forall_impl; [|exact Hy]. intros z Hz. unfold desc in *.
      eapply leb_trans; eassumption.
Qed.

Lemma sort_comparable (l : list entry) :
  Forall comparable l -> Forall comparable (sort by_score_desc l).
Proof.
  intros H. eapply Permutation_Forall; [apply Permutation_sym, sort_perm|exact H].
Qed.

Lemma sort_sorted (l : list entry) :
  Forall comparable l -> StronglySorted desc (sort by_score_desc l).
Proof.
  induction l as [|x l IH]; intros H; cbn [sort fold_right].
  - constructor.
  - inversion H; subst. apply insert_sorted; auto.
    apply sort_comparable; assumption.
Qed.

Lemma insert_stable s (x : entry) l :
  filter (tied s) (insert by_score_desc x l) = filter (tied s) (x :: l).
Proof.
  induction l as [|y l IH]; cbn [insert]; [reflexivity|].
  rewrite moves_right. destruct (snd x <? snd y) eqn:E; [|reflexivity].
  cbn [filter] in *. rewrite IH.
  destruct (tied s x) eqn:Tx, (tied s y) eqn:Ty; try reflexivity.
  unfold tied in Tx, Ty. rewrite (eqb_eqb_ltb _ _ _ Tx Ty) in E. discriminate.
Qed.

Lemma sort_stable s (l : list entry) :
  filter (tied s) (sort by_score_desc l) = filter (tied s) l.
Proof.
  induction l as [|x l IH]; cbn [sort fold_right]; [reflexivity|].
  rewrite insert_stable. cbn [filter]. fold (sort by_score_desc l). rewrite IH. reflexivity.
Qed.

Lemma slice0_firstn {A} (l : list A) n : (0 <= n)%Z -> slice0 l n = firstn (Z.to_nat n) l.
Proof. intros H. unfold slice0. destruct (Z.ltb_spec n 0); [lia|reflexivity]. Qed.

Lemma kept_comparable min_score (l : list entry) :
  Forall comparable (filter (fun d => ge (snd d) min_score) l).
Proof.
  apply Forall_forall. intros d Hd. apply filter_In in Hd as [_ Hd].
  unfold ge in Hd. apply leb_nonnan in Hd. apply Hd.
Qed.

Lemma In_firstn {A} (x : A) n l : In x (firstn n l) -> In x l.
Proof.
  intros H. rewrite <- (firstn_skipn n l). apply in_or_app. now left.
Qed.

(** The ranking: the candidates that pass the threshold, in descending
    order of similarity, equal similarities in storage order. *)
Lemma rank_ordered (query : list number) (floor : number) (count : Z)
  (allDocs : list StoredDoc) :
  let kept := filter (fun d => ge (snd d) floor) (scored query allDocs) in
  exists ordered,
    rank query floor count allDocs = slice0 ordered count /\
    Permutation ordered kept /\
    StronglySorted desc ordered /\
    forall s, filter (tied s) ordered = filter (tied s) kept.
Proof.
  intros kept. exists (sort by_score_desc kept). repeat split.
  - apply sort_perm.
  - apply sort_sorted, kept_comparable.
  - intros s. apply sort_stable.
Qed.

(** The query vector of a request: the one it carries, or else the one
    generated from its text. *)
Definition query_of (generateQueryEmbedding : string -> outcome (list number))
  (request : SearchRequest) (query : list number) : Prop :=
  query_embedding request = Some query \/
  query_embedding request = None /\
  exists t, query_text request = Some t /\ truthy_str t = true /\
            generateQueryEmbedding t = Ret query.

(** [min_score = 0.7] and [limit = 10] when the request has none. *)
Definition floor_of (request : SearchRequest) : number :=
  match min_score request with Some x => x | None => 0.7 end.

Definition count_of (request : SearchRequest) : Z :=
  match limit request with Some n => n | None => 10%Z end.

(** What [handleSearch] returns when it returns. *)
Lemma handleSearch_returns generateQueryEmbedding request c resp :
  handleSearch generateQueryEmbedding request c = Ret resp ->
  exists query,
    query_of generateQueryEmbedding request query /\
    resp = {| results := map to_result
                           (rank query (floor_of request) (count_of request)
                              (find_candidates (file_numbers request) c));
              total_found := List.length
                               (map to_result
                                  (rank query (floor_of request) (count_of request)
                                     (find_candidates (file_numbers request) c))) |}.
Proof.
  unfold handleSearch, query_of, floor_of, count_of.
  destruct (query_embedding request) as [q|].
  - intros [= <-]. exists q. split; [left; reflexivity|reflexivity].
  - destruct (query_text request) as [t|]; [|discriminate].
    destruct (truthy_str t) eqn:Et; [|discriminate].
    destruct (generateQueryEmbedding t) as [v|e] eqn:Eg; [|discriminate].
    intros [= <-]. exists v. split; [|reflexivity].
    right. split; [reflexivity|]. exists t. auto.
Qed.

Lemma score_not_zero (query : list number) (d : StoredDoc) (x : number) :
  cosineSim (Some query) (embedding d) = x -> (x =? 0) = false -> embedding d <> None.
Proof.
  intros H Hx E. rewrite E in H. cbn in H. rewrite <- H in Hx. discriminate Hx.
Qed.

(** C1, amended.  When the search returns, it returns [slice(0, limit)]
    of a ranking: the candidates (the first 500 records that have an
    embedding and a requested file number) whose cosine similarity to
    the query is at least the threshold, in descending order of
    similarity, equal similarities in storage order.  So every result
    passes the threshold, and there are at most [limit] results when
    [limit] is not negative.  For three stored chunks of similarities
    0.91, 0.55 and 0.72, a threshold of 0.6 and a limit of 10, the
    results are the first and the third chunk, in that order.  The
    search returns whenever the request holds a query vector or a text
    of which one is generated. *)
Theorem search_threshold_limit_order
  (generateQueryEmbedding : string -> outcome (list number))
  (request : SearchRequest) (c : Collection) (resp : SearchResponse) :
  (handleSearch generateQueryEmbedding request c = Ret resp ->
   exists query ordered,
     let candidates := find_candidates (file_numbers request) c in
     let kept := filter (fun d => ge (snd d) (floor_of request)) (scored query candidates) in
     query_of generateQueryEmbedding request query /\
     results resp = map to_result (slice0 ordered (count_of request)) /\
     total_found resp = List.length (results resp) /\
     Permutation ordered kept /\
     StronglySorted desc ordered /\
     (forall s, filter (tied s) ordered = filter (tied s) kept) /\
     Forall (fun r =>
               (floor_of request <=? score r) = true /\
               exists d, In d (docs c) /\
                         score r = cosineSim (Some query) (embedding d) /\
                         r = to_result (d, score r))
            (results resp) /\
     ((0 <= count_of request)%Z ->
      results resp = map to_result (firstn (Z.to_nat (count_of request)) ordered) /\
      (Z.of_nat (List.length (results resp)) <= count_of request)%Z)) /\
  (forall query d1 d2 d3 next,
     cosineSim (Some query) (embedding d1) = 0.91 ->
     cosineSim (Some query) (embedding d2) = 0.55 ->
     cosineSim (Some query) (embedding d3) = 0.72 ->
     handleSearch generateQueryEmbedding
       {| query_embedding := Some query; query_text := None; file_numbers := None;
          limit := Some 10%Z; min_score := Some 0.6 |}
       {| docs := [d1; d2; d3]; next_id := next |} =
     Ret {| results := [to_result (d1, 0.91); to_result (d3, 0.72)];
            total_found := 2 |}) /\
  (forall query, query_of generateQueryEmbedding request query ->
     exists found, handleSearch generateQueryEmbedding request c = Ret found).
Proof.
  split; [|split].
  - intros Hret.
    destruct (handleSearch_returns _ _ _ _ Hret) as (query & Hq & ->).
    destruct (rank_ordered query (floor_of request) (count_of request)
                (find_candidates (file_numbers request) c))
      as (ordered & Hrank & Hperm & Hsorted & Hstable).
    exists query, ordered. cbn zeta. cbn [results total_found]. rewrite Hrank.
    split; [exact Hq|]. split; [reflexivity|]. split; [reflexivity|].
    split; [exact Hperm|]. split; [exact Hsorted|]. split; [exact Hstable|]. split.
    + apply Forall_map, Forall_forall. intros [d x] Hd.
      unfold slice0 in Hd.
      assert (Hin : In (d, x) ordered)
        by (destruct (count_of request <? 0)%Z; apply In_firstn in Hd; exact Hd).
      apply (Permutation_in _ Hperm) in Hin. apply filter_In in Hin as [Hin Hge].
      cbn [score to_result snd fst]. split; [exact Hge|].
      unfold scored in Hin. apply in_map_iff in Hin as (d' & [= <- <-] & Hd').
      exists d'. split; [|split; reflexivity].
      unfold find_candidates in Hd'. apply In_firstn in Hd'.
      apply filter_In in Hd'. apply Hd'.
    + intros Hcount. rewrite (slice0_firstn _ _ Hcount). split; [reflexivity|].
      rewrite length_map.
      pose proof (firstn_le_length (Z.to_nat (count_of request)) ordered). lia.
  - intros query d1 d2 d3 next H1 H2 H3.
    pose proof (score_not_zero _ _ _ H1 eq_refl) as E1.
    pose proof (score_not_zero _ _ _ H2 eq_refl) as E2.
    pose proof (score_not_zero _ _ _ H3 eq_refl) as E3.
    unfold handleSearch, find_candidates. cbn [query_embedding query_text file_numbers
      limit min_score docs filter andb].
    destruct (embedding d1) as [v1|] eqn:V1; [|congruence].
    destruct (embedding d2) as [v2|] eqn:V2; [|congruence].
    destruct (embedding d3) as [v3|] eqn:V3; [|congruence].
    cbn [filter andb firstn]. unfold rank, scored. cbn [map].
    rewrite V1, V2, V3, H1, H2, H3. reflexivity.
  - intros query Hq. unfold handleSearch.
    destruct Hq as [-> | (-> & t & -> & -> & ->)]; eexists; reflexivity.
Qed.

(** The stored vectors and the query of the example: their cosine
    similarities are exactly 0.91, 0.55 and 0.72. *)
Definition example_query : list number := [1; 0; 0; 0; 0].

Definition example_doc (id : nat) (v : list number) : StoredDoc :=
{| _id := id; text := EmptyString; embedding := Some v; embedding_dimensions := Some 5%nat;
   file_number := EmptyString; source_url := EmptyString; page_number := 1;
   bbox := ReductoParse.full_page; chunk_index := Z.of_nat id; metadata := [] |}.

Definition example_docs : list StoredDoc :=
[example_doc 0 [91; 41; 6; 1; 1]; example_doc 1 [55; 83; 9; 2; 1];
 example_doc 2 [72; 68; 8; 8; 8]].

Definition example_store : Collection := {| docs := example_docs; next_id := 3 |}.

Definition example_search (count : Z) (floor : number) : SearchRequest :=
  {| query_embedding := Some example_query; query_text := None; file_numbers := None;
     limit := Some count; min_score := Some floor |}.

Lemma search_threshold_limit_order_witness :
  handleSearch (fun _ => Throw None) (example_search 10 0.6) example_store =
    Ret {| results := [to_result (example_doc 0 [91; 41; 6; 1; 1], 0.91);
                       to_result (example_doc 2 [72; 68; 8; 8; 8], 0.72)];
           total_found := 2 |} /\
  exists query ordered,
    results {| results := [to_result (example_doc 0 [91; 41; 6; 1; 1], 0.91);
                           to_result (example_doc 2 [72; 68; 8; 8; 8], 0.72)];
               total_found := 2 |} =
      map to_result (slice0 ordered (count_of (example_search 10 0.6))) /\
    query_of (fun _ => Throw None) (example_search 10 0.6) query /\
    StronglySorted desc ordered.
Proof.
  pose proof (search_threshold_limit_order (fun _ => Throw None) (example_search 10 0.6)
                example_store
                {| results := [to_result (example_doc 0 [91; 41; 6; 1; 1], 0.91);
                               to_result (example_doc 2 [72; 68; 8; 8; 8], 0.72)];
                   total_found := 2 |}) as (Hgeneral & Hexample & _).
  split.
  - apply (Hexample example_query (example_doc 0 [91; 41; 6; 1; 1])
             (example_doc 1 [55; 83; 9; 2; 1]) (example_doc 2 [72; 68; 8; 8; 8]) 3%nat);
      reflexivity.
  - destruct (Hgeneral eq_refl) as (query & ordered & Hq & Hr & _ & _ & Hs & _).
    exists query, ordered. auto.
Defined.

(** C1, as the claim states it, fails for a negative limit:
    [slice(0, -1)] drops the last chunk of the ranking and returns the
    others.  With a threshold of 0.5 the three chunks of the example
    are ranked 0.91, 0.72, 0.55, and a limit of -1 returns the first
    two of them, which is more than [limit] chunks. *)
Lemma negative_limit_returns_chunks :
  handleSearch (fun _ => Throw None) (example_search (-1) 0.5) example_store =
    Ret {| results := [to_result (example_doc 0 [91; 41; 6; 1; 1], 0.91);
                       to_result (example_doc 2 [72; 68; 8; 8; 8], 0.72)];
           total_found := 2 |} /\
  ~ (Z.of_nat 2 <= -1)%Z.
Proof. split; [reflexivity|lia]. Qed.

End SearchFacts.

(** ** The quantizer ([quantizeEmbedding]) *)
Module QuantizerFacts.
Import JS Types MongoUpsert FloatFacts.
Local Open Scope float_scope.

Definition mm_step (mm : number * number) (value : number) : number * number :=
  (if value <? fst mm then value else fst mm, if snd mm <? value then value else snd mm).

Lemma min_max_fold embedding : min_max embedding = fold_left mm_step embedding (infinity, neg_infinity).
Proof. reflexivity. Qed.

(** The loop invariant: what the fold yields from the bounds [a] and
    [b] reached so far. *)
Lemma min_max_invariant (l : list number) (a b : number) :
  is_nan a = false -> is_nan b = false ->
  let mn := fst (fold_left mm_step l (a, b)) in
  let mx := snd (fold_left mm_step l (a, b)) in
  (is_nan mn = false /\ is_nan mx = false) /\
  ((mn <=? a) = true /\ (b <=? mx) = true) /\
  ((mn = a \/ In mn l) /\ (mx = b \/ In mx l)) /\
  (forall v, In v l -> is_nan v = false -> (mn <=? v) = true /\ (v <=? mx) = true).
Proof.
  revert a b. induction l as [|x l IH]; intros a b Ha Hb; cbn [fold_left].
  - cbn. repeat split; auto using leb_refl; contradiction.
  - set (a' := if x <? a then x else a). set (b' := if b <? x then x else b).
    change (mm_step (a, b) x) with (a', b').
    assert (Ha' : is_nan a' = false).
    { unfold a'. destruct (x <? a) eqn:E; [apply (ltb_nonnan _ _ E)|exact Ha]. }
    assert (Hb' : is_nan b' = false).
    { unfold b'. destruct (b <? x) eqn:E; [apply (ltb_nonnan _ _ E)|exact Hb]. }
    assert (Haa : (a' <=? a) = true).
    { unfold a'. destruct (x <? a) eqn:E; [apply ltb_leb, E|apply leb_refl, Ha]. }
    assert (Hbb : (b <=? b') = true).
    { unfold b'. destruct (b <? x) eqn:E; [apply ltb_leb, E|apply leb_refl, Hb]. }
    assert (Hax : is_nan x = false -> (a' <=? x) = true).
    { intros Hx. unfold a'. destruct (x <? a) eqn:E;
        [apply leb_refl, Hx|apply ltb_false_leb; assumption]. }
    assert (Hbx : is_nan x = false -> (x <=? b') = true).
    { intros Hx. unfold b'. destruct (b <? x) eqn:E;
        [apply leb_refl, Hx|apply ltb_false_leb; assumption]. }
    assert (Hin : (a' = a \/ a' = x) /\ (b' = b \/ b' = x)).
    { unfold a', b'. destruct (x <? a), (b <? x); auto. }
    specialize (IH a' b' Ha' Hb'). cbv zeta in IH.
    destruct IH as (Hn & (H1 & H2) & (H3 & H4) & H5).
    repeat split; try tauto.
    + eapply leb_trans; eassumption.
    + eapply leb_trans; eassumption.
    + destruct H3 as [->|H3]; [|right; right; exact H3].
      destruct Hin as [[->| ->] _]; [left; reflexivity|right; left; reflexivity].
    + destruct H4 as [->|H4]; [|right; right; exact H4].
      destruct Hin as [_ [->| ->]]; [left; reflexivity|right; left; reflexivity].
    + destruct H as [<-|H]; [|apply H5; assumption].
      eapply leb_trans; [exact H1|apply Hax, H0].
    + destruct H as [<-|H]; [|apply H5; assumption].
      eapply leb_trans; [apply Hbx, H0|exact H2].
Qed.

Lemma min_max_repeat (v : number) n :
  is_finite v = true -> min_max (repeat v (S n)) = (v, v).
Proof.
  intros H. rewrite min_max_fold. cbn [repeat fold_left].
  unfold mm_step at 2. cbn [fst snd].
  rewrite (finite_lt_infinity _ H), (neg_infinity_lt_finite _ H).
  induction n as [|n IH]; [reflexivity|].
  cbn [repeat fold_left]. unfold mm_step at 2. cbn [fst snd].
  rewrite ltb_irrefl. exact IH.
Qed.

(** The formula of the source with the range written out. *)
Definition quantize_with (min range : number) (v : number) : number :=
  Math_round (((v - min) / range) * 255 - 128).

(** C4.  The quantizer finds the minimum and the maximum of the
    components (NaN components never enter a comparison), takes the
    range 1 when they are equal and their difference otherwise, and maps
    every component [v] to [round(((v - min) / range) * 255 - 128)], so
    the result has the length of the input.  On a vector whose
    components are all the same finite value every entry of the result
    is -128: a number of the signed 8-bit range, never NaN. *)
Theorem quantizer_min_max_round (embedding : list number) (v0 : number) (n : nat) :
  let min := fst (min_max embedding) in
  let max := snd (min_max embedding) in
  let range := if max =? min then 1 else max - min in
  ((min = infinity \/ In min embedding) /\ (max = neg_infinity \/ In max embedding) /\
   forall v, In v embedding -> is_nan v = false ->
             (min <=? v) = true /\ (v <=? max) = true) /\
  quantizeEmbedding embedding = map (quantize_with min range) embedding /\
  List.length (quantizeEmbedding embedding) = List.length embedding /\
  (is_finite v0 = true ->
     quantizeEmbedding (repeat v0 n) = repeat (-128) n /\
     Forall (fun q => is_nan q = false /\ (-128 <=? q) = true /\ (q <=? 127) = true)
       (quantizeEmbedding (repeat v0 n))).
Proof.
  intros min max range.
  pose proof (min_max_invariant embedding infinity neg_infinity eq_refl eq_refl) as Inv.
  cbv zeta in Inv. rewrite <- min_max_fold in Inv. fold min max in Inv.
  destruct Inv as ((Hmin & Hmax) & _ & (Imin & Imax) & Hall).
  split; [auto|]. split; [|split].
  - unfold quantizeEmbedding. fold min max. apply map_ext. intros v.
    unfold quantize_with, range, or_else.
    rewrite (truthy_sub _ _ Hmax Hmin). destruct (max =? min); reflexivity.
  - unfold quantizeEmbedding. apply length_map.
  - intros Hv.
    assert (E : quantizeEmbedding (repeat v0 n) = repeat (-128) n).
    { destruct n as [|n]; [reflexivity|].
      unfold quantizeEmbedding. rewrite (min_max_repeat v0 n Hv). cbn [fst snd].
      rewrite map_repeat, (sub_self v0 Hv). reflexivity. }
    split; [exact E|]. rewrite E. apply Forall_forall. intros q Hq.
    apply repeat_spec in Hq. subst q. repeat split.
Qed.

Lemma quantizer_min_max_round_witness :
  quantizeEmbedding (repeat 0.5 3) = [-128; -128; -128].
Proof.
  exact (proj1 (proj2 (proj2 (proj2 (quantizer_min_max_round (repeat 0.5 3) 0.5 3)))
                  eq_refl)).
Defined.

End QuantizerFacts.

(** ** The similarity function ([cosineSim]) *)
Module CosineFacts.
Import JS Types MongoUpsert FloatFacts.
Local Open Scope float_scope.

(** C2.  On two vectors of equal length the similarity function
    divides by the product of the magnitudes without testing it: a
    vector of zero magnitude, and a pair of empty vectors, give
    [0 / 0], which is NaN and not 0. *)
Theorem cosineSim_zero_magnitude_is_nan :
  cosineSim (Some [0; 0]) (Some [1; 2]) = nan /\
  cosineSim (Some [1; 2]) (Some [0; 0]) = nan /\
  cosineSim (Some []) (Some []) = nan.
Proof. repeat split; reflexivity. Qed.

(** Vectors of different lengths, or a missing vector, give 0. *)
Lemma cosineSim_mismatch a b :
  List.length a <> List.length b -> cosineSim (Some a) (Some b) = 0.
Proof.
  intros H. unfold cosineSim. apply Nat.eqb_neq in H. rewrite H. reflexivity.
Qed.

(** Zero or NaN, and zero, on the specification side. *)
Definition SF_zn (x : spec_float) : Prop :=
  match x with
  | S754_zero _ | S754_nan => True
  | _ => False
  end.

Definition SF_z (x : spec_float) : Prop :=
  match x with
  | S754_zero _ => True
  | _ => False
  end.

Lemma is_zero_spec x : is_zero x = true <-> SF_z (Prim2SF x).
Proof.
  unfold is_zero. rewrite FloatAxioms.eqb_spec.
  change (Prim2SF PrimFloat.zero) with (S754_zero false).
  destruct (Prim2SF x) as [s|s| |s m e]; cbn; try destruct s; cbn; intuition discriminate.
Qed.

Lemma SF_mul_z_any x y : SF_z x -> SF_zn (SF64mul x y).
Proof. destruct x, y; cbn; tauto. Qed.

Lemma SF_mul_z_z x y : SF_z x -> SF_z y -> SF_z (SF64mul x y).
Proof. destruct x, y; cbn; tauto. Qed.

Lemma SF_add_zn x y : SF_zn x -> SF_zn y -> SF_zn (SF64add x y).
Proof. destruct x as [[]| | |], y as [[]| | |]; cbn; tauto. Qed.

Lemma SF_add_z x y : SF_z x -> SF_z y -> SF_z (SF64add x y).
Proof. destruct x as [[]| | |], y as [[]| | |]; cbn; tauto. Qed.

Lemma SF_sqrt_z x : SF_z x -> SF_z (SF64sqrt x).
Proof. destruct x; cbn; tauto. Qed.

Lemma SF_div_zn x y : SF_zn x -> SF_zn y -> SF64div x y = S754_nan.
Proof. destruct x, y; cbn; tauto. Qed.

(** The three sums of the loop, from the values reached so far. *)
Definition sums_step (acc : number * number * number) (xy : number * number) :=
  let '(dot, magA, magB) := acc in
  (dot + fst xy * snd xy, magA + fst xy * fst xy, magB + snd xy * snd xy).

Lemma sums_zero_query (l : list (number * number)) (dot magA magB : number) :
  Forall (fun xy => is_zero (fst xy) = true) l ->
  SF_zn (Prim2SF dot) -> SF_z (Prim2SF magA) ->
  SF_zn (Prim2SF (fst (fst (fold_left sums_step l (dot, magA, magB))))) /\
  SF_z (Prim2SF (snd (fst (fold_left sums_step l (dot, magA, magB))))).
Proof.
  intros Hl. revert dot magA magB.
  induction Hl as [|xy l Hxy Hl IH]; intros dot magA magB Hd Ha; cbn [fold_left].
  - auto.
  - cbn [sums_step]. apply IH.
    + rewrite add_spec, mul_spec. apply SF_add_zn; [exact Hd|].
      apply SF_mul_z_any, is_zero_spec, Hxy.
    + rewrite add_spec, mul_spec. apply SF_add_z; [exact Ha|].
      apply SF_mul_z_z; apply is_zero_spec, Hxy.
Qed.

(** A query whose components are all zero has similarity NaN with every
    vector of its length. *)
Lemma cosineSim_zero_query (a b : list number) :
  Forall (fun x => is_zero x = true) a -> List.length a = List.length b ->
  is_nan (cosineSim (Some a) (Some b)) = true.
Proof.
  intros Ha Hlen. unfold cosineSim. rewrite Hlen, Nat.eqb_refl. cbn [negb].
  assert (Hl : Forall (fun xy : number * number => is_zero (fst xy) = true) (combine a b)).
  { apply Forall_forall. intros [x y] Hxy. apply in_combine_l in Hxy.
    rewrite Forall_forall in Ha. apply Ha, Hxy. }
  match goal with |- context [fold_left ?f ?l ?i] => set (R := fold_left f l i) end.
  assert (Hd : SF_zn (Prim2SF (fst (fst R))))
    by exact (proj1 (sums_zero_query (combine a b) 0 0 0 Hl I I)).
  assert (Hm : SF_z (Prim2SF (snd (fst R))))
    by exact (proj2 (sums_zero_query (combine a b) 0 0 0 Hl I I)).
  clearbody R. destruct R as [[dot magA] magB]. cbn [fst snd] in Hd, Hm.
  destruct (is_nan (dot / (sqrt magA * sqrt magB))) eqn:E; [reflexivity|].
  apply is_nan_spec in E. exfalso. apply E.
  rewrite div_spec, mul_spec, !sqrt_spec. apply SF_div_zn; [exact Hd|].
  apply SF_mul_z_any, SF_sqrt_z, Hm.
Qed.

(** A query of zero magnitude finds nothing under a positive threshold:
    every similarity is NaN or 0, and neither reaches the threshold. *)
Lemma zero_query_finds_nothing (query : list number) (min_score : number) (limit : Z)
  (allDocs : list StoredDoc) :
  Forall (fun x => is_zero x = true) query -> (0 <? min_score) = true ->
  rank query min_score limit allDocs = [].
Proof.
  intros Hq Hmin. unfold rank.
  assert (E : filter (fun doc : StoredDoc * number => ge (snd doc) min_score)
                (scored query allDocs) = []).
  { induction allDocs as [|d l IH]; [reflexivity|].
    cbn [scored map filter]. fold (scored query l). rewrite IH. cbn [snd].
    assert (Hs : ge (cosineSim (Some query) (embedding d)) min_score = false);
      [|rewrite Hs; reflexivity].
    unfold ge. destruct (embedding d) as [v|].
    - destruct (Nat.eq_dec (List.length query) (List.length v)) as [Hlen|Hlen].
      + pose proof (cosineSim_zero_query query v Hq Hlen) as Hn.
        destruct (min_score <=? cosineSim (Some query) (Some v)) eqn:E; [|reflexivity].
        apply leb_nonnan in E. destruct E as [_ E]. congruence.
      + rewrite (cosineSim_mismatch _ _ Hlen).
        destruct (min_score <=? 0) eqn:E; [|reflexivity].
        apply leb_ltb_false in E. congruence.
    - cbn. destruct (min_score <=? 0) eqn:E; [|reflexivity].
      apply leb_ltb_false in E. congruence. }
  rewrite E. cbn [sort fold_right]. unfold slice0. destruct (limit <? 0)%Z; apply firstn_nil.
Qed.

Lemma zero_query_finds_nothing_witness :
  rank [0; 0; 0; 0; 0] 0.5 10 SearchFacts.example_docs = [].
Proof.
  apply zero_query_finds_nothing.
  - repeat constructor.
  - reflexivity.
Defined.

End CosineFacts.

(** ** The chunk store ([handleUpsert]) *)
Module UpsertFacts.
Import JS Types Utils MongoUpsert.
Local Open Scope Z_scope.

(** The documents stored under the key [(url, idx)]. *)
Definition has_key (url : string) (idx : Z) (d : StoredDoc) : bool :=
  String.eqb (source_url d) url && (chunk_index d =? idx).

Definition key_count (url : string) (idx : Z) (c : Collection) : nat :=
  List.length (filter (has_key url idx) (docs c)).

Definition doc_has_key (url : string) (idx : Z) (d : UpsertDoc) : bool :=
  String.eqb (u_source_url d) url && (u_chunk_index d =? idx).

(** The number of records under a key once some documents were
    upserted: one appears where there was none, nothing else changes. *)
Definition count_after (before : nat) (upserted : bool) : nat :=
  if (before =? 0)%nat then (if upserted then 1%nat else 0%nat) else before.

(** An operation whose [$set] writes the key of its filter. *)
Definition keyed (op : UpdateOne) : Prop :=
  forall id, source_url (set_fields op id) = filter_source_url op /\
             chunk_index (set_fields op id) = filter_chunk_index op /\
             _id (set_fields op id) = id.

Definition op_has_key (url : string) (idx : Z) (op : UpdateOne) : bool :=
  String.eqb (filter_source_url op) url && (filter_chunk_index op =? idx).

Lemma upsert_op_keyed t doc : keyed (upsert_op t doc).
Proof. intros id. cbn. auto. Qed.

Lemma has_key_set_fields op url idx id :
  keyed op -> has_key url idx (set_fields op id) = op_has_key url idx op.
Proof.
  intros K. destruct (K id) as (H1 & H2 & _). unfold has_key, op_has_key.
  rewrite H1, H2. reflexivity.
Qed.

Lemma has_key_matches op url idx d :
  matches op d = true -> has_key url idx d = op_has_key url idx op.
Proof.
  unfold matches, has_key, op_has_key. intros H.
  apply andb_true_iff in H as [H1 H2].
  apply String.eqb_eq in H1. apply Z.eqb_eq in H2. rewrite H1, H2. reflexivity.
Qed.

Lemma matches_has_key op d :
  matches op d = has_key (filter_source_url op) (filter_chunk_index op) d.
Proof. reflexivity. Qed.

Lemma op_has_key_self op :
  op_has_key (filter_source_url op) (filter_chunk_index op) op = true.
Proof. unfold op_has_key. rewrite String.eqb_refl, Z.eqb_refl. reflexivity. Qed.

(** An update in place leaves the number of records of every key. *)
Lemma update_first_filter op url idx l l' changed :
  keyed op -> update_first op l = Some (l', changed) ->
  List.length (filter (has_key url idx) l') = List.length (filter (has_key url idx) l).
Proof.
  intros K. revert l' changed. induction l as [|d l IH]; intros l' changed; cbn [update_first].
  - discriminate.
  - destruct (matches op d) eqn:M.
    + intros [= <- <-]. cbn [filter].
      rewrite (has_key_set_fields _ _ _ _ K), (has_key_matches _ _ _ _ M).
      destruct (op_has_key url idx op); reflexivity.
    + destruct (update_first op l) as [[l'' ch]|]; [|discriminate].
      intros [= <- <-]. cbn [filter]. specialize (IH l'' ch eq_refl).
      destruct (has_key url idx d); cbn [List.length]; congruence.
Qed.

Lemma update_first_none op l :
  update_first op l = None <->
  filter (has_key (filter_source_url op) (filter_chunk_index op)) l = [].
Proof.
  induction l as [|d l IH]; cbn [update_first filter].
  - tauto.
  - rewrite <- matches_has_key. destruct (matches op d).
    + split; discriminate.
    + destruct (update_first op l) as [[l'' ch]|].
      * split; [discriminate|]. intros H. apply IH in H. discriminate.
      * tauto.
Qed.

Lemma filter_app_length {A} (p : A -> bool) l1 l2 :
  List.length (filter p (l1 ++ l2)) =
  (List.length (filter p l1) + List.length (filter p l2))%nat.
Proof. rewrite filter_app, length_app. reflexivity. Qed.

Lemma updateOne_count op url idx c :
  keyed op ->
  key_count url idx (fst (updateOne c op)) =
  count_after (key_count url idx c) (op_has_key url idx op).
Proof.
  intros K. unfold updateOne, key_count, count_after.
  destruct (update_first op (docs c)) as [[l ch]|] eqn:U; cbn [fst docs].
  - rewrite (update_first_filter _ url idx _ _ _ K U).
    destruct (List.length (filter (has_key url idx) (docs c)) =? 0)%nat eqn:E; [|reflexivity].
    apply Nat.eqb_eq in E. rewrite E.
    destruct (op_has_key url idx op) eqn:O; [|reflexivity].
    exfalso. unfold op_has_key in O. apply andb_true_iff in O as [O1 O2].
    apply String.eqb_eq in O1. apply Z.eqb_eq in O2. subst url idx.
    apply length_zero_iff_nil in E. apply update_first_none in E. congruence.
  - rewrite filter_app_length. cbn [filter]. rewrite (has_key_set_fields _ _ _ _ K).
    destruct (op_has_key url idx op) eqn:O.
    + unfold op_has_key in O. apply andb_true_iff in O as [O1 O2].
      apply String.eqb_eq in O1. apply Z.eqb_eq in O2. subst url idx.
      apply update_first_none in U. rewrite U. reflexivity.
    + cbn [List.length]. rewrite Nat.add_0_r.
      destruct (List.length (filter (has_key url idx) (docs c))); reflexivity.
Qed.

Lemma count_after_orb n a b :
  count_after (count_after n a) b = count_after n (a || b).
Proof. unfold count_after. destruct n, a, b; reflexivity. Qed.

Definition bulk_step (cr : Collection * BulkWriteResult) (op : UpdateOne)
  : Collection * BulkWriteResult :=
  let (c', r0) := updateOne (fst cr) op in
  (c', {| upsertedCount := upsertedCount (snd cr) + upsertedCount r0;
          modifiedCount := modifiedCount (snd cr) + modifiedCount r0 |}).

Lemma bulkWrite_fold c ops :
  bulkWrite c ops = fold_left bulk_step ops (c, {| upsertedCount := 0; modifiedCount := 0 |}).
Proof. reflexivity. Qed.

Lemma bulk_step_fst cr op : fst (bulk_step cr op) = fst (updateOne (fst cr) op).
Proof. unfold bulk_step. destruct (updateOne (fst cr) op). reflexivity. Qed.

Lemma bulkWrite_fold_count ops url idx cr :
  Forall keyed ops ->
  key_count url idx (fst (fold_left bulk_step ops cr)) =
  count_after (key_count url idx (fst cr)) (existsb (op_has_key url idx) ops).
Proof.
  intros K. revert cr. induction K as [|op ops Kop K IH]; intros cr; cbn [fold_left existsb].
  - unfold count_after. destruct (key_count url idx (fst cr)); reflexivity.
  - rewrite IH, bulk_step_fst, (updateOne_count _ _ _ _ Kop). apply count_after_orb.
Qed.

Lemma bulkWrite_count ops url idx c :
  Forall keyed ops ->
  key_count url idx (fst (bulkWrite c ops)) =
  count_after (key_count url idx c) (existsb (op_has_key url idx) ops).
Proof.
  intros K. rewrite bulkWrite_fold.
  exact (bulkWrite_fold_count ops url idx (c, _) K).
Qed.

Section Clock.
Variable clock : nat -> Z.

Lemma bulk_ops_keyed t batch : Forall keyed (bulk_ops clock t batch).
Proof.
  revert t. induction batch as [|d batch IH]; intros t; cbn [bulk_ops]; constructor.
  - apply upsert_op_keyed.
  - apply IH.
Qed.

Lemma bulk_ops_has_key url idx t batch :
  existsb (op_has_key url idx) (bulk_ops clock t batch) = existsb (doc_has_key url idx) batch.
Proof.
  revert t. induction batch as [|d batch IH]; intros t; cbn [bulk_ops existsb]; [reflexivity|].
  rewrite IH. reflexivity.
Qed.

Lemma upsert_batch_count url idx sr batch :
  key_count url idx (collection (fst (upsert_batch clock sr batch))) =
  count_after (key_count url idx (collection (fst sr))) (existsb (doc_has_key url idx) batch).
Proof.
  unfold upsert_batch.
  pose proof (bulkWrite_count (bulk_ops clock (ticks (fst sr)) batch) url idx
                (collection (fst sr)) (bulk_ops_keyed _ _)) as H.
  destruct (bulkWrite (collection (fst sr)) (bulk_ops clock (ticks (fst sr)) batch)) as [c r].
  cbn [fst collection] in *. rewrite H, bulk_ops_has_key. reflexivity.
Qed.

Lemma batches_count url idx batches sr :
  key_count url idx (collection (fst (fold_left (upsert_batch clock) batches sr))) =
  count_after (key_count url idx (collection (fst sr)))
    (existsb (doc_has_key url idx) (List.concat batches)).
Proof.
  revert sr. induction batches as [|b batches IH]; intros sr; cbn [fold_left List.concat].
  - unfold count_after. cbn [existsb]. destruct (key_count url idx (collection (fst sr))); reflexivity.
  - rewrite IH, upsert_batch_count, count_after_orb, existsb_app. reflexivity.
Qed.

End Clock.

(** The batches of [chunkArray] are the array cut in pieces. *)
Lemma chunk_from_concat {T} fuel (array : list T) size :
  (0 < size)%nat -> (List.length array <= fuel)%nat ->
  List.concat (chunk_from fuel array size) = array.
Proof.
  intros Hs. revert array. induction fuel as [|fuel IH]; intros array Hl; cbn [chunk_from].
  - destruct array; [reflexivity|cbn in Hl; lia].
  - destruct array as [|x array']; [reflexivity|].
    cbn [List.concat]. rewrite IH.
    + apply firstn_skipn.
    + rewrite length_skipn. cbn [List.length] in *. lia.
Qed.

Lemma chunkArray_concat {T} (array : list T) size :
  (0 < size)%nat -> List.concat (chunkArray array size) = array.
Proof. intros H. apply chunk_from_concat; [exact H|apply Nat.le_refl]. Qed.


(** Upserting again under the same key with a different content. *)
Lemma update_first_again op1 op2 l l1 ch :
  keyed op1 ->
  filter_source_url op2 = filter_source_url op1 ->
  filter_chunk_index op2 = filter_chunk_index op1 ->
  (forall id, doc_eqb (set_fields op1 id) (set_fields op2 id) = false) ->
  update_first op1 l = Some (l1, ch) ->
  exists l2, update_first op2 l1 = Some (l2, true).
Proof.
  intros K E1 E2 D. revert l1 ch.
  assert (M : forall d, matches op2 d = matches op1 d).
  { intros d. unfold matches. rewrite E1, E2. reflexivity. }
  induction l as [|d l IH]; intros l1 ch; cbn [update_first]; [discriminate|].
  destruct (matches op1 d) eqn:Md.
  - intros [= <- <-]. cbn [update_first].
    rewrite M, matches_has_key, (has_key_set_fields _ _ _ _ K), op_has_key_self.
    destruct (K (_id d)) as (_ & _ & ->). rewrite D. eexists. reflexivity.
  - destruct (update_first op1 l) as [[l' ch']|]; [|discriminate].
    intros [= <- <-]. cbn [update_first]. rewrite M, Md.
    destruct (IH l' ch' eq_refl) as [l2 ->]. eexists. reflexivity.
Qed.

Lemma update_first_inserted op1 op2 l id :
  keyed op1 ->
  filter_source_url op2 = filter_source_url op1 ->
  filter_chunk_index op2 = filter_chunk_index op1 ->
  (forall id, doc_eqb (set_fields op1 id) (set_fields op2 id) = false) ->
  update_first op1 l = None ->
  exists l2, update_first op2 (l ++ [set_fields op1 id]) = Some (l2, true).
Proof.
  intros K E1 E2 D.
  assert (M : forall d, matches op2 d = matches op1 d).
  { intros d. unfold matches. rewrite E1, E2. reflexivity. }
  induction l as [|d l IH]; cbn [update_first app].
  - intros _. rewrite M, matches_has_key, (has_key_set_fields _ _ _ _ K), op_has_key_self.
    destruct (K id) as (_ & _ & ->). rewrite D. eexists. reflexivity.
  - rewrite M. destruct (matches op1 d); [discriminate|].
    destruct (update_first op1 l) as [[l' ch']|]; [discriminate|].
    intros _. destruct (IH eq_refl) as [l2 ->]. eexists. reflexivity.
Qed.

Lemma updateOne_again op1 op2 c :
  keyed op1 ->
  filter_source_url op2 = filter_source_url op1 ->
  filter_chunk_index op2 = filter_chunk_index op1 ->
  (forall id, doc_eqb (set_fields op1 id) (set_fields op2 id) = false) ->
  snd (updateOne (fst (updateOne c op1)) op2) = {| upsertedCount := 0; modifiedCount := 1 |}.
Proof.
  intros K E1 E2 D. unfold updateOne at 2.
  destruct (update_first op1 (docs c)) as [[l1 ch]|] eqn:U; cbn [fst].
  - destruct (update_first_again _ _ _ _ _ K E1 E2 D U) as [l2 H].
    unfold updateOne. cbn [docs]. rewrite H. reflexivity.
  - destruct (update_first_inserted _ _ _ (next_id c) K E1 E2 D U) as [l2 H].
    unfold updateOne. cbn [docs]. rewrite H. reflexivity.
Qed.

Lemma obj_set_differs (m : obj) k v1 v2 :
  jsval_eqb v1 v2 = false -> obj_eqb (obj_set m k v1) (obj_set m k v2) = false.
Proof.
  intros H. unfold obj_eqb. induction m as [|[k' v'] m IH]; cbn [obj_set list_eqb fst snd].
  - rewrite H. apply andb_false_intro1, andb_false_r.
  - destruct (String.eqb k k'); cbn [list_eqb fst snd].
    + rewrite H. apply andb_false_intro1, andb_false_r.
    + rewrite IH. apply andb_false_r.
Qed.

Lemma upsert_op_differs t1 t2 doc id :
  t1 <> t2 ->
  doc_eqb (set_fields (upsert_op t1 doc) id) (set_fields (upsert_op t2 doc) id) = false.
Proof.
  intros H. unfold doc_eqb. cbn [upsert_op set_fields metadata].
  rewrite obj_set_differs; [apply andb_false_r|].
  cbn. apply Z.eqb_neq, H.
Qed.

Lemma handleUpsert_single clock doc s :
  handleUpsert clock [doc] s =
  ({| collection := fst (updateOne (collection s) (upsert_op (clock (ticks s)) doc));
      ticks := ticks s + 1 |},
   {| upserted_count :=
        upsertedCount (snd (updateOne (collection s) (upsert_op (clock (ticks s)) doc)));
      modified_count :=
        modifiedCount (snd (updateOne (collection s) (upsert_op (clock (ticks s)) doc))) |}).
Proof.
  unfold handleUpsert, chunkArray, BATCH_SIZE. cbn [List.length chunk_from firstn fold_left].
  unfold upsert_batch. cbn [fst snd bulk_ops List.length].
  rewrite bulkWrite_fold. cbn [fold_left]. unfold bulk_step. cbn [fst snd].
  destruct (updateOne (collection s) (upsert_op (clock (ticks s)) doc)) as [c r].
  cbn [fst snd upsertedCount modifiedCount upserted_count modified_count].
  rewrite !Z.add_0_l. reflexivity.
Qed.

Lemma handleUpsert_count clock documents s url idx :
  key_count url idx (collection (fst (handleUpsert clock documents s))) =
  count_after (key_count url idx (collection s)) (existsb (doc_has_key url idx) documents).
Proof.
  unfold handleUpsert. rewrite batches_count. cbn [fst].
  rewrite chunkArray_concat by (unfold BATCH_SIZE; lia). reflexivity.
Qed.

(** Upserting again under the same key with the same content. *)
Lemma number_eqb_refl x : number_eqb x x = true.
Proof. apply FloatAxioms.Leibniz.eqb_spec. reflexivity. Qed.

Lemma list_eqb_refl {A} (eqb : A -> A -> bool) (l : list A) :
  (forall x, eqb x x = true) -> list_eqb eqb l l = true.
Proof. intros H. induction l as [|x l IH]; cbn; [reflexivity|]. rewrite H, IH. reflexivity. Qed.

Lemma jsval_eqb_refl v : jsval_eqb v v = true.
Proof.
  destruct v; cbn.
  - apply String.eqb_refl.
  - apply Bool.eqb_reflx.
  - apply number_eqb_refl.
  - apply Z.eqb_refl.
Qed.

Lemma doc_eqb_refl d : doc_eqb d d = true.
Proof.
  unfold doc_eqb, bbox_eqb, obj_eqb.
  rewrite Nat.eqb_refl, !String.eqb_refl, !Z.eqb_refl, !number_eqb_refl.
  rewrite (list_eqb_refl _ (metadata d))
    by (intros [k v]; cbn; rewrite String.eqb_refl, jsval_eqb_refl; reflexivity).
  destruct (embedding d) as [v|]; destruct (embedding_dimensions d) as [n|]; cbn;
    rewrite ?Nat.eqb_refl, ?(list_eqb_refl _ _ number_eqb_refl); reflexivity.
Qed.

Lemma update_first_same op l l1 ch :
  keyed op -> update_first op l = Some (l1, ch) ->
  exists l2, update_first op l1 = Some (l2, false).
Proof.
  intros K. revert l1 ch.
  induction l as [|d l IH]; intros l1 ch; cbn [update_first]; [discriminate|].
  destruct (matches op d) eqn:Md.
  - intros [= <- <-]. cbn [update_first].
    rewrite matches_has_key, (has_key_set_fields _ _ _ _ K), op_has_key_self.
    destruct (K (_id d)) as (_ & _ & ->). rewrite doc_eqb_refl. eexists. reflexivity.
  - destruct (update_first op l) as [[l' ch']|]; [|discriminate].
    intros [= <- <-]. cbn [update_first]. rewrite Md.
    destruct (IH l' ch' eq_refl) as [l2 ->]. eexists. reflexivity.
Qed.

Lemma update_first_inserted_same op l id :
  keyed op -> update_first op l = None ->
  exists l2, update_first op (l ++ [set_fields op id]) = Some (l2, false).
Proof.
  intros K.
  induction l as [|d l IH]; cbn [update_first app].
  - intros _. rewrite matches_has_key, (has_key_set_fields _ _ _ _ K), op_has_key_self.
    destruct (K id) as (_ & _ & ->). rewrite doc_eqb_refl. eexists. reflexivity.
  - destruct (matches op d); [discriminate|].
    destruct (update_first op l) as [[l' ch']|]; [discriminate|].
    intros _. destruct (IH eq_refl) as [l2 ->]. eexists. reflexivity.
Qed.

Lemma updateOne_same op c :
  keyed op ->
  snd (updateOne (fst (updateOne c op)) op) = {| upsertedCount := 0; modifiedCount := 0 |}.
Proof.
  intros K. unfold updateOne at 2.
  destruct (update_first op (docs c)) as [[l1 ch]|] eqn:U; cbn [fst].
  - destruct (update_first_same _ _ _ _ K U) as [l2 H].
    unfold updateOne. cbn [docs]. rewrite H. reflexivity.
  - destruct (update_first_inserted_same _ _ (next_id c) K U) as [l2 H].
    unfold updateOne. cbn [docs]. rewrite H. reflexivity.
Qed.

(** A store with no record, and the store that a sequence of upsert
    requests leaves of it. *)
Definition empty_store : Store :=
  {| collection := {| docs := []; next_id := 0 |}; ticks := 0 |}.

Definition written (clock : nat -> Z) (requests : list (list UpsertDoc)) (s : Store) : Store :=
  fold_left (fun s documents => fst (handleUpsert clock documents s)) requests s.

Lemma count_after_one n b : (n <= 1)%nat -> (count_after n b <= 1)%nat.
Proof. unfold count_after. destruct n as [|[|n]], b; cbn; lia. Qed.

Lemma written_at_most_one clock requests s url idx :
  (key_count url idx (collection s) <= 1)%nat ->
  (key_count url idx (collection (written clock requests s)) <= 1)%nat.
Proof.
  revert s. induction requests as [|documents requests IH]; intros s H; cbn [written fold_left].
  - exact H.
  - apply IH. rewrite handleUpsert_count. apply count_after_one, H.
Qed.

(** C3, amended.  A store written by upserts alone holds at most one
    record under every key [(source_url, chunk_index)].  Upserting the
    same chunk twice leaves one record under its key when the store held
    none or one (and the records it had, when it held more); the second
    call inserts nothing and reports one modified record when the clock
    readings of the two calls differ ([embedded_at] is rewritten) and
    none when they are equal.  For every batch and every key, the store
    afterwards holds one record under the key when it held none and the
    batch has a chunk of that key, and as many as before otherwise: no
    upsert adds a second record to a key. *)
Theorem upsert_keyed_by_source_and_index
  (clock : nat -> Z) (s : Store) (doc : UpsertDoc)
  (documents : list UpsertDoc) (requests : list (list UpsertDoc)) (url : string) (idx : Z) :
  (key_count url idx (collection (written clock requests empty_store)) <= 1)%nat /\
  (let first := handleUpsert clock [doc] s in
   let second := handleUpsert clock [doc] (fst first) in
   key_count (u_source_url doc) (u_chunk_index doc) (collection (fst second)) =
     Nat.max 1 (key_count (u_source_url doc) (u_chunk_index doc) (collection s)) /\
   upserted_count (snd second) = 0 /\
   modified_count (snd second) =
     if clock (ticks s) =? clock (S (ticks s)) then 0 else 1) /\
  key_count url idx (collection (fst (handleUpsert clock documents s))) =
  count_after (key_count url idx (collection s)) (existsb (doc_has_key url idx) documents).
Proof.
  split; [apply written_at_most_one; cbn; lia|].
  split; [|apply handleUpsert_count].
  intros first second.
  assert (Hself : doc_has_key (u_source_url doc) (u_chunk_index doc) doc = true).
  { unfold doc_has_key. rewrite String.eqb_refl, Z.eqb_refl. reflexivity. }
  split.
  - unfold second, first. rewrite !handleUpsert_count. cbn [existsb].
    rewrite Hself. cbn [orb]. rewrite count_after_orb. cbn [orb].
    unfold count_after.
    destruct (key_count (u_source_url doc) (u_chunk_index doc) (collection s)) as [|[|n]];
      cbn; lia.
  - unfold second. rewrite handleUpsert_single. cbn [snd upserted_count modified_count].
    unfold first. rewrite handleUpsert_single. cbn [fst collection ticks].
    replace (ticks s + 1)%nat with (S (ticks s)) by lia.
    destruct (clock (ticks s) =? clock (S (ticks s))) eqn:E.
    + apply Z.eqb_eq in E. rewrite <- E. rewrite updateOne_same by apply upsert_op_keyed.
      cbn. split; reflexivity.
    + apply Z.eqb_neq in E. rewrite updateOne_again.
      * cbn. split; reflexivity.
      * apply upsert_op_keyed.
      * reflexivity.
      * reflexivity.
      * intros id. apply upsert_op_differs, E.
Qed.

(** A chunk, upserted twice into the empty store. *)
Definition example_upsert_doc : UpsertDoc :=
  {| u_text := "Height limit 40 feet"; u_embedding := [0.5; 0.5]%float;
     u_file_number := "250700"; u_source_url := "https://sf.gov/a.pdf";
     u_page_number := 1; u_bbox := ReductoParse.full_page; u_chunk_index := 0;
     u_metadata := None |}.

Definition twice (clock : nat -> Z) : Store * UpsertResponse :=
  handleUpsert clock [example_upsert_doc]
    (fst (handleUpsert clock [example_upsert_doc] empty_store)).

(** With a clock that advances, the second call modifies the record. *)
Lemma upsert_twice_later :
  key_count "https://sf.gov/a.pdf" 0 (collection (fst (twice Z.of_nat))) = 1%nat /\
  snd (twice Z.of_nat) = {| upserted_count := 0; modified_count := 1 |}.
Proof. split; reflexivity. Qed.

(** C3, as the claim states it, fails when the two calls read the same
    time: the second [$set] writes what is stored already, and the call
    reports no modified record. *)
Lemma same_instant_modifies_nothing :
  key_count "https://sf.gov/a.pdf" 0 (collection (fst (twice (fun _ => 1700000000000)))) = 1%nat /\
  snd (twice (fun _ => 1700000000000)) = {| upserted_count := 0; modified_count := 0 |} /\
  ~ (modified_count (snd (twice (fun _ => 1700000000000))) >= 1).
Proof.
  assert (E : snd (twice (fun _ => 1700000000000)) =
              {| upserted_count := 0; modified_count := 0 |}) by reflexivity.
  split; [reflexivity|]. split; [exact E|]. rewrite E. cbn [modified_count]. lia.
Qed.

End UpsertFacts.

(** ** The chunk normalizer ([transformPipelineResponse]) *)
Module NormalizerFacts.
Import JS Types ReductoParse.
Local Open Scope string_scope.

Section Detectors.
Variable detectSection : string -> option string.
Variable detectTableContent : string -> bool.

Local Abbreviation transform := (transformPipelineResponse detectSection detectTableContent).

(** A response with an empty top-level [chunks] array and a markdown
    text, and the same response without the array. *)
Definition empty_chunks_and_markdown : ReductoPipelineResponse :=
  {| result := None;
     chunks := Some [];
     markdown := Some "Height limits apply to every parcel of the district.";
     text_ := None |}.

Definition markdown_only : ReductoPipelineResponse :=
  {| result := None;
     chunks := None;
     markdown := Some "Height limits apply to every parcel of the district.";
     text_ := None |}.

(** C5.  The third strategy is selected as soon as the response has a
    top-level [chunks] array, also an empty one (the first two test
    [length > 0]); the markdown of such a response is then not read and
    the normalizer returns no chunk, although the markdown strategy
    yields one. *)
Theorem empty_top_level_chunks_shadow_markdown :
  selected empty_chunks_and_markdown = F3 /\
  transform empty_chunks_and_markdown = [] /\
  selected markdown_only = F4 /\
  List.length (transform markdown_only) = 1%nat.
Proof. repeat split; reflexivity. Qed.

(** The branch that runs is the one [selected] names, and only it. *)
Lemma transform_selected response :
  transform response =
  match selected response with
  | F1 => fst (format1 detectSection detectTableContent
                 (match result response with
                  | Some r => match r_chunks r with Some l => l | None => [] end
                  | None => []
                  end))
  | F2 => fst (format2 detectSection detectTableContent
                 (match result response with
                  | Some r => blocks_or_nil (r_blocks r)
                  | None => []
                  end))
  | F3 => fst (format3 detectSection detectTableContent
                 (match chunks response with Some l => l | None => [] end))
  | F4 => fst (format4 detectSection detectTableContent
                 (match markdown_or_text response with
                  | Some s => s
                  | None => EmptyString
                  end))
  | Unrecognized => []
  end.
Proof.
  unfold transformPipelineResponse, selected.
  destruct (result response) as [r|]; cbn [nonempty].
  - destruct (nonempty (r_chunks r)); [reflexivity|].
    destruct (nonempty (r_blocks r)); [reflexivity|].
    destruct (chunks response); [reflexivity|].
    destruct (truthy_opt (markdown_or_text response)); reflexivity.
  - destruct (chunks response); [reflexivity|].
    destruct (truthy_opt (markdown_or_text response)); reflexivity.
Qed.

(** A populated [result.chunks] array is used alone: the result does not
    depend on any other field of the response. *)
Lemma structured_chunks_exclusive c cs bl rmd rtx top md tx :
  transform
    {| result := Some {| r_chunks := Some (c :: cs); r_blocks := bl;
                         r_markdown := rmd; r_text := rtx |};
       chunks := top; markdown := md; text_ := tx |} =
  fst (format1 detectSection detectTableContent (c :: cs)).
Proof. reflexivity. Qed.

(** So is a populated top-level [chunks] array when [result] has no
    chunks and no blocks. *)
Lemma top_level_chunks_exclusive c cs md tx :
  transform {| result := None; chunks := Some (c :: cs); markdown := md; text_ := tx |} =
  fst (format3 detectSection detectTableContent (c :: cs)).
Proof. reflexivity. Qed.

(** The response [r] with other markdown and text fields. *)
Definition with_texts (r : ReductoPipelineResponse) (rmd rtx md tx : option string)
  : ReductoPipelineResponse :=
  {| result := option_map (fun res => {| r_chunks := r_chunks res; r_blocks := r_blocks res;
                                         r_markdown := rmd; r_text := rtx |}) (result r);
     chunks := chunks r; markdown := md; text_ := tx |}.

(** A response with a populated chunks array, in [result] or at the top
    level, is normalized without a look at its markdown and text
    fields: whatever they hold, the chunks are the same. *)
Lemma populated_chunks_ignore_markdown r rmd rtx md tx :
  nonempty (match result r with Some res => r_chunks res | None => None end) = true \/
  nonempty (chunks r) = true ->
  transform (with_texts r rmd rtx md tx) = transform r.
Proof.
  unfold transformPipelineResponse, with_texts.
  destruct r as [[res|] top md0 tx0]; cbn [result chunks option_map r_chunks r_blocks].
  - destruct (nonempty (r_chunks res)); [reflexivity|].
    destruct (nonempty (r_blocks res)); [reflexivity|].
    destruct top as [l|]; [reflexivity|]. intros [H|H]; discriminate H.
  - destruct top as [l|]; [reflexivity|]. intros [H|H]; discriminate H.
Qed.

(** A markdown text of 500 characters with one blank line in the middle. *)
Definition letters (c : ascii) (n : nat) : string := string_of_list_ascii (repeat c n).

Definition markdown_500 : string :=
  letters "a" 249 ++ newline ++ newline ++ letters "b" 249.

Lemma markdown_500_two_chunks :
  String.length markdown_500 = 500%nat /\
  map text (transform {| result := None; chunks := None;
                         markdown := Some markdown_500; text_ := None |}) =
  [letters "a" 249; letters "b" 249].
Proof. split; vm_compute; reflexivity. Qed.

End Detectors.

Lemma populated_chunks_ignore_markdown_witness :
  let r := {| result := None;
              chunks := Some [{| tc_content := Some "Height limit 40 feet";
                                 tc_text := None; tc_json := "{}" |}];
              markdown := None; text_ := None |} in
  transformPipelineResponse (fun _ => None) (fun _ => false)
    (with_texts r None None (Some "Setbacks are measured from the property line.") None) =
  transformPipelineResponse (fun _ => None) (fun _ => false) r.
Proof.
  apply populated_chunks_ignore_markdown. right. reflexivity.
Defined.

End NormalizerFacts.

(** ** Query enrichment ([enhanceQuery]) *)
Module QueryFacts.
Import JS VoyageEmbed.
Local Open Scope string_scope.

(** C9.  The entry [rto] of the table is applied before [rto-c]: it
    rewrites the [rto] of [rto-c] (the hyphen is a word boundary), after
    which the text no longer includes [rto-c] and that entry is passed
    over.  The full designation of RTO-C never appears. *)
Theorem enhanceQuery_rto_c_not_expanded :
  enhanceQuery "RTO-C" = "RTO Residential Transit Oriented-c" /\
  includes (enhanceQuery "RTO-C") "Residential Transit Oriented Commercial" = false /\
  enhanceQuery "height limit in RTO-C districts" =
    "height limit in RTO Residential Transit Oriented-c districts".
Proof. repeat split; reflexivity. Qed.

(** Every term of the table given alone, in the order of the table: all
    but [rto-c] and [rto-m] become their expansion. *)
Lemma enhanceQuery_table_terms :
  map (fun entry => enhanceQuery (fst entry)) zoningTerms =
  ["RTO Residential Transit Oriented";
   "RTO Residential Transit Oriented-c";
   "RTO Residential Transit Oriented-m";
   "NC Neighborhood Commercial";
   "RM Residential Mixed";
   "RH Residential House";
   "C-3 Downtown Commercial";
   "South of Market SOMA";
   "Builder's Remedy Housing Accountability Act HAA";
   "Housing Element General Plan";
   "California Environmental Quality Act CEQA";
   "Environmental Impact Report EIR"].
Proof. vm_compute. reflexivity. Qed.

End QueryFacts.

(** ** Text cleaning ([cleanText]) *)
Module CleanTextFacts.
Import JS Types ReductoParse.
Local Open Scope list_scope.

(** The loop of a quantified class, as [match_here] runs it. *)
Section Many.
Variable icase : bool.
Variable min : nat.
Variable p : ascii -> bool.
Variable r' : regex.

Fixpoint many (n : nat) (prev : option ascii) (s : chars) {struct s}
  : option (option ascii * chars) :=
  let stop := if (min <=? n)%nat then match_here icase r' prev s else None in
  match s with
  | x :: s' =>
      if p x then
        match many (S n) (Some x) s' with
        | Some res => Some res
        | None => stop
        end
      else stop
  | [] => stop
  end.

Lemma match_here_Many prev s :
  match_here icase (Many min p :: r') prev s = many 0 prev s.
Proof. reflexivity. Qed.
End Many.

(** A match consumes a prefix of the input. *)
Lemma match_here_suffix icase r : forall prev s prev' rest,
  match_here icase r prev s = Some (prev', rest) -> exists pre, s = pre ++ rest.
Proof.
  induction r as [|a r IH]; intros prev s prev' rest H.
  - cbn in H. injection H as _ <-. exists []. reflexivity.
  - destruct a as [c|p|min p|].
    + cbn in H. destruct s as [|x s']; [discriminate|].
      destruct (chr_eq icase c x); [|discriminate].
      destruct (IH _ _ _ _ H) as [pre ->]. exists (x :: pre). reflexivity.
    + cbn in H. destruct s as [|x s']; [discriminate|].
      destruct (p x); [|discriminate].
      destruct (IH _ _ _ _ H) as [pre ->]. exists (x :: pre). reflexivity.
    + rewrite match_here_Many in H. revert H. generalize 0%nat. revert prev.
      induction s as [|x s' IHs]; intros prev n H; cbn in H.
      * destruct (min <=? n)%nat; [|discriminate]. exact (IH _ _ _ _ H).
      * assert (Hstop : (if (min <=? n)%nat then match_here icase r prev (x :: s') else None)
                        = Some (prev', rest) -> exists pre, x :: s' = pre ++ rest).
        { destruct (min <=? n)%nat; [|discriminate]. apply IH. }
        destruct (p x); [|exact (Hstop H)].
        destruct (many icase min p r (S n) (Some x) s') as [res|] eqn:E; [|exact (Hstop H)].
        injection H as ->. destruct (IHs _ _ E) as [pre ->].
        exists (x :: pre). reflexivity.
    + cbn in H.
      destruct (xorb (is_word_opt prev) (is_word_opt (hd_error s))); [|discriminate].
      exact (IH _ _ _ _ H).
Qed.

(** Replacing matches by a text keeps a property that all characters of
    the input and of the text have. *)
Lemma replace_from_Forall (P : ascii -> Prop) icase r by_ :
  Forall P by_ ->
  forall fuel prev s, Forall P s -> Forall P (replace_from fuel icase r by_ prev s).
Proof.
  intros Hby. induction fuel as [|fuel IH]; intros prev s Hs; [exact Hs|].
  cbn [replace_from].
  destruct (match_here icase r prev s) as [[prev' rest]|] eqn:E.
  - destruct (match_here_suffix _ _ _ _ _ _ E) as [pre Hpre].
    destruct (List.length rest <? List.length s)%nat.
    + apply Forall_app. split; [exact Hby|]. apply IH.
      rewrite Hpre in Hs. apply Forall_app in Hs. tauto.
    + destruct s as [|x s']; [exact Hby|].
      apply Forall_app. split; [exact Hby|].
      inversion Hs; subst. constructor; [assumption|]. apply IH. assumption.
  - destruct s as [|x s']; [constructor|].
    inversion Hs; subst. constructor; [assumption|]. apply IH. assumption.
Qed.

(** *** The first step: [/\s+/g] to one space *)

(** A run of white space is matched whole. *)
Lemma many_spaces_more n prev s :
  (1 <= n)%nat -> exists prev', many false 1 is_space [] n prev s = Some (prev', drop_space s).
Proof.
  revert n prev. induction s as [|x s' IH]; intros n prev Hn; cbn [many drop_space].
  - destruct (Nat.leb_spec 1 n); [|lia]. cbn. eauto.
  - destruct (Nat.leb_spec 1 n); [|lia]. destruct (is_space x).
    + destruct (IH (S n) (Some x)) as [prev' ->]; [lia|]. eauto.
    + cbn. eauto.
Qed.

Lemma match_spaces prev s :
  match s with
  | x :: s' =>
      if is_space x
      then exists prev', match_here false re_spaces prev s = Some (prev', drop_space s')
      else match_here false re_spaces prev s = None
  | [] => match_here false re_spaces prev s = None
  end.
Proof.
  unfold re_spaces. rewrite match_here_Many. destruct s as [|x s']; [reflexivity|].
  cbn [many]. destruct (is_space x) eqn:Ex; [|reflexivity].
  destruct (many_spaces_more 1 (Some x) s') as [prev' ->]; [lia|]. eauto.
Qed.

Lemma drop_space_length s : (List.length (drop_space s) <= List.length s)%nat.
Proof.
  induction s as [|x s' IH]; cbn [drop_space]; [lia|].
  destruct (is_space x); cbn [List.length]; lia.
Qed.

(** What is left of a text after its leading white space starts with
    another character. *)
Definition head_is_space (s : chars) : bool :=
  match s with
  | x :: _ => is_space x
  | [] => false
  end.

Lemma drop_space_head s : head_is_space (drop_space s) = false.
Proof.
  induction s as [|x s' IH]; [reflexivity|]. cbn [drop_space].
  destruct (is_space x) eqn:E; [exact IH|]. cbn. exact E.
Qed.

(** The only white space of the text is the space. *)
Definition blank (c : ascii) : Prop := is_space c = true -> c = " "%char.

(** No two white-space characters are next to each other. *)
Fixpoint single_spaced (s : chars) : bool :=
  match s with
  | x :: s' => negb (is_space x && head_is_space s') && single_spaced s'
  | [] => true
  end.

(** One step of the replacement of [/\s+/g]. *)
Lemma replace_spaces_step fuel prev s :
  replace_from (S fuel) false re_spaces [" "%char] prev s =
  match s with
  | x :: s' =>
      if is_space x
      then " "%char :: replace_from fuel false re_spaces [" "%char]
                         (fst (match match_here false re_spaces prev s with
                               | Some res => res
                               | None => (prev, s)
                               end))
                         (drop_space s')
      else x :: replace_from fuel false re_spaces [" "%char] (Some x) s'
  | [] => []
  end.
Proof.
  cbn [replace_from]. pose proof (match_spaces prev s) as H.
  destruct s as [|x s']; [rewrite H; reflexivity|].
  destruct (is_space x).
  - destruct H as [prev' ->]. cbn [fst].
    pose proof (drop_space_length s') as Hl.
    destruct (Nat.ltb_spec (List.length (drop_space s')) (List.length (x :: s')));
      [reflexivity|cbn [List.length] in *; lia].
  - rewrite H. reflexivity.
Qed.

Lemma replace_spaces_head fuel prev s :
  head_is_space s = false ->
  head_is_space (replace_from fuel false re_spaces [" "%char] prev s) = false.
Proof.
  intros H. destruct fuel as [|fuel]; [exact H|].
  rewrite replace_spaces_step. destruct s as [|x s']; [reflexivity|].
  cbn in H. rewrite H. exact H.
Qed.

Lemma replace_spaces_shape : forall fuel prev s,
  (List.length s < fuel)%nat ->
  Forall blank (replace_from fuel false re_spaces [" "%char] prev s) /\
  single_spaced (replace_from fuel false re_spaces [" "%char] prev s) = true.
Proof.
  induction fuel as [|fuel IH]; intros prev s Hlen; [lia|].
  rewrite replace_spaces_step. destruct s as [|x s']; [split; [constructor|reflexivity]|].
  cbn [List.length] in Hlen. destruct (is_space x) eqn:Ex.
  - pose proof (drop_space_length s') as Hl.
    match goal with
    | |- context [replace_from fuel false re_spaces _ ?q (drop_space s')] =>
        destruct (IH q (drop_space s')) as [H1 H2]; [lia|];
        pose proof (replace_spaces_head fuel q _ (drop_space_head s')) as H3
    end.
    split.
    + constructor; [intros _; reflexivity|exact H1].
    + cbn [single_spaced]. rewrite H3, H2, Bool.andb_false_r. reflexivity.
  - destruct (IH (Some x) s') as [H1 H2]; [lia|]. split.
    + constructor; [|exact H1]. intros H. unfold blank in *. congruence.
    + cbn [single_spaced]. rewrite Ex, H2. reflexivity.
Qed.

(** *** The third step: [/\n{3,}/g] *)

Lemma blank_not_newline c : blank c -> is_newline c = false.
Proof.
  intros H. destruct (is_newline c) eqn:E; [|reflexivity].
  assert (Hs : is_space c = true).
  { unfold is_newline in E. apply Nat.eqb_eq in E. unfold is_space. rewrite E. reflexivity. }
  rewrite (H Hs) in E. discriminate E.
Qed.

(** A text without a newline has no run of three. *)
Lemma replace_newlines_none by_ : forall fuel prev s,
  Forall blank s -> replace_from fuel false re_newlines3 by_ prev s = s.
Proof.
  induction fuel as [|fuel IH]; intros prev s Hs; [reflexivity|].
  cbn [replace_from]. unfold re_newlines3. rewrite match_here_Many.
  destruct s as [|x s']; [reflexivity|]. inversion Hs as [|? ? Hx Hs']; subst.
  cbn [many]. rewrite (blank_not_newline _ Hx). cbn. rewrite IH by assumption. reflexivity.
Qed.

(** *** [trim] *)

Lemma drop_space_prefix s : exists pre, s = pre ++ drop_space s.
Proof.
  induction s as [|x s' [pre IH]]; [exists []; reflexivity|]. cbn [drop_space].
  destruct (is_space x); [|exists []; reflexivity].
  exists (x :: pre). cbn. rewrite <- IH. reflexivity.
Qed.

(** The trimmed text is a piece of the text that starts where its
    leading white space ends. *)
Lemma trim_chars_piece s : exists post, drop_space s = trim_chars s ++ post.
Proof.
  unfold trim_chars. destruct (drop_space_prefix (rev (drop_space s))) as [pre H].
  exists (rev pre). rewrite <- rev_app_distr, <- H, rev_involutive. reflexivity.
Qed.

Lemma trim_chars_infix s : exists pre post, s = pre ++ trim_chars s ++ post.
Proof.
  destruct (drop_space_prefix s) as [pre H], (trim_chars_piece s) as [post H'].
  exists pre, post. rewrite <- H'. exact H.
Qed.

Lemma trim_chars_first s c rest : trim_chars s = c :: rest -> is_space c = false.
Proof.
  intros H. destruct (trim_chars_piece s) as [post H']. rewrite H in H'.
  pose proof (drop_space_head s) as Hh. rewrite H' in Hh. exact Hh.
Qed.

Lemma trim_chars_last s front c : trim_chars s = front ++ [c] -> is_space c = false.
Proof.
  unfold trim_chars. intros H. apply (f_equal (@rev ascii)) in H.
  rewrite rev_involutive, rev_app_distr in H. cbn in H.
  pose proof (drop_space_head (rev (drop_space s))) as Hh. rewrite H in Hh. exact Hh.
Qed.

Lemma single_spaced_app a b : single_spaced (a ++ b) = true -> single_spaced a = true /\ single_spaced b = true.
Proof.
  induction a as [|x a IH]; cbn [app single_spaced]; [tauto|].
  intros H. apply Bool.andb_true_iff in H. destruct H as [H1 H2].
  destruct (IH H2) as [Ha Hb]. split; [|exact Hb]. rewrite Ha, Bool.andb_true_r.
  destruct (is_space x); [|reflexivity]. cbn in *.
  destruct a as [|y a]; [reflexivity|exact H1].
Qed.

Lemma trim_chars_single_spaced s : single_spaced s = true -> single_spaced (trim_chars s) = true.
Proof.
  intros H. destruct (trim_chars_infix s) as (pre & post & E). rewrite E in H.
  apply single_spaced_app in H. destruct H as [_ H].
  apply single_spaced_app in H. tauto.
Qed.

Lemma trim_chars_Forall (P : ascii -> Prop) s : Forall P s -> Forall P (trim_chars s).
Proof.
  intros H. destruct (trim_chars_infix s) as (pre & post & E). rewrite E in H.
  apply Forall_app in H. destruct H as [_ H]. apply Forall_app in H. tauto.
Qed.

(** *** The whole function *)

(** The text after the first step. *)
Definition collapsed (content : string) : string := replace_all false re_spaces " " content.

Lemma collapsed_shape content :
  Forall blank (list_ascii_of_string (collapsed content)) /\
  single_spaced (list_ascii_of_string (collapsed content)) = true.
Proof.
  unfold collapsed, replace_all. rewrite list_ascii_of_string_of_list_ascii.
  apply replace_spaces_shape. lia.
Qed.

Lemma footers_removed_blank content :
  Forall blank
    (list_ascii_of_string (replace_all true re_page_footer EmptyString (collapsed content))).
Proof.
  unfold replace_all at 1. rewrite list_ascii_of_string_of_list_ascii.
  apply replace_from_Forall; [constructor|]. apply collapsed_shape.
Qed.

(** The third step never finds a run of newlines: the first has left
    none. *)
Lemma cleanText_two_steps content :
  cleanText content = trim (replace_all true re_page_footer EmptyString (collapsed content)).
Proof.
  unfold cleanText. fold (collapsed content). f_equal.
  unfold replace_all at 1. rewrite replace_newlines_none by apply footers_removed_blank.
  apply string_of_list_ascii_of_string.
Qed.

Lemma cleanText_chars content :
  list_ascii_of_string (cleanText content) =
  trim_chars
    (list_ascii_of_string (replace_all true re_page_footer EmptyString (collapsed content))).
Proof.
  rewrite cleanText_two_steps. unfold trim. apply list_ascii_of_string_of_list_ascii.
Qed.

(** A text with runs of white space and no footer. *)
Definition two_lines : string := ("Height   limit" ++ newline ++ newline ++ " 40 feet ")%string.

(** C10, amended.  The output of [cleanText] has no white-space
    character other than the space, so no newline, and no white space at
    its start or its end.  The white-space runs of the input are
    collapsed to one space each before the footers are deleted, and the
    search for runs of newlines that follows finds none; so every
    white-space run of the output is one space when no footer was
    deleted.  (Strings are texts of characters below U+0100; white
    space is what [\s] and [trim] take there: U+0009 to U+000D, the
    space and the no-break space U+00A0.) *)
Theorem cleanText_spaces_and_ends (content : string) :
  let out := list_ascii_of_string (cleanText content) in
  Forall (fun c => is_space c = true -> c = " "%char) out /\
  (forall c rest, out = c :: rest -> is_space c = false) /\
  (forall front c, out = front ++ [c] -> is_space c = false) /\
  single_spaced (list_ascii_of_string (collapsed content)) = true /\
  cleanText content = trim (replace_all true re_page_footer EmptyString (collapsed content)) /\
  (replace_all true re_page_footer EmptyString (collapsed content) = collapsed content ->
   single_spaced out = true).
Proof.
  cbn zeta. rewrite cleanText_chars.
  split; [|split; [|split; [|split; [|split]]]].
  - apply (trim_chars_Forall blank), footers_removed_blank.
  - intros c rest. apply trim_chars_first.
  - intros front c. apply trim_chars_last.
  - apply collapsed_shape.
  - apply cleanText_two_steps.
  - intros E. rewrite E. apply trim_chars_single_spaced, collapsed_shape.
Qed.

Lemma cleanText_spaces_and_ends_witness :
  replace_all true re_page_footer EmptyString (collapsed two_lines) = collapsed two_lines /\
  single_spaced (list_ascii_of_string (cleanText two_lines)) = true.
Proof.
  split; [vm_compute; reflexivity|].
  refine (proj2 (proj2 (proj2 (proj2 (proj2 (cleanText_spaces_and_ends two_lines))))) _).
  vm_compute. reflexivity.
Defined.

(** The no-break space U+00A0 is white space for [\s] and for [trim]. *)
Definition nbsp : string := String (ascii_of_nat 160) EmptyString.

Lemma cleanText_no_break_space :
  cleanText ("a" ++ nbsp ++ nbsp ++ "b" ++ nbsp) = "a b"%string /\
  trim (nbsp ++ "abcdefghij") = "abcdefghij"%string.
Proof. split; vm_compute; reflexivity. Qed.

(** C10, as the claim states it, fails.  The footer is deleted after
    the white space was collapsed, so the spaces on its two sides end up
    next to each other; and deleting one footer can bring the parts of
    another together, which then stays in the output. *)
Lemma cleanText_footer_leaves_double_space :
  cleanText "a Page 1 of 2 b" = "a  b"%string /\
  single_spaced (list_ascii_of_string (cleanText "a Page 1 of 2 b")) = false /\
  cleanText "Page 1 Page 2 of 3 of 4" = "Page 1  of 4"%string /\
  match_here true re_page_footer None
    (list_ascii_of_string (cleanText "Page 1 Page 2 of 3 of 4")) = Some (Some "4"%char, []).
Proof. repeat split; vm_compute; reflexivity. Qed.

End CleanTextFacts.


(** ** Running computations *)
Module EffFacts.
Import Eff.

Lemma bind_Ret {S A B} (c : M S A) (k : A -> M S B) s a s' :
  c s = (Ret a, s') -> bind c k s = k a s'.
Proof. intros H. unfold bind. rewrite H. reflexivity. Qed.

Lemma bind_Throw {S A B} (c : M S A) (k : A -> M S B) s e s' :
  c s = (Throw e, s') -> bind c k s = (Throw e, s').
Proof. intros H. unfold bind. rewrite H. reflexivity. Qed.

Lemma for_each_throws {S A} (f : A -> M S unit) done x rest s s1 e s2 :
  for_each done f s = (Ret tt, s1) -> f x s1 = (Throw e, s2) ->
  for_each (done ++ x :: rest) f s = (Throw e, s2).
Proof.
  revert s. induction done as [|y done IH]; intros s; cbn [for_each app].
  - unfold ret. intros [= <-] H. apply (bind_Throw _ _ _ _ _ H).
  - unfold bind at 1. destruct (f y s) as [[[]|e'] s'] eqn:E; [|discriminate].
    intros H1 H2. rewrite (bind_Ret _ _ _ _ _ E). apply IH; assumption.
Qed.

(** A computation that throws nothing but [Error] objects. *)
Definition throws_errors {S A} (c : M S A) : Prop :=
  forall s, fst (c s) <> Throw None.

Lemma te_ret {S A} (a : A) : throws_errors (@ret S A a).
Proof. intros s. discriminate. Qed.

Lemma te_throw {S A} msg : throws_errors (@throw S A msg).
Proof. intros s. discriminate. Qed.

Lemma te_get {S} : throws_errors (@get S).
Proof. intros s. discriminate. Qed.

Lemma te_modify {S} (f : S -> S) : throws_errors (modify f).
Proof. intros s. discriminate. Qed.

Lemma te_lift {S A} (f : S -> A * S) : throws_errors (lift f).
Proof. intros s. unfold lift. destruct (f s). discriminate. Qed.

Lemma te_bind {S A B} (c : M S A) (k : A -> M S B) :
  throws_errors c -> (forall a, throws_errors (k a)) -> throws_errors (bind c k).
Proof.
  intros Hc Hk s. unfold bind. specialize (Hc s).
  destruct (c s) as [[a|e] s']; [apply Hk|].
  cbn [fst] in *. intros E. apply Hc. injection E as ->. reflexivity.
Qed.

Lemma te_for_each {S A} (l : list A) (f : A -> M S unit) :
  (forall x, throws_errors (f x)) -> throws_errors (for_each l f).
Proof.
  intros H. induction l as [|x l IH]; cbn [for_each].
  - apply te_ret.
  - apply te_bind; [apply H|intros _; exact IH].
Qed.

(** [retryWithBackoff] throws the last error of its operation. *)
Lemma te_retry_loop {S T} (operation : M S T) n lastError :
  throws_errors operation -> lastError <> None \/ n <> O ->
  throws_errors (Utils.retry_loop operation n lastError).
Proof.
  intros Hop. revert lastError. induction n as [|n IH]; intros lastError H s; cbn [Utils.retry_loop].
  - unfold throw_value. cbn [fst]. destruct H as [H|H]; congruence.
  - unfold try_catch. pose proof (Hop s) as Hs.
    destruct (operation s) as [[a|e] s']; cbn [fst] in *; [discriminate|].
    apply IH. left. congruence.
Qed.

Ltac te_basic :=
  repeat first
    [ apply te_ret | apply te_throw | apply te_get | apply te_modify | apply te_lift
    | apply te_for_each; intros ?
    | apply te_bind; [|intros ?]
    | match goal with
      | |- throws_errors (match ?x with _ => _ end) => destruct x
      | |- throws_errors (if ?x then _ else _) => destruct x
      end ].

End EffFacts.

(** ** The embedding function ([voyage-embed]) *)
Module EmbedFacts.
Import JS Eff Types Utils VoyageEmbed EffFacts.
Local Open Scope string_scope.
Local Open Scope eff_scope.

Section World.
Variable W : Type.
Variable now : W -> Z * W.
Variable voyage_api :
  list string -> string -> string -> W -> Fetched VoyageEmbeddingResponse * W.
Variable VOYAGE_API_KEY : option string.

Local Abbreviation state := (VoyageEmbed.state W).
Local Abbreviation serve_ := (serve W now voyage_api VOYAGE_API_KEY).
Local Abbreviation embed_call_ := (embed_call W voyage_api).
Local Abbreviation process_batch_ := (process_batch W voyage_api).

Definition set_world (w : W) (st : state) : state :=
  {| world := w; embeddedChunks := embeddedChunks W st; totalTokens := totalTokens W st |}.

Lemma serve_on_world_eval {A} (f : W -> A * W) st a w' :
  f (world W st) = (a, w') -> on_world W f st = (Ret a, set_world w' st).
Proof. intros H. unfold on_world, lift. rewrite H. reflexivity. Qed.

Lemma serve_respond_eval {T} (data : option T) error startTime st n1 w1 n2 w2 :
  now (world W st) = (n1, w1) -> now w1 = (n2, w2) ->
  respond W now data error startTime st =
  (Ret (createResponse data error startTime n1 n2), set_world w2 st).
Proof.
  intros H1 H2. unfold respond.
  rewrite (bind_Ret _ _ _ _ _ (serve_on_world_eval now st n1 w1 H1)).
  rewrite (bind_Ret _ _ _ _ _ (serve_on_world_eval now (set_world w1 st) n2 w2 H2)).
  reflexivity.
Qed.

Lemma te_embed_call texts input_type : throws_errors (embed_call_ texts input_type).
Proof. unfold embed_call, on_world. te_basic. Qed.

(** The request's input type, ["document"] unless it names one. *)
Definition input_type_of (req : EmbedRequest) : string :=
  match req_input_type req with
  | Some t => t
  | None => "document"
  end.

(** The state in which the batch loop starts: the handler has read the
    clock once. *)
Definition loop_start (w : W) : state := set_world (snd (now w)) (initial W w).

(** When the call for one batch still fails at its third attempt, the
    handler answers with the error and no data: the chunks that earlier
    batches embedded stay in its local array and reach no caller. *)
Lemma failed_batch_fails_request
  (req : EmbedRequest) (w : W) key chunks done batch rest st1 e st2 :
  VOYAGE_API_KEY = Some key -> truthy_str key = true ->
  req_chunks req = Some chunks ->
  chunkArray chunks VOYAGE_BATCH_SIZE = (done ++ batch :: rest)%list ->
  for_each done (process_batch_ (req_file_number req) (req_source_url req) (input_type_of req))
    (loop_start w) = (Ret tt, st1) ->
  retryWithBackoff (embed_call_ (map prepareTextForEmbedding batch) (input_type_of req))
    default_maxRetries st1 = (Throw e, st2) ->
  exists msg resp st3,
    e = Some msg /\
    serve_ req (initial W w) = (Ret resp, st3) /\
    api_data (body resp) = None /\
    api_error (body resp) = (if truthy_str msg then Some msg else None) /\
    embeddedChunks W st3 = embeddedChunks W st2.
Proof.
  intros Hkey Htruthy Hchunks Hbatches Hdone Hfail.
  assert (He : exists msg, e = Some msg).
  { pose proof (te_retry_loop (embed_call_ (map prepareTextForEmbedding batch) (input_type_of req))
                  default_maxRetries None (te_embed_call _ _)
                  (or_intror (Nat.neq_succ_0 _)) st1) as Hn.
    unfold retryWithBackoff in Hfail. rewrite Hfail in Hn. cbn [fst] in Hn.
    destruct e as [msg|]; [eauto|congruence]. }
  destruct He as [msg ->].
  assert (Hne : exists c cs, chunks = c :: cs).
  { destruct chunks as [|c cs]; [|eauto].
    cbn in Hbatches. destruct done; discriminate. }
  destruct Hne as (c & cs & ->).
  unfold serve. destruct (now w) as [startTime w0] eqn:N0.
  erewrite bind_Ret by (apply serve_on_world_eval; cbn [world initial]; exact N0).
  assert (Hloop : for_each (chunkArray (c :: cs) VOYAGE_BATCH_SIZE)
                    (process_batch_ (req_file_number req) (req_source_url req) (input_type_of req))
                    (set_world w0 (initial W w)) = (Throw (Some msg), st2)).
  { rewrite Hbatches. eapply for_each_throws.
    - unfold loop_start in Hdone. rewrite N0 in Hdone. exact Hdone.
    - unfold process_batch. apply (bind_Throw _ _ _ _ _ Hfail). }
  unfold try_catch, serve_body, serve_chunks. rewrite Hkey. unfold getRequiredEnv. rewrite Htruthy.
  erewrite bind_Ret by reflexivity. rewrite Hchunks.
  fold (input_type_of req). rewrite (bind_Throw _ _ _ _ _ Hloop).
  cbn [message]. erewrite bind_Ret by reflexivity.
  destruct (now (world W st2)) as [n1 w1] eqn:N1. destruct (now w1) as [n2 w2] eqn:N2.
  rewrite (serve_respond_eval _ _ _ _ _ _ _ _ N1 N2).
  eexists msg, _, _. split; [reflexivity|]. split; [reflexivity|].
  cbn. destruct (truthy_str msg); repeat split.
Qed.

End World.
End EmbedFacts.

(** ** The orchestrator ([runPipelineSync]) *)
Module PipelineFacts.
Import JS Eff Types Utils Orchestrate EffFacts.
Local Open Scope string_scope.
Local Open Scope eff_scope.

Section World.
Variable W : Type.
Variable now : W -> Z * W.
Variable generateJobId : W -> string * W.
Variable discover : DiscoverBody -> W -> Fetched (APIResponse DiscoverData) * W.
Variable parse : string -> string -> W -> Fetched (APIResponse ParseData) * W.
Variable embed : VoyageEmbed.EmbedRequest -> W -> Fetched (APIResponse EmbedData) * W.
Variable upsert :
  list VoyageEmbed.EmbeddedChunk -> W -> Fetched (APIResponse UpsertData) * W.

Local Abbreviation run := (runPipelineSync W now generateJobId discover parse embed upsert).
Local Abbreviation body_ := (pipeline_body W now discover parse embed upsert).
Local Abbreviation start := (initial W now generateJobId).
Local Abbreviation state := (Orchestrate.state W).

(** The request sent to the discovery function. *)
Definition discover_body (request : PipelineRequest) : DiscoverBody :=
  {| db_file_numbers := req_file_numbers request;
     db_search_terms := match req_search_terms request with
                        | Some l => l
                        | None => default_search_terms
                        end;
     db_limit := match req_pdf_limit request with
                 | Some n => if (n =? 0)%Z then 3%Z else n
                 | None => 3%Z
                 end |}.

(** The documents a discovery answer lists. *)
Definition discovered (r : APIResponse DiscoverData) : list FirecrawlDiscoveryResult :=
  match api_data r with
  | Some d => match d_discovered_pdfs d with Some l => l | None => [] end
  | None => []
  end.

(** *** Running the orchestrator step by step *)

Definition set_world (w : W) (st : state) : state :=
  {| world := w; job := job W st; allChunks := allChunks W st;
     embeddedChunks := embeddedChunks W st; log := log W st |}.

Definition set_job (j : PipelineJob) (st : state) : state :=
  {| world := world W st; job := j; allChunks := allChunks W st;
     embeddedChunks := embeddedChunks W st; log := log W st |}.

Definition add_log (e : Event) (st : state) : state :=
  {| world := world W st; job := job W st; allChunks := allChunks W st;
     embeddedChunks := embeddedChunks W st; log := (log W st ++ [e])%list |}.

Lemma on_world_eval {A} (f : W -> A * W) st a w' :
  f (world W st) = (a, w') -> on_world W f st = (Ret a, set_world w' st).
Proof. intros H. unfold on_world, lift. rewrite H. reflexivity. Qed.

Lemma set_status_eval s st :
  set_status W s st = (Ret tt, add_log (SetStatus s) (set_job (with_status s (job W st)) st)).
Proof. reflexivity. Qed.

Lemma emit_eval e st : emit W e st = (Ret tt, add_log e st).
Proof. reflexivity. Qed.

Lemma update_job_eval f st : update_job W f st = (Ret tt, set_job (f (job W st)) st).
Proof. reflexivity. Qed.

Lemma stamp_completed_eval st t w' :
  now (world W st) = (t, w') ->
  stamp_completed W now st =
  (Ret tt, set_job (with_completed_at t (job W st)) (set_world w' st)).
Proof.
  intros H. unfold stamp_completed.
  rewrite (bind_Ret _ _ _ _ _ (on_world_eval now st t w' H)). reflexivity.
Qed.

Lemma respond_eval message error startTime st n1 w1 n2 w2 :
  now (world W st) = (n1, w1) -> now w1 = (n2, w2) ->
  respond W now message error startTime st =
  (Ret (createResponse
          (Some {| resp_job := Some (job W st); resp_message := message |})
          error startTime n1 n2),
   set_world w2 st).
Proof.
  intros H1 H2. unfold respond.
  rewrite (bind_Ret _ _ _ _ _ (on_world_eval now st n1 w1 H1)).
  rewrite (bind_Ret _ _ _ _ _ (on_world_eval now (set_world w1 st) n2 w2 H2)).
  reflexivity.
Qed.

(** The job of the initial state. *)
Lemma initial_job request w :
  log W (start request w) = [] /\
  allChunks W (start request w) = [] /\
  embeddedChunks W (start request w) = [] /\
  status (job W (start request w)) = discovering /\
  discovered_pdfs (job W (start request w)) = [] /\
  parsed_chunks (job W (start request w)) = 0%Z /\
  embedded_chunks (job W (start request w)) = 0%Z /\
  upserted_chunks (job W (start request w)) = 0%Z /\
  completed_at (job W (start request w)) = None /\
  error (job W (start request w)) = None.
Proof.
  unfold initial. destruct (generateJobId w) as [id w1]. destruct (now w1) as [t w2].
  cbn. repeat split.
Qed.


(** *** The embedding stage, one source group at a time *)

(** The request [embed_group] sends for a group. *)
Definition embed_request (group : string * list PipelineChunk) : VoyageEmbed.EmbedRequest :=
  {| VoyageEmbed.req_chunks := Some (map to_reducto (snd group));
     VoyageEmbed.req_file_number := fst (split_key (fst group));
     VoyageEmbed.req_source_url := snd (split_key (fst group));
     VoyageEmbed.req_input_type := None |}.

(** The chunks an embed answer carries. *)
Definition embedded_by (r : APIResponse EmbedData) : list VoyageEmbed.EmbeddedChunk :=
  match api_data r with
  | Some d => match e_chunks d with Some l => l | None => [] end
  | None => []
  end.

Definition add_embedded (l : list VoyageEmbed.EmbeddedChunk) (st : state) : state :=
  {| world := world W st; job := job W st; allChunks := allChunks W st;
     embeddedChunks := (embeddedChunks W st ++ l)%list; log := log W st |}.

(** An error answer: the group adds nothing and the loop goes on. *)
Lemma embed_group_error group st status_code text_body json w' :
  embed (embed_request group) (world W st) = (Http false status_code text_body json, w') ->
  embed_group W embed group st =
  (Ret tt, set_world w' (add_log (CallEmbed (embed_request group)) st)).
Proof.
  intros H. unfold embed_group, embed_request in *.
  destruct (split_key (fst group)) as [fileNumber sourceUrl]. cbn [fst snd] in H.
  rewrite (bind_Ret _ _ _ _ _ (emit_eval _ _)).
  erewrite bind_Ret by (apply on_world_eval; exact H).
  reflexivity.
Qed.

(** An answer with chunks: they are appended and counted. *)
Lemma embed_group_ok group st status_code text_body answer w' :
  embed (embed_request group) (world W st) =
    (Http true status_code text_body (inr answer), w') ->
  embed_group W embed group st =
  (Ret tt,
   set_job
     (with_embedded
        (Z.of_nat (List.length (embeddedChunks W st ++ embedded_by answer)%list))
        (job W st))
     (add_embedded (embedded_by answer)
        (set_world w' (add_log (CallEmbed (embed_request group)) st)))).
Proof.
  intros H. unfold embed_group, embed_request in *.
  destruct (split_key (fst group)) as [fileNumber sourceUrl]. cbn [fst snd] in H.
  rewrite (bind_Ret _ _ _ _ _ (emit_eval _ _)).
  erewrite bind_Ret by (apply on_world_eval; exact H).
  cbn [negb]. erewrite bind_Ret by reflexivity.
  fold (embedded_by answer).
  erewrite bind_Ret by reflexivity.
  erewrite bind_Ret by reflexivity.
  reflexivity.
Qed.

(** An embed function that always answers, with a well-formed body
    when it answers well. *)
Definition embed_answers : Prop :=
  forall req w,
    match fst (embed req w) with
    | Rejected _ => False
    | Http ok _ _ json => ok = true -> exists v, json = inr v
    end.

(** Then the stage calls it once per group, in order, whatever it
    answers, and ends without an error and without touching the status,
    the discovered PDFs or the parsed counter. *)
Lemma embed_stage_runs groups st :
  embed_answers ->
  exists st',
    for_each groups (embed_group W embed) st = (Ret tt, st') /\
    log W st' = (log W st ++ map (fun g => CallEmbed (embed_request g)) groups)%list /\
    status (job W st') = status (job W st) /\
    parsed_chunks (job W st') = parsed_chunks (job W st) /\
    error (job W st') = error (job W st).
Proof.
  intros Hans. revert st. induction groups as [|g groups IH]; intros st; cbn [for_each map].
  - exists st. rewrite app_nil_r. repeat split.
  - pose proof (Hans (embed_request g) (world W st)) as Ha.
    destruct (embed (embed_request g) (world W st)) as [[msg|ok sc tx json] w'] eqn:E;
      cbn [fst] in Ha; [contradiction|].
    destruct ok.
    + destruct (Ha eq_refl) as [answer ->].
      rewrite (bind_Ret _ _ _ _ _ (embed_group_ok g st sc tx answer w' E)).
      destruct (IH (set_job
                      (with_embedded
                         (Z.of_nat (List.length (embeddedChunks W st ++ embedded_by answer)%list))
                         (job W st))
                      (add_embedded (embedded_by answer)
                         (set_world w' (add_log (CallEmbed (embed_request g)) st)))))
        as (st' & -> & Hl & Hs & Hp & He).
      exists st'. split; [reflexivity|]. rewrite Hl, Hs, Hp, He.
      cbn. rewrite <- app_assoc. repeat split.
    + rewrite (bind_Ret _ _ _ _ _ (embed_group_error g st sc tx json w' E)).
      destruct (IH (set_world w' (add_log (CallEmbed (embed_request g)) st)))
        as (st' & -> & Hl & Hs & Hp & He).
      exists st'. split; [reflexivity|]. rewrite Hl, Hs, Hp, He.
      cbn. rewrite <- app_assoc. repeat split.
Qed.

(** *** What the [try] block can throw *)








End World.
End PipelineFacts.

(** ** The shared utilities ([chunkArray], [retryWithBackoff]) *)
Module UtilsFacts.
Import JS Eff Types Utils.

Lemma chunk_from_sizes {T} (size : nat) : forall fuel (array : list T),
  (0 < size)%nat ->
  Forall (fun c => (0 < List.length c <= size)%nat) (chunk_from fuel array size).
Proof.
  induction fuel as [|fuel IH]; intros array Hs; cbn [chunk_from]; [constructor|].
  destruct array as [|x array']; [constructor|]. constructor; [|apply IH, Hs].
  rewrite length_firstn. cbn [List.length]. lia.
Qed.

(** The batches are the array cut in order into pieces of [size]
    elements, the last one of what is left: none is empty, none is
    longer than [size], and together they are the array. *)
Theorem chunkArray_batches {T} (array : list T) (size : nat) :
  (0 < size)%nat ->
  List.concat (chunkArray array size) = array /\
  Forall (fun c => (0 < List.length c <= size)%nat) (chunkArray array size).
Proof.
  intros Hs. split.
  - apply UpsertFacts.chunkArray_concat, Hs.
  - apply chunk_from_sizes, Hs.
Qed.

Lemma chunkArray_batches_witness :
  List.concat (chunkArray [1; 2; 3; 4; 5]%nat 2) = [1; 2; 3; 4; 5]%nat /\
  Forall (fun c => (0 < List.length c <= 2)%nat) (chunkArray [1; 2; 3; 4; 5]%nat 2).
Proof. apply chunkArray_batches. lia. Defined.

(** [fails operation k s e s']: from the state [s] the operation throws
    [k] times in a row, each attempt in the state the one before left;
    [e] is the last error and [s'] the state it leaves. *)
Inductive fails {S T} (operation : M S T) : nat -> S -> thrown -> S -> Prop :=
| fails_once s e s' :
    operation s = (Throw e, s') -> fails operation 1 s e s'
| fails_again k s e0 s0 e s' :
    operation s = (Throw e0, s0) -> fails operation k s0 e s' ->
    fails operation (Datatypes.S k) s e s'.

Lemma retry_loop_fails {S T} (operation : M S T) n s e s' :
  fails operation n s e s' ->
  forall lastError, retry_loop operation n lastError s = (Throw e, s').
Proof.
  induction 1 as [s e s' H|k s e0 s0 e s' H _ IH]; intros lastError;
    cbn [retry_loop]; unfold try_catch; rewrite H.
  - reflexivity.
  - apply IH.
Qed.

Lemma retry_loop_returns {S T} (operation : M S T) k s e s' :
  fails operation k s e s' ->
  forall n v s'' lastError,
    (k < n)%nat -> operation s' = (Ret v, s'') ->
    retry_loop operation n lastError s = (Ret v, s'').
Proof.
  induction 1 as [s e s' H|k s e0 s0 e s' H _ IH]; intros n v s'' lastError Hn Hv.
  - destruct n as [|[|n]]; [lia|lia|]. cbn [retry_loop]. unfold try_catch.
    rewrite H, Hv. reflexivity.
  - destruct n as [|n]; [lia|]. cbn [retry_loop]. unfold try_catch at 1. rewrite H.
    apply (IH n); [lia|exact Hv].
Qed.

(** The operation is run until it returns, [maxRetries] times at most,
    each attempt in the state the one before left.  The first value
    returned is the result; when every attempt throws, the error of the
    last one is thrown to the caller; with no attempt allowed, [null] is
    thrown. *)
Theorem retryWithBackoff_attempts {S T} (operation : M S T) (maxRetries k : nat)
  (s s' s'' : S) (e : thrown) (v : T) :
  (fails operation maxRetries s e s' ->
   retryWithBackoff operation maxRetries s = (Throw e, s')) /\
  (fails operation k s e s' -> (k < maxRetries)%nat -> operation s' = (Ret v, s'') ->
   retryWithBackoff operation maxRetries s = (Ret v, s'')) /\
  ((0 < maxRetries)%nat -> operation s = (Ret v, s'') ->
   retryWithBackoff operation maxRetries s = (Ret v, s'')) /\
  retryWithBackoff operation 0 s = (Throw None, s).
Proof.
  unfold retryWithBackoff. repeat split.
  - intros H. apply retry_loop_fails, H.
  - intros H Hk Hv. apply (retry_loop_returns _ _ _ _ _ H); assumption.
  - intros Hn Hv. destruct maxRetries as [|n]; [lia|].
    cbn [retry_loop]. unfold try_catch. rewrite Hv. reflexivity.
Qed.

(** An operation on a counter that is busy twice. *)
Definition busy_twice : M nat nat :=
  fun n => if (n <? 2)%nat then (Throw (Some "busy"%string), Datatypes.S n) else (Ret n, Datatypes.S n).

Lemma retryWithBackoff_attempts_witness :
  retryWithBackoff busy_twice 2 0%nat = (Throw (Some "busy"%string), 2%nat) /\
  retryWithBackoff busy_twice default_maxRetries 0%nat = (Ret 2%nat, 3%nat).
Proof.
  assert (H : fails busy_twice 2 0%nat (Some "busy"%string) 2%nat).
  { apply (fails_again busy_twice 1 0%nat (Some "busy"%string) 1%nat); [reflexivity|].
    apply fails_once. reflexivity. }
  split.
  - exact (proj1 (retryWithBackoff_attempts busy_twice 2 2 0%nat 2%nat 3%nat
                    (Some "busy"%string) 2%nat) H).
  - refine (proj1 (proj2 (retryWithBackoff_attempts busy_twice default_maxRetries 2
                            0%nat 2%nat 3%nat (Some "busy"%string) 2%nat)) H _ eq_refl).
    unfold default_maxRetries. lia.
Defined.

End UtilsFacts.

(** ** The runs of the concrete world *)
Module Runs.
Import JS Eff Types Utils Orchestrate Example.
Local Open Scope string_scope.




(** C6, as the claim states it, fails.  The PDF has 129 chunks, so its
    embed request takes two batches.  The API answers the call for the
    first batch with its 128 vectors, and refuses the three attempts for
    the second.  The handler then answers the whole request with an
    error: the 128 chunks it had embedded are in its local array only,
    the orchestrator counts no embedded chunk and upserts an empty list. *)
Lemma succeeded_batch_is_dropped_too :
  embed_requests (log World (snd run_second_batch_fails)) = [request_129] /\
  api_calls (world World (snd run_second_batch_fails)) = 4%nat /\
  List.length (VoyageEmbed.embeddedChunks World (snd handler_129)) = 128%nat /\
  (exists c, In c (VoyageEmbed.embeddedChunks World (snd handler_129)) /\
             ~ In c (List.concat (upserted_documents (log World (snd run_second_batch_fails))))) /\
  upserted_documents (log World (snd run_second_batch_fails)) = [[]] /\
  embedded_chunks (job World (snd run_second_batch_fails)) = 0%Z /\
  parsed_chunks (job World (snd run_second_batch_fails)) = 129%Z /\
  status (job World (snd run_second_batch_fails)) = completed.
Proof.
  split; [vm_compute; reflexivity|].
  split; [vm_compute; reflexivity|].
  split; [vm_compute; reflexivity|].
  split.
  - exists {| VoyageEmbed.original := Some (sent_chunk 0);
              VoyageEmbed.ec_embedding := [1%float];
              VoyageEmbed.ec_file_number := "250700";
              VoyageEmbed.ec_source_url := "https://sfgov.legistar.com/a.pdf" |}.
    split.
    + vm_compute. left. reflexivity.
    + vm_compute. tauto.
  - repeat split; vm_compute; reflexivity.
Qed.

End Runs.


(** ** The chunks of the normalizer *)
Module ChunkFacts.
Import JS Types ReductoParse.
Local Open Scope list_scope.

Section Detectors.
Variable detectSection : string -> option string.
Variable detectTableContent : string -> bool.

Local Abbreviation transform := (transformPipelineResponse detectSection detectTableContent).
Local Abbreviation from_block := (createChunkFromBlock detectSection detectTableContent).
Local Abbreviation from_text := (createChunkFromText detectSection detectTableContent).
Local Abbreviation add_block := (push_block detectSection detectTableContent).
Local Abbreviation add_text := (push_text detectSection detectTableContent).

(** The invariant of the two local variables: the chunks pushed so far
    are numbered from 0 and [chunkIndex] is their number; each of them
    has the property [P] that every new chunk has. *)
Definition counted (P : ReductoChunk -> Prop) (a : acc) : Prop :=
  map chunk_index (fst a) = map Z.of_nat (seq 0 (snd a)) /\ Forall P (fst a).

Section Invariant.
Variable P : ReductoChunk -> Prop.
Hypothesis P_block : forall block index, P (from_block block index).
Hypothesis P_text : forall text index, P (from_text text index).

Lemma counted_start : counted P ([], O).
Proof. split; [reflexivity|constructor]. Qed.

Lemma counted_push a c :
  chunk_index c = Z.of_nat (snd a) -> P c -> counted P a -> counted P (fst a ++ [c], S (snd a)).
Proof.
  intros Hi Hc [Hn Hp]. split; cbn [fst snd].
  - rewrite map_app, seq_S, map_app, Hn. cbn. rewrite Hi. reflexivity.
  - apply Forall_app. split; [exact Hp|]. constructor; [exact Hc|constructor].
Qed.

Lemma counted_block a block : counted P a -> counted P (add_block a block).
Proof. intros H. apply counted_push; [reflexivity|apply P_block|exact H]. Qed.

Lemma counted_text a text : counted P a -> counted P (add_text a text).
Proof. intros H. apply counted_push; [reflexivity|apply P_text|exact H]. Qed.

Lemma counted_fold {X} (f : acc -> X -> acc) (l : list X) :
  (forall a x, counted P a -> counted P (f a x)) ->
  forall a, counted P a -> counted P (fold_left f l a).
Proof.
  intros Hf. induction l as [|x l IH]; intros a Ha; cbn [fold_left]; [exact Ha|].
  apply IH, Hf, Ha.
Qed.

Lemma counted_format1 cs : counted P (format1 detectSection detectTableContent cs).
Proof.
  unfold format1. apply counted_fold; [|apply counted_start].
  intros a chunk Ha.
  assert (Hb : counted P (fold_left add_block (blocks_or_nil (rc_blocks chunk)) a)).
  { apply counted_fold; [|exact Ha]. intros ? ?. apply counted_block. }
  destruct (rc_content chunk) as [c|]; [|exact Hb].
  destruct (truthy_str c && negb (nonempty (rc_blocks chunk))); [|exact Hb].
  apply counted_text, Hb.
Qed.

Lemma counted_format2 bs : counted P (format2 detectSection detectTableContent bs).
Proof.
  unfold format2. apply counted_fold; [|apply counted_start].
  intros ? ?. apply counted_block.
Qed.

Lemma counted_format3 cs : counted P (format3 detectSection detectTableContent cs).
Proof.
  unfold format3. apply counted_fold; [|apply counted_start].
  intros ? ?. apply counted_text.
Qed.

Lemma counted_format4 text : counted P (format4 detectSection detectTableContent text).
Proof.
  unfold format4. apply counted_fold; [|apply counted_start].
  intros a para Ha. destruct (10 <? String.length (trim para))%nat; [|exact Ha].
  apply counted_text, Ha.
Qed.

(** Whatever branch runs, the result is the list of an accumulator that
    satisfies the invariant. *)
Lemma transform_counted response :
  exists a, transform response = fst a /\ counted P a.
Proof.
  unfold transformPipelineResponse.
  destruct (nonempty _); [eexists; split; [reflexivity|apply counted_format1]|].
  destruct (nonempty _); [eexists; split; [reflexivity|apply counted_format2]|].
  destruct (chunks response); [eexists; split; [reflexivity|apply counted_format3]|].
  destruct (truthy_opt _); [eexists; split; [reflexivity|apply counted_format4]|].
  exists ([], O). split; [reflexivity|apply counted_start].
Qed.

Lemma counted_length a : counted P a -> List.length (fst a) = snd a.
Proof.
  intros [Hn _]. apply (f_equal (@List.length Z)) in Hn.
  rewrite !length_map, length_seq in Hn. exact Hn.
Qed.

End Invariant.

(** The chunks of every response are numbered 0, 1, 2, ... in the order
    in which they are returned. *)
Theorem chunks_numbered_in_order (response : ReductoPipelineResponse) :
  map chunk_index (transform response) =
  map Z.of_nat (seq 0 (List.length (transform response))).
Proof.
  destruct (transform_counted (fun _ => True) (fun _ _ => I) (fun _ _ => I) response)
    as (a & -> & Ha).
  rewrite (counted_length _ _ Ha). apply Ha.
Qed.

(** A text as [cleanText] leaves it: its only white space is the space,
    and it neither starts nor ends with one. *)
Definition clean (s : string) : Prop :=
  let cs := list_ascii_of_string s in
  Forall (fun c => is_space c = true -> c = " "%char) cs /\
  CleanTextFacts.head_is_space cs = false /\
  CleanTextFacts.head_is_space (rev cs) = false.

Lemma cleanText_clean (s : string) : clean (cleanText s).
Proof.
  unfold clean. cbn zeta. rewrite CleanTextFacts.cleanText_chars.
  split; [|split].
  - apply (CleanTextFacts.trim_chars_Forall CleanTextFacts.blank),
      CleanTextFacts.footers_removed_blank.
  - destruct (trim_chars _) as [|c rest] eqn:E; [reflexivity|].
    exact (CleanTextFacts.trim_chars_first _ _ _ E).
  - unfold trim_chars. rewrite rev_involutive. apply CleanTextFacts.drop_space_head.
Qed.

(** The text of every chunk, from whatever branch, went through
    [cleanText]: it holds no newline or tab, and no white space at its
    start or end. *)
Theorem chunk_texts_clean (response : ReductoPipelineResponse) :
  Forall (fun c => clean (text c)) (transform response).
Proof.
  destruct (transform_counted (fun c => clean (text c))
              (fun _ _ => cleanText_clean _) (fun _ _ => cleanText_clean _) response)
    as (a & -> & Ha).
  apply Ha.
Qed.

Lemma or_default_truthy (o : option number) (d : number) :
  truthy d = true -> truthy (or_default o d) = true.
Proof.
  intros Hd. destruct o as [x|]; [|exact Hd]. cbn [or_default]. unfold or_else.
  destruct (truthy x) eqn:E; [exact E|exact Hd].
Qed.

Lemma or_default_zero_number (o : option number) : is_nan (or_default o 0%float) = false.
Proof.
  destruct o as [x|]; [|reflexivity]. cbn [or_default]. unfold or_else.
  destruct (truthy x) eqn:E; [|reflexivity].
  unfold truthy in E. destruct (is_nan x); [|reflexivity].
  rewrite Bool.orb_true_r in E. discriminate E.
Qed.

(** A box that can be drawn and a page that can be opened. *)
Definition placed (c : ReductoChunk) : Prop :=
  truthy (width (bbox c)) = true /\ truthy (height (bbox c)) = true /\
  is_nan (left (bbox c)) = false /\ is_nan (top (bbox c)) = false /\
  page_number c <> 0%Z.

(** Whatever the extraction service sent for a block (no box, or a box
    with missing, zero or NaN fields, or page 0), every chunk has a box
    whose width and height are neither 0 nor NaN, whose corner is not
    NaN, and a page number that is not 0: the gaps are filled from the
    full page, 612 by 792 at the origin of page 1. *)
Theorem chunk_boxes_placed (response : ReductoPipelineResponse) :
  Forall placed (transform response).
Proof.
  assert (Hb : forall block index, placed (from_block block index)).
  { intros block index. unfold placed, createChunkFromBlock. cbn [bbox page_number].
    destruct (block_bbox block) as [b|].
    - cbn [width height left top].
      repeat split; try (apply or_default_truthy; reflexivity);
        try apply or_default_zero_number.
      unfold page_or_1. destruct (bb_page b) as [n|]; [|discriminate].
      destruct (Z.eqb_spec n 0); [discriminate|assumption].
    - repeat split; discriminate. }
  assert (Ht : forall text index, placed (from_text text index)).
  { intros text index. repeat split; discriminate. }
  destruct (transform_counted placed Hb Ht response) as (a & -> & Ha).
  apply Ha.
Qed.

End Detectors.
End ChunkFacts.

(** ** The paragraphs of a markdown answer (format 4) *)
Module ParagraphFacts.
Import JS Types ReductoParse.
Local Open Scope list_scope.

Definition nl : ascii := ascii_of_nat 10.

Definition head_is_newline (s : chars) : bool :=
  match s with
  | x :: _ => is_newline x
  | [] => false
  end.

(** *** [/\n\n+/] *)

Lemma many_newlines_more n prev s :
  (1 <= n)%nat ->
  exists prev' rest,
    CleanTextFacts.many false 1 is_newline [] n prev s = Some (prev', rest) /\
    (head_is_newline s = false -> rest = s).
Proof.
  revert n prev. induction s as [|x s' IH]; intros n prev Hn; cbn [CleanTextFacts.many].
  - destruct (Nat.leb_spec 1 n); [|lia]. cbn. eauto.
  - destruct (Nat.leb_spec 1 n); [|lia]. cbn [head_is_newline].
    destruct (is_newline x).
    + destruct (IH (S n) (Some x)) as (prev' & rest & -> & _); [lia|].
      exists prev', rest. split; [reflexivity|discriminate].
    + cbn. eauto.
Qed.

(** No blank line starts at a character that is not a newline, nor at
    the end of the text. *)
Lemma match_blank_none prev s :
  head_is_newline s = false -> match_here false re_blank_line prev s = None.
Proof.
  intros H. destruct s as [|x s']; [reflexivity|]. cbn in H. cbn. rewrite H. reflexivity.
Qed.

(** Two newlines before a character that is none are one blank line. *)
Lemma match_blank_sep prev t :
  head_is_newline t = false ->
  exists prev', match_here false re_blank_line prev (nl :: nl :: t) = Some (prev', t).
Proof.
  intros H. unfold re_blank_line.
  change (match_here false [Cls is_newline; Many 1 is_newline] prev (nl :: nl :: t))
    with (match_here false [Many 1 is_newline] (Some nl) (nl :: t)).
  rewrite CleanTextFacts.match_here_Many.
  change (CleanTextFacts.many false 1 is_newline [] 0 (Some nl) (nl :: t))
    with (match CleanTextFacts.many false 1 is_newline [] 1 (Some nl) t with
          | Some res => Some res
          | None => None
          end).
  destruct (many_newlines_more 1 (Some nl) t) as (prev' & rest & -> & Hr); [lia|].
  rewrite (Hr H). eauto.
Qed.

(** The pattern has no [\b]: the character before the match is not
    looked at. *)
Lemma match_blank_prev prev prev' s :
  option_map snd (match_here false re_blank_line prev s) =
  option_map snd (match_here false re_blank_line prev' s).
Proof.
  destruct s as [|x s']; [reflexivity|]. unfold re_blank_line. cbn [match_here].
  destruct (is_newline x); reflexivity.
Qed.

Lemma split_from_prev : forall fuel prev prev' piece s,
  split_from fuel re_blank_line prev piece s = split_from fuel re_blank_line prev' piece s.
Proof.
  induction fuel as [|fuel IH]; intros prev prev' piece s; [reflexivity|].
  cbn [split_from]. destruct s as [|x s']; [reflexivity|].
  pose proof (match_blank_prev prev prev' (x :: s')) as H.
  destruct (match_here false re_blank_line prev (x :: s')) as [[p1 r1]|],
           (match_here false re_blank_line prev' (x :: s')) as [[p2 r2]|];
    cbn in H; try discriminate; [|reflexivity].
  injection H as ->. destruct (List.length r2 <? List.length (x :: s'))%nat; [|reflexivity].
  f_equal. apply IH.
Qed.

(** *** [text.split(/\n\n+/)] *)

(** Characters that are no newline are collected into the piece. *)
Lemma split_scan p :
  Forall (fun c => is_newline c = false) p ->
  forall fuel prev piece rest,
    split_from (List.length p + fuel) re_blank_line prev piece (p ++ rest) =
    split_from fuel re_blank_line None (rev p ++ piece) rest.
Proof.
  induction 1 as [|x p Hx _ IH]; intros fuel prev piece rest.
  - apply split_from_prev.
  - cbn [List.length Nat.add app split_from].
    rewrite match_blank_none by exact Hx.
    rewrite IH. cbn [rev]. rewrite <- app_assoc. reflexivity.
Qed.

Lemma split_sep fuel prev piece t :
  head_is_newline t = false ->
  split_from (S fuel) re_blank_line prev piece (nl :: nl :: t) =
  rev piece :: split_from fuel re_blank_line None [] t.
Proof.
  intros H. cbn [split_from]. destruct (match_blank_sep prev t H) as [prev' ->].
  destruct (Nat.ltb_spec (List.length t) (List.length (nl :: nl :: t)));
    [|cbn [List.length] in *; lia].
  f_equal. apply split_from_prev.
Qed.

(** Paragraphs joined by blank lines. *)
Fixpoint joined (ps : list chars) : chars :=
  match ps with
  | [] => []
  | [p] => p
  | p :: ps' => p ++ nl :: nl :: joined ps'
  end.

(** A paragraph: some text without a newline. *)
Definition is_paragraph (p : chars) : Prop :=
  p <> [] /\ Forall (fun c => is_newline c = false) p.

Lemma joined_head p ps : is_paragraph p -> head_is_newline (joined (p :: ps)) = false.
Proof.
  intros [Hne Hp]. destruct p as [|x p]; [congruence|].
  inversion Hp; subst. destruct ps; cbn; assumption.
Qed.

Lemma split_joined : forall ps,
  ps <> [] -> Forall is_paragraph ps ->
  forall fuel piece,
    (List.length (joined ps) < fuel)%nat ->
    split_from fuel re_blank_line None piece (joined ps) = (rev piece ++ hd [] ps) :: tl ps.
Proof.
  induction ps as [|p ps IH]; intros Hne Hps fuel piece Hlen; [congruence|].
  inversion Hps as [|? ? Hp Hps']; subst.
  destruct ps as [|q ps'].
  - cbn [joined hd tl] in *.
    replace fuel with (List.length p + S (fuel - S (List.length p)))%nat by lia.
    pose proof (split_scan p (proj2 Hp) (S (fuel - S (List.length p))) None piece []) as E.
    rewrite app_nil_r in E. rewrite E.
    cbn [split_from]. rewrite rev_app_distr, rev_involutive. reflexivity.
  - change (joined (p :: q :: ps')) with (p ++ nl :: nl :: joined (q :: ps')) in *.
    rewrite length_app in Hlen. cbn [List.length] in Hlen.
    replace fuel with (List.length p + S (fuel - S (List.length p)))%nat by lia.
    rewrite split_scan by apply Hp.
    inversion Hps' as [|? ? Hq _]; subst.
    rewrite split_sep by (apply joined_head, Hq).
    rewrite IH; [|discriminate|exact Hps'|lia].
    cbn [hd tl rev app]. rewrite rev_app_distr, rev_involutive. reflexivity.
Qed.

(** *** On strings *)

Lemma chars_app (a b : string) :
  list_ascii_of_string (a ++ b) = list_ascii_of_string a ++ list_ascii_of_string b.
Proof. induction a as [|c a IH]; [reflexivity|]. cbn. rewrite IH. reflexivity. Qed.

Definition blank_line : string := (newline ++ newline)%string.

Lemma chars_join ps :
  list_ascii_of_string (join blank_line ps) = joined (map list_ascii_of_string ps).
Proof.
  induction ps as [|p ps IH]; [reflexivity|].
  destruct ps as [|q ps']; [reflexivity|].
  change (join blank_line (p :: q :: ps'))
    with (p ++ blank_line ++ join blank_line (q :: ps'))%string.
  rewrite !chars_app, IH. reflexivity.
Qed.

Definition paragraph (p : string) : Prop := is_paragraph (list_ascii_of_string p).

(** Splitting at blank lines undoes joining with blank lines. *)
Lemma split_join ps :
  ps <> [] -> Forall paragraph ps -> split_re re_blank_line (join blank_line ps) = ps.
Proof.
  intros Hne Hps. unfold split_re. rewrite chars_join.
  rewrite split_joined.
  - destruct ps as [|p ps]; [congruence|]. cbn [map hd tl rev app].
    rewrite !string_of_list_ascii_of_string. f_equal.
    rewrite map_map. rewrite <- (map_id ps) at 2. apply map_ext.
    intros q. apply string_of_list_ascii_of_string.
  - destruct ps; [congruence|discriminate].
  - apply Forall_map. exact Hps.
  - lia.
Qed.

Section Detectors.
Variable detectSection : string -> option string.
Variable detectTableContent : string -> bool.

Local Abbreviation transform := (transformPipelineResponse detectSection detectTableContent).

(** The paragraphs that are kept, trimmed. *)
Definition kept (paras : list string) : list string :=
  filter (fun p => (10 <? String.length p)%nat) (map trim paras).

Lemma format4_fold paras : forall a : acc,
  map text
    (fst (fold_left
            (fun a para =>
               if (10 <? String.length (trim para))%nat
               then push_text detectSection detectTableContent a (trim para) else a)
            paras a)) =
  map text (fst a) ++ map cleanText (kept paras).
Proof.
  unfold kept. induction paras as [|p paras IH]; intros a; cbn [fold_left map filter].
  - rewrite app_nil_r. reflexivity.
  - rewrite IH. destruct (10 <? String.length (trim p))%nat; [|reflexivity].
    cbn [push_text fst map]. rewrite map_app, <- app_assoc. reflexivity.
Qed.

(** When the normalizer takes the markdown branch on a text made of
    paragraphs separated by one blank line each, the chunks are the
    paragraphs in their order, trimmed and cleaned, without those of ten
    characters or fewer once trimmed. *)
Theorem markdown_paragraphs_become_chunks
  (response : ReductoPipelineResponse) (paras : list string) :
  selected response = F4 ->
  markdown_or_text response = Some (join blank_line paras) ->
  Forall paragraph paras ->
  map text (transform response) = map cleanText (kept paras).
Proof.
  intros Hsel Hmd Hps.
  assert (Hne : paras <> []).
  { intros ->. unfold selected in Hsel. rewrite Hmd in Hsel.
    destruct (nonempty _); [discriminate|]. destruct (nonempty _); [discriminate|].
    destruct (chunks response); discriminate. }
  rewrite NormalizerFacts.transform_selected, Hsel, Hmd.
  unfold format4. rewrite (split_join _ Hne Hps). apply format4_fold.
Qed.

End Detectors.

(** Three paragraphs, the last one too short to be kept. *)
Definition three_paragraphs : list string :=
  ["Height limits apply."%string; "  Setbacks are measured. "%string; "Page 2"%string].

Lemma markdown_paragraphs_become_chunks_witness :
  map text
    (transformPipelineResponse (fun _ => None) (fun _ => false)
       {| result := None; chunks := None;
          markdown := Some (join blank_line three_paragraphs); text_ := None |}) =
  ["Height limits apply."%string; "Setbacks are measured."%string].
Proof.
  rewrite (markdown_paragraphs_become_chunks (fun _ => None) (fun _ => false) _
             three_paragraphs).
  - vm_compute. reflexivity.
  - reflexivity.
  - reflexivity.
  - repeat constructor; discriminate.
Defined.

(** A paragraph of ten characters after a no-break space: [trim] takes
    the no-break space away, and the paragraph is too short to be kept. *)
Lemma no_break_space_paragraph_dropped :
  transformPipelineResponse (fun _ => None) (fun _ => false)
    {| result := None; chunks := None;
       markdown := Some (CleanTextFacts.nbsp ++ "abcdefghij")%string; text_ := None |} = [].
Proof. vm_compute. reflexivity. Qed.

End ParagraphFacts.

(** ** A program logic for the computations

    [triple P c Q E]: run from a state that satisfies [P], the
    computation [c] either returns a value [a] in a state that satisfies
    [Q a], or throws [e] in a state that satisfies [E e]. *)
Module EffLogic.
Import Eff.

Definition triple {S A} (P : S -> Prop) (c : M S A)
  (Q : A -> S -> Prop) (E : thrown -> S -> Prop) : Prop :=
  forall s, P s ->
    match c s with
    | (Ret a, s') => Q a s'
    | (Throw e, s') => E e s'
    end.

Lemma triple_weaken {S A} (P P' : S -> Prop) (c : M S A) (Q Q' : A -> S -> Prop)
  (E E' : thrown -> S -> Prop) :
  triple P' c Q' E' ->
  (forall s, P s -> P' s) -> (forall a s, Q' a s -> Q a s) -> (forall e s, E' e s -> E e s) ->
  triple P c Q E.
Proof.
  intros H HP HQ HE s Hs. specialize (H s (HP s Hs)).
  destruct (c s) as [[a|e] s']; auto.
Qed.

Lemma triple_ret {S A} (P : S -> Prop) (a : A) (Q : A -> S -> Prop) E :
  (forall s, P s -> Q a s) -> triple P (ret a) Q E.
Proof. intros H s Hs. apply H, Hs. Qed.

Lemma triple_throw {S A} (P : S -> Prop) msg (Q : A -> S -> Prop) (E : thrown -> S -> Prop) :
  (forall s, P s -> E (Some msg) s) -> triple P (throw msg) Q E.
Proof. intros H s Hs. apply H, Hs. Qed.

Lemma triple_throw_value {S A} (P : S -> Prop) e (Q : A -> S -> Prop)
  (E : thrown -> S -> Prop) :
  (forall s, P s -> E e s) -> triple P (throw_value e) Q E.
Proof. intros H s Hs. apply H, Hs. Qed.

Lemma triple_get {S} (P : S -> Prop) (Q : S -> S -> Prop) E :
  (forall s, P s -> Q s s) -> triple P get Q E.
Proof. intros H s Hs. apply H, Hs. Qed.

Lemma triple_modify {S} (P : S -> Prop) (f : S -> S) (Q : unit -> S -> Prop) E :
  (forall s, P s -> Q tt (f s)) -> triple P (modify f) Q E.
Proof. intros H s Hs. apply H, Hs. Qed.

Lemma triple_lift {S A} (P : S -> Prop) (f : S -> A * S) (Q : A -> S -> Prop) E :
  (forall s, P s -> Q (fst (f s)) (snd (f s))) -> triple P (lift f) Q E.
Proof. intros H s Hs. specialize (H s Hs). unfold lift. destruct (f s). exact H. Qed.

Lemma triple_bind {S A B} (P : S -> Prop) (c : M S A) (k : A -> M S B)
  (R : A -> S -> Prop) (Q : B -> S -> Prop) E :
  triple P c R E -> (forall a, triple (R a) (k a) Q E) -> triple P (bind c k) Q E.
Proof.
  intros Hc Hk s Hs. specialize (Hc s Hs). unfold bind.
  destruct (c s) as [[a|e] s']; [apply Hk, Hc|exact Hc].
Qed.

Lemma triple_try_catch {S A} (P : S -> Prop) (c : M S A) (h : thrown -> M S A)
  (Q : A -> S -> Prop) (R E : thrown -> S -> Prop) :
  triple P c Q R -> (forall e, triple (R e) (h e) Q E) -> triple P (try_catch c h) Q E.
Proof.
  intros Hc Hh s Hs. specialize (Hc s Hs). unfold try_catch.
  destruct (c s) as [[a|e] s']; [exact Hc|apply Hh, Hc].
Qed.

(** A loop keeps what each of its turns keeps. *)
Lemma triple_for_each {S A} (I : S -> Prop) (l : list A) (f : A -> M S unit) E :
  (forall x, In x l -> triple I (f x) (fun _ => I) E) ->
  triple I (for_each l f) (fun _ => I) E.
Proof.
  induction l as [|x l IH]; intros H; cbn [for_each].
  - apply triple_ret. auto.
  - eapply triple_bind; [apply H; left; reflexivity|].
    intros u. apply IH. intros y Hy. apply H. right. exact Hy.
Qed.

(** [retry_loop]: what the operation guarantees when it returns, the
    loop guarantees; what it keeps when it throws, the loop keeps. *)
Lemma triple_retry_loop {S T} (I : S -> Prop) (operation : M S T) (Q : T -> S -> Prop)
  (R : thrown -> Prop) n lastError :
  triple I operation Q (fun e s => R e /\ I s) ->
  R lastError \/ n <> O ->
  triple I (Utils.retry_loop operation n lastError) Q (fun e s => R e /\ I s).
Proof.
  intros Hop. revert lastError. induction n as [|n IH]; intros lastError Hl; cbn [Utils.retry_loop].
  - apply triple_throw_value. intros s Hs. destruct Hl as [Hl|Hl]; [auto|congruence].
  - eapply triple_try_catch; [exact Hop|].
    intros e s0 Hs0. destruct Hs0 as [He Hs0]. exact (IH e (or_introl He) s0 Hs0).
Qed.

(** A computation that always returns a value. *)
Definition returns {S A} (P : S -> Prop) (c : M S A) (Q : A -> S -> Prop) : Prop :=
  triple P c Q (fun _ _ => False).

Lemma returns_run {S A} (P : S -> Prop) (c : M S A) (Q : A -> S -> Prop) s :
  returns P c Q -> P s -> exists a s', c s = (Ret a, s') /\ Q a s'.
Proof.
  intros H Hs. specialize (H s Hs). destruct (c s) as [[a|e] s']; [eauto|contradiction].
Qed.

(** A fact that does not depend on the state. *)
Lemma triple_pure {S A} (P : S -> Prop) (fact : Prop) (c : M S A) Q E :
  (fact -> triple P c Q E) -> triple (fun s => P s /\ fact) c Q E.
Proof. intros H s [Hs Hf]. apply (H Hf), Hs. Qed.

(** [const s = <the state>; k(s)]. *)
Lemma triple_get_bind {S B} (P : S -> Prop) (k : S -> M S B) Q E :
  (forall s0, triple (fun s => P s /\ s = s0) (k s0) Q E) -> triple P (bind get k) Q E.
Proof. intros H s Hs. exact (H s s (conj Hs eq_refl)). Qed.

End EffLogic.

(** ** Handlers that always answer *)
Module AnswerFacts.
Import JS Eff Types Utils EffFacts EffLogic.
Local Open Scope string_scope.

(** [post c Q]: the computation returns a value that satisfies [Q], or
    throws an [Error] object. *)
Definition post {S A} (c : M S A) (Q : A -> Prop) : Prop :=
  triple (fun _ => True) c (fun a _ => Q a) (fun e _ => e <> None).

(** [answers c Q]: the computation returns, and a value that satisfies
    [Q]. *)
Definition answers {S A} (c : M S A) (Q : A -> Prop) : Prop :=
  triple (fun _ => True) c (fun a _ => Q a) (fun _ _ => False).

Lemma post_of_te {S A} (c : M S A) : throws_errors c -> post c (fun _ => True).
Proof.
  intros H s _. specialize (H s). destruct (c s) as [[a|e] s']; [exact I|].
  cbn [fst] in H. congruence.
Qed.

Lemma post_bind {S A B} (c : M S A) (k : A -> M S B) (Q : B -> Prop) :
  throws_errors c -> (forall a, post (k a) Q) -> post (bind c k) Q.
Proof.
  intros Hc Hk. eapply triple_bind; [apply post_of_te, Hc|].
  intros a s _. apply (Hk a s I).
Qed.

Lemma post_ret {S A} (a : A) (Q : A -> Prop) : Q a -> post (@ret S A a) Q.
Proof. intros H. apply triple_ret. auto. Qed.

Lemma post_throw {S A} msg (Q : A -> Prop) : post (@throw S A msg) Q.
Proof. apply triple_throw. intros s _. discriminate. Qed.

Lemma post_weaken {S A} (c : M S A) (Q Q' : A -> Prop) :
  post c Q' -> (forall a, Q' a -> Q a) -> post c Q.
Proof. intros H HQ. eapply triple_weaken; [exact H| | |]; cbn; auto. Qed.

Lemma answers_bind {S A B} (c : M S A) (k : A -> M S B) (Q : B -> Prop) :
  answers c (fun _ => True) -> (forall a, answers (k a) Q) -> answers (bind c k) Q.
Proof.
  intros Hc Hk. eapply triple_bind; [exact Hc|]. intros a s _. apply (Hk a s I).
Qed.

Lemma answers_ret {S A} (a : A) (Q : A -> Prop) : Q a -> answers (@ret S A a) Q.
Proof. intros H. apply triple_ret. auto. Qed.

Lemma answers_lift {S A} (f : S -> A * S) : answers (lift f) (fun _ => True).
Proof. apply triple_lift. auto. Qed.

Lemma answers_modify {S} (f : S -> S) : answers (modify f) (fun _ => True).
Proof. apply triple_modify. auto. Qed.

Lemma answers_get {S} : answers (@get S) (fun _ => True).
Proof. apply triple_get. auto. Qed.

Lemma answers_weaken {S A} (c : M S A) (Q Q' : A -> Prop) :
  answers c Q' -> (forall a, Q' a -> Q a) -> answers c Q.
Proof. intros H HQ. eapply triple_weaken; [exact H| | |]; cbn; auto. Qed.

(** [try { c } catch (error) { h(error) }] answers when [c] throws
    nothing but [Error] objects and the handler answers on each. *)
Lemma answers_try_catch {S A} (c : M S A) (h : thrown -> M S A) (Q : A -> Prop) :
  post c Q -> (forall msg, answers (h (Some msg)) Q) -> answers (try_catch c h) Q.
Proof.
  intros Hc Hh. eapply triple_try_catch; [exact Hc|].
  intros [msg|] s Hs; [apply (Hh msg s I)|congruence].
Qed.

Lemma answers_run {S A} (c : M S A) (Q : A -> Prop) s :
  answers c Q -> exists a s', c s = (Ret a, s') /\ Q a.
Proof. intros H. apply (returns_run (fun _ => True) c (fun a _ => Q a) s H I). Qed.

(** What [createResponse] builds: the status is 200 on success and 500
    otherwise, and the response is a success exactly when it carries no
    error message; a message it carries is not empty. *)
Definition well_formed {T} (resp : Response T) : Prop :=
  http_status resp = (if success (body resp) then 200 else 500)%Z /\
  (success (body resp) = true <-> api_error (body resp) = None) /\
  (forall msg, api_error (body resp) = Some msg -> msg <> EmptyString).

Lemma createResponse_well_formed {T} (data : option T) error startTime n1 n2 :
  well_formed (createResponse data error startTime n1 n2).
Proof.
  unfold well_formed, createResponse. cbn [http_status body success api_error].
  destruct error as [[|c e]|]; cbn; repeat split; try discriminate; try reflexivity;
    intros; congruence.
Qed.

(** An answer without data: what a handler sends for a request it
    rejects or an error it catches. *)
Definition refusal {T} (resp : Response T) : Prop :=
  well_formed resp /\ api_data (body resp) = None.

End AnswerFacts.

(** ** The embedding function as a whole ([voyage-embed]) *)
Module EmbedHandlerFacts.
Import JS Eff Types Utils VoyageEmbed EffFacts EffLogic AnswerFacts.
Local Open Scope string_scope.

Section World.
Variable W : Type.
Variable now : W -> Z * W.
Variable voyage_api :
  list string -> string -> string -> W -> Fetched VoyageEmbeddingResponse * W.
Variable VOYAGE_API_KEY : option string.

Local Abbreviation state := (VoyageEmbed.state W).
Local Abbreviation serve_ := (serve W now voyage_api VOYAGE_API_KEY).
Local Abbreviation respond_ := (respond W now).

Lemma respond_answers {T} (data : option T) error startTime :
  answers (respond_ data error startTime)
    (fun resp => exists n1 n2, resp = createResponse data error startTime n1 n2).
Proof.
  unfold respond. apply answers_bind; [apply answers_lift|]. intros n1.
  apply answers_bind; [apply answers_lift|]. intros n2.
  apply answers_ret. eauto.
Qed.

Lemma respond_post {T} (data : option T) error startTime (Q : Response T -> Prop) :
  (forall n1 n2, Q (createResponse data error startTime n1 n2)) ->
  post (respond_ data error startTime) Q.
Proof.
  intros H. eapply triple_weaken; [apply respond_answers|auto| |].
  - intros resp _ (n1 & n2 & ->). apply H.
  - intros e _ [].
Qed.

Lemma te_getRequiredEnv key value : throws_errors (@getRequiredEnv state key value).
Proof. unfold getRequiredEnv. te_basic. Qed.

Lemma te_process_batch file_number source_url input_type batch :
  throws_errors (process_batch W voyage_api file_number source_url input_type batch).
Proof.
  unfold process_batch. apply te_bind.
  - apply te_retry_loop; [apply EmbedFacts.te_embed_call|right; discriminate].
  - intros r. unfold push_embedded, add_tokens. te_basic.
Qed.

(** What the handler sends: a well-formed response, which carries data
    only when it reports success. *)
Definition embed_answer (resp : Response EmbedResponse) : Prop :=
  well_formed resp /\ (success (body resp) = false -> api_data (body resp) = None).

Lemma embed_answer_error msg startTime n1 n2 :
  embed_answer (createResponse None (Some msg) startTime n1 n2).
Proof. split; [apply createResponse_well_formed|reflexivity]. Qed.

Lemma embed_answer_data d startTime n1 n2 :
  embed_answer (createResponse (Some d) None startTime n1 n2).
Proof. split; [apply createResponse_well_formed|discriminate]. Qed.

Lemma serve_chunks_post req startTime :
  post (serve_chunks W now voyage_api req startTime) embed_answer.
Proof.
  unfold serve_chunks.
  destruct (req_chunks req) as [[|c cs]|];
    try (apply respond_post; intros; apply embed_answer_error).
  apply post_bind; [apply te_for_each; intros; apply te_process_batch|]. intros _.
  apply post_bind; [apply te_get|]. intros st.
  apply respond_post. intros. apply embed_answer_data.
Qed.

Lemma handle_body_post req startTime :
  post (handle_body W now voyage_api VOYAGE_API_KEY req startTime) embed_answer.
Proof.
  unfold handle_body. apply post_bind; [apply te_getRequiredEnv|]. intros _.
  destruct req as [|[syntax_error|body]].
  - apply respond_post. intros. apply embed_answer_error.
  - apply post_bind; [apply te_throw|]. intros body. apply serve_chunks_post.
  - apply post_bind; [apply te_ret|]. intros body'. apply serve_chunks_post.
Qed.

(** On a POST whose body parses, the handler is [serve]. *)
Lemma serve_request_post (req : EmbedRequest) :
  serve_request W now voyage_api VOYAGE_API_KEY (Post (inr req)) = serve_ req.
Proof. reflexivity. Qed.

(** Whatever the request (a POST or not, with a body that parses or
    not) and whatever the embedding API does (refuse, fail, answer
    nonsense), the handler returns a response: no exception leaves it.
    The response is well formed, and it carries data only when it
    reports success. *)
Theorem embed_handler_always_answers (req : Request) (w : W) :
  exists resp st,
    serve_request W now voyage_api VOYAGE_API_KEY req (initial W w) = (Ret resp, st) /\
    well_formed resp /\
    (success (body resp) = false -> api_data (body resp) = None).
Proof.
  assert (H : answers (serve_request W now voyage_api VOYAGE_API_KEY req) embed_answer).
  { unfold serve_request. apply answers_bind; [apply answers_lift|]. intros startTime.
    apply answers_try_catch; [apply handle_body_post|].
    intros msg. cbn [message]. apply answers_bind; [apply answers_ret; exact I|].
    intros m. eapply answers_weaken; [apply respond_answers|].
    intros resp (n1 & n2 & ->). apply embed_answer_error. }
  destruct (answers_run _ _ (initial W w) H) as (resp & st & E & Hwf & Hdata).
  exists resp, st. auto.
Qed.

(** Only the clock was read: the world is the one three readings leave
    (one at the start, two for the response). *)
Definition three_readings (w : W) : W := snd (now (snd (now (snd (now w))))).

(** A request is refused before the embedding API is called when the
    API key is not configured, and when it has no chunk; the refusal
    names the reason. *)
Theorem embed_refuses_before_calling (req : EmbedRequest) (w : W) :
  (VOYAGE_API_KEY = None \/ VOYAGE_API_KEY = Some EmptyString \/
   req_chunks req = None \/ req_chunks req = Some []) ->
  exists resp st,
    serve_ req (initial W w) = (Ret resp, st) /\
    http_status resp = 500%Z /\
    api_data (body resp) = None /\
    api_error (body resp) =
      Some (match VOYAGE_API_KEY with
            | Some (String _ _) => "Missing or empty chunks array"
            | _ => "Missing required environment variable: VOYAGE_API_KEY"
            end) /\
    world W st = three_readings w /\
    embeddedChunks W st = [].
Proof.
  intros H. unfold three_readings.
  destruct (now w) as [t0 w1] eqn:N0. cbn [snd].
  destruct (now w1) as [t1 w2] eqn:N1. cbn [snd].
  destruct (now w2) as [t2 w3] eqn:N2. cbn [snd].
  unfold serve.
  erewrite bind_Ret by (apply EmbedFacts.serve_on_world_eval; cbn [world initial]; exact N0).
  assert (Hend : forall (data : option EmbedResponse) (msg : string),
            respond_ data (Some msg) t0 (EmbedFacts.set_world W w1 (initial W w)) =
            (Ret (createResponse data (Some msg) t0 t1 t2),
             EmbedFacts.set_world W w3 (EmbedFacts.set_world W w1 (initial W w)))).
  { intros data msg.
    apply (EmbedFacts.serve_respond_eval W now data (Some msg) t0 _ t1 w2 t2 w3);
      assumption. }
  unfold try_catch, serve_body, serve_chunks, getRequiredEnv.
  destruct VOYAGE_API_KEY as [[|c key]|] eqn:K; cbn [truthy_str].
  - erewrite bind_Throw by (unfold throw; reflexivity). cbn [message].
    erewrite bind_Ret by reflexivity. rewrite Hend. eexists _, _.
    split; [reflexivity|]. cbn. auto.
  - erewrite bind_Ret by reflexivity.
    assert (Hc : match req_chunks req with
                 | Some (_ :: _) => False
                 | _ => True
                 end).
    { destruct H as [H|[H|[H|H]]]; try discriminate; rewrite H; exact I. }
    destruct (req_chunks req) as [[|x xs]|]; try contradiction;
      rewrite Hend; eexists _, _; (split; [reflexivity|]); cbn; auto.
  - erewrite bind_Throw by (unfold throw; reflexivity). cbn [message].
    erewrite bind_Ret by reflexivity. rewrite Hend. eexists _, _.
    split; [reflexivity|]. cbn. auto.
Qed.

(** *** A service that answers every call *)

(** The embedding API answers each call with one vector per text, in the
    order of the texts. *)
Definition answers_in_order : Prop :=
  forall texts model input_type w,
    exists status text_body r w',
      voyage_api texts model input_type w = (Http true status text_body (inr r), w') /\
      map index (data r) = seq 0 (List.length texts).

(** The embedded chunk carries the file number and the URL of the
    request. *)
Definition tagged (req : EmbedRequest) (ec : EmbeddedChunk) : Prop :=
  ec_file_number ec = req_file_number req /\ ec_source_url ec = req_source_url req.

Lemma nth_error_seq {A} (l : list A) :
  map (nth_error l) (seq 0 (List.length l)) = map Some l.
Proof.
  induction l as [|x l IH]; [reflexivity|].
  cbn [List.length seq map nth_error]. f_equal.
  rewrite <- seq_shift, map_map, <- IH. apply map_ext. intros i. reflexivity.
Qed.

Lemma push_all batch file_number source_url items : forall st : state,
  for_each items (push_embedded W batch file_number source_url) st =
  (Ret tt,
   {| world := world W st;
      embeddedChunks :=
        (embeddedChunks W st ++
         map (fun item => {| original := nth_error batch (index item);
                             ec_embedding := embedding item;
                             ec_file_number := file_number;
                             ec_source_url := source_url |}) items)%list;
      totalTokens := totalTokens W st |}).
Proof.
  induction items as [|item items IH]; intros st; cbn [for_each map].
  - rewrite app_nil_r. destruct st. reflexivity.
  - unfold bind, push_embedded at 1, modify. rewrite IH. cbn [world embeddedChunks totalTokens].
    rewrite <- app_assoc. reflexivity.
Qed.

Lemma process_batch_ok req input_type batch (st : state) :
  answers_in_order ->
  exists st',
    process_batch W voyage_api (req_file_number req) (req_source_url req) input_type batch st =
      (Ret tt, st') /\
    map original (embeddedChunks W st') =
      (map original (embeddedChunks W st) ++ map Some batch)%list /\
    (Forall (tagged req) (embeddedChunks W st) -> Forall (tagged req) (embeddedChunks W st')).
Proof.
  intros Hapi. unfold process_batch, retryWithBackoff, default_maxRetries.
  cbn [retry_loop]. unfold try_catch, bind at 1, embed_call at 1, bind at 1, on_world, lift.
  destruct (Hapi (map prepareTextForEmbedding batch) VOYAGE_MODEL input_type (world W st))
    as (status & text_body & r & w' & E & Hi).
  rewrite E. cbn [negb ret]. unfold bind at 1. rewrite push_all.
  unfold add_tokens, modify. cbn [world embeddedChunks totalTokens].
  eexists. split; [reflexivity|]. cbn [embeddedChunks]. split.
  - rewrite map_app, map_map. cbn [original]. f_equal.
    rewrite <- (map_map index (nth_error batch)), Hi, length_map. apply nth_error_seq.
  - intros Ht. apply Forall_app. split; [exact Ht|].
    apply Forall_map, Forall_forall. intros item _. split; reflexivity.
Qed.

Lemma batches_ok req input_type batches :
  answers_in_order ->
  forall st : state,
  exists st',
    for_each batches
      (process_batch W voyage_api (req_file_number req) (req_source_url req) input_type) st =
      (Ret tt, st') /\
    map original (embeddedChunks W st') =
      (map original (embeddedChunks W st) ++ map Some (List.concat batches))%list /\
    (Forall (tagged req) (embeddedChunks W st) -> Forall (tagged req) (embeddedChunks W st')).
Proof.
  intros Hapi. induction batches as [|batch batches IH]; intros st; cbn [for_each List.concat].
  - exists st. rewrite app_nil_r. auto.
  - destruct (process_batch_ok req input_type batch st Hapi) as (st1 & E1 & H1 & T1).
    destruct (IH st1) as (st2 & E2 & H2 & T2).
    exists st2. rewrite (bind_Ret _ _ _ _ _ E1). split; [exact E2|]. split; [|auto].
    rewrite H2, H1, map_app, <- app_assoc. reflexivity.
Qed.

(** When the embedding API answers every call in order, a request with
    chunks is answered with success and with one embedded chunk per
    chunk of the request, in the order of the request, each with the
    request's file number and URL: cutting the chunks into batches of
    128 and putting the answers together loses and reorders nothing. *)
Theorem all_chunks_embedded_in_order (req : EmbedRequest) (w : W)
  (key : string) (c : ReductoChunk) (cs : list ReductoChunk) :
  answers_in_order ->
  VOYAGE_API_KEY = Some key -> truthy_str key = true ->
  req_chunks req = Some (c :: cs) ->
  exists resp st d,
    serve_ req (initial W w) = (Ret resp, st) /\
    http_status resp = 200%Z /\
    success (body resp) = true /\
    api_data (body resp) = Some d /\
    map original (chunks d) = map Some (c :: cs) /\
    Forall (tagged req) (chunks d).
Proof.
  intros Hapi Hkey Htruthy Hchunks.
  unfold serve. destruct (now w) as [startTime w0] eqn:N0.
  erewrite bind_Ret by (apply EmbedFacts.serve_on_world_eval; cbn [world initial]; exact N0).
  unfold try_catch, serve_body, serve_chunks. rewrite Hkey. unfold getRequiredEnv. rewrite Htruthy.
  erewrite bind_Ret by reflexivity. rewrite Hchunks.
  destruct (batches_ok req (EmbedFacts.input_type_of req)
              (chunkArray (c :: cs) VOYAGE_BATCH_SIZE) Hapi
              (EmbedFacts.set_world W w0 (initial W w))) as (st1 & E1 & H1 & T1).
  fold (EmbedFacts.input_type_of req). rewrite (bind_Ret _ _ _ _ _ E1).
  erewrite bind_Ret by reflexivity.
  destruct (now (world W st1)) as [n1 w1] eqn:N1. destruct (now w1) as [n2 w2] eqn:N2.
  rewrite (EmbedFacts.serve_respond_eval W now _ _ _ _ _ _ _ _ N1 N2).
  eexists _, _, _. split; [reflexivity|].
  repeat split.
  - change (map original (embeddedChunks W st1) = map Some (c :: cs)).
    rewrite H1. cbn [EmbedFacts.set_world embeddedChunks initial map app].
    rewrite UpsertFacts.chunkArray_concat; [reflexivity|].
    unfold VOYAGE_BATCH_SIZE. lia.
  - change (Forall (tagged req) (embeddedChunks W st1)). apply T1. constructor.
Qed.

End World.

(** An API that answers every call, with a vector of one component per
    text. *)
Definition steady_api (texts : list string) (model input_type : string) (w : unit)
  : Fetched VoyageEmbeddingResponse * unit :=
  (Http true 200 EmptyString
     (inr {| data := map (fun i => {| embedding := [1%float]; index := i |})
                       (seq 0 (List.length texts));
             model := model;
             total_tokens := Z.of_nat (List.length texts) |}), w).

Lemma steady_api_in_order : answers_in_order unit steady_api.
Proof.
  intros texts model input_type w. unfold steady_api. eexists _, _, _, _.
  split; [reflexivity|]. cbn [data]. rewrite map_map. cbn [index]. apply map_id.
Qed.

Definition frozen_clock (w : unit) : Z * unit := (1000%Z, w).

Definition two_chunk_request : EmbedRequest :=
  {| req_chunks := Some [Example.sent_chunk 0; Example.sent_chunk 1];
     req_file_number := "250700";
     req_source_url := "https://sfgov.legistar.com/a.pdf";
     req_input_type := None |}.

Lemma all_chunks_embedded_in_order_witness :
  exists resp st d,
    serve unit frozen_clock steady_api (Some "secret") two_chunk_request (initial unit tt) =
      (Ret resp, st) /\
    api_data (body resp) = Some d /\
    map original (chunks d) = [Some (Example.sent_chunk 0); Some (Example.sent_chunk 1)].
Proof.
  destruct (all_chunks_embedded_in_order unit frozen_clock steady_api (Some "secret")
              two_chunk_request tt "secret" (Example.sent_chunk 0) [Example.sent_chunk 1]
              steady_api_in_order eq_refl eq_refl eq_refl)
    as (resp & st & d & E & _ & _ & Hd & Ho & _).
  exists resp, st, d. auto.
Defined.

Lemma embed_refuses_before_calling_witness :
  exists resp st,
    serve unit frozen_clock steady_api None two_chunk_request (initial unit tt) =
      (Ret resp, st) /\
    api_error (body resp) = Some "Missing required environment variable: VOYAGE_API_KEY".
Proof.
  destruct (embed_refuses_before_calling unit frozen_clock steady_api None
              two_chunk_request tt (or_introl eq_refl))
    as (resp & st & E & _ & _ & He & _).
  exists resp, st. auto.
Defined.

End EmbedHandlerFacts.

(** ** The chunk store: what an upsert leaves behind *)
Module StoreFacts.
Import JS Types Utils MongoUpsert UpsertFacts.
Local Open Scope Z_scope.

(** [findOne({ source_url, chunk_index })]: the first record under the
    key. *)
Definition lookup (url : string) (idx : Z) (c : Collection) : option StoredDoc :=
  find (has_key url idx) (docs c).

(** The last document of a batch with the key. *)
Definition last_with_key (url : string) (idx : Z) (documents : list UpsertDoc)
  : option UpsertDoc :=
  find (doc_has_key url idx) (rev documents).

(** The record found under the key is the one [op] writes. *)
Definition stored_as (url : string) (idx : Z) (c : Collection) (op : UpdateOne) : Prop :=
  exists d, lookup url idx c = Some d /\ d = set_fields op (_id d).

Lemma op_key_eq op url idx :
  op_has_key url idx op = true -> filter_source_url op = url /\ filter_chunk_index op = idx.
Proof.
  unfold op_has_key. intros H. apply andb_true_iff in H as [H1 H2].
  apply String.eqb_eq in H1. apply Z.eqb_eq in H2. auto.
Qed.

Lemma update_first_find_other op url idx l l' changed :
  keyed op -> op_has_key url idx op = false ->
  update_first op l = Some (l', changed) ->
  find (has_key url idx) l' = find (has_key url idx) l.
Proof.
  intros K O. revert l' changed. induction l as [|d l IH]; intros l' changed;
    cbn [update_first]; [discriminate|].
  destruct (matches op d) eqn:M.
  - intros [= <- <-]. cbn [find].
    rewrite (has_key_set_fields _ _ _ _ K), (has_key_matches _ _ _ _ M), O. reflexivity.
  - destruct (update_first op l) as [[l'' ch]|]; [|discriminate].
    intros [= <- <-]. cbn [find]. rewrite (IH l'' ch eq_refl). reflexivity.
Qed.

Lemma update_first_find_self op url idx l l' changed :
  keyed op -> op_has_key url idx op = true ->
  update_first op l = Some (l', changed) ->
  exists d, find (has_key url idx) l' = Some d /\ d = set_fields op (_id d).
Proof.
  intros K O. destruct (op_key_eq _ _ _ O) as [<- <-].
  revert l' changed. induction l as [|d l IH]; intros l' changed;
    cbn [update_first]; [discriminate|].
  destruct (matches op d) eqn:M.
  - intros [= <- <-]. cbn [find]. rewrite (has_key_set_fields _ _ _ _ K), O.
    eexists. split; [reflexivity|]. destruct (K (_id d)) as (_ & _ & ->). reflexivity.
  - destruct (update_first op l) as [[l'' ch]|]; [|discriminate].
    intros [= <- <-]. cbn [find]. rewrite <- matches_has_key, M. apply (IH l'' ch eq_refl).
Qed.

Lemma find_none_filter {A} (p : A -> bool) l : filter p l = [] -> find p l = None.
Proof.
  induction l as [|x l IH]; cbn [filter find]; [reflexivity|].
  destruct (p x); [discriminate|exact IH].
Qed.

Lemma find_app {A} (p : A -> bool) l1 l2 :
  find p (l1 ++ l2) = match find p l1 with Some x => Some x | None => find p l2 end.
Proof.
  induction l1 as [|x l1 IH]; cbn [app find]; [reflexivity|].
  destruct (p x); [reflexivity|exact IH].
Qed.

(** An operation on another key leaves the record of the key alone. *)
Lemma updateOne_other op url idx c :
  keyed op -> op_has_key url idx op = false ->
  lookup url idx (fst (updateOne c op)) = lookup url idx c.
Proof.
  intros K O. unfold updateOne, lookup.
  destruct (update_first op (docs c)) as [[l ch]|] eqn:U; cbn [fst docs].
  - apply (update_first_find_other _ _ _ _ _ _ K O U).
  - rewrite find_app. cbn [find]. rewrite (has_key_set_fields _ _ _ _ K), O.
    destruct (find (has_key url idx) (docs c)); reflexivity.
Qed.

(** An operation on the key leaves its own record under it. *)
Lemma updateOne_self op url idx c :
  keyed op -> op_has_key url idx op = true -> stored_as url idx (fst (updateOne c op)) op.
Proof.
  intros K O. unfold stored_as, updateOne, lookup.
  destruct (update_first op (docs c)) as [[l ch]|] eqn:U; cbn [fst docs].
  - apply (update_first_find_self _ _ _ _ _ _ K O U).
  - rewrite find_app. destruct (op_key_eq _ _ _ O) as [E1 E2].
    apply update_first_none in U. rewrite E1, E2 in U. rewrite (find_none_filter _ _ U).
    cbn [find]. rewrite (has_key_set_fields _ _ _ _ K), O.
    eexists. split; [reflexivity|]. destruct (K (next_id c)) as (_ & _ & ->). reflexivity.
Qed.

Lemma updateOne_frame op op0 url idx c :
  keyed op -> op_has_key url idx op = false ->
  stored_as url idx c op0 -> stored_as url idx (fst (updateOne c op)) op0.
Proof.
  intros K O (d & Hd & E). exists d. rewrite (updateOne_other _ _ _ _ K O). auto.
Qed.

Lemma last_with_key_snoc url idx documents doc :
  last_with_key url idx (documents ++ [doc]) =
  if doc_has_key url idx doc then Some doc else last_with_key url idx documents.
Proof. unfold last_with_key. rewrite rev_app_distr. reflexivity. Qed.

Section Clock.
Variable clock : nat -> Z.

(** The invariant of the loops, once the documents [done] were written
    into the collection [c0]: the record under the key is the one
    written for the last of them with the key, or the one [c0] had. *)
Definition written (url : string) (idx : Z) (c0 : Collection) (done : list UpsertDoc)
  (c : Collection) : Prop :=
  match last_with_key url idx done with
  | Some doc => exists t, stored_as url idx c (upsert_op (clock t) doc)
  | None => lookup url idx c = lookup url idx c0
  end.

Lemma written_step url idx c0 done c t doc :
  written url idx c0 done c ->
  written url idx c0 (done ++ [doc]) (fst (updateOne c (upsert_op (clock t) doc))).
Proof.
  unfold written. rewrite last_with_key_snoc. intros H.
  pose proof (upsert_op_keyed (clock t) doc) as K.
  destruct (doc_has_key url idx doc) eqn:D.
  - exists t. apply updateOne_self; [exact K|exact D].
  - destruct (last_with_key url idx done) as [doc0|].
    + destruct H as [t0 H]. exists t0. apply updateOne_frame; assumption.
    + rewrite updateOne_other; assumption.
Qed.

Lemma written_bulk url idx c0 batch : forall done cr t,
  written url idx c0 done (fst cr) ->
  written url idx c0 (done ++ batch) (fst (fold_left bulk_step (bulk_ops clock t batch) cr)).
Proof.
  induction batch as [|doc batch IH]; intros done cr t H; cbn [bulk_ops fold_left].
  - rewrite app_nil_r. exact H.
  - replace (done ++ doc :: batch)%list with ((done ++ [doc]) ++ batch)%list
      by (rewrite <- app_assoc; reflexivity).
    apply IH. rewrite bulk_step_fst. apply written_step, H.
Qed.

Lemma written_batch url idx c0 done sr batch :
  written url idx c0 done (collection (fst sr)) ->
  written url idx c0 (done ++ batch) (collection (fst (upsert_batch clock sr batch))).
Proof.
  intros H. unfold upsert_batch.
  pose proof (written_bulk url idx c0 batch done
                (collection (fst sr), {| upsertedCount := 0; modifiedCount := 0 |})
                (ticks (fst sr)) H) as Hb.
  rewrite <- bulkWrite_fold in Hb.
  destruct (bulkWrite (collection (fst sr)) (bulk_ops clock (ticks (fst sr)) batch)).
  exact Hb.
Qed.

Lemma written_batches url idx c0 batches : forall done sr,
  written url idx c0 done (collection (fst sr)) ->
  written url idx c0 (done ++ List.concat batches)
    (collection (fst (fold_left (upsert_batch clock) batches sr))).
Proof.
  induction batches as [|b batches IH]; intros done sr H; cbn [fold_left List.concat].
  - rewrite app_nil_r. exact H.
  - rewrite app_assoc. apply IH, written_batch, H.
Qed.

Lemma obj_get_set o k v : obj_get (obj_set o k v) k = Some v.
Proof.
  induction o as [|[k' v'] o IH]; cbn [obj_set obj_get].
  - rewrite String.eqb_refl. reflexivity.
  - destruct (String.eqb k k') eqn:E; cbn [obj_get].
    + rewrite String.eqb_refl. reflexivity.
    + rewrite E. exact IH.
Qed.

(** What is upserted is what is found.  After [handleUpsert], the
    record found under a key is the one written for the last document
    of the request with that key: its text, its file number, page and
    box, its embedding quantized, the number of its dimensions, and the
    time of the write; under a key that no document of the request has,
    the record found is the one that was there. *)
Theorem upsert_then_find (documents : list UpsertDoc) (s : Store) (url : string) (idx : Z) :
  let s' := fst (handleUpsert clock documents s) in
  match last_with_key url idx documents with
  | Some doc =>
      exists d t,
        lookup url idx (collection s') = Some d /\
        source_url d = url /\ chunk_index d = idx /\
        text d = u_text doc /\
        embedding d = Some (quantizeEmbedding (u_embedding doc)) /\
        embedding_dimensions d = Some (List.length (u_embedding doc)) /\
        file_number d = u_file_number doc /\
        page_number d = u_page_number doc /\
        bbox d = u_bbox doc /\
        obj_get (metadata d) "embedded_at" = Some (VTime (clock t))
  | None => lookup url idx (collection s') = lookup url idx (collection s)
  end.
Proof.
  cbn zeta. unfold handleUpsert.
  pose proof (written_batches url idx (collection s) (chunkArray documents BATCH_SIZE) []
                (s, {| upserted_count := 0; modified_count := 0 |})) as H.
  cbn [app fst] in H. rewrite chunkArray_concat in H by (unfold BATCH_SIZE; lia).
  unfold written in H. cbn [last_with_key rev find] in H. specialize (H eq_refl).
  destruct (last_with_key url idx documents) as [doc|] eqn:L; [|exact H].
  destruct H as (t & d & Hd & E). exists d, t. split; [exact Hd|].
  assert (Hk : doc_has_key url idx doc = true).
  { unfold last_with_key in L. apply find_some in L. apply L. }
  unfold doc_has_key in Hk. apply andb_true_iff in Hk as [K1 K2].
  apply String.eqb_eq in K1. apply Z.eqb_eq in K2.
  rewrite E. cbn. rewrite obj_get_set. auto 10.
Qed.

(** *** Nothing is deleted *)

(** From the collection [c] with the counts [u] and [m], the collection
    [c'] with the counts [u'] and [m'] was reached by [n] operations:
    the records of [c] are the first records of [c'], in their order,
    [u' - u] records follow them, and the two counts grew by [n] at
    most together. *)
Definition grown (c c' : Collection) (u m u' m' : Z) (n : nat) : Prop :=
  exists extra,
    map _id (docs c') = (map _id (docs c) ++ extra)%list /\
    u' = u + Z.of_nat (List.length extra) /\
    m <= m' /\
    u' + m' <= u + m + Z.of_nat n.

Lemma grown_refl c u m : grown c c u m u m 0.
Proof. exists []. rewrite app_nil_r. cbn. repeat split; lia. Qed.

Lemma grown_trans c1 c2 c3 u1 m1 u2 m2 u3 m3 n1 n2 :
  grown c1 c2 u1 m1 u2 m2 n1 -> grown c2 c3 u2 m2 u3 m3 n2 ->
  grown c1 c3 u1 m1 u3 m3 (n1 + n2).
Proof.
  intros (e1 & H1 & U1 & M1 & B1) (e2 & H2 & U2 & M2 & B2).
  exists (e1 ++ e2)%list. rewrite H2, H1, <- app_assoc, length_app.
  repeat split; lia.
Qed.

Lemma update_first_ids op l l' changed :
  keyed op -> update_first op l = Some (l', changed) -> map _id l' = map _id l.
Proof.
  intros K. revert l' changed. induction l as [|d l IH]; intros l' changed;
    cbn [update_first]; [discriminate|].
  destruct (matches op d).
  - intros [= <- <-]. cbn [map]. destruct (K (_id d)) as (_ & _ & ->). reflexivity.
  - destruct (update_first op l) as [[l'' ch]|]; [|discriminate].
    intros [= <- <-]. cbn [map]. rewrite (IH l'' ch eq_refl). reflexivity.
Qed.

Lemma bulk_step_grown cr op :
  keyed op ->
  grown (fst cr) (fst (bulk_step cr op))
    (upsertedCount (snd cr)) (modifiedCount (snd cr))
    (upsertedCount (snd (bulk_step cr op))) (modifiedCount (snd (bulk_step cr op))) 1.
Proof.
  intros K. unfold grown, bulk_step, updateOne.
  destruct (update_first op (docs (fst cr))) as [[l ch]|] eqn:U;
    cbn [fst snd docs upsertedCount modifiedCount].
  - exists []. rewrite (update_first_ids _ _ _ _ K U), app_nil_r.
    destruct ch; cbn [List.length]; repeat split; lia.
  - exists [next_id (fst cr)]. rewrite map_app. cbn [map List.length].
    destruct (K (next_id (fst cr))) as (_ & _ & ->). repeat split; lia.
Qed.

Lemma bulk_fold_grown ops : forall cr,
  Forall keyed ops ->
  grown (fst cr) (fst (fold_left bulk_step ops cr))
    (upsertedCount (snd cr)) (modifiedCount (snd cr))
    (upsertedCount (snd (fold_left bulk_step ops cr)))
    (modifiedCount (snd (fold_left bulk_step ops cr))) (List.length ops).
Proof.
  induction ops as [|op ops IH]; intros cr K; cbn [fold_left List.length].
  - apply grown_refl.
  - inversion K as [|? ? Kop Kops]; subst.
    change (S (List.length ops)) with (1 + List.length ops)%nat.
    eapply grown_trans; [apply (bulk_step_grown cr op Kop)|apply IH, Kops].
Qed.

Lemma bulk_ops_length t batch : List.length (bulk_ops clock t batch) = List.length batch.
Proof.
  revert t. induction batch as [|d batch IH]; intros t; cbn [bulk_ops List.length];
    [reflexivity|]. rewrite IH. reflexivity.
Qed.

Lemma upsert_batch_grown sr batch :
  grown (collection (fst sr)) (collection (fst (upsert_batch clock sr batch)))
    (upserted_count (snd sr)) (modified_count (snd sr))
    (upserted_count (snd (upsert_batch clock sr batch)))
    (modified_count (snd (upsert_batch clock sr batch))) (List.length batch).
Proof.
  unfold upsert_batch.
  pose proof (bulk_fold_grown (bulk_ops clock (ticks (fst sr)) batch)
                (collection (fst sr), {| upsertedCount := 0; modifiedCount := 0 |})
                (bulk_ops_keyed _ _ _)) as H.
  rewrite <- bulkWrite_fold, bulk_ops_length in H.
  destruct (bulkWrite (collection (fst sr)) (bulk_ops clock (ticks (fst sr)) batch)) as [c r].
  cbn [fst snd collection upserted_count modified_count upsertedCount modifiedCount] in *.
  destruct H as (extra & H1 & H2 & H3 & H4). exists extra. repeat split; try lia. exact H1.
Qed.

Lemma batches_grown batches : forall sr,
  grown (collection (fst sr)) (collection (fst (fold_left (upsert_batch clock) batches sr)))
    (upserted_count (snd sr)) (modified_count (snd sr))
    (upserted_count (snd (fold_left (upsert_batch clock) batches sr)))
    (modified_count (snd (fold_left (upsert_batch clock) batches sr)))
    (List.length (List.concat batches)).
Proof.
  induction batches as [|b batches IH]; intros sr; cbn [fold_left List.concat].
  - apply grown_refl.
  - rewrite length_app.
    eapply grown_trans; [apply (upsert_batch_grown sr b)|apply IH].
Qed.

(** An upsert deletes nothing and moves nothing: the records that were
    in the collection are its first records afterwards, in the same
    order; [upserted_count] new records follow them; and the two counts
    of the answer are not negative and together not more than the
    documents of the request. *)
Theorem upsert_only_adds (documents : list UpsertDoc) (s : Store) :
  let s' := fst (handleUpsert clock documents s) in
  let r := snd (handleUpsert clock documents s) in
  exists added,
    map _id (docs (collection s')) = (map _id (docs (collection s)) ++ added)%list /\
    upserted_count r = Z.of_nat (List.length added) /\
    0 <= modified_count r /\
    upserted_count r + modified_count r <= Z.of_nat (List.length documents).
Proof.
  cbn zeta. unfold handleUpsert.
  pose proof (batches_grown (chunkArray documents BATCH_SIZE)
                (s, {| upserted_count := 0; modified_count := 0 |})) as H.
  rewrite chunkArray_concat in H by (unfold BATCH_SIZE; lia).
  cbn [fst snd upserted_count modified_count] in H.
  destruct H as (extra & H1 & H2 & H3 & H4). exists extra. repeat split; try lia. exact H1.
Qed.

End Clock.
End StoreFacts.

(** ** What a search answers *)
Module SearchAnswerFacts.
Import JS Eff Types Utils MongoUpsert SearchFacts.
Local Open Scope list_scope.

Lemma In_slice0 {A} (x : A) l n : In x (slice0 l n) -> In x l.
Proof. unfold slice0. destruct (n <? 0)%Z; apply In_firstn. Qed.

Lemma slice0_length {A} (l : list A) n : (List.length (slice0 l n) <= List.length l)%nat.
Proof. unfold slice0. destruct (n <? 0)%Z; rewrite length_firstn; apply Nat.le_min_r. Qed.

Lemma In_rank q min_score limit allDocs x :
  In x (rank q min_score limit allDocs) -> In (fst x) allDocs.
Proof.
  unfold rank. intros H. apply In_slice0 in H.
  apply (Permutation_in _ (sort_perm _)) in H. apply filter_In in H as [H _].
  unfold scored in H. apply in_map_iff in H as (d & <- & Hd). exact Hd.
Qed.

Lemma rank_length q min_score limit allDocs :
  (List.length (rank q min_score limit allDocs) <= List.length allDocs)%nat.
Proof.
  unfold rank. eapply Nat.le_trans; [apply slice0_length|].
  rewrite (Permutation_length (sort_perm _)).
  eapply Nat.le_trans; [apply filter_length_le|].
  unfold scored. rewrite length_map. apply Nat.le_refl.
Qed.

(** The document is one the request asks for. *)
Definition requested (file_numbers : option (list string)) (d : StoredDoc) : Prop :=
  match file_numbers with
  | Some (f :: fs) => In (file_number d) (f :: fs)
  | _ => True
  end.

Lemma In_candidates file_numbers c d :
  In d (find_candidates file_numbers c) ->
  In d (docs c) /\ embedding d <> None /\ requested file_numbers d.
Proof.
  unfold find_candidates. intros H. apply In_firstn in H. apply filter_In in H as [H1 H2].
  apply andb_true_iff in H2 as [H2 H3]. split; [exact H1|]. split.
  - destruct (embedding d); [discriminate|discriminate].
  - unfold requested. destruct file_numbers as [[|f fs]|]; try exact I.
    apply existsb_exists in H2 as (x & Hx & E). apply String.eqb_eq in E. subst x. exact Hx.
Qed.

Section Search.
Variable generateQueryEmbedding : string -> outcome (list number).

(** Every result of a search is a record of the collection that has an
    embedding and, when the request names file numbers, one of these
    file numbers; it is returned with its fields but without its
    embedding.  [total_found] is the number of results, and never more
    than 500: the candidates are the first 500 matching records of the
    collection, whatever [limit] says. *)
Theorem search_results_from_store (request : SearchRequest) (c : Collection)
  (resp : SearchResponse) :
  handleSearch generateQueryEmbedding request c = Ret resp ->
  total_found resp = List.length (results resp) /\
  (List.length (results resp) <= 500)%nat /\
  Forall (fun r =>
            embedding (document r) = Some [] /\
            exists d, In d (docs c) /\ r = to_result (d, score r) /\
                      embedding d <> None /\ requested (file_numbers request) d)
         (results resp).
Proof.
  assert (Hq : forall q,
            Ret {| results := map to_result
                     (rank q (match min_score request with Some x => x | None => 0.7%float end)
                        (match limit request with Some n => n | None => 10%Z end)
                        (find_candidates (file_numbers request) c));
                   total_found := List.length (map to_result
                     (rank q (match min_score request with Some x => x | None => 0.7%float end)
                        (match limit request with Some n => n | None => 10%Z end)
                        (find_candidates (file_numbers request) c))) |} = Ret resp ->
            total_found resp = List.length (results resp) /\
            (List.length (results resp) <= 500)%nat /\
            Forall (fun r =>
                      embedding (document r) = Some [] /\
                      exists d, In d (docs c) /\ r = to_result (d, score r) /\
                                embedding d <> None /\ requested (file_numbers request) d)
                   (results resp)).
  { intros q [= <-]. cbn [total_found results]. split; [reflexivity|]. split.
    - rewrite length_map. eapply Nat.le_trans; [apply rank_length|].
      unfold find_candidates. apply firstn_le_length.
    - apply Forall_map, Forall_forall. intros [d s] H.
      cbn [to_result document score embedding].
      split; [reflexivity|]. exists d. apply In_rank in H. cbn [fst] in H.
      apply In_candidates in H. destruct H as (H1 & H2 & H3). auto. }
  unfold handleSearch.
  destruct (query_embedding request) as [q|]; [apply Hq|].
  destruct (query_text request) as [t|]; [|discriminate].
  destruct (truthy_str t); [|discriminate].
  destruct (generateQueryEmbedding t) as [v|e]; [apply Hq|discriminate].
Qed.

End Search.

(** A request that carries an embedding is answered without a call of
    the embedding service, whatever text it carries too; a request that
    carries neither an embedding nor a text (or an empty text) is
    refused. *)
Theorem search_query_resolution
  (g1 g2 : string -> outcome (list number)) (request : SearchRequest) (c : Collection) :
  (query_embedding request <> None ->
   handleSearch g1 request c = handleSearch g2 request c) /\
  (query_embedding request = None ->
   query_text request = None \/ query_text request = Some EmptyString ->
   handleSearch g1 request c =
   Throw (Some "Either query_embedding or query_text must be provided"%string)).
Proof.
  unfold handleSearch. split.
  - destruct (query_embedding request); [reflexivity|congruence].
  - intros -> [->| ->]; reflexivity.
Qed.

(** The store of the example and a request with its query. *)
Definition example_collection : Collection :=
  {| docs := example_docs; next_id := 3 |}.

Definition example_request : SearchRequest :=
  {| query_embedding := Some example_query; query_text := Some "height limit"%string;
     file_numbers := None; limit := None; min_score := Some 0.6%float |}.

Lemma search_results_from_store_witness :
  exists resp,
    handleSearch (fun _ => Throw None) example_request example_collection = Ret resp /\
    total_found resp = List.length (results resp) /\
    (List.length (results resp) <= 500)%nat.
Proof.
  eexists. split; [reflexivity|].
  destruct (search_results_from_store (fun _ => Throw None) example_request
              example_collection _ eq_refl) as (H1 & H2 & _).
  split; [exact H1|exact H2].
Defined.

Lemma search_query_resolution_witness :
  handleSearch (fun _ => Throw None) example_request example_collection =
  handleSearch (fun _ => Ret []) example_request example_collection /\
  handleSearch (fun _ => Ret [])
    {| query_embedding := None; query_text := Some EmptyString; file_numbers := None;
       limit := None; min_score := None |} example_collection =
  Throw (Some "Either query_embedding or query_text must be provided"%string).
Proof.
  split.
  - apply (search_query_resolution (fun _ => Throw None) (fun _ => Ret [])
             example_request example_collection). discriminate.
  - apply (search_query_resolution (fun _ => Ret []) (fun _ => Ret []) _ example_collection);
      [reflexivity|right; reflexivity].
Defined.

End SearchAnswerFacts.

(** ** The similarity and the quantizer as functions of numbers *)
Module ScoreFacts.
Import JS Types MongoUpsert FloatFacts.
Local Open Scope float_scope.

Lemma SF64mul_comm x y : SF64mul x y = SF64mul y x.
Proof.
  unfold SF64mul, SFmul.
  destruct x as [sx|sx| |sx mx ex], y as [sy|sy| |sy my ey];
    try reflexivity; try (rewrite Bool.xorb_comm; reflexivity).
  rewrite Bool.xorb_comm, Pos.mul_comm, Z.add_comm. reflexivity.
Qed.

Lemma mul_comm (x y : number) : x * y = y * x.
Proof. apply Prim2SF_inj. rewrite !mul_spec. apply SF64mul_comm. Qed.

(** One turn of the loop of [cosineSim]. *)
Definition sums_step (acc : number * number * number) (xy : number * number)
  : number * number * number :=
  let '(dot, magA, magB) := acc in
  (dot + fst xy * snd xy, magA + fst xy * fst xy, magB + snd xy * snd xy).

Definition swap_mags (acc : number * number * number) : number * number * number :=
  let '(dot, magA, magB) := acc in (dot, magB, magA).

Lemma sums_swap (a : list number) : forall b acc,
  fold_left sums_step (combine b a) (swap_mags acc) =
  swap_mags (fold_left sums_step (combine a b) acc).
Proof.
  induction a as [|x a IH]; intros b acc.
  - destruct b; reflexivity.
  - destruct b as [|y b]; [reflexivity|]. cbn [combine fold_left].
    rewrite <- IH. f_equal. destruct acc as [[dot magA] magB]. cbn.
    rewrite (mul_comm y x). reflexivity.
Qed.

Definition no_sums : number * number * number := (0, 0, 0).

Lemma cosineSim_sums (a b : list number) :
  cosineSim (Some a) (Some b) =
  if negb (List.length a =? List.length b)%nat then 0
  else let '(dot, magA, magB) := fold_left sums_step (combine a b) no_sums in
       dot / (sqrt magA * sqrt magB).
Proof. reflexivity. Qed.

(** The similarity does not depend on which of the two vectors is the
    query: the two calls return the same number, bit for bit, NaN
    included. *)
Theorem cosineSim_symmetric (a b : option (list number)) :
  cosineSim a b = cosineSim b a.
Proof.
  destruct a as [a|], b as [b|]; try reflexivity. rewrite !cosineSim_sums.
  rewrite (Nat.eqb_sym (List.length b) (List.length a)).
  destruct (List.length a =? List.length b)%nat; [|reflexivity]. cbn [negb].
  pose proof (sums_swap a b no_sums) as H.
  change (swap_mags no_sums) with no_sums in H. rewrite H.
  destruct (fold_left sums_step (combine a b) no_sums) as [[dot magA] magB].
  cbn [swap_mags]. rewrite (mul_comm (sqrt magB) (sqrt magA)). reflexivity.
Qed.

(** *** The lowest component *)

Lemma truthy_spec (r : number) :
  truthy r = true ->
  match Prim2SF r with
  | S754_zero _ | S754_nan => False
  | _ => True
  end.
Proof.
  unfold truthy. intros H. apply Bool.negb_true_iff, Bool.orb_false_iff in H as [Hz Hn].
  apply is_nan_spec in Hn.
  destruct (Prim2SF r) as [s|s| |s m e] eqn:E; try exact I; [|congruence].
  assert (Hz' : is_zero r = true) by (apply CosineFacts.is_zero_spec; rewrite E; exact I).
  congruence.
Qed.

Lemma or_else_truthy (x d : number) : truthy d = true -> truthy (or_else x d) = true.
Proof. intros Hd. unfold or_else. destruct (truthy x) eqn:E; [exact E|exact Hd]. Qed.

(** [(0 / range) * 255 - 128] is -128 for every range that is neither
    zero nor NaN. *)
Lemma lowest_level (range : number) :
  truthy range = true -> (0 / range) * 255 - 128 = -128.
Proof.
  intros H. apply truthy_spec in H. apply Prim2SF_inj.
  rewrite sub_spec, mul_spec, div_spec.
  change (Prim2SF 0) with (S754_zero false).
  change (Prim2SF 255) with (S754_finite false 8972014882652160 (-45)).
  change (Prim2SF 128) with (S754_finite false 4503599627370496 (-45)).
  change (Prim2SF (-128)) with (S754_finite true 4503599627370496 (-45)).
  destruct (Prim2SF range) as [s|s| |s m e]; try contradiction; reflexivity.
Qed.

(** A component equal to the minimum of the vector, when that is a
    finite number, is quantized to -128, whatever the other components
    are (infinite or NaN ones included). *)
Theorem minimum_quantizes_to_lowest (embedding : list number) (i : nat) :
  let min := fst (min_max embedding) in
  is_finite min = true ->
  nth_error embedding i = Some min ->
  nth_error (quantizeEmbedding embedding) i = Some (-128).
Proof.
  intros min Hmin Hi. unfold quantizeEmbedding. fold min.
  rewrite nth_error_map. unfold number in *. rewrite Hi. cbn [option_map]. f_equal.
  rewrite (sub_self min Hmin), lowest_level; [reflexivity|].
  apply or_else_truthy. reflexivity.
Qed.

Lemma minimum_quantizes_to_lowest_witness :
  nth_error (quantizeEmbedding [0.25; -0.5; infinity; 0.75]) 1 = Some (-128).
Proof.
  apply (minimum_quantizes_to_lowest [0.25; -0.5; infinity; 0.75] 1); reflexivity.
Defined.

End ScoreFacts.

(** ** Upsert, then search *)
Module RetrievalFacts.
Import JS Eff Types Utils MongoUpsert.
Local Open Scope Z_scope.

(** A search by vector with everything said. *)
Definition vector_search (q : list number) (min_score : number) (limit : Z) : SearchRequest :=
  {| query_embedding := Some q; query_text := None; file_numbers := None;
     limit := Some limit; min_score := Some min_score |}.

(** The record of the first document written into an empty collection. *)
Definition first_record (embedded_at : Z) (doc : UpsertDoc) : StoredDoc :=
  set_fields (upsert_op embedded_at doc) 0%nat.

(** A document that was upserted is scored by its quantized embedding:
    after the upsert of one document into an empty collection, a search
    returns it exactly when the similarity of the query to the
    quantized vector reaches the threshold, and with that similarity;
    the vector the document was sent with plays no part. *)
Theorem upsert_then_search (clock : nat -> Z) (doc : UpsertDoc) (q : list number)
  (min_score : number) (limit : Z) (g : string -> outcome (list number)) :
  0 < limit ->
  let s' := fst (handleUpsert clock [doc] UpsertFacts.empty_store) in
  let similarity := cosineSim (Some q) (Some (quantizeEmbedding (u_embedding doc))) in
  handleSearch g (vector_search q min_score limit) (collection s') =
  Ret (if ge similarity min_score
       then {| results := [to_result (first_record (clock 0%nat) doc, similarity)];
               total_found := 1%nat |}
       else {| results := []; total_found := 0%nat |}).
Proof.
  intros Hl. cbn zeta.
  change (collection (fst (handleUpsert clock [doc] UpsertFacts.empty_store)))
    with {| docs := [first_record (clock 0%nat) doc]; next_id := 1%nat |}.
  unfold handleSearch, vector_search.
  cbn [query_embedding query_text file_numbers MongoUpsert.limit MongoUpsert.min_score].
  change (find_candidates None {| docs := [first_record (clock 0%nat) doc]; next_id := 1%nat |})
    with [first_record (clock 0%nat) doc].
  unfold rank, scored. cbn [map filter snd].
  change (embedding (first_record (clock 0%nat) doc))
    with (Some (quantizeEmbedding (u_embedding doc))).
  destruct (ge (cosineSim (Some q) (Some (quantizeEmbedding (u_embedding doc)))) min_score).
  - cbn [sort fold_right insert]. rewrite SearchFacts.slice0_firstn by lia.
    destruct (Z.to_nat limit) as [|n] eqn:E; [lia|]. cbn [firstn]. rewrite firstn_nil.
    reflexivity.
  - cbn [sort fold_right]. unfold slice0. destruct (limit <? 0); rewrite firstn_nil; reflexivity.
Qed.

(** The unit vector of five dimensions, stored and then searched for
    with itself and the default threshold: its quantized form is
    [127; -128; -128; -128; -128], whose similarity to it is below 0.45. *)
Definition unit_doc : UpsertDoc :=
  {| u_text := "Height limit 40 feet"; u_embedding := [1; 0; 0; 0; 0]%float;
     u_file_number := "250700"; u_source_url := "https://sfgov.legistar.com/a.pdf";
     u_page_number := 1; u_bbox := ReductoParse.full_page; u_chunk_index := 0;
     u_metadata := None |}.

Lemma upsert_then_search_witness :
  handleSearch (fun _ => Throw None) (vector_search [1; 0; 0; 0; 0]%float 0.7%float 10)
    (collection (fst (handleUpsert Z.of_nat [unit_doc] UpsertFacts.empty_store))) =
  Ret {| results := []; total_found := 0%nat |}.
Proof.
  rewrite (upsert_then_search Z.of_nat unit_doc [1; 0; 0; 0; 0]%float 0.7%float 10
             (fun _ => Throw None)) by lia.
  reflexivity.
Defined.

End RetrievalFacts.

(** ** Every run of the pipeline ends with a job that can be read *)
Module RunFacts.
Import JS Eff Types Utils Orchestrate EffFacts EffLogic.
Local Open Scope string_scope.
Local Open Scope eff_scope.

Section World.
Variable W : Type.
Variable now : W -> Z * W.
Variable generateJobId : W -> string * W.
Variable discover : DiscoverBody -> W -> Fetched (APIResponse DiscoverData) * W.
Variable parse : string -> string -> W -> Fetched (APIResponse ParseData) * W.
Variable embed : VoyageEmbed.EmbedRequest -> W -> Fetched (APIResponse EmbedData) * W.
Variable upsert :
  list VoyageEmbed.EmbeddedChunk -> W -> Fetched (APIResponse UpsertData) * W.

Local Abbreviation run := (runPipelineSync W now generateJobId discover parse embed upsert).
Local Abbreviation body_ := (pipeline_body W now discover parse embed upsert).
Local Abbreviation start := (initial W now generateJobId).
Local Abbreviation state := (Orchestrate.state W).
Local Abbreviation set_world := (PipelineFacts.set_world W).
Local Abbreviation set_job := (PipelineFacts.set_job W).
Local Abbreviation add_log := (PipelineFacts.add_log W).

(** *** Invariants of a run *)

(** An assignment to a field of the job other than the error, the list
    of discovered documents and the two chunk counters. *)
Definition frames (f : PipelineJob -> PipelineJob) : Prop :=
  forall j, error (f j) = error j /\ discovered_pdfs (f j) = discovered_pdfs j /\
            parsed_chunks (f j) = parsed_chunks j /\
            embedded_chunks (f j) = embedded_chunks j.

(** The state after the chunks of one PDF are pushed and counted, and
    after the chunks of one group are. *)
Definition push_parsed (pushed : list PipelineChunk) (st : state) : state :=
  {| world := world W st;
     job := with_parsed (Z.of_nat (List.length (allChunks W st ++ pushed))) (job W st);
     allChunks := (allChunks W st ++ pushed)%list;
     embeddedChunks := embeddedChunks W st; log := log W st |}.

Definition push_embedded (embedded : list VoyageEmbed.EmbeddedChunk) (st : state) : state :=
  {| world := world W st;
     job := with_embedded (Z.of_nat (List.length (embeddedChunks W st ++ embedded)))
              (job W st);
     allChunks := allChunks W st;
     embeddedChunks := (embeddedChunks W st ++ embedded)%list; log := log W st |}.

(** A property of the state that the steps common to all stages keep. *)
Record invariant (I : state -> Prop) : Prop := {
  inv_world : forall st w, I st -> I (set_world w st);
  inv_log : forall st e, I st -> I (add_log e st);
  inv_job : forall st f, frames f -> I st -> I (set_job (f (job W st)) st);
  inv_embedded : forall st l, I st -> I (push_embedded l st)
}.

(** What the orchestrator makes of a chunk of a PDF. *)
Definition from_pdf (pdf : FirecrawlDiscoveryResult) (c : PipelineChunk) : Prop :=
  pc_file_number c = file_number pdf /\ pc_source_url c = url pdf /\
  obj_get (pc_metadata c) "discovered_at" = Some (VStr (discovered_at pdf)).

(** [keeps I J c]: the computation keeps [I] when it returns; when it
    throws, it throws an [Error] object and leaves a state in [J]. *)
Definition keeps {A} (I J : state -> Prop) (c : M state A) : Prop :=
  triple I c (fun _ => I) (fun e st => e <> None /\ J st).

Lemma obj_get_set_other o k k' v :
  k <> k' -> obj_get (obj_set o k' v) k = obj_get o k.
Proof.
  intros Hk. assert (E : String.eqb k k' = false) by (apply String.eqb_neq, Hk).
  induction o as [|[k0 v0] o IH]; cbn [obj_set obj_get].
  - rewrite E. reflexivity.
  - destruct (String.eqb k' k0) eqn:E0; cbn [obj_get].
    + apply String.eqb_eq in E0. subst k0. rewrite E. reflexivity.
    + rewrite IH. reflexivity.
Qed.

Lemma obj_get_remove_other o k k' :
  k <> k' -> obj_get (obj_remove o k') k = obj_get o k.
Proof.
  intros Hk. induction o as [|[k0 v0] o IH]; [reflexivity|].
  unfold obj_remove in *. cbn [filter fst obj_get].
  destruct (String.eqb_spec k' k0) as [<-|Hn]; cbn [negb obj_get].
  - destruct (String.eqb_spec k k'); [congruence|exact IH].
  - rewrite IH. reflexivity.
Qed.

Lemma frames_status s : frames (with_status s).
Proof. intros j. repeat split. Qed.

Lemma frames_completed_at t : frames (with_completed_at t).
Proof. intros j. repeat split. Qed.

Lemma frames_upserted n : frames (with_upserted n).
Proof. intros j. repeat split. Qed.

Section Invariant.
Variables I J : state -> Prop.
Hypothesis HI : invariant I.
Hypothesis IJ : forall st, I st -> J st.

Lemma keeps_ret {A} (a : A) : keeps I J (ret a).
Proof. apply triple_ret. auto. Qed.

Lemma keeps_throw {A} msg : keeps I J (@throw state A msg).
Proof. apply triple_throw. intros st H. split; [discriminate|apply IJ, H]. Qed.

Lemma keeps_on_world {A} (f : W -> A * W) : keeps I J (on_world W f).
Proof.
  unfold on_world. apply triple_lift. intros st H. destruct (f (world W st)) as [a w].
  apply (inv_world I HI st w H).
Qed.

Lemma keeps_emit e : keeps I J (emit W e).
Proof. unfold emit. apply triple_modify. intros st H. apply (inv_log I HI st e H). Qed.

Lemma keeps_update_job f : frames f -> keeps I J (update_job W f).
Proof.
  intros Hf. unfold update_job. apply triple_modify. intros st H.
  apply (inv_job I HI st f Hf H).
Qed.

Lemma keeps_set_status s : keeps I J (set_status W s).
Proof.
  unfold set_status. eapply triple_bind; [apply keeps_update_job, frames_status|].
  intros ?. apply keeps_emit.
Qed.

Lemma keeps_read_json {B} (json : string + B) : keeps I J (read_json W json).
Proof. destruct json; [apply keeps_throw|apply keeps_ret]. Qed.

Lemma keeps_answer {B} (r : Fetched B) (failure : string) :
  keeps I J match r with
            | Rejected msg => throw msg
            | Http ok _ errorText json =>
                if negb ok then throw (failure ++ errorText) else read_json W json
            end.
Proof.
  destruct r as [msg|ok sc tx json]; [apply keeps_throw|].
  destruct (negb ok); [apply keeps_throw|apply keeps_read_json].
Qed.

Lemma keeps_embed_group group : keeps I J (embed_group W embed group).
Proof.
  unfold embed_group. destruct (split_key (fst group)) as [fileNumber sourceUrl].
  eapply triple_bind; [apply keeps_emit|]. intros ?.
  eapply triple_bind; [apply keeps_on_world|]. intros [msg|ok sc tx json].
  - apply keeps_throw.
  - destruct (negb ok); [apply keeps_ret|].
    eapply triple_bind; [apply keeps_read_json|]. intros embedResult.
    intros st H. apply (inv_embedded I HI st _ H).
Qed.

Lemma keeps_parse_pdf pdf :
  (forall st pushed, Forall (from_pdf pdf) pushed -> I st -> I (push_parsed pushed st)) ->
  keeps I J (parse_pdf W parse pdf).
Proof.
  intros Hpush. unfold parse_pdf.
  eapply triple_bind; [apply keeps_emit|]. intros ?.
  eapply triple_bind; [apply keeps_on_world|]. intros [msg|ok sc tx json].
  - apply keeps_throw.
  - destruct (negb ok); [apply keeps_ret|].
    eapply triple_bind; [apply keeps_read_json|]. intros parseResult.
    intros st H. apply (Hpush st); [|exact H].
    apply Forall_map, Forall_forall. intros chunk _. unfold from_pdf.
    cbn [pc_file_number pc_source_url pc_metadata]. repeat split.
    destruct (match api_data parseResult with Some d => p_parsed_at d | None => None end)
      as [t|]; cbn [option_map obj_assign].
    + rewrite obj_get_set_other by discriminate.
      apply StoreFacts.obj_get_set.
    + rewrite obj_get_remove_other by discriminate.
      apply StoreFacts.obj_get_set.
Qed.

(** The response of a run that succeeded. *)
Definition finished (resp : Response PipelineResponse) (st : state) : Prop :=
  status (job W st) = completed /\ completed_at (job W st) <> None /\
  exists message t n1 n2,
    resp = createResponse (Some {| resp_job := Some (job W st); resp_message := message |})
             None t n1 n2.

Lemma completes message startTime :
  triple I (set_status W completed ;;; stamp_completed W now ;;;
            respond W now message None startTime)
         (fun resp st => I st /\ finished resp st) (fun e st => e <> None /\ J st).
Proof.
  intros st H.
  erewrite bind_Ret by apply PipelineFacts.set_status_eval.
  set (st1 := add_log _ _).
  assert (H1 : I st1).
  { apply (inv_log I HI), (inv_job I HI); [apply frames_status|exact H]. }
  destruct (now (world W st1)) as [t w1] eqn:E1.
  erewrite bind_Ret by (apply PipelineFacts.stamp_completed_eval; exact E1).
  set (st2 := set_job _ _).
  assert (H2 : I st2).
  { apply (inv_job I HI (set_world w1 st1) (with_completed_at t) (frames_completed_at t)),
      (inv_world I HI), H1. }
  destruct (now (world W st2)) as [n1 w2] eqn:E2. destruct (now w2) as [n2 w3] eqn:E3.
  erewrite PipelineFacts.respond_eval by eassumption.
  split; [apply (inv_world I HI), H2|].
  unfold finished. cbn. repeat split; [discriminate|]. eexists _, _, _, _. reflexivity.
Qed.

Lemma completes_counting (message : state -> option string) startTime :
  triple I (set_status W completed ;;; stamp_completed W now ;;;
            st <- get ;; respond W now (message st) None startTime)
         (fun resp st => I st /\ finished resp st) (fun e st => e <> None /\ J st).
Proof.
  intros st H.
  erewrite bind_Ret by apply PipelineFacts.set_status_eval.
  set (st1 := add_log _ _).
  assert (H1 : I st1).
  { apply (inv_log I HI), (inv_job I HI); [apply frames_status|exact H]. }
  destruct (now (world W st1)) as [t w1] eqn:E1.
  erewrite bind_Ret by (apply PipelineFacts.stamp_completed_eval; exact E1).
  set (st2 := set_job _ _).
  assert (H2 : I st2).
  { apply (inv_job I HI (set_world w1 st1) (with_completed_at t) (frames_completed_at t)),
      (inv_world I HI), H1. }
  destruct (now (world W st2)) as [n1 w2] eqn:E2. destruct (now w2) as [n2 w3] eqn:E3.
  erewrite bind_Ret by reflexivity.
  erewrite PipelineFacts.respond_eval by eassumption.
  split; [apply (inv_world I HI), H2|].
  unfold finished. cbn. repeat split; [discriminate|]. eexists _, _, _, _. reflexivity.
Qed.

End Invariant.

(** The [try] block, for an invariant [I0] of the discovery stage and
    an invariant [I1 D] of the later stages, [D] being the documents
    discovery answered with. *)
Lemma body_ends (I0 : state -> Prop) (I1 : list FirecrawlDiscoveryResult -> state -> Prop)
  (request : PipelineRequest) (startTime : Z) :
  invariant I0 -> (forall D, invariant (I1 D)) ->
  (forall D st, I0 st -> I1 D (set_job (with_discovered D (job W st)) st)) ->
  (forall D st, I1 D st -> discovered_pdfs (job W st) = D) ->
  (forall D pdf st pushed,
     In pdf D -> Forall (from_pdf pdf) pushed -> I1 D st -> I1 D (push_parsed pushed st)) ->
  triple I0 (body_ request startTime)
    (fun resp st => (exists D, I1 D st) /\ finished resp st)
    (fun e st => e <> None /\ (I0 st \/ exists D, I1 D st)).
Proof.
  intros H0 H1 Hd HD Hp.
  set (J := fun st => I0 st \/ exists D, I1 D st).
  assert (J0 : forall st, I0 st -> J st) by (intros st H; left; exact H).
  assert (J1 : forall D st, I1 D st -> J st) by (intros D st H; right; exists D; exact H).
  unfold pipeline_body.
  eapply triple_bind; [apply (keeps_set_status I0 J H0)|]. intros ?.
  eapply triple_bind; [apply (keeps_emit I0 J H0)|]. intros ?.
  eapply triple_bind; [apply (keeps_on_world I0 J H0)|]. intros r.
  eapply triple_bind; [apply (keeps_answer I0 J J0)|]. intros discoverResult.
  set (D := match api_data discoverResult with
            | Some d => match d_discovered_pdfs d with Some l => l | None => [] end
            | None => []
            end).
  apply triple_bind with (R := fun _ => I1 D).
  { unfold update_job. apply triple_modify. intros st H. apply Hd, H. }
  intros ?.
  apply triple_bind with (R := fun st s => I1 D s /\ discovered_pdfs (job W st) = D).
  { apply triple_get. intros st H. split; [exact H|apply HD, H]. }
  intros st. apply triple_pure. intros ED.
  assert (Hend : forall (c : M state (Response PipelineResponse)),
             triple (I1 D) c (fun resp st => I1 D st /\ finished resp st)
                    (fun e st => e <> None /\ J st) ->
             triple (I1 D) c (fun resp st => (exists D, I1 D st) /\ finished resp st)
                    (fun e st => e <> None /\ J st)).
  { intros c Hc. eapply triple_weaken; [exact Hc|auto| |auto].
    intros resp s [Ha Hf]. split; [exists D; exact Ha|exact Hf]. }
  destruct (discovered_pdfs (job W st)) as [|pdf pdfs];
    [apply Hend, (completes (I1 D) J (H1 D))|].
  eapply triple_bind; [apply (keeps_set_status (I1 D) J (H1 D))|]. intros ?.
  eapply triple_bind.
  { apply triple_for_each. intros x Hx.
    apply (keeps_parse_pdf (I1 D) J (H1 D) (J1 D)). intros s pushed Hf Hs.
    apply (Hp D x); [rewrite <- ED; exact Hx|exact Hf|exact Hs]. }
  intros ?.
  apply triple_bind with (R := fun _ => I1 D); [apply triple_get; auto|]. intros st1.
  destruct (allChunks W st1) as [|chunk chunks];
    [apply Hend, (completes (I1 D) J (H1 D))|].
  eapply triple_bind; [apply (keeps_set_status (I1 D) J (H1 D))|]. intros ?.
  eapply triple_bind.
  { apply triple_for_each. intros x _. apply (keeps_embed_group (I1 D) J (H1 D) (J1 D)). }
  intros ?.
  eapply triple_bind; [apply (keeps_set_status (I1 D) J (H1 D))|]. intros ?.
  apply triple_bind with (R := fun _ => I1 D); [apply triple_get; auto|]. intros st2.
  eapply triple_bind; [apply (keeps_emit (I1 D) J (H1 D))|]. intros ?.
  eapply triple_bind; [apply (keeps_on_world (I1 D) J (H1 D))|]. intros r2.
  eapply triple_bind; [apply (keeps_answer (I1 D) J (J1 D))|]. intros upsertResult.
  eapply triple_bind;
    [apply (keeps_update_job (I1 D) J (H1 D)), frames_upserted|]. intros ?.
  apply Hend, (completes_counting (I1 D) J (H1 D)).
Qed.

(** The [catch] block: what it leaves of the state. *)
Lemma catch_eval startTime msg st :
  exists resp st' t,
    pipeline_catch W now startTime (Some msg) st = (Ret resp, st') /\
    allChunks W st' = allChunks W st /\ embeddedChunks W st' = embeddedChunks W st /\
    job W st' = with_completed_at t (with_error msg (with_status failed (job W st))) /\
    exists n1 n2,
      resp = createResponse (Some {| resp_job := Some (job W st'); resp_message := None |})
               (Some msg) startTime n1 n2.
Proof.
  destruct (now (world W st)) as [t w1] eqn:E1.
  destruct (now w1) as [n1 w2] eqn:E2.
  destruct (now w2) as [n2 w3] eqn:E3.
  unfold pipeline_catch.
  erewrite bind_Ret by apply PipelineFacts.set_status_eval.
  erewrite bind_Ret by reflexivity.
  erewrite bind_Ret by apply PipelineFacts.update_job_eval.
  erewrite bind_Ret by (apply PipelineFacts.stamp_completed_eval; exact E1).
  erewrite PipelineFacts.respond_eval by (cbn; eassumption).
  eexists _, _, t. split; [reflexivity|]. cbn. repeat split. eexists _, _. reflexivity.
Qed.

(** *** The job at the end *)

(** The counters of the job are the numbers of chunks the run holds. *)
Definition counted (st : state) : Prop :=
  parsed_chunks (job W st) = Z.of_nat (List.length (allChunks W st)) /\
  embedded_chunks (job W st) = Z.of_nat (List.length (embeddedChunks W st)).

Definition sound (st : state) : Prop := error (job W st) = None /\ counted st.

Lemma sound_invariant : invariant sound.
Proof.
  split.
  - intros st w H. exact H.
  - intros st e H. exact H.
  - intros st f Hf [He [Hp Hm]]. destruct (Hf (job W st)) as (E1 & _ & E2 & E3).
    unfold sound, counted. cbn. rewrite E1, E2, E3. auto.
  - intros st l [He [Hp Hm]]. unfold sound, counted. cbn. auto.
Qed.

Lemma sound_with_invariant D :
  invariant (fun st => sound st /\ discovered_pdfs (job W st) = D).
Proof.
  split.
  - intros st w H. exact H.
  - intros st e H. exact H.
  - intros st f Hf [H HD]. split; [apply (inv_job sound sound_invariant), H; exact Hf|].
    destruct (Hf (job W st)) as (_ & E & _). cbn. rewrite E. exact HD.
  - intros st l [H HD]. split; [apply (inv_embedded sound sound_invariant), H|exact HD].
Qed.

(** The job is in a final state that its fields bear out, and the
    response is made of it and of its error. *)
Definition closed (resp : Response PipelineResponse) (st : state) : Prop :=
  counted st /\ completed_at (job W st) <> None /\
  status (job W st) = match error (job W st) with None => completed | Some _ => failed end /\
  exists message t n1 n2,
    resp = createResponse (Some {| resp_job := Some (job W st); resp_message := message |})
             (error (job W st)) t n1 n2.

Lemma run_closes request startTime :
  triple sound (try_catch (body_ request startTime) (pipeline_catch W now startTime))
         closed (fun _ _ => False).
Proof.
  eapply triple_try_catch.
  - eapply triple_weaken;
      [apply (body_ends sound (fun D st => sound st /\ discovered_pdfs (job W st) = D))
      |auto| |intros e st H; exact H].
    + exact sound_invariant.
    + exact sound_with_invariant.
    + intros D st [He [Hp Hm]]. unfold sound, counted. cbn. auto.
    + intros D st [_ H]. exact H.
    + intros D pdf st pushed _ _ [[He [Hp Hm]] HD]. unfold sound, counted. cbn. auto.
    + intros resp st [[D [[He Hc] _]] (Hs & Ht & Hr)]. unfold closed.
      rewrite He, Hs. auto.
  - cbn beta. intros [msg|].
    + intros st [_ Hs].
      assert (Hc : counted st) by (destruct Hs as [[_ H]|[D [[_ H] _]]]; exact H).
      destruct (catch_eval startTime msg st)
        as (resp & st' & t & E & Ea & Ee & Ej & n1 & n2 & Er).
      rewrite E. unfold closed, counted. rewrite Ea, Ee, Er, Ej. cbn.
      destruct Hc as [Hp Hm]. repeat split; eauto. discriminate.
    + intros st [Hn _]. congruence.
Qed.

Lemma initial_sound request w : sound (start request w).
Proof.
  destruct (PipelineFacts.initial_job W now generateJobId request w)
    as (_ & E1 & E2 & _ & _ & E3 & E4 & _ & _ & E5).
  unfold sound, counted. rewrite E1, E2, E3, E4, E5. auto.
Qed.

(** A run returns, and closes the job. *)
Lemma run_returns request startTime w :
  exists resp st, run request startTime w = (Ret resp, st) /\ closed resp st.
Proof.
  apply (returns_run _ _ _ (start request w) (run_closes request startTime)),
    initial_sound.
Qed.

(** *** Where the chunks come from *)

(** Every chunk the run holds is a chunk of a discovered document. *)
Definition traced_to (D : list FirecrawlDiscoveryResult) (st : state) : Prop :=
  Forall (fun c => exists pdf, In pdf D /\ from_pdf pdf c) (allChunks W st).

Definition traced (st : state) : Prop := traced_to (discovered_pdfs (job W st)) st.

Lemma empty_invariant : invariant (fun st => allChunks W st = []).
Proof. split; intros; assumption. Qed.

Lemma traced_invariant D :
  invariant (fun st => traced_to D st /\ discovered_pdfs (job W st) = D).
Proof.
  split.
  - intros st w H. exact H.
  - intros st e H. exact H.
  - intros st f Hf [H HD]. split; [exact H|].
    destruct (Hf (job W st)) as (_ & E & _). cbn. rewrite E. exact HD.
  - intros st l H. exact H.
Qed.

Lemma run_traces request startTime :
  triple (fun st => allChunks W st = [])
         (try_catch (body_ request startTime) (pipeline_catch W now startTime))
         (fun _ => traced) (fun _ _ => False).
Proof.
  eapply triple_try_catch.
  - eapply triple_weaken;
      [apply (body_ends (fun st => allChunks W st = [])
                        (fun D st => traced_to D st /\ discovered_pdfs (job W st) = D))
      |auto| |intros e st H; exact H].
    + exact empty_invariant.
    + exact traced_invariant.
    + intros D st H. split; [|reflexivity]. unfold traced_to. cbn. rewrite H. constructor.
    + intros D st [_ H]. exact H.
    + intros D pdf st pushed Hin Hf [Ht HD]. split; [|exact HD].
      unfold traced_to. cbn. apply Forall_app. split; [exact Ht|].
      eapply Forall_impl; [|exact Hf]. intros c Hc. exists pdf. split; assumption.
    + intros resp st [[D [Ht HD]] _]. unfold traced. rewrite HD. exact Ht.
  - cbn beta. intros [msg|].
    + intros st [_ Hs].
      destruct (catch_eval startTime msg st) as (resp & st' & t & E & Ea & Ee & Ej & _).
      rewrite E. unfold traced, traced_to. rewrite Ea, Ej. cbn.
      destruct Hs as [H|[D [H HD]]]; [rewrite H; constructor|].
      rewrite HD. exact H.
    + intros st [Hn _]. congruence.
Qed.

(** Whatever the four stage functions do, a run returns a response, and
    a well-formed one.  The job in it is the job as the run left it:
    completed without an error, under a response that reports success;
    or failed with the message of the error, under a response that
    reports this message with status 500, unless the message is empty.
    The job has a completion time, and its [parsed_chunks] and
    [embedded_chunks] are the numbers of chunks the run collected and
    embedded, on success and on failure alike. *)
Theorem run_always_closes_the_job (request : PipelineRequest) (startTime : Z) (w : W) :
  exists resp st,
    run request startTime w = (Ret resp, st) /\
    AnswerFacts.well_formed resp /\
    (exists message,
       api_data (body resp) =
       Some {| resp_job := Some (job W st); resp_message := message |}) /\
    (status (job W st) = completed /\ error (job W st) = None /\
     success (body resp) = true \/
     status (job W st) = failed /\
     exists msg, error (job W st) = Some msg /\
       (msg <> EmptyString ->
        api_error (body resp) = Some msg /\ http_status resp = 500%Z)) /\
    completed_at (job W st) <> None /\
    parsed_chunks (job W st) = Z.of_nat (List.length (allChunks W st)) /\
    embedded_chunks (job W st) = Z.of_nat (List.length (embeddedChunks W st)).
Proof.
  destruct (run_returns request startTime w)
    as (resp & st & E & [Hp Hm] & Ht & Hs & message & t & n1 & n2 & ->).
  eexists _, st. split; [exact E|].
  split; [apply AnswerFacts.createResponse_well_formed|].
  split; [exists message; reflexivity|].
  split; [|auto].
  destruct (error (job W st)) as [msg|]; [right|left; auto].
  split; [exact Hs|]. exists msg. split; [reflexivity|].
  intros Hne. destruct msg; [congruence|]. cbn. auto.
Qed.

(** At the end of a run, whether it succeeded or failed, every chunk it
    collected carries the file number and the URL of one of the
    documents listed in the job, and that document's discovery time
    under [discovered_at] in its metadata, whatever the parser put
    there. *)
Theorem run_chunks_come_from_discovered (request : PipelineRequest) (startTime : Z) (w : W) :
  exists resp st,
    run request startTime w = (Ret resp, st) /\
    Forall (fun c =>
              exists pdf, In pdf (discovered_pdfs (job W st)) /\
                pc_file_number c = file_number pdf /\ pc_source_url c = url pdf /\
                obj_get (pc_metadata c) "discovered_at" = Some (VStr (discovered_at pdf)))
           (allChunks W st).
Proof.
  assert (H0 : allChunks W (start request w) = []).
  { apply (PipelineFacts.initial_job W now generateJobId request w). }
  destruct (returns_run _ _ _ (start request w) (run_traces request startTime) H0)
    as (resp & st & E & Hc).
  exists resp, st. split; [exact E|exact Hc].
Qed.

End World.
End RunFacts.

(** ** The source groups of the embedding stage *)
Module GroupFacts.
Import JS Types Orchestrate.
Local Open Scope string_scope.

(** [Map.prototype.get]. *)
Fixpoint lookup_group (m : groups) (key : string) : option (list PipelineChunk) :=
  match m with
  | [] => None
  | (k, cs) :: m' => if String.eqb k key then Some cs else lookup_group m' key
  end.

(** The chunks of a list that have a given key, in the order of the list. *)
Definition with_key (key : string) (l : list PipelineChunk) : list PipelineChunk :=
  filter (fun c => String.eqb (group_key c) key) l.

Lemma lookup_add_same m key chunk :
  lookup_group (group_add m key chunk) key =
  Some match lookup_group m key with
       | Some cs => (cs ++ [chunk])%list
       | None => [chunk]
       end.
Proof.
  induction m as [|[k cs] m IH]; cbn [group_add lookup_group].
  - rewrite String.eqb_refl. reflexivity.
  - destruct (String.eqb k key) eqn:E; cbn [lookup_group]; rewrite E; [reflexivity|exact IH].
Qed.

Lemma lookup_add_other m key chunk key' :
  key' <> key -> lookup_group (group_add m key chunk) key' = lookup_group m key'.
Proof.
  intros Hk. induction m as [|[k cs] m IH]; cbn [group_add lookup_group].
  - destruct (String.eqb_spec key key'); [congruence|reflexivity].
  - destruct (String.eqb_spec k key) as [->|Hn]; cbn [lookup_group].
    + destruct (String.eqb_spec key key'); [congruence|reflexivity].
    + rewrite IH. reflexivity.
Qed.

Lemma lookup_none m key : lookup_group m key = None <-> ~ In key (map fst m).
Proof.
  induction m as [|[k cs] m IH]; cbn [lookup_group map fst In]; [tauto|].
  destruct (String.eqb_spec k key) as [->|Hn].
  - split; [discriminate|tauto].
  - rewrite IH. tauto.
Qed.

Lemma keys_add m key chunk :
  map fst (group_add m key chunk) =
  match lookup_group m key with
  | Some _ => map fst m
  | None => (map fst m ++ [key])%list
  end.
Proof.
  induction m as [|[k cs] m IH]; cbn [group_add lookup_group map fst app]; [reflexivity|].
  destruct (String.eqb k key); cbn [map fst]; [reflexivity|].
  rewrite IH. destruct (lookup_group m key); reflexivity.
Qed.

Lemma lookup_in m key cs : lookup_group m key = Some cs -> In (key, cs) m.
Proof.
  induction m as [|[k cs0] m IH]; cbn [lookup_group]; [discriminate|].
  destruct (String.eqb_spec k key) as [->|Hn].
  - intros [= ->]. left. reflexivity.
  - intros H. right. apply IH, H.
Qed.

Lemma in_lookup m key cs :
  NoDup (map fst m) -> In (key, cs) m -> lookup_group m key = Some cs.
Proof.
  induction m as [|[k cs0] m IH]; cbn [lookup_group map fst]; [intros _ []|].
  intros Hnd [H|H]; inversion Hnd as [|? ? Hk Hnd']; subst.
  - injection H as -> ->. rewrite String.eqb_refl. reflexivity.
  - destruct (String.eqb_spec k key) as [->|Hn].
    + exfalso. apply Hk. apply (in_map fst) in H. exact H.
    + apply IH; assumption.
Qed.

Lemma with_key_snoc key l c :
  with_key key (l ++ [c]) =
  (with_key key l ++ if String.eqb (group_key c) key then [c] else [])%list.
Proof. unfold with_key. rewrite filter_app. reflexivity. Qed.

Lemma chunksBySource_snoc l c :
  chunksBySource (l ++ [c]) = group_add (chunksBySource l) (group_key c) c.
Proof. unfold chunksBySource. rewrite fold_left_app. reflexivity. Qed.

(** What the map holds after the loop. *)
Lemma chunksBySource_lookup l :
  NoDup (map fst (chunksBySource l)) /\
  forall key,
    lookup_group (chunksBySource l) key =
    match with_key key l with [] => None | cs => Some cs end.
Proof.
  induction l as [|c l IH] using rev_ind.
  - split; [constructor|reflexivity].
  - destruct IH as [Hnd Hl]. rewrite chunksBySource_snoc. split.
    + rewrite keys_add. destruct (lookup_group (chunksBySource l) (group_key c)) eqn:E;
        [exact Hnd|].
      apply NoDup_app; [exact Hnd|repeat constructor; intros []|].
      intros k Hk [<-|[]]. apply lookup_none in E. contradiction.
    + intros key. rewrite with_key_snoc.
      destruct (String.eqb_spec (group_key c) key) as [<-|Hn].
      * rewrite lookup_add_same, Hl.
        destruct (with_key (group_key c) l); reflexivity.
      * rewrite lookup_add_other by congruence. rewrite Hl, app_nil_r. reflexivity.
Qed.

(** *** The key of a group *)

Definition no_colon (s : string) : Prop :=
  forallb (fun a => negb (Ascii.eqb a ":")) (list_ascii_of_string s) = true.

Lemma split_chr_nonempty sep piece s : split_chr sep piece s <> [].
Proof.
  revert piece. induction s as [|x s IH]; intros piece; cbn [split_chr]; [discriminate|].
  destruct (Ascii.eqb x sep); [discriminate|apply IH].
Qed.

Lemma string_of_app (a b : list ascii) :
  string_of_list_ascii (a ++ b) = (string_of_list_ascii a ++ string_of_list_ascii b)%string.
Proof. induction a as [|x a IH]; [reflexivity|]. cbn. rewrite IH. reflexivity. Qed.

Lemma append_assoc (a b c : string) : ((a ++ b) ++ c = a ++ b ++ c)%string.
Proof. induction a as [|x a IH]; [reflexivity|]. cbn. rewrite IH. reflexivity. Qed.

Lemma join_cons (sep x : string) (l : list string) :
  l <> [] -> join sep (x :: l) = (x ++ sep ++ join sep l)%string.
Proof. destruct l; [congruence|reflexivity]. Qed.

(** [parts.join(sep)] undoes [s.split(sep)]. *)
Lemma join_split_chr (sep : ascii) (s piece : list ascii) :
  join (String sep EmptyString) (map string_of_list_ascii (split_chr sep piece s)) =
  string_of_list_ascii (rev piece ++ s).
Proof.
  revert piece. induction s as [|x s IH]; intros piece; cbn [split_chr].
  - cbn. rewrite app_nil_r. reflexivity.
  - destruct (Ascii.eqb_spec x sep) as [->|Hn].
    + cbn [map]. rewrite join_cons.
      * rewrite IH. cbn [rev app]. rewrite string_of_app. reflexivity.
      * intros E. apply map_eq_nil in E. exact (split_chr_nonempty sep [] s E).
    + rewrite IH. cbn [rev]. rewrite <- app_assoc. reflexivity.
Qed.

Lemma split_chr_prefix (sep : ascii) (a b piece : list ascii) :
  forallb (fun x => negb (Ascii.eqb x sep)) a = true ->
  split_chr sep piece (a ++ sep :: b)%list = (rev piece ++ a)%list :: split_chr sep [] b.
Proof.
  revert piece. induction a as [|x a IH]; intros piece Ha; cbn [app split_chr].
  - rewrite Ascii.eqb_refl, app_nil_r. reflexivity.
  - cbn [forallb] in Ha. apply andb_prop in Ha. destruct Ha as [Hx Ha].
    apply negb_true_iff in Hx. rewrite Hx, IH by exact Ha.
    cbn [rev]. rewrite <- app_assoc. reflexivity.
Qed.

Lemma split_key_colon (a b : string) :
  no_colon a -> split_key (a ++ ":" ++ b) = (a, b).
Proof.
  intros Ha. unfold split_key, split_on.
  rewrite ParagraphFacts.chars_app.
  change (list_ascii_of_string (":" ++ b)) with (":"%char :: list_ascii_of_string b).
  rewrite split_chr_prefix by exact Ha. cbn [map rev app].
  rewrite string_of_list_ascii_of_string. f_equal.
  change ":" with (String ":"%char EmptyString).
  rewrite join_split_chr. cbn [rev app]. apply string_of_list_ascii_of_string.
Qed.

(** The loop that fills [chunksBySource] sorts the chunks by key and
    loses none: the map has one entry per key, and the entry of a key
    holds exactly the chunks with that key, in the order in which they
    were parsed.  No entry is empty. *)
Theorem chunksBySource_groups_by_key (allChunks : list PipelineChunk) :
  NoDup (map fst (chunksBySource allChunks)) /\
  forall key cs,
    In (key, cs) (chunksBySource allChunks) <->
    cs <> [] /\ cs = filter (fun c => String.eqb (group_key c) key) allChunks.
Proof.
  destruct (chunksBySource_lookup allChunks) as [Hnd Hl]. split; [exact Hnd|].
  intros key cs. fold (with_key key allChunks). split.
  - intros H. apply (in_lookup _ _ _ Hnd) in H. rewrite Hl in H.
    destruct (with_key key allChunks); [discriminate|].
    injection H as <-. split; [discriminate|reflexivity].
  - intros [Hne ->]. apply lookup_in. rewrite Hl.
    destruct (with_key key allChunks); [congruence|reflexivity].
Qed.

(** The file number and the URL sent with a group are read back from
    its key.  They are those of the group's chunks when the file number
    holds no colon, whatever colons the URL holds; a file number with a
    colon is cut at its first colon and the rest goes to the URL. *)
Theorem group_key_read_back (c : PipelineChunk) (number rest : string) :
  (no_colon (pc_file_number c) ->
   split_key (group_key c) = (pc_file_number c, pc_source_url c)) /\
  (pc_file_number c = number ++ ":" ++ rest -> no_colon number ->
   split_key (group_key c) = (number, rest ++ ":" ++ pc_source_url c)).
Proof.
  split.
  - intros H. apply split_key_colon, H.
  - intros E H. unfold group_key. rewrite E.
    rewrite <- (split_key_colon number (rest ++ ":" ++ pc_source_url c) H).
    f_equal. rewrite append_assoc. reflexivity.
Qed.

Definition amended_chunk : PipelineChunk :=
  {| pc_text := "Height limit 40 feet"; pc_file_number := "250700:A";
     pc_source_url := "https://sfgov.legistar.com/a.pdf"; pc_page_number := 1;
     pc_bbox := ReductoParse.full_page; pc_chunk_index := 0;
     pc_metadata := [] |}.

Lemma group_key_read_back_witness :
  split_key (group_key (Example.queued_chunk 0)) =
    ("250700", "https://sfgov.legistar.com/a.pdf") /\
  split_key (group_key amended_chunk) = ("250700", "A:https://sfgov.legistar.com/a.pdf").
Proof.
  split.
  - apply (proj1 (group_key_read_back (Example.queued_chunk 0) "" "")). reflexivity.
  - apply (proj2 (group_key_read_back amended_chunk "250700" "A")); reflexivity.
Defined.

End GroupFacts.

(** ** The shell of a handler: what escapes it *)
Module HandlerFacts.
Import JS Eff Types Utils EffFacts EffLogic AnswerFacts Handler.
Local Open Scope string_scope.
Local Open Scope eff_scope.

Section Shell.
Variables W L : Type.
Variable now : W -> Z * W.

Local Abbreviation state := (Handler.state W L).

(** A property of the local variables, as a property of the state. *)
Definition on_vars (I : L -> Prop) (st : state) : Prop := I (vars st).

(** [stays I E c]: the computation keeps [I], whether it returns or
    throws, and what it throws satisfies [E]. *)
Definition stays {A} (I : L -> Prop) (E : thrown -> Prop) (c : M state A) : Prop :=
  triple (on_vars I) c (fun _ => on_vars I) (fun e st => E e /\ on_vars I st).

(** An [Error] object. *)
Definition an_error (e : thrown) : Prop := e <> None.

(** Nothing: what a computation throws that never throws. *)
Definition nothing (e : thrown) : Prop := False.

Lemma stays_weaken {A} I (E E' : thrown -> Prop) (c : M state A) :
  (forall e, E e -> E' e) -> stays I E c -> stays I E' c.
Proof.
  intros HE H. eapply triple_weaken; [exact H|auto|auto|].
  intros e s [He Hs]. split; [apply HE, He|exact Hs].
Qed.

Lemma stays_ret {A} I E (a : A) : stays I E (ret a).
Proof. apply triple_ret. auto. Qed.

Lemma stays_throw {A} I (E : thrown -> Prop) msg :
  E (Some msg) -> stays I E (@throw state A msg).
Proof. intros He. apply triple_throw. intros st H. split; [exact He|exact H]. Qed.

Lemma stays_on_world {A} I E (f : W -> A * W) : stays I E (on_world f).
Proof.
  unfold on_world. apply triple_lift. intros st H. destruct (f (world st)). exact H.
Qed.

Lemma stays_read_json {B} I (E : thrown -> Prop) (json : string + B) :
  (forall msg, E (Some msg)) -> stays I E (read_json json).
Proof. intros He. destruct json; [apply stays_throw, He|apply stays_ret]. Qed.

Lemma stays_bind {A B} I E (c : M state A) (k : A -> M state B) :
  stays I E c -> (forall a, stays I E (k a)) -> stays I E (bind c k).
Proof. intros Hc Hk. eapply triple_bind; [exact Hc|exact Hk]. Qed.

Lemma stays_get_bind {B} I E (k : state -> M state B) :
  (forall st, stays I E (k st)) -> stays I E (bind get k).
Proof. intros H. apply stays_bind; [apply triple_get; auto|exact H]. Qed.

Lemma stays_try_catch {A} I E E' (c : M state A) (h : thrown -> M state A) :
  stays I E c -> (forall e, E e -> stays I E' (h e)) -> stays I E' (try_catch c h).
Proof.
  intros Hc Hh. eapply triple_try_catch; [exact Hc|].
  intros e s [He Hs]. apply (Hh e He s Hs).
Qed.

Lemma stays_for_break {A} I E (l : list A) (body : A -> M state bool) :
  (forall x, In x l -> stays I E (body x)) -> stays I E (for_break l body).
Proof.
  induction l as [|x l IH]; intros H; cbn [for_break].
  - apply stays_ret.
  - apply stays_bind; [apply H; left; reflexivity|].
    intros [|]; [apply IH; intros y Hy; apply H; right; exact Hy|apply stays_ret].
Qed.

Lemma stays_triple {A} I (c : M state A) :
  stays I an_error c -> triple (on_vars I) c (fun _ => on_vars I) (fun e _ => e <> None).
Proof.
  intros H. eapply triple_weaken; [exact H|auto|auto|]. intros e s [He _]. exact He.
Qed.

Lemma error_any msg : an_error (Some msg).
Proof. discriminate. Qed.

Lemma getRequiredEnv_stays I key value :
  stays I an_error (VoyageEmbed.getRequiredEnv key value).
Proof.
  unfold VoyageEmbed.getRequiredEnv. destruct value as [v|]; [|apply stays_throw, error_any].
  destruct (truthy_str v); [apply stays_ret|apply stays_throw, error_any].
Qed.

Lemma try_catch_Ret {S A} (c : M S A) (h : thrown -> M S A) s a s' :
  c s = (Ret a, s') -> try_catch c h s = (Ret a, s').
Proof. intros H. unfold try_catch. rewrite H. reflexivity. Qed.

Lemma on_world_runs {A} (f : W -> A * W) (st : state) a w' :
  f (world st) = (a, w') -> on_world f st = (Ret a, {| world := w'; vars := vars st |}).
Proof. intros H. unfold on_world, lift. rewrite H. reflexivity. Qed.

Lemma respond_runs {T} (data : option T) error startTime (st : state) n1 w1 n2 w2 :
  now (world st) = (n1, w1) -> now w1 = (n2, w2) ->
  respond now data error startTime st =
  (Ret (createResponse data error startTime n1 n2), {| world := w2; vars := vars st |}).
Proof.
  intros E1 E2. unfold respond.
  rewrite (bind_Ret _ _ _ _ _ (on_world_runs now st n1 w1 E1)).
  rewrite (bind_Ret _ _ _ _ _ (on_world_runs now {| world := w1; vars := vars st |} n2 w2 E2)).
  reflexivity.
Qed.

(** [createResponse] returns, and leaves the local variables alone. *)
Lemma respond_returns {T} (P : state -> Prop) (data : option T) error startTime E :
  (forall st w, P st -> P {| world := w; vars := vars st |}) ->
  triple P (respond now data error startTime)
    (fun resp st => P st /\ exists n1 n2, resp = createResponse data error startTime n1 n2) E.
Proof.
  intros HP st H. destruct (now (world st)) as [n1 w1] eqn:E1.
  destruct (now w1) as [n2 w2] eqn:E2.
  rewrite (respond_runs data error startTime st _ _ _ _ E1 E2).
  split; [apply HP, H|eauto].
Qed.

(** The handler returns a response: the one of its [try] block, or the
    one its [catch] block makes of the message thrown. *)
Lemma handle_returns {T} (P : state -> Prop) (try_block : Z -> M state (Response T))
  (Q : Response T -> state -> Prop) :
  (forall st w, P st -> P {| world := w; vars := vars st |}) ->
  (forall startTime, triple P (try_block startTime) Q (fun e _ => e <> None)) ->
  triple P (handle now try_block)
    (fun resp st =>
       Q resp st \/
       exists msg startTime n1 n2, resp = createResponse None (Some msg) startTime n1 n2)
    (fun _ _ => False).
Proof.
  intros HP H. unfold handle.
  eapply triple_bind; [apply (triple_lift P _ (fun _ => P))|].
  { intros st Hs. destruct (now (world st)). apply HP, Hs. }
  intros startTime. eapply triple_try_catch.
  - eapply triple_weaken; [apply (H startTime)|auto| |intros e st He; exact He].
    intros resp st Hq. left. exact Hq.
  - cbn beta. intros [msg|] st He; [|congruence]. cbn [message].
    rewrite (bind_Ret _ _ st msg st eq_refl).
    pose proof (respond_returns (fun _ => True) (@None T) (Some msg) startTime
                  (fun _ _ => False) (fun _ _ _ => I) st I) as Hresp.
    destruct (respond now None (Some msg) startTime st) as [[resp|e'] st']; [|exact Hresp].
    destruct Hresp as [_ (n1 & n2 & ->)]. right.
    exists msg, startTime, n1, n2. reflexivity.
Qed.

(** A response with data that satisfies [G]. *)
Definition carries {T} (G : T -> Prop) (resp : Response T) : Prop :=
  well_formed resp /\ forall d, api_data (body resp) = Some d -> G d.

Lemma respond_carries {T} (G : T -> Prop) (data : option T) error startTime :
  (forall d, data = Some d -> G d) ->
  triple (on_vars (fun _ => True)) (respond now data error startTime)
    (fun resp _ => carries G resp) (fun e _ => e <> None).
Proof.
  intros Hd. eapply triple_weaken;
    [apply (respond_returns (on_vars (fun _ => True)) data error startTime
              (fun e _ => e <> None))
    |auto| |auto].
  - intros st w H. exact H.
  - intros resp s [_ (n1 & n2 & ->)]. split; [apply createResponse_well_formed|].
    intros d E. apply Hd. exact E.
Qed.

Lemma refuse_carries {T} (G : T -> Prop) (msg : string) startTime :
  triple (on_vars (fun _ => True)) (respond now (@None T) (Some msg) startTime)
    (fun resp _ => carries G resp) (fun e _ => e <> None).
Proof. apply respond_carries. intros d Hd. discriminate Hd. Qed.

(** The handler always answers when its [try] block throws nothing but
    [Error] objects. *)
Lemma handle_carries {T} (G : T -> Prop) (try_block : Z -> M state (Response T)) st :
  (forall startTime,
     triple (on_vars (fun _ => True)) (try_block startTime)
       (fun resp _ => carries G resp) (fun e _ => e <> None)) ->
  exists resp st', handle now try_block st = (Ret resp, st') /\ carries G resp.
Proof.
  intros H.
  pose proof (handle_returns (on_vars (fun _ => True)) try_block _ (fun st w' H => H) H)
    as Hh.
  destruct (returns_run _ _ _ st Hh I) as (resp & st' & E & Hq).
  exists resp, st'. split; [exact E|].
  destruct Hq as [Hq|(msg & startTime & n1 & n2 & ->)]; [exact Hq|].
  split; [apply createResponse_well_formed|]. intros d Hd. discriminate Hd.
Qed.


(** The handler on a request its [try] block answers, and on one for
    which it throws a message. *)
Lemma handle_answer {T} (try_block : Z -> M state (Response T)) (st : state) t w1 resp st' :
  now (world st) = (t, w1) ->
  try_block t {| world := w1; vars := vars st |} = (Ret resp, st') ->
  handle now try_block st = (Ret resp, st').
Proof.
  intros En Eb. unfold handle. rewrite (bind_Ret _ _ _ _ _ (on_world_runs now st t w1 En)).
  apply try_catch_Ret, Eb.
Qed.

Lemma handle_caught {T} (try_block : Z -> M state (Response T)) (st : state)
  t w1 msg st' n1 w2 n2 w3 :
  now (world st) = (t, w1) ->
  try_block t {| world := w1; vars := vars st |} = (Throw (Some msg), st') ->
  now (world st') = (n1, w2) -> now w2 = (n2, w3) ->
  handle now try_block st =
  (Ret (createResponse None (Some msg) t n1 n2), {| world := w3; vars := vars st' |}).
Proof.
  intros En Eb E1 E2. unfold handle.
  rewrite (bind_Ret _ _ _ _ _ (on_world_runs now st t w1 En)).
  unfold try_catch. rewrite Eb. cbn [message].
  erewrite (bind_Ret (ret msg)) by reflexivity.
  apply (respond_runs None (Some msg) t st' _ _ _ _ E1 E2).
Qed.

End Shell.
End HandlerFacts.

(** ** Discovery: what the handler lists *)
Module DiscoverFacts.
Import JS Eff Types Utils EffFacts EffLogic AnswerFacts Handler HandlerFacts FirecrawlDiscover.
Local Open Scope string_scope.
Local Open Scope eff_scope.

(** *** Classifying an attachment *)

Lemma starts_with_app (p s : chars) : starts_with p (p ++ s)%list = true.
Proof.
  induction p as [|a p IH]; [destruct s; reflexivity|].
  cbn. rewrite Ascii.eqb_refl. exact IH.
Qed.

Lemma includes_chars_middle (a s b : chars) :
  includes_chars (a ++ s ++ b)%list s = true.
Proof.
  induction a as [|x a IH].
  - cbn [app]. destruct (s ++ b)%list eqn:E; cbn [includes_chars];
      rewrite <- ?E, starts_with_app; reflexivity.
  - cbn [app includes_chars]. rewrite IH. apply orb_true_r.
Qed.

Lemma toLowerCase_app (a b : string) :
  toLowerCase (a ++ b) = (toLowerCase a ++ toLowerCase b)%string.
Proof.
  unfold toLowerCase. rewrite ParagraphFacts.chars_app, map_app.
  apply GroupFacts.string_of_app.
Qed.

Lemma includes_middle (a s b : string) : includes (a ++ s ++ b) s = true.
Proof.
  unfold includes. rewrite !ParagraphFacts.chars_app. apply includes_chars_middle.
Qed.

(** *** The loops *)

Section Serve.
Variable W : Type.
Variable now : W -> Z * W.
Variable fetch_matters : W -> Fetched (Listing LegistarMatter) * W.
Variable fetch_attachments : number -> W -> Fetched (Listing LegistarAttachment) * W.
Variable toISOString : Z -> string.

Local Abbreviation state := (FirecrawlDiscover.state W).
Local Abbreviation serve_ := (serve W now fetch_matters fetch_attachments toISOString).
Local Abbreviation serve_body_ :=
  (serve_body W now fetch_matters fetch_attachments toISOString).
Local Abbreviation matter_step_ := (matter_step W now fetch_attachments toISOString).
Local Abbreviation attachment_step_ := (attachment_step W now toISOString).

(** The body a request is read as; none when its JSON does not parse. *)
Definition body_of (req : option (string + DiscoverRequest)) : option DiscoverRequest :=
  match req with
  | None => Some no_body
  | Some (inr body) => Some body
  | Some (inl _) => None
  end.

(** The items of a listing; none for [null]. *)
Definition items {A} (d : Listing A) : option (list A) :=
  match d with
  | Direct l => Some l
  | Wrapped (Some l) => Some l
  | Wrapped None => Some []
  | Null => None
  end.

(** The matters the handler goes through. *)
Definition searched (body : DiscoverRequest) (allMatters : list LegistarMatter)
  : list LegistarMatter :=
  filter (matter_matches (map toLowerCase (terms_of body))) allMatters.

(** An entry has a link and is classified by its title. *)
Definition listed (pdf : FirecrawlDiscoveryResult) : Prop :=
  url pdf <> "" /\ attachment_type pdf = classifyAttachment (title pdf).

(** An entry carries the file number and the details of one of the
    matters [M]. *)
Definition of_matters (M : list LegistarMatter) (pdf : FirecrawlDiscoveryResult) : Prop :=
  exists matter, In matter M /\ file_number pdf = MatterFile matter /\
                 pdf_metadata pdf = matter_metadata matter.

Definition inv (M : list LegistarMatter) (limit : Z)
  (discoveredPdfs : list FirecrawlDiscoveryResult) : Prop :=
  (Z.of_nat (List.length discoveredPdfs) <= Z.max 0 limit)%Z /\
  Forall (fun pdf => listed pdf /\ of_matters M pdf) discoveredPdfs.

Lemma inv_nil M limit : inv M limit [].
Proof. split; [cbn; lia|constructor]. Qed.

Lemma attachment_step_stays M limit matter attachment :
  In matter M -> stays W _ (inv M limit) nothing (attachment_step_ limit matter attachment).
Proof.
  intros HM st H. unfold attachment_step.
  change (bind get ?k st) with (k st st). cbv beta.
  destruct (full W limit st) eqn:F; [exact H|].
  destruct (MatterAttachmentHyperlink attachment) as [u|]; [|exact H].
  destruct (truthy_str u && _) eqn:T; [|exact H].
  apply andb_prop in T. destruct T as [Tu _].
  destruct (now (world st)) as [t w1] eqn:E.
  rewrite (bind_Ret _ _ _ _ _ (on_world_runs W _ now st t w1 E)).
  unfold set_vars, modify, bind, ret. cbn [fst snd].
  unfold on_vars. cbn [vars]. destruct H as [Hlen Hall]. unfold full in F.
  apply Z.leb_gt in F. split.
  - rewrite length_app. cbn [List.length]. lia.
  - apply Forall_app. split; [exact Hall|]. constructor; [|constructor].
    split.
    + split; [|reflexivity]. cbn [url discovered]. destruct u; discriminate.
    + exists matter. repeat split. exact HM.
Qed.

Lemma items_of_stays {A} I (E : thrown -> Prop) (d : Listing A) :
  (forall msg, E (Some msg)) -> stays W _ I E (@items_of W A d).
Proof.
  intros He. destruct d as [l|[l|]|]; cbn [items_of];
    [apply stays_ret|apply stays_ret|apply stays_ret|apply stays_throw, He].
Qed.

(** A turn of the loop over the matters never throws. *)
Lemma matter_step_stays M limit matter :
  In matter M -> stays W _ (inv M limit) nothing (matter_step_ limit matter).
Proof.
  intros HM. unfold matter_step. apply stays_get_bind. intros st0.
  destruct (full W limit st0); [apply stays_ret|].
  apply stays_bind; [|intros u; apply stays_ret].
  apply stays_try_catch with (E := fun _ => True); [|intros e _; apply stays_ret].
  apply stays_bind; [apply stays_on_world|]. intros [msg|ok sc tx json].
  - apply stays_throw. exact I.
  - destruct ok; [|apply stays_ret].
    apply stays_bind; [apply stays_read_json; auto|]. intros attachData.
    apply stays_bind; [apply items_of_stays; auto|]. intros attachments.
    apply stays_for_break. intros attachment _.
    eapply stays_weaken; [|apply attachment_step_stays, HM]. intros e [].
Qed.

Lemma matters_loop_stays M limit matters :
  incl matters M ->
  stays W _ (inv M limit) nothing (for_break matters (matter_step_ limit)).
Proof.
  intros Hi. apply stays_for_break. intros matter Hm. apply matter_step_stays, Hi, Hm.
Qed.

(** What a response lists, for a limit. *)
Definition lists (limit : Z) (M : list LegistarMatter) (d : DiscoverResponse) : Prop :=
  (Z.of_nat (List.length (discovered_pdfs d)) <= Z.max 0 limit)%Z /\
  Forall (fun pdf => listed pdf /\ of_matters M pdf) (discovered_pdfs d).

Lemma matters_answer_stays I (r : Fetched (Listing LegistarMatter)) :
  stays W _ I an_error
    (match r with
     | Rejected msg => throw msg
     | Http ok status errorText json =>
         if negb ok
         then throw ("OData API error: " ++ show_Z status ++ " - " ++ errorText)
         else read_json json
     end : M state (Listing LegistarMatter)).
Proof.
  destruct r as [msg|ok sc tx json]; [apply stays_throw, error_any|].
  destruct (negb ok); [apply stays_throw, error_any|apply stays_read_json, error_any].
Qed.

Lemma body_lists req startTime :
  triple (on_vars W _ (fun discoveredPdfs => discoveredPdfs = []))
    (serve_body_ req startTime)
    (fun resp _ =>
       exists b allMatters d t n1 n2,
         body_of req = Some b /\
         resp = createResponse (Some d) None t n1 n2 /\
         lists (limit_of b) (searched b allMatters) d)
    (fun e _ => e <> None).
Proof.
  unfold serve_body. cbv zeta.
  apply triple_bind
    with (R := fun b st => on_vars W _ (fun l => l = []) st /\ body_of req = Some b).
  { destruct req as [[s|b]|]; cbn [read_json body_of].
    - apply triple_throw. discriminate.
    - apply triple_ret. auto.
    - apply triple_ret. auto. }
  intros b. apply triple_pure. intros Eb.
  eapply triple_bind; [apply stays_triple, stays_on_world|]. intros r.
  eapply triple_bind; [apply stays_triple, matters_answer_stays|]. intros mattersData.
  eapply triple_bind; [apply stays_triple, items_of_stays, error_any|]. intros allMatters.
  fold (searched b allMatters).
  apply triple_bind
    with (R := fun _ => on_vars W _ (inv (searched b allMatters) (limit_of b))).
  { eapply triple_weaken;
      [apply (matters_loop_stays (searched b allMatters) (limit_of b) _ (incl_refl _))
      | |auto|intros e s [[] _]].
    intros st H. unfold on_vars in *. rewrite H. apply inv_nil. }
  intros u. apply triple_get_bind. intros st0 s [Hs ->].
  destruct (now (world st0)) as [n1 w1] eqn:E1. destruct (now w1) as [n2 w2] eqn:E2.
  rewrite (respond_runs W _ now _ None startTime st0 _ _ _ _ E1 E2).
  eexists b, allMatters, _, startTime, n1, n2. split; [exact Eb|]. split; [reflexivity|]. exact Hs.
Qed.

(** Whatever the request and whatever the legislation API does, the
    handler answers, with a well-formed response.  When the response
    carries data, it lists at most [limit] documents, [limit] being
    [body.limit || 20], so that a limit of 0 stands for 20, and none for
    a negative limit; every document listed has a link, and its type is
    the one [classifyAttachment] gives its title. *)
Theorem discovery_lists_at_most_limit (req : option (string + DiscoverRequest)) (w : W) :
  exists resp st,
    serve_ req (initial W w) = (Ret resp, st) /\
    well_formed resp /\
    forall d, api_data (body resp) = Some d ->
      exists b, body_of req = Some b /\
        (Z.of_nat (List.length (discovered_pdfs d)) <= Z.max 0 (limit_of b))%Z /\
        Forall (fun pdf => url pdf <> "" /\
                           attachment_type pdf = classifyAttachment (title pdf))
               (discovered_pdfs d).
Proof.
  pose proof (handle_returns W _ now (on_vars W _ (fun l => l = [])) (serve_body_ req) _
                (fun st w' H => H) (body_lists req)) as H.
  destruct (returns_run _ _ _ (initial W w) H eq_refl) as (resp & st & E & Hq).
  exists resp, st. split; [exact E|].
  destruct Hq as [(b & allMatters & d & t & n1 & n2 & Eb & -> & Hlen & Hall)
                 |(msg & startTime & n1 & n2 & ->)];
    (split; [apply createResponse_well_formed|]).
  - intros d' [= <-]. exists b. split; [exact Eb|]. split; [exact Hlen|].
    eapply Forall_impl; [|exact Hall]. intros pdf [Hl _]. exact Hl.
  - intros d' Hd. discriminate Hd.
Qed.


End Serve.

(** *** A world in which one request for attachments fails *)




Definition tick (n : nat) : Z * nat := (Z.of_nat n, S n).



(** The names are matched as substrings in any case, and the tests are
    made in a fixed order: a name in which the letters [eir] occur, in
    upper or lower case and be it inside a word, is classified ["EIR"]
    whatever else it says. *)
Theorem classifyAttachment_eir_first (before eir after : string) :
  toLowerCase eir = "eir" ->
  classifyAttachment (before ++ eir ++ after) = "EIR".
Proof.
  intros H. unfold classifyAttachment. cbv zeta.
  rewrite !toLowerCase_app, H, includes_middle. reflexivity.
Qed.

Lemma classifyAttachment_eir_first_witness :
  classifyAttachment "Their Motion" = "EIR" /\
  classifyAttachment "Final EIR Staff Report" = "EIR".
Proof.
  split.
  - apply (classifyAttachment_eir_first "Th" "eir" " Motion"). reflexivity.
  - apply (classifyAttachment_eir_first "Final " "EIR" " Staff Report"). reflexivity.
Defined.


End DiscoverFacts.

(** ** The orchestrator's handler: what it answers *)
Module ServeFacts.
Import JS Eff Types Utils EffFacts EffLogic AnswerFacts Handler HandlerFacts OrchestrateServe.
Local Open Scope string_scope.
Local Open Scope eff_scope.

Lemma of_run_well_formed r : well_formed r -> well_formed (of_run r).
Proof. intros H. exact H. Qed.

(** *** The search the orchestrator asks for *)

Lemma rank_threshold q min_score limit allDocs x :
  In x (MongoUpsert.rank q min_score limit allDocs) -> ge (snd x) min_score = true.
Proof.
  unfold MongoUpsert.rank. intros H. apply SearchAnswerFacts.In_slice0 in H.
  apply (Permutation_in _ (SearchFacts.sort_perm _)) in H.
  apply filter_In in H as [_ H]. exact H.
Qed.

Lemma rank_limit q min_score limit allDocs :
  (0 <= limit)%Z ->
  (Z.of_nat (List.length (MongoUpsert.rank q min_score limit allDocs)) <= limit)%Z.
Proof.
  intros H. unfold MongoUpsert.rank, slice0.
  destruct (limit <? 0)%Z eqn:E; [apply Z.ltb_lt in E; lia|].
  rewrite length_firstn. lia.
Qed.

Section Serve.
Variable W : Type.
Variable now : W -> Z * W.
Variable generateJobId : W -> string * W.
Variable discover :
  Orchestrate.DiscoverBody -> W -> Fetched (APIResponse Orchestrate.DiscoverData) * W.
Variable parse : string -> string -> W -> Fetched (APIResponse Orchestrate.ParseData) * W.
Variable embed :
  VoyageEmbed.EmbedRequest -> W -> Fetched (APIResponse Orchestrate.EmbedData) * W.
Variable upsert :
  list VoyageEmbed.EmbeddedChunk -> W -> Fetched (APIResponse Orchestrate.UpsertData) * W.
Variable voyage_api :
  list string -> string -> string -> W -> Fetched VoyageEmbeddingResponse * W.
Variable mongo_search : MongoUpsert.SearchRequest -> W -> Fetched (APIResponse SearchData) * W.
Variable SUPABASE_URL : option string.
Variable VOYAGE_API_KEY : option string.

Local Abbreviation state := (OrchestrateServe.state W).
Local Abbreviation serve_ :=
  (serve W now generateJobId discover parse embed upsert voyage_api mongo_search
     SUPABASE_URL VOYAGE_API_KEY).
Local Abbreviation serve_body_ :=
  (serve_body W now generateJobId discover parse embed upsert voyage_api mongo_search
     SUPABASE_URL VOYAGE_API_KEY).
Local Abbreviation runSearch_ := (runSearch W now voyage_api mongo_search VOYAGE_API_KEY).
Local Abbreviation run_pipeline_ :=
  (run_pipeline W now generateJobId discover parse embed upsert).
Local Abbreviation any := (on_vars W unit (fun _ => True)).

(** What the data of a response is: a job that is completed or failed,
    or the results of a search. *)
Definition a_job_or_results (d : Answer) : Prop :=
  (exists j, a_job d = Some j /\ (status j = completed \/ status j = failed) /\
             a_search_results d = None) \/
  (a_job d = None /\ a_search_results d <> None).

Definition answered (resp : Response Answer) : Prop :=
  well_formed resp /\ forall d, api_data (body resp) = Some d -> a_job_or_results d.

Lemma refusal_answered error startTime n1 n2 :
  answered (createResponse None error startTime n1 n2).
Proof.
  split; [apply createResponse_well_formed|]. intros d Hd. discriminate Hd.
Qed.

Lemma respond_answered (data : option Answer) error startTime :
  (forall d, data = Some d -> a_job_or_results d) ->
  triple any (respond now data error startTime) (fun resp _ => answered resp)
    (fun e _ => e <> None).
Proof.
  intros Hd. eapply triple_weaken;
    [apply (respond_returns W unit now any data error startTime (fun e _ => e <> None))
    |auto| |auto].
  - intros st w H. exact H.
  - intros resp s [_ (n1 & n2 & ->)]. split; [apply createResponse_well_formed|].
    intros d E. apply Hd. exact E.
Qed.

Lemma refuse_answered (msg : string) startTime :
  triple any (respond now (@None Answer) (Some msg) startTime) (fun resp _ => answered resp)
    (fun e _ => e <> None).
Proof. apply respond_answered. intros d Hd. discriminate Hd. Qed.

Lemma run_pipeline_answered request startTime :
  triple any (run_pipeline_ request startTime) (fun resp _ => answered resp)
    (fun e _ => e <> None).
Proof.
  intros st _. unfold run_pipeline.
  destruct (RunFacts.run_returns W now generateJobId discover parse embed upsert
              request startTime (world st))
    as (r & st' & E & _ & _ & Hs & message & t & n1 & n2 & ->).
  rewrite E. split; [apply of_run_well_formed, createResponse_well_formed|].
  intros d [= <-]. left. eexists. split; [reflexivity|]. split; [|reflexivity].
  destruct (error (Orchestrate.job W st')); [right|left]; exact Hs.
Qed.

Lemma answer_stays {B} (r : Fetched B) (failure : string) :
  stays W unit (fun _ => True) an_error
    (match r with
     | Rejected msg => throw msg
     | Http ok _ errorText json =>
         if negb ok then throw (failure ++ errorText) else read_json json
     end : M state B).
Proof.
  destruct r as [msg|ok sc tx json]; [apply stays_throw, error_any|].
  destruct (negb ok); [apply stays_throw, error_any|apply stays_read_json, error_any].
Qed.

Lemma runSearch_answered request startTime :
  triple any (runSearch_ request startTime) (fun resp _ => answered resp)
    (fun e _ => e <> None).
Proof.
  unfold runSearch. destruct (query request) as [q|]; [|apply refuse_answered].
  destruct (negb (truthy_str q)); [apply refuse_answered|].
  eapply triple_bind; [apply stays_triple, getRequiredEnv_stays|]. intros key.
  eapply triple_bind; [apply stays_triple, stays_on_world|]. intros r.
  eapply triple_bind; [apply stays_triple, answer_stays|]. intros embedResult.
  eapply triple_bind.
  { apply stays_triple. destruct (data embedResult);
      [apply stays_throw, error_any|apply stays_ret]. }
  intros queryEmbedding.
  eapply triple_bind; [apply stays_triple, stays_on_world|]. intros r2.
  eapply triple_bind; [apply stays_triple, answer_stays|]. intros searchResult.
  cbv zeta. apply respond_answered. intros d [= <-]. right. split; [reflexivity|discriminate].
Qed.

Lemma serve_body_answered req startTime :
  triple any (serve_body_ req startTime) (fun resp _ => answered resp)
    (fun e _ => e <> None).
Proof.
  unfold serve_body.
  eapply triple_bind; [apply stays_triple, getRequiredEnv_stays|]. intros url.
  destruct req as [|json]; [apply refuse_answered|].
  eapply triple_bind; [apply stays_triple, stays_read_json, error_any|]. intros b.
  destruct (action b) as [a|]; [|apply refuse_answered].
  destruct (String.eqb a "run_pipeline"); [apply run_pipeline_answered|].
  destruct (String.eqb a "search"); [apply runSearch_answered|apply refuse_answered].
Qed.

(** Whatever the request and whatever the services do, the handler
    answers, with a well-formed response.  The data of a response, when
    it has data, is a job that is completed or failed, or the results
    of a search. *)
Theorem orchestrate_always_answers (req : Request) (w : W) :
  exists resp st,
    serve_ req (fresh W w) = (Ret resp, st) /\
    well_formed resp /\
    forall d, api_data (body resp) = Some d ->
      (exists j, a_job d = Some j /\ (status j = completed \/ status j = failed) /\
                 a_search_results d = None) \/
      (a_job d = None /\ a_search_results d <> None).
Proof.
  pose proof (handle_returns W unit now any (serve_body_ req) _
                (fun st w' H => H) (serve_body_answered req)) as H.
  destruct (returns_run _ _ _ (fresh W w) H I) as (resp & st & E & Hq).
  exists resp, st. split; [exact E|].
  destruct Hq as [Hq|(msg & startTime & n1 & n2 & ->)]; [exact Hq|].
  apply refusal_answered.
Qed.

(** The refusal of a request, in a world whose clock reads [t], [n1]
    and [n2]: the response, and the world left as the clock left it. *)
Definition refused (req : Request) (w : W) (msg : string) : Prop :=
  forall t w1 n1 w2 n2 w3,
    now w = (t, w1) -> now w1 = (n1, w2) -> now w2 = (n2, w3) ->
    serve_ req (fresh W w) =
    (Ret (createResponse None (Some msg) t n1 n2), {| world := w3; vars := tt |}).

Lemma refused_by_throw req w msg :
  (forall t st, serve_body_ req t st = (Throw (Some msg), st)) -> refused req w msg.
Proof.
  intros H t w1 n1 w2 n2 w3 E0 E1 E2.
  apply (handle_caught W unit now (serve_body_ req) (fresh W w) t w1 msg _ n1 w2 n2 w3 E0
           (H t _) E1 E2).
Qed.

Lemma refused_by_answer req w msg :
  (forall t st, serve_body_ req t st = respond now None (Some msg) t st) ->
  refused req w msg.
Proof.
  intros H t w1 n1 w2 n2 w3 E0 E1 E2.
  apply (handle_answer W unit now (serve_body_ req) (fresh W w) t w1). { exact E0. }
  rewrite H.
  apply (respond_runs W unit now None (Some msg) t {| world := w1; vars := tt |} n1 w2 n2 w3
           E1 E2).
Qed.

(** The requests the handler refuses, and in which order it tests
    them.  Without [SUPABASE_URL] every request is refused for it, even
    one that is no POST.  With it, a request that is no POST is refused,
    then one whose body does not parse, then one whose action is
    neither ["run_pipeline"] nor ["search"]; and a search without a
    query is refused before [VOYAGE_API_KEY] is looked at.  A refusal
    is made without a call to any service: the world is left as the
    three readings of the clock leave it. *)
Theorem orchestrate_refusals (w : W) :
  (SUPABASE_URL = None \/ SUPABASE_URL = Some "" ->
   forall req, refused req w "Missing required environment variable: SUPABASE_URL") /\
  (forall url, SUPABASE_URL = Some url -> url <> "" ->
     refused NotPost w "Method not allowed. Use POST." /\
     (forall syntax_error, refused (Post (inl syntax_error)) w syntax_error) /\
     (forall b, action b <> Some "run_pipeline" -> action b <> Some "search" ->
        refused (Post (inr b)) w "Invalid action. Use 'run_pipeline' or 'search'.") /\
     (forall b, action b = Some "search" -> query b = None \/ query b = Some "" ->
        refused (Post (inr b)) w "Missing query")).
Proof.
  split.
  - intros Hu req. apply refused_by_throw. intros t st. unfold serve_body.
    destruct Hu as [Eu|Eu]; rewrite Eu; reflexivity.
  - intros url Eu Hne.
    assert (Hu : forall A (k : string -> M state A) st,
               bind (VoyageEmbed.getRequiredEnv "SUPABASE_URL" SUPABASE_URL) k st = k url st).
    { intros A k st. rewrite Eu. destruct url; [congruence|reflexivity]. }
    repeat split.
    + apply refused_by_answer. intros t st. unfold serve_body. rewrite Hu. reflexivity.
    + intros syntax_error. apply refused_by_throw. intros t st. unfold serve_body.
      rewrite Hu. reflexivity.
    + intros b H1 H2. apply refused_by_answer. intros t st. unfold serve_body.
      rewrite Hu. cbn [read_json]. erewrite (bind_Ret (ret b)) by reflexivity.
      destruct (action b) as [a|]; [|reflexivity].
      destruct (String.eqb_spec a "run_pipeline") as [->|_]; [congruence|].
      destruct (String.eqb_spec a "search") as [->|_]; [congruence|reflexivity].
    + intros b Ha Hq. apply refused_by_answer. intros t st. unfold serve_body.
      rewrite Hu. cbn [read_json]. erewrite (bind_Ret (ret b)) by reflexivity.
      rewrite Ha. cbn. unfold runSearch. destruct Hq as [-> | ->]; reflexivity.
Qed.

End Serve.

(** A search through the orchestrator cannot ask for a threshold of
    zero nor for a limit of zero.  The body the orchestrator posts holds
    an embedding, the limit [request.limit || 10] and the threshold
    [request.min_score || 0.7]; when [handleSearch] returns on that body
    (the database having answered), it returns only results whose score
    is at least that threshold, which is 0.7 when the caller gave 0 or
    NaN or none, and at most that limit of them when it is positive,
    which is 10 when the caller gave 0 or none. *)
Theorem orchestrated_search_floor
  (generateQueryEmbedding : string -> outcome (list number)) (request : Body)
  (queryEmbedding : list number) (c : MongoUpsert.Collection)
  (resp : MongoUpsert.SearchResponse) :
  MongoUpsert.handleSearch generateQueryEmbedding (search_body request queryEmbedding) c =
    Ret resp ->
  let floor := or_default (min_score request) 0.7%float in
  let most := match limit request with
              | Some n => if (n =? 0)%Z then 10%Z else n
              | None => 10%Z
              end in
  truthy floor = true /\ most <> 0%Z /\
  ((min_score request = None \/ min_score request = Some 0%float) -> floor = 0.7%float) /\
  ((limit request = None \/ limit request = Some 0%Z) -> most = 10%Z) /\
  Forall (fun r => ge (MongoUpsert.score r) floor = true) (MongoUpsert.results resp) /\
  ((0 < most)%Z -> (Z.of_nat (List.length (MongoUpsert.results resp)) <= most)%Z) /\
  MongoUpsert.total_found resp = List.length (MongoUpsert.results resp).
Proof.
  intros H floor most. unfold MongoUpsert.handleSearch in H.
  cbn [search_body MongoUpsert.query_embedding MongoUpsert.query_text MongoUpsert.limit
         MongoUpsert.min_score MongoUpsert.file_numbers] in H.
  fold floor most in H. injection H as <-. cbn [MongoUpsert.results MongoUpsert.total_found].
  split; [|split; [|split; [|split; [|split; [|split]]]]].
  - subst floor. unfold or_default. destruct (min_score request) as [x|]; [|reflexivity].
    unfold or_else. destruct (truthy x) eqn:E; [exact E|reflexivity].
  - subst most. destruct (limit request) as [n|]; [|discriminate].
    destruct (Z.eqb_spec n 0); [discriminate|assumption].
  - subst floor. intros [-> | ->]; reflexivity.
  - subst most. intros [-> | ->]; reflexivity.
  - apply Forall_map, Forall_forall. intros x Hx. cbn [MongoUpsert.score MongoUpsert.to_result].
    apply (rank_threshold _ _ _ _ _ Hx).
  - intros Hpos. rewrite length_map. apply rank_limit. lia.
  - reflexivity.
Qed.

(** *** A world with a clock only *)

Definition tick (n : nat) : Z * nat := (Z.of_nat n, S n).

Definition down {A B} (_ : A) (n : nat) : Fetched B * nat := (Rejected "unreachable", n).

Definition check_status : Body :=
  {| action := Some "check_status";
     run_fields := {| Orchestrate.req_file_numbers := None;
                      Orchestrate.req_search_terms := None;
                      Orchestrate.req_max_credits := None;
                      Orchestrate.req_pdf_limit := None |};
     query := None; limit := None; min_score := None |}.

(** A search that asks for every result: no threshold and no limit. *)
Definition everything : Body :=
  {| action := Some "search";
     run_fields := {| Orchestrate.req_file_numbers := None;
                      Orchestrate.req_search_terms := None;
                      Orchestrate.req_max_credits := None;
                      Orchestrate.req_pdf_limit := None |};
     query := Some "height limit"; limit := Some 0%Z; min_score := Some 0%float |}.

Lemma orchestrated_search_floor_witness :
  exists resp,
    MongoUpsert.handleSearch (fun _ => Throw None)
      (search_body everything SearchFacts.example_query)
      SearchAnswerFacts.example_collection = Ret resp /\
    Forall (fun r => ge (MongoUpsert.score r) 0.7%float = true) (MongoUpsert.results resp) /\
    (Z.of_nat (List.length (MongoUpsert.results resp)) <= 10)%Z.
Proof.
  eexists. split; [reflexivity|].
  match goal with
  | |- Forall _ (MongoUpsert.results ?r) /\ _ =>
      destruct (orchestrated_search_floor (fun _ => Throw None) everything
                  SearchFacts.example_query SearchAnswerFacts.example_collection r eq_refl)
        as (_ & _ & _ & _ & Hf & Hm & _)
  end.
  split; [exact Hf|]. apply Hm. reflexivity.
Defined.

Lemma orchestrate_refusals_witness :
  serve nat tick (fun n => ("job_0", n)) down (fun _ => down) down down
    (fun _ _ => down) down (Some "https://project.supabase.co") None
    (Post (inr check_status)) (fresh nat 0%nat) =
  (Ret (createResponse None (Some "Invalid action. Use 'run_pipeline' or 'search'.") 0 1 2),
   {| world := 3%nat; vars := tt |}).
Proof.
  refine (proj1 (proj2 (proj2
            (proj2 (orchestrate_refusals nat tick (fun n => ("job_0", n)) down
                      (fun _ => down) down down (fun _ _ => down) down
                      (Some "https://project.supabase.co") None 0%nat)
               "https://project.supabase.co" eq_refl _))) check_status _ _
            0%Z 1%nat 1%Z 2%nat 2%Z 3%nat eq_refl eq_refl eq_refl); discriminate.
Defined.

End ServeFacts.

(** ** The parsing handler: what it answers *)
Module ParseServeFacts.
Import JS Eff Types Utils EffFacts EffLogic AnswerFacts Handler HandlerFacts.
Import ReductoParse ReductoServe.
Local Open Scope string_scope.
Local Open Scope eff_scope.

Lemma fold_max_ge (l : list Z) (a : Z) :
  (a <= fold_left Z.max l a)%Z /\ Forall (fun x => x <= fold_left Z.max l a)%Z l.
Proof.
  revert a. induction l as [|x l IH]; intros a; cbn [fold_left].
  - split; [lia|constructor].
  - destruct (IH (Z.max a x)) as [H1 H2]. split; [lia|].
    constructor; [lia|exact H2].
Qed.

(** Without a page count from the service, the count is the number of
    the last page that holds a chunk, and 1 at least. *)
Lemma max_page_covers chunks :
  (1 <= max_page chunks)%Z /\ Forall (fun c => page_number c <= max_page chunks)%Z chunks.
Proof.
  unfold max_page. destruct (fold_max_ge (map page_number chunks) 1) as [H1 H2].
  split; [exact H1|]. rewrite Forall_map in H2. exact H2.
Qed.

Section Serve.
Variable W : Type.
Variable now : W -> Z * W.
Variable reducto_api : string -> W -> Fetched PipelineAnswer * W.
Variable REDUCTO_API_KEY : option string.
Variable detectSection : string -> option string.
Variable detectTableContent : string -> bool.

Local Abbreviation state := (ReductoServe.state W).
Local Abbreviation serve_ :=
  (serve W now reducto_api REDUCTO_API_KEY detectSection detectTableContent).
Local Abbreviation serve_body_ :=
  (serve_body W now reducto_api REDUCTO_API_KEY detectSection detectTableContent).
Local Abbreviation transform := (transformPipelineResponse detectSection detectTableContent).

(** An answer the extraction service gave for the document at [url]. *)
Definition given (url : string) (answer : PipelineAnswer) : Prop :=
  exists w1 w2 code text,
    reducto_api url w1 = (Http true code text (inr answer), w2).

(** A result made, for the request [req], of an answer of the service
    that reports no error. *)
Definition made_of (req : Request) (answer : PipelineAnswer) (d : ReductoParseResult) : Prop :=
  (exists b, req = Post (inr b) /\ pdf_url b = Some (source_url d) /\
             file_number d = req_file_number b) /\
  given (source_url d) answer /\
  (pipeline_error answer = None \/ pipeline_error answer = Some "") /\
  source_url d <> "" /\
  parsed_chunks d = transform (response answer) /\
  total_pages d = totalPages (pages_processed answer) (parsed_chunks d).

Lemma parse_call_stays url :
  stays W unit (fun _ => True) an_error (parse_call W reducto_api url).
Proof.
  unfold parse_call. apply stays_bind; [apply stays_on_world|].
  intros [msg|ok sc tx json]; [apply stays_throw, error_any|].
  destruct (negb ok); [apply stays_throw, error_any|apply stays_read_json, error_any].
Qed.

(** What the call returns is an answer of the service. *)
Lemma parse_call_gives url :
  triple (on_vars W unit (fun _ => True)) (parse_call W reducto_api url)
    (fun answer st => on_vars W unit (fun _ => True) st /\ given url answer)
    (fun e st => an_error e /\ on_vars W unit (fun _ => True) st).
Proof.
  intros st _. unfold parse_call.
  destruct (reducto_api url (world st)) as [[msg|ok sc tx json] w'] eqn:E;
    (erewrite bind_Ret by (apply on_world_runs; exact E)).
  - cbn. split; [discriminate|exact I].
  - destruct ok; cbn [negb].
    + destruct json as [err|answer]; cbn.
      * split; [discriminate|exact I].
      * split; [exact I|]. exists (world st), w', sc, tx. exact E.
    + cbn. split; [discriminate|exact I].
Qed.

Lemma serve_body_carries req startTime :
  triple (on_vars W unit (fun _ => True)) (serve_body_ req startTime)
    (fun resp _ => carries (fun d => exists answer, made_of req answer d) resp)
    (fun e _ => e <> None).
Proof.
  unfold serve_body.
  eapply triple_bind; [apply stays_triple, getRequiredEnv_stays|]. intros key.
  destruct req as [|json]; [apply refuse_carries|].
  destruct json as [err|b]; [apply triple_throw; discriminate|].
  apply triple_bind
    with (R := fun b' st => on_vars W unit (fun _ => True) st /\ b' = b);
    [apply triple_ret; auto|].
  intros b'. apply triple_pure. intros ->.
  destruct (pdf_url b) as [url|] eqn:Eb; [|apply refuse_carries].
  destruct (truthy_str url) eqn:Eu; cbn [negb]; [|apply refuse_carries].
  eapply triple_bind.
  { eapply triple_weaken;
      [apply (triple_retry_loop (on_vars W unit (fun _ => True)) _
                (fun answer st => on_vars W unit (fun _ => True) st /\ given url answer)
                an_error default_maxRetries None (parse_call_gives url));
       right; discriminate
      |auto|intros a st H; exact H|intros e st [He _]; exact He]. }
  intros answer. apply triple_pure. intros Hg.
  apply triple_bind
    with (R := fun _ st => on_vars W unit (fun _ => True) st /\
                           (pipeline_error answer = None \/ pipeline_error answer = Some "")).
  { destruct (pipeline_error answer) as [[|c e]|]; cbn [truthy_str].
    - apply triple_ret. auto.
    - apply triple_throw. discriminate.
    - apply triple_ret. auto. }
  intros u. apply triple_pure. intros He. cbv zeta.
  eapply triple_bind; [apply stays_triple, stays_on_world|]. intros t.
  apply respond_carries. intros d [= <-]. exists answer. cbn.
  split; [exists b; auto|]. split; [exact Hg|]. split; [exact He|].
  split; [|split; reflexivity]. destruct url; discriminate.
Qed.

(** Whatever the request and whatever the extraction service does, the
    handler answers, with a well-formed response.  A result it answers
    with is made of an answer that the service gave for the document
    of the request and that reports no error: it names that document,
    it holds the chunks [transformPipelineResponse] makes of the answer,
    numbered 0, 1, 2, ... in their order, and its page count is the
    service's when the service gave one that is not zero, and otherwise
    the number of the last page that holds a chunk, and 1 at least. *)
Theorem parse_always_answers (req : Request) (w : W) :
  exists resp st,
    serve_ req (fresh W w) = (Ret resp, st) /\
    well_formed resp /\
    forall d, api_data (body resp) = Some d ->
      exists b answer w1 w2 code text,
        req = Post (inr b) /\ pdf_url b = Some (source_url d) /\
        file_number d = req_file_number b /\
        source_url d <> "" /\
        reducto_api (source_url d) w1 = (Http true code text (inr answer), w2) /\
        (pipeline_error answer = None \/ pipeline_error answer = Some "") /\
        parsed_chunks d = transform (response answer) /\
        map chunk_index (parsed_chunks d) =
          map Z.of_nat (seq 0 (List.length (parsed_chunks d))) /\
        total_pages d <> 0%Z /\
        (forall n, pages_processed answer = Some n -> n <> 0%Z -> total_pages d = n) /\
        (pages_processed answer = None \/ pages_processed answer = Some 0%Z ->
         total_pages d = max_page (parsed_chunks d) /\
         (1 <= total_pages d)%Z /\
         Forall (fun c => page_number c <= total_pages d)%Z (parsed_chunks d)).
Proof.
  destruct (handle_carries W unit now _ (serve_body_ req) (fresh W w)
              (serve_body_carries req)) as (resp & st & E & Hw & Hd).
  exists resp, st. split; [exact E|]. split; [exact Hw|].
  intros d Ed.
  destruct (Hd d Ed) as (answer & (b & Hb1 & Hb2 & Hb3) & (w1 & w2 & code & text & Hg)
                         & He & Hu & Hc & Ht).
  pose proof (max_page_covers (parsed_chunks d)) as [H1 H2].
  exists b, answer, w1, w2, code, text.
  split; [exact Hb1|]. split; [exact Hb2|]. split; [exact Hb3|]. split; [exact Hu|].
  split; [exact Hg|]. split; [exact He|]. split; [exact Hc|]. split.
  { rewrite Hc.
    destruct (ChunkFacts.transform_counted detectSection detectTableContent
                (fun _ => True) (fun _ _ => I) (fun _ _ => I) (response answer))
      as (a & -> & Ha).
    rewrite (ChunkFacts.counted_length _ _ Ha). apply Ha. }
  unfold totalPages in Ht. split; [|split].
  - destruct (pages_processed answer) as [n|].
    + destruct (Z.eqb_spec n 0) as [Hz|Hn]; rewrite Ht; [lia|exact Hn].
    + rewrite Ht. lia.
  - intros n En Hn. rewrite En in Ht. destruct (Z.eqb_spec n 0); [contradiction|exact Ht].
  - intros [En|En]; rewrite En in Ht; cbn in Ht; rewrite Ht; repeat split; assumption.
Qed.

End Serve.
End ParseServeFacts.

(** ** Partial failure of the embedding stage

    The embed function of the run is the handler of [voyage-embed]
    ([Deployment.embed_function]). *)
Module PartialEmbedding.
Import JS Eff Types Utils Orchestrate EffFacts.
Local Open Scope string_scope.
Local Open Scope eff_scope.

(** The chunks the orchestrator takes from an answer of the embed
    function. *)
Definition received (r : Fetched (APIResponse EmbedData)) : list VoyageEmbed.EmbeddedChunk :=
  match r with
  | Http true _ _ (inr answer) => PipelineFacts.embedded_by answer
  | _ => []
  end.

Section Stage.
Variable W : Type.
Variable embed : VoyageEmbed.EmbedRequest -> W -> Fetched (APIResponse EmbedData) * W.

Local Abbreviation state := (Orchestrate.state W).

(** The chunks received for some groups in turn, from the world [w] on,
    and the world afterwards. *)
Fixpoint collected (groups : list (string * list PipelineChunk)) (w : W)
  : list VoyageEmbed.EmbeddedChunk * W :=
  match groups with
  | [] => ([], w)
  | g :: groups' =>
      let (r, w1) := embed (PipelineFacts.embed_request g) w in
      let (l, w2) := collected groups' w1 in
      ((received r ++ l)%list, w2)
  end.

Lemma collected_app before after w :
  collected (before ++ after) w =
  ((fst (collected before w) ++ fst (collected after (snd (collected before w))))%list,
   snd (collected after (snd (collected before w)))).
Proof.
  revert w. induction before as [|g before IH]; intros w; cbn [collected app fst snd].
  - destruct (collected after w). reflexivity.
  - destruct (embed (PipelineFacts.embed_request g) w) as [r w1].
    rewrite IH. destruct (collected before w1) as [l1 w2]. cbn [fst snd].
    rewrite app_assoc. reflexivity.
Qed.

(** The embedding stage with an embed function that always answers:
    it returns, it has called the function once per group, and it
    holds the chunks received. *)
Lemma stage_collects groups (st : state) :
  PipelineFacts.embed_answers W embed ->
  exists st',
    for_each groups (embed_group W embed) st = (Ret tt, st') /\
    world W st' = snd (collected groups (world W st)) /\
    embeddedChunks W st' = (embeddedChunks W st ++ fst (collected groups (world W st)))%list /\
    allChunks W st' = allChunks W st /\
    log W st' =
      (log W st ++ map (fun g => CallEmbed (PipelineFacts.embed_request g)) groups)%list /\
    (embedded_chunks (job W st) = Z.of_nat (List.length (embeddedChunks W st)) ->
     embedded_chunks (job W st') = Z.of_nat (List.length (embeddedChunks W st'))) /\
    status (job W st') = status (job W st) /\
    discovered_pdfs (job W st') = discovered_pdfs (job W st).
Proof.
  intros Hans. revert st. induction groups as [|g groups IH]; intros st;
    cbn [for_each map collected].
  - exists st. cbn [fst snd]. rewrite !app_nil_r. repeat split. auto.
  - pose proof (Hans (PipelineFacts.embed_request g) (world W st)) as Ha.
    destruct (embed (PipelineFacts.embed_request g) (world W st)) as [[msg|ok sc tx json] w'] eqn:E;
      cbn [fst] in Ha; [contradiction|].
    destruct ok.
    + destruct (Ha eq_refl) as [answer ->].
      rewrite (bind_Ret _ _ _ _ _ (PipelineFacts.embed_group_ok W embed g st sc tx answer w' E)).
      match goal with |- exists st', for_each _ _ ?S = _ /\ _ => destruct (IH S)
        as (st' & -> & Hw & He & Ha' & Hl & Hc & Hs & Hd) end.
      cbn [world embeddedChunks allChunks log job PipelineFacts.set_job PipelineFacts.add_embedded
             PipelineFacts.set_world PipelineFacts.add_log] in *.
      exists st'. split; [reflexivity|].
      destruct (collected groups w') as [l w2]. cbn [fst snd received] in *.
      split; [exact Hw|]. split; [rewrite He, <- app_assoc; reflexivity|].
      split; [exact Ha'|]. split; [rewrite Hl, <- app_assoc; reflexivity|].
      split; [intros _; apply Hc; reflexivity|]. split; [rewrite Hs|rewrite Hd]; reflexivity.
    + rewrite (bind_Ret _ _ _ _ _ (PipelineFacts.embed_group_error W embed g st sc tx json w' E)).
      match goal with |- exists st', for_each _ _ ?S = _ /\ _ => destruct (IH S)
        as (st' & -> & Hw & He & Ha' & Hl & Hc & Hs & Hd) end.
      cbn [world embeddedChunks allChunks log job PipelineFacts.set_job
             PipelineFacts.set_world PipelineFacts.add_log] in *.
      exists st'. split; [reflexivity|].
      destruct (collected groups w') as [l w2]. cbn [fst snd received] in *.
      split; [exact Hw|]. split; [exact He|].
      split; [exact Ha'|]. split; [rewrite Hl, <- app_assoc; reflexivity|].
      split; [exact Hc|]. split; [exact Hs|exact Hd].
Qed.

End Stage.

Lemma for_each_returned {S A} (P : S -> Prop) (f : A -> M S unit) l s s' :
  (forall x s s', f x s = (Ret tt, s') -> P s -> P s') ->
  for_each l f s = (Ret tt, s') -> P s -> P s'.
Proof.
  intros Hf. revert s. induction l as [|x l IH]; intros s; cbn [for_each].
  - intros [= <-]. auto.
  - unfold bind at 1. destruct (f x s) as [[[]|e] s1] eqn:E; [|discriminate].
    intros H Hs. apply (IH s1 H), (Hf x s s1 E Hs).
Qed.

Section Run.
Variable W : Type.
Variable now : W -> Z * W.
Variable generateJobId : W -> string * W.
Variable discover : DiscoverBody -> W -> Fetched (APIResponse DiscoverData) * W.
Variable parse : string -> string -> W -> Fetched (APIResponse ParseData) * W.
Variable voyage_api :
  list string -> string -> string -> W -> Fetched VoyageEmbeddingResponse * W.
Variable VOYAGE_API_KEY : option string.
Variable upsert :
  list VoyageEmbed.EmbeddedChunk -> W -> Fetched (APIResponse UpsertData) * W.

Local Abbreviation embed := (Deployment.embed_function W now voyage_api VOYAGE_API_KEY).
Local Abbreviation handler := (VoyageEmbed.serve_request W now voyage_api VOYAGE_API_KEY).
Local Abbreviation run := (runPipelineSync W now generateJobId discover parse embed upsert).
Local Abbreviation body_ := (pipeline_body W now discover parse embed upsert).
Local Abbreviation start := (initial W now generateJobId).
Local Abbreviation state := (Orchestrate.state W).
Local Abbreviation set_world := (PipelineFacts.set_world W).
Local Abbreviation set_job := (PipelineFacts.set_job W).
Local Abbreviation add_log := (PipelineFacts.add_log W).

(** The deployed embed function always answers, and with a body. *)
Lemma deployed_embed_answers : PipelineFacts.embed_answers W embed.
Proof.
  intros req w. unfold Deployment.embed_function.
  destruct (handler (VoyageEmbed.Post (inr req)) (VoyageEmbed.initial W w)) as [[resp|e] st];
    cbn [fst].
  - intros _. eexists. reflexivity.
  - intros H. discriminate H.
Qed.

(** When the call for one batch of a request still fails at its third
    attempt, the handler answers with no data and the orchestrator
    receives no chunk, whatever the batches before had embedded. *)
Lemma failed_batch_answer
  (req : VoyageEmbed.EmbedRequest) (w : W) key chunks done batch rest st1 e st2 :
  VOYAGE_API_KEY = Some key -> truthy_str key = true ->
  VoyageEmbed.req_chunks req = Some chunks ->
  chunkArray chunks VoyageEmbed.VOYAGE_BATCH_SIZE = (done ++ batch :: rest)%list ->
  for_each done
    (VoyageEmbed.process_batch W voyage_api (VoyageEmbed.req_file_number req)
       (VoyageEmbed.req_source_url req) (EmbedFacts.input_type_of req))
    (EmbedFacts.loop_start W now w) = (Ret tt, st1) ->
  retryWithBackoff
    (VoyageEmbed.embed_call W voyage_api (map VoyageEmbed.prepareTextForEmbedding batch)
       (EmbedFacts.input_type_of req))
    default_maxRetries st1 = (Throw e, st2) ->
  exists resp st3,
    handler (VoyageEmbed.Post (inr req)) (VoyageEmbed.initial W w) = (Ret resp, st3) /\
    api_data (body resp) = None /\
    VoyageEmbed.embeddedChunks W st3 = VoyageEmbed.embeddedChunks W st2 /\
    received (fst (embed req w)) = [].
Proof.
  intros Hkey Htruthy Hchunks Hbatches Hdone Hfail.
  destruct (EmbedFacts.failed_batch_fails_request W now voyage_api VOYAGE_API_KEY
              req w key chunks done batch rest st1 e st2
              Hkey Htruthy Hchunks Hbatches Hdone Hfail)
    as (msg & resp & st3 & _ & Hrun & Hdata & _ & Hlocal).
  change (handler (VoyageEmbed.Post (inr req)) (VoyageEmbed.initial W w) = (Ret resp, st3))
    in Hrun.
  exists resp, st3. split; [exact Hrun|]. split; [exact Hdata|]. split; [exact Hlocal|].
  unfold Deployment.embed_function. rewrite Hrun. cbn [fst received].
  unfold PipelineFacts.embedded_by, Deployment.wire. cbn [api_data]. rewrite Hdata.
  destruct (Deployment.ok_status (http_status resp)); reflexivity.
Qed.

(** *** The run up to the embedding stage *)

(** The state in which the parsing loop starts, when discovery answered
    with the documents [pdfs] and left the world [w1]. *)
Definition parsing_start (request : PipelineRequest) (w w1 : W)
  (pdfs : list FirecrawlDiscoveryResult) : state :=
  snd ((set_status W discovering ;;;
        emit W (CallDiscover (PipelineFacts.discover_body request)) ;;;
        modify (set_world w1) ;;;
        update_job W (with_discovered pdfs) ;;;
        set_status W parsing)
         (start request w)).

(** No chunk is embedded and nothing is sent to the embed or the upsert
    function. *)
Definition quiet (st : state) : Prop :=
  embeddedChunks W st = [] /\ embedded_chunks (job W st) = 0%Z /\
  embed_requests (log W st) = [] /\ upserted_documents (log W st) = [].

Lemma parsing_start_quiet request w w1 pdfs : quiet (parsing_start request w w1 pdfs).
Proof.
  destruct (PipelineFacts.initial_job W now generateJobId request w)
    as (L0 & _ & E0 & _ & _ & _ & C0 & _).
  unfold quiet, parsing_start. cbn. rewrite L0, E0, C0. cbn. auto.
Qed.

Lemma parse_pdf_quiet pdf st st' :
  parse_pdf W parse pdf st = (Ret tt, st') -> quiet st -> quiet st'.
Proof.
  unfold parse_pdf, quiet, embed_requests, upserted_documents.
  rewrite (bind_Ret _ _ _ _ _ (PipelineFacts.emit_eval W _ _)).
  destruct (parse (url pdf) (file_number pdf) (world W st)) as [[msg|ok sc tx json] w'] eqn:E.
  - erewrite bind_Ret by (apply PipelineFacts.on_world_eval; exact E). discriminate.
  - erewrite bind_Ret by (apply PipelineFacts.on_world_eval; exact E).
    destruct ok; cbn [negb].
    + destruct json as [err|v]; [discriminate|].
      erewrite bind_Ret by reflexivity. erewrite bind_Ret by reflexivity.
      erewrite bind_Ret by reflexivity.
      intros [= <-] (H1 & H2 & H3 & H4). cbn. rewrite !flat_map_app, H3, H4. cbn. auto.
    + intros [= <-] (H1 & H2 & H3 & H4). cbn. rewrite !flat_map_app, H3, H4. cbn. auto.
Qed.

(** *** The end of the run *)

(** The [catch] block: what it leaves of the state and of the log. *)
Lemma catch_log startTime msg st :
  exists resp st',
    pipeline_catch W now startTime (Some msg) st = (Ret resp, st') /\
    log W st' = (log W st ++ [SetStatus failed])%list /\
    embeddedChunks W st' = embeddedChunks W st /\
    embedded_chunks (job W st') = embedded_chunks (job W st) /\
    status (job W st') = failed /\
    api_data (body resp) = Some {| resp_job := Some (job W st'); resp_message := None |}.
Proof.
  destruct (now (world W st)) as [t w1] eqn:E1.
  destruct (now w1) as [n1 w2] eqn:E2.
  destruct (now w2) as [n2 w3] eqn:E3.
  unfold pipeline_catch.
  erewrite bind_Ret by apply PipelineFacts.set_status_eval.
  erewrite bind_Ret by reflexivity.
  erewrite bind_Ret by apply PipelineFacts.update_job_eval.
  erewrite bind_Ret by (apply PipelineFacts.stamp_completed_eval; exact E1).
  erewrite PipelineFacts.respond_eval by (cbn; eassumption).
  eexists _, _. split; [reflexivity|]. cbn. repeat split.
Qed.

(** The last lines of the [try] block. *)
Lemma complete_log (message : state -> option string) startTime st :
  exists resp st',
    (set_status W completed ;;; stamp_completed W now ;;;
     s <- get ;; respond W now (message s) None startTime) st = (Ret resp, st') /\
    log W st' = (log W st ++ [SetStatus completed])%list /\
    embeddedChunks W st' = embeddedChunks W st /\
    embedded_chunks (job W st') = embedded_chunks (job W st) /\
    upserted_chunks (job W st') = upserted_chunks (job W st) /\
    status (job W st') = completed /\
    exists said,
      api_data (body resp) = Some {| resp_job := Some (job W st'); resp_message := said |}.
Proof.
  erewrite bind_Ret by apply PipelineFacts.set_status_eval.
  set (st1 := PipelineFacts.add_log _ _ _).
  destruct (now (world W st1)) as [t w1] eqn:E1.
  erewrite bind_Ret by (apply PipelineFacts.stamp_completed_eval; exact E1).
  set (st2 := PipelineFacts.set_job _ _ _).
  destruct (now (world W st2)) as [n1 w2] eqn:E2. destruct (now w2) as [n2 w3] eqn:E3.
  erewrite bind_Ret by reflexivity.
  erewrite PipelineFacts.respond_eval by eassumption.
  eexists _, _. split; [reflexivity|]. cbn. repeat split. eexists. reflexivity.
Qed.

(** The count an upsert answer reports. *)
Definition stored_by (r : APIResponse UpsertData) : Z :=
  match api_data r with
  | Some d => match u_upserted_count d with Some n => n | None => 0%Z end
  | None => 0%Z
  end.

(** C6, amended.  A run whose discovery and parsing went through comes
    to the embedding stage with the source groups [before ++ g :: after].
    If, in the handler's run for the group [g], the call for one batch
    still fails at its third attempt, the handler answers the whole
    request with no data, also when earlier batches of the group had
    succeeded ([done] may hold any number of batches): the orchestrator
    receives no chunk of [g].  The run goes on: it requests every group,
    also those after [g], and calls the upsert function once, with the
    chunks received for the other groups, which are the chunks it holds
    and counts at the end; it returns a response with the job, and the
    job is completed when the upsert function answers well. *)
Theorem failed_batch_drops_its_whole_group
  (request : PipelineRequest) (startTime : Z) (w w1 : W)
  (status_code : Z) (text_body : string) (answer : APIResponse DiscoverData)
  (pdf : FirecrawlDiscoveryResult) (pdfs : list FirecrawlDiscoveryResult) (st_p : state)
  (before : list (string * list PipelineChunk)) (g : string * list PipelineChunk)
  (after : list (string * list PipelineChunk))
  (got_before got_after : list VoyageEmbed.EmbeddedChunk) (w_g w_g' w_u : W)
  (answer_g : Fetched (APIResponse EmbedData))
  (key : string) (done : list (list ReductoChunk)) (batch : list ReductoChunk)
  (rest : list (list ReductoChunk)) (st1 st2 : VoyageEmbed.state W) (e : thrown) :
  discover (PipelineFacts.discover_body request) (world W (start request w)) =
    (Http true status_code text_body (inr answer), w1) ->
  PipelineFacts.discovered answer = pdf :: pdfs ->
  for_each (pdf :: pdfs) (parse_pdf W parse) (parsing_start request w w1 (pdf :: pdfs)) =
    (Ret tt, st_p) ->
  chunksBySource (allChunks W st_p) = (before ++ g :: after)%list ->
  collected W embed before (world W st_p) = (got_before, w_g) ->
  embed (PipelineFacts.embed_request g) w_g = (answer_g, w_g') ->
  collected W embed after w_g' = (got_after, w_u) ->
  VOYAGE_API_KEY = Some key -> truthy_str key = true ->
  chunkArray (map to_reducto (snd g)) VoyageEmbed.VOYAGE_BATCH_SIZE =
    (done ++ batch :: rest)%list ->
  for_each done
    (VoyageEmbed.process_batch W voyage_api (fst (split_key (fst g)))
       (snd (split_key (fst g))) "document")
    (EmbedFacts.loop_start W now w_g) = (Ret tt, st1) ->
  retryWithBackoff
    (VoyageEmbed.embed_call W voyage_api (map VoyageEmbed.prepareTextForEmbedding batch)
       "document")
    default_maxRetries st1 = (Throw e, st2) ->
  exists answered st3 resp st,
    handler (VoyageEmbed.Post (inr (PipelineFacts.embed_request g))) (VoyageEmbed.initial W w_g) =
      (Ret answered, st3) /\
    api_data (body answered) = None /\
    VoyageEmbed.embeddedChunks W st3 = VoyageEmbed.embeddedChunks W st2 /\
    received answer_g = [] /\
    run request startTime w = (Ret resp, st) /\
    embed_requests (log W st) = map PipelineFacts.embed_request (before ++ g :: after) /\
    upserted_documents (log W st) = [(got_before ++ got_after)%list] /\
    embeddedChunks W st = (got_before ++ got_after)%list /\
    embedded_chunks (job W st) = Z.of_nat (List.length (got_before ++ got_after)) /\
    (exists said,
       api_data (body resp) = Some {| resp_job := Some (job W st); resp_message := said |}) /\
    (forall code text stored w',
       upsert (got_before ++ got_after)%list w_u = (Http true code text (inr stored), w') ->
       status (job W st) = completed /\ upserted_chunks (job W st) = stored_by stored).
Proof.
  intros Hd Hdisc Hp Hgroups Hb Hg Ha Hkey Htruthy Hbatches Hdone Hfail.
  destruct (failed_batch_answer (PipelineFacts.embed_request g) w_g key
              (map to_reducto (snd g)) done batch rest st1 e st2
              Hkey Htruthy eq_refl Hbatches Hdone Hfail)
    as (answered & st3 & Hh & Hnone & Hlocal & Hrecv).
  rewrite Hg in Hrecv. cbn [fst] in Hrecv.
  assert (Hcol : collected W embed (before ++ g :: after) (world W st_p) =
                 ((got_before ++ got_after)%list, w_u)).
  { rewrite collected_app, Hb. cbn [fst snd collected]. rewrite Hg, Ha, Hrecv. reflexivity. }
  assert (Hq : quiet st_p).
  { apply (for_each_returned quiet _ _ _ _ parse_pdf_quiet Hp), parsing_start_quiet. }
  destruct Hq as (Q1 & Q2 & Q3 & Q4).
  destruct (allChunks W st_p) as [|c cs] eqn:Hall; [destruct before; discriminate Hgroups|].
  exists answered, st3.
  cut (exists resp st,
    run request startTime w = (Ret resp, st) /\
    embed_requests (log W st) = map PipelineFacts.embed_request (before ++ g :: after) /\
    upserted_documents (log W st) = [(got_before ++ got_after)%list] /\
    embeddedChunks W st = (got_before ++ got_after)%list /\
    embedded_chunks (job W st) = Z.of_nat (List.length (got_before ++ got_after)) /\
    (exists said,
       api_data (body resp) = Some {| resp_job := Some (job W st); resp_message := said |}) /\
    (forall code text stored w',
       upsert (got_before ++ got_after)%list w_u = (Http true code text (inr stored), w') ->
       status (job W st) = completed /\ upserted_chunks (job W st) = stored_by stored)).
  { intros (resp & st & H). exists resp, st. tauto. }
  unfold runPipelineSync, try_catch, pipeline_body. cbv zeta.
  fold (PipelineFacts.discover_body request).
  rewrite (bind_Ret _ _ _ _ _ (PipelineFacts.set_status_eval W discovering _)).
  rewrite (bind_Ret _ _ _ _ _ (PipelineFacts.emit_eval W _ _)).
  erewrite bind_Ret by (apply PipelineFacts.on_world_eval; exact Hd).
  cbn [negb]. erewrite bind_Ret by reflexivity.
  fold (PipelineFacts.discovered answer). rewrite Hdisc.
  rewrite (bind_Ret _ _ _ _ _ (PipelineFacts.update_job_eval W _ _)).
  erewrite bind_Ret by reflexivity.
  cbn [job PipelineFacts.set_job PipelineFacts.set_world PipelineFacts.add_log with_discovered
         discovered_pdfs].
  rewrite (bind_Ret _ _ _ _ _ (PipelineFacts.set_status_eval W parsing _)).
  erewrite bind_Ret by exact Hp.
  erewrite bind_Ret by reflexivity.
  rewrite Hall. cbv beta iota.
  rewrite (bind_Ret _ _ _ _ _ (PipelineFacts.set_status_eval W embedding_ _)).
  rewrite Hgroups.
  set (st_e := PipelineFacts.add_log W (SetStatus embedding_) _).
  destruct (stage_collects W embed (before ++ g :: after) st_e deployed_embed_answers)
    as (st_s & Hs & Hsw & Hse & _ & Hsl & Hsc & _).
  cbn [world embeddedChunks log job PipelineFacts.set_job PipelineFacts.add_log
         with_status embedded_chunks st_e] in Hsw, Hse, Hsl, Hsc.
  rewrite Hcol in Hsw, Hse. cbn [fst snd] in Hsw, Hse. rewrite Q1 in Hse, Hsc.
  cbn [app] in Hse. specialize (Hsc Q2).
  rewrite (bind_Ret _ _ _ _ _ Hs).
  rewrite (bind_Ret _ _ _ _ _ (PipelineFacts.set_status_eval W upserting _)).
  erewrite bind_Ret by reflexivity.
  rewrite (bind_Ret _ _ _ _ _ (PipelineFacts.emit_eval W _ _)).
  cbn [embeddedChunks PipelineFacts.set_job PipelineFacts.add_log].
  rewrite Hse.
  set (st_u := PipelineFacts.add_log W (CallUpsert _) _).
  assert (Lu : embed_requests (log W st_u) =
               map PipelineFacts.embed_request (before ++ g :: after) /\
               upserted_documents (log W st_u) = [(got_before ++ got_after)%list]).
  { unfold st_u, embed_requests, upserted_documents.
    cbn [log PipelineFacts.set_job PipelineFacts.add_log]. rewrite Hsl.
    rewrite !flat_map_app. fold (embed_requests (log W st_p)).
    fold (upserted_documents (log W st_p)). rewrite Q3, Q4. cbn [flat_map app].
    rewrite !app_nil_r. split.
    - clear. induction (before ++ g :: after)%list as [|x l IH]; cbn; [reflexivity|].
      f_equal. exact IH.
    - clear. induction (before ++ g :: after)%list as [|x l IH]; cbn; [reflexivity|exact IH]. }
  destruct Lu as [Lu1 Lu2].
  assert (Eu : embeddedChunks W st_u = (got_before ++ got_after)%list) by exact Hse.
  assert (Cu : embedded_chunks (job W st_u) = Z.of_nat (List.length (got_before ++ got_after))).
  { unfold st_u. cbn [job PipelineFacts.set_job PipelineFacts.add_log with_status
                        embedded_chunks]. rewrite Hsc, Hse. reflexivity. }
  assert (Wu : world W st_u = w_u) by exact Hsw.
  clearbody st_u. clear Hs Hsw Hse Hsl Hsc st_e. subst w_u.
  assert (Hcaught : forall msg w',
    exists resp st,
      pipeline_catch W now startTime (Some msg) (PipelineFacts.set_world W w' st_u) =
        (Ret resp, st) /\
      embed_requests (log W st) = map PipelineFacts.embed_request (before ++ g :: after) /\
      upserted_documents (log W st) = [(got_before ++ got_after)%list] /\
      embeddedChunks W st = (got_before ++ got_after)%list /\
      embedded_chunks (job W st) = Z.of_nat (List.length (got_before ++ got_after)) /\
      (exists said,
         api_data (body resp) = Some {| resp_job := Some (job W st); resp_message := said |})).
  { intros msg w'.
    destruct (catch_log startTime msg (PipelineFacts.set_world W w' st_u))
      as (resp & st & H1 & H2 & H3 & H4 & _ & H6).
    exists resp, st. split; [exact H1|].
    unfold embed_requests, upserted_documents in *. rewrite H2, !flat_map_app, H3, H4.
    cbn [log PipelineFacts.set_world flat_map app embeddedChunks job].
    rewrite !app_nil_r. repeat split; try assumption. eexists. exact H6. }
  destruct (upsert (got_before ++ got_after)%list (world W st_u))
    as [[msg|ok code text json] w'] eqn:U;
    (erewrite bind_Ret by (apply PipelineFacts.on_world_eval; exact U)).
  - erewrite bind_Throw by reflexivity. cbv beta iota.
    destruct (Hcaught msg w') as (resp & st & H1 & H2 & H3 & H4 & H5 & H6).
    exists resp, st. repeat (split; [assumption|]). discriminate.
  - destruct ok; cbn [negb].
    + destruct json as [err|stored].
      * erewrite bind_Throw by reflexivity. cbv beta iota.
        destruct (Hcaught err w') as (resp & st & H1 & H2 & H3 & H4 & H5 & H6).
        exists resp, st. repeat (split; [assumption|]). discriminate.
      * erewrite bind_Ret by reflexivity.
        rewrite (bind_Ret _ _ _ _ _ (PipelineFacts.update_job_eval W _ _)).
        fold (stored_by stored).
        match goal with
        | |- context [bind (set_status W completed) ?k ?s] =>
            destruct (complete_log
                        (fun st0 =>
                           Some ("Pipeline complete! Processed "
                                 ++ show_Z (Z.of_nat (List.length (discovered_pdfs (job W st0))))
                                 ++ " PDFs, " ++ show_Z (upserted_chunks (job W st0))
                                 ++ " chunks stored."))
                        startTime s)
              as (resp & st & H1 & H2 & H3 & H4 & H5 & H6 & H7)
        end.
        rewrite H1. cbv beta iota. exists resp, st.
        split; [reflexivity|].
        unfold embed_requests, upserted_documents in *. rewrite H2, !flat_map_app, H3, H4, H5.
        cbn [log PipelineFacts.set_world PipelineFacts.set_job flat_map app embeddedChunks job
               with_upserted embedded_chunks upserted_chunks].
        rewrite !app_nil_r.
        split; [exact Lu1|]. split; [exact Lu2|]. split; [exact Eu|]. split; [exact Cu|].
        split; [exact H7|]. intros ? ? ? ? [= <- <- <- <-]. split; [exact H6|reflexivity].
    + erewrite bind_Throw by reflexivity. cbv beta iota.
      destruct (Hcaught ("Upsert failed: " ++ text) w') as (resp & st & H1 & H2 & H3 & H4 & H5 & H6).
      exists resp, st. repeat (split; [assumption|]). discriminate.
Qed.

End Run.

Import Example.

(** Two PDFs of 129 chunks each, that is two source groups of two
    batches each, and an embedding API that answers its first three
    calls and no other: both batches of the first PDF and the first
    batch of the second.  The run requests both groups, upserts the 129
    chunks of the first PDF and completes. *)
Lemma failed_batch_drops_its_whole_group_witness :
  exists resp st,
    runPipelineSync World now generateJobId (discover [a_pdf; b_pdf]) (parse 129)
      (Deployment.embed_function World now (voyage_api 3) (Some "secret"))
      upsert_ok a_request 1000 w0 = (Ret resp, st) /\
    List.length (embed_requests (log World st)) = 2%nat /\
    upserted_documents (log World st) = [embeddedChunks World st] /\
    List.length (embeddedChunks World st) = 129%nat /\
    Forall (fun c => VoyageEmbed.ec_source_url c = url a_pdf) (embeddedChunks World st) /\
    embedded_chunks (job World st) = 129%Z /\
    parsed_chunks (job World st) = 258%Z /\
    status (job World st) = completed.
Proof.
  pose (embed := Deployment.embed_function World now (voyage_api 3) (Some "secret")).
  pose (w1 := world World (initial World now generateJobId a_request w0)).
  pose (st_p := snd (for_each [a_pdf; b_pdf] (parse_pdf World (parse 129))
                       (parsing_start World now generateJobId a_request w0 w1 [a_pdf; b_pdf]))).
  pose (groups := chunksBySource (allChunks World st_p)).
  pose (g := nth 1 groups (EmptyString, [])).
  pose (first := collected World embed (firstn 1 groups) (world World st_p)).
  pose (second := embed (PipelineFacts.embed_request g) (snd first)).
  pose (chunks := map to_reducto (snd g)).
  pose (loop :=
          for_each [firstn 128 chunks]
            (VoyageEmbed.process_batch World (voyage_api 3) (fst (split_key (fst g)))
               (snd (split_key (fst g))) "document")
            (EmbedFacts.loop_start World now (snd first))).
  pose (attempts :=
          retryWithBackoff
            (VoyageEmbed.embed_call World (voyage_api 3)
               (map VoyageEmbed.prepareTextForEmbedding (skipn 128 chunks)) "document")
            default_maxRetries (snd loop)).
  destruct (failed_batch_drops_its_whole_group World now generateJobId
              (discover [a_pdf; b_pdf]) (parse 129) (voyage_api 3) (Some "secret") upsert_ok
              a_request 1000 w0 w1 200 EmptyString
              (ok_response {| d_discovered_pdfs := Some [a_pdf; b_pdf] |})
              a_pdf [b_pdf] st_p (firstn 1 groups) g [] (fst first) [] (snd first)
              (snd second) (snd second) (fst second) "secret"
              [firstn 128 chunks] (skipn 128 chunks) [] (snd loop) (snd attempts)
              (Some "Voyage API error: 429 - rate limited"))
    as (answered & st3 & resp & st & _ & _ & _ & _ & Hrun & Hreq & Hups & Hemb & Hcount
        & _ & Hdone);
    try (vm_compute; reflexivity).
  exists resp, st. split; [exact Hrun|].
  split; [rewrite Hreq; vm_compute; reflexivity|].
  split; [rewrite Hups, Hemb; reflexivity|].
  split; [rewrite Hemb; vm_compute; reflexivity|].
  split; [rewrite Hemb; vm_compute; repeat constructor|].
  split; [rewrite Hcount; vm_compute; reflexivity|].
  split.
  - replace st with (snd (runPipelineSync World now generateJobId (discover [a_pdf; b_pdf]) (parse 129)
       (Deployment.embed_function World now (voyage_api 3) (Some "secret"))
       upsert_ok a_request 1000 w0)).
    + vm_compute. reflexivity.
    + rewrite Hrun. reflexivity.
  - apply (Hdone 200%Z EmptyString
             (ok_response {| u_upserted_count := Some 129%Z |}) (snd second)).
    vm_compute. reflexivity.
Defined.

End PartialEmbedding.
